(* ===== verification/_CoqProject ===== *)
-Q . S2P
Prelude.v
Utf8.v
Json.v
TemporalApi.v
RpcPolicy.v
Scope.v
Actions.v
Store.v
LruSpec.v
Shard.v
TokenCache.v
Sha256.v
Auth.v
Grpc.v
Interceptor.v
Server.v
CallTrace.v
GoStd.v
Config.v
Upstream.v
CallSpec.v
Valkey.v
Backends.v
ValkeyTtl.v
System.v
Main.v
Service.v
Examples.v
