(* ===== verification/Prelude.v ===== *)
(** * temporal-untrusted-workers: verification library

    The program is a gRPC proxy between untrusted Temporal workers and a Temporal
    server. It lets through sixteen worker RPCs, authenticates each call by an API
    key or a Google identity token, and pins each identity to one namespace and
    some task queues. Task tokens, which carry no readable scope, are tracked in a
    token cache from the response that hands them out to the call that consumes
    them.

    ** Files, and the code they model (paths under [src/])

    - [Prelude]: results, bytes and strings, membership loops, list lemmas, the
      tactics and the [proxy] hints.
    - [Utf8], [Json]: UTF-8 and [encoding/json] (Go standard library): the encoder,
      the scanner, decoding into strings, slices, maps and structs, with the round
      trip.
    - [TemporalApi]: the messages of [go.temporal.io/api], as far as the program
      reads them: constructors, fields, nil-safe getters. Outside the repository.
    - [RpcPolicy]: [internal/rpcpolicy/allowlist.go].
    - [Scope]: [internal/scope/scope.go]. One [match] per type switch.
    - [Actions]: [internal/actions/actions.go].
    - [Store]: the [Store] interface of [internal/tokencache/cache.go], as a class
      with its laws; the interceptor is proved against these alone.
    - [LruSpec], [Shard], [TokenCache]: [internal/tokencache/cache.go]. [LruSpec] is
      the abstract LRU list with deadlines; [Shard] is the shard with its map, its
      linked list and its loops, which refines it; [TokenCache] is the sharded
      cache with its janitor, an instance of [Store].
    - [Valkey]: [internal/tokencache/valkey.go], over the interface of the client
      library; with what the server promises, an instance of [Store].
    - [Backends]: the two stores compared with a plain map.
    - [ValkeyTtl]: the sliding TTL of the shared store, on the server's clock.
    - [Sha256]: [crypto/sha256] and [encoding/hex] (Go standard library).
    - [Auth]: [internal/auth/auth.go], [static.go], [jwt.go]. [Authenticator] is a
      class with its laws (a valid identity is that of the credential, well-formed)
      and two instances.
    - [Grpc]: contexts, metadata, status errors, and the effect trees ([prog]) that
      handlers are; [exec] is their set of executions.
    - [Interceptor]: [internal/proxy/interceptor.go].
    - [Server]: [internal/proxy/server.go]; [serve] is a whole call.
    - [GoStd]: [strconv], [time], [strings] and [path/filepath] functions that
      [Config] uses (Go standard library).
    - [Config]: [internal/config/config.go].
    - [Upstream]: [internal/upstream/upstream.go].
    - [CallTrace]: the executions of the interceptor, phase by phase, and the
      specification of authorisation ([request_in_scope], [legitimate]).
    - [CallSpec]: the theorems on one call, in every environment.
    - [System]: any number of calls in any interleaving, over one store and one
      authenticator, with its theorems.
    - [Main]: [cmd/temporal-proxy/main.go].
    - [Service]: what [Main] starts, running as [System] describes.
    - [Examples]: the programs of [examples/] in Go and their workflows.

    ** How state and effects correspond

    A call is a [prog]: each call the code makes on the authenticator, the cache,
    the upstream client or the logger is one [Vis] node with a branch per answer,
    so a theorem on [exec] holds for every authenticator, cache and server. A
    shard's state is its Go state: [items] a finite map from keys to list elements,
    [ll] the order of the elements, the elements a store of items, so that sharing
    an element between the map and the list is explicit. Every shard operation
    holds the shard's mutex from start to end and is one step; a run of the cache
    is any sequence of such steps. Readings of the clock are arguments, two for an
    operation that reads it twice. In [System], a step is one effect of one call,
    the arrival of a call, or the environment: entries may disappear from the store
    and the authenticator may change, both within their laws. Several proxies on
    one store are more calls of the same system.

    ** What is shown

    - [System]: no call reaches the Temporal server unauthorised, under any
      interleaving, and a task token is used only in the namespace and task queue
      it was issued for; the cache never lies; a consumed token is revoked and stays
      dead until the server hands it out again. A call whose effects are answered
      completes; an effect that is never answered (a server that hangs) is not
      modelled, nor is the deadline that would end it.
    - [Service]: the same end to end, on either store and in either authentication
      mode: a call acts as the identity the auth file gives its own credential.
    - [CallSpec]: access is decided exactly; refusals, cache outages, upstream
      failures and failed registrations leave no mark; a success is complete;
      upstream metadata carries the proxy's credential only.
    - [Shard], [TokenCache], [Valkey]: refinement of the LRU specification,
      retention within and expiry after the TTL, revocation, capacity, rounding of
      TTLs, termination of the loops, the round trip of stored entries; the janitor
      reclaims every abandoned token in the end.
    - [ValkeyTtl]: a token one proxy recorded or found is found by all of them until
      its TTL has run out, and no longer.
    - [Backends]: while nothing expires, is evicted or fails, both stores answer
      like a map, so the choice of backend cannot be observed.
    - [Scope], [Actions], [Auth], [Config], [Upstream], [Main]: exact
      characterisations of validation, billing, authentication, configuration,
      transport security, and of start-up and shutdown.
    - [Examples]: the worker's credential is what the proxy reads off its calls;
      [CrossQueueWorkflow] is blocked, [EchoWorkflow] in scope; the verdict of the
      client and the TLS options are exact; the shipped auth file loads.

    ** Bounds and fuel

    The eviction loop and the sweep of a shard take fuel, one unit per test of the
    loop condition, and give no result when it runs out; [shard_put] and
    [evictExpired] give them the number of entries and one more, and
    [shard_loops_terminate] shows that they leave the loop within that. [ParseDuration] takes the length of its
    input, of which every term consumes at least one byte. The JSON parser takes
    twice the length of its input; [parse_fuel] shows that more changes nothing.
    All other recursion is structural. Durations and sizes are [Z]; [Load_spec] shows that those the
    program reads are 64-bit, [ttlMilliseconds_bounds] that the one it computes
    stays so. The cache adds a TTL to a time without a bound: Go's [time.Time] holds
    more than a process can reach.

    ** What is not modelled

    The wording of errors and log lines, except for what they interpolate;
    protobuf decoding, X.509, sockets, the Google token validator, the Valkey
    server and the Temporal SDK, which are parameters with the behaviour relied on
    as named hypotheses; goroutine scheduling below a mutex-protected operation.
    Of JSON, numbers are not decoded (no struct of the program has one). SHA-256
    is computed, not assumed free of collisions: tokens of one digest are one
    token to the Valkey store ([store_alias]). Of the repository: the TypeScript
    worker and the client's deadlines.

    ** To be added, in this order

    [GracefulStop] as a step of [System], after which no call arrives and every
    call under way is answered; the linearisation of calls on one token; the
    interface [valkeyClient] as a class of its own. *)

From stdpp Require Export base tactics option list gmap strings relations.
From Stdlib Require Import ZArith Lia.
From Stdlib.Init Require Import Byte.

#[export] Set Default Goal Selector "!".

(** ** Fallible functions

    A Go function returning [(T, error)] is a [result]: every such function of
    the program returns the zero value beside a non-nil error, and no caller
    looks at it. *)

Inductive result (E A : Type) : Type :=
| Ok (a : A)
| Err (e : E).

Arguments Ok {E A} a.
Arguments Err {E A} e.

Definition is_ok {E A} (r : result E A) : bool :=
  match r with Ok _ => true | Err _ => false end.

Definition result_bind {E A B} (r : result E A) (k : A → result E B) : result E B :=
  match r with Ok a => k a | Err e => Err e end.

Definition result_map_err {E F A} (f : E → F) (r : result E A) : result F A :=
  match r with Ok a => Ok a | Err e => Err (f e) end.

Declare Scope go_scope.
Delimit Scope go_scope with go.

Notation "'let?' x := r 'in' k" := (result_bind r (λ x, k))
  (at level 10, x name, r at level 100, k at level 200) : go_scope.
#[global] Instance result_eq_dec {E A} `{!EqDecision E, !EqDecision A} :
  EqDecision (result E A).
Proof. solve_decision. Defined.

Lemma result_bind_Ok {E A B} (r : result E A) (k : A → result E B) b :
  result_bind r k = Ok b ↔ ∃ a, r = Ok a ∧ k a = Ok b.
Proof. destruct r; naive_solver. Qed.

Lemma is_ok_true {E A} (r : result E A) : is_ok r = true ↔ ∃ a, r = Ok a.
Proof. destruct r; naive_solver. Qed.

(** ** Opaque errors

    The text of an error made outside the modelled packages (a Valkey client,
    the file system). [None] is Go's nil error. *)

Abbreviation error := string.
Abbreviation goerror := (option error).

(** ** Byte slices and strings

    A Go string and a [[]byte] are both byte sequences; the conversion
    [string(b)] keeps the bytes. *)

Abbreviation bytes := (list Byte.byte).

#[global] Instance byte_eq_dec : EqDecision Byte.byte := Byte.byte_eq_dec.

Definition string_of_bytes (b : bytes) : string := String.string_of_list_byte b.
Definition bytes_of_string (s : string) : bytes := String.list_byte_of_string s.

#[global] Instance string_of_bytes_inj : Inj (=) (=) string_of_bytes.
Proof.
  intros x y Heq. unfold string_of_bytes in Heq.
  rewrite <- (String.list_byte_of_string_of_list_byte x), Heq.
  apply String.list_byte_of_string_of_list_byte.
Qed.

(** [len(tok) > 0] *)
Definition nonempty {A} (l : list A) : bool :=
  match l with [] => false | _ => true end.

Lemma nonempty_true {A} (l : list A) : nonempty l = true ↔ l ≠ [].
Proof. destruct l; naive_solver. Qed.

(** ** Pointers to messages

    [None] is the nil pointer. *)

Abbreviation ptr := option.

(** ** Loops that search a list

    The shape of the program's membership loops
    [for _, x := range xs { if x == y { return true } }; return false]. *)

Fixpoint range_contains {A} `{EqDecision A} (xs : list A) (y : A) : bool :=
  match xs with
  | [] => false
  | x :: xs' => if decide (x = y) then true else range_contains xs' y
  end.

Lemma range_contains_true {A} `{EqDecision A} (xs : list A) y :
  range_contains xs y = true ↔ y ∈ xs.
Proof.
  induction xs as [|x xs IH]; simpl; [set_solver|].
  case_decide; set_solver.
Qed.

Lemma range_contains_false {A} `{EqDecision A} (xs : list A) y :
  range_contains xs y = false ↔ y ∉ xs.
Proof. rewrite <- range_contains_true. destruct (range_contains xs y); naive_solver. Qed.

(** ** Filtering lists *)

Section filter.
Context {A : Type} (P : A → Prop) `{!∀ x, Decision (P x)}.

Lemma filter_all (l : list A) : Forall P l → filter P l = l.
Proof.
  induction 1 as [|x l Hx Hl IH]; [done|]. by rewrite filter_cons_True, IH.
Qed.

Lemma filter_ext_in (Q : A → Prop) `{!∀ x, Decision (Q x)} (l : list A) :
  (∀ x, x ∈ l → P x ↔ Q x) → filter P l = filter Q l.
Proof.
  induction l as [|x l IH]; intros Hiff; [done|].
  rewrite !filter_cons, IH by set_solver.
  pose proof (Hiff x (list_elem_of_here _ _)). repeat case_decide; naive_solver.
Qed.

Lemma filter_fmap {B} (f : B → A) (l : list B) : filter P (f <$> l) = f <$> filter (λ x, P (f x)) l.
Proof.
  induction l as [|x l IH]; [done|].
  rewrite fmap_cons, !filter_cons. case_decide; rewrite ?fmap_cons, IH; done.
Qed.
End filter.

Lemma filter_neq_middle {A} `{EqDecision A} (pre post : list A) x :
  NoDup (pre ++ x :: post) → filter (.≠ x) (pre ++ x :: post) = pre ++ post.
Proof.
  intros (_ & Hpre & Hpost)%NoDup_app. apply NoDup_cons in Hpost as [Hpost _].
  rewrite filter_app, filter_cons_False by naive_solver.
  rewrite !filter_all; [done|..]; apply Forall_forall; set_solver.
Qed.

(** The Go condition [x != a && x != b], negated. *)
Lemma not_neq_and_neq {A} `{EqDecision A} (x a b : A) :
  ¬ (x ≠ a ∧ x ≠ b) ↔ x = a ∨ x = b.
Proof. destruct (decide (x = a)), (decide (x = b)); naive_solver. Qed.

(** ** Automation *)

(** Case analysis on the innermost scrutinee of the goal, keeping its equation. *)
Ltac destruct_match_goal :=
  match goal with
  | |- context [match ?x with _ => _ end] =>
      lazymatch x with
      | context [match _ with _ => _ end] => fail
      | _ => let E := fresh "E" in destruct x eqn:E
      end
  end.

(** The same in the hypotheses. *)
Ltac destruct_match_hyp :=
  match goal with
  | H : context [match ?x with _ => _ end] |- _ =>
      lazymatch x with
      | context [match _ with _ => _ end] => fail
      | _ => let E := fresh "E" in destruct x eqn:E
      end
  end.

Ltac cases_goal := repeat (destruct_match_goal; simplify_eq/=).
Ltac cases_hyp := repeat (destruct_match_hyp; simplify_eq/=).

(** Boolean tests of the code turned into propositions. *)
Ltac bool_to_prop :=
  repeat match goal with
  | H : (_ && _)%bool = true |- _ => apply andb_true_iff in H as [? ?]
  | H : (_ || _)%bool = false |- _ => apply orb_false_iff in H as [? ?]
  | H : (_ || _)%bool = true |- _ => apply orb_true_iff in H
  | H : ¬ (_ ≠ _ ∧ _ ≠ _) |- _ => apply not_neq_and_neq in H
  | H : ¬ (_ ≠ _) |- _ => apply dec_stable in H
  | H : negb _ = true |- _ => apply negb_true_iff in H
  | H : negb _ = false |- _ => apply negb_false_iff in H
  | H : bool_decide _ = true |- _ => apply bool_decide_eq_true in H
  | H : bool_decide _ = false |- _ => apply bool_decide_eq_false in H
  | H : nonempty _ = true |- _ => apply nonempty_true in H
  | H : range_contains _ _ = true |- _ => apply range_contains_true in H
  | H : range_contains _ _ = false |- _ => apply range_contains_false in H
  | H : (_ <? _)%Z = true |- _ => apply Z.ltb_lt in H
  | H : (_ <? _)%Z = false |- _ => apply Z.ltb_ge in H
  | H : (_ <=? _)%Z = true |- _ => apply Z.leb_le in H
  | H : (_ <=? _)%Z = false |- _ => apply Z.leb_gt in H
  end.

(** Rule out, or identify, a member of a list of given elements. *)
Ltac inv_member H :=
  repeat (rewrite ?app_nil_l in H; first
    [ apply elem_of_nil in H; destruct H
    | apply elem_of_cons in H as [H|H]; [try discriminate H|] ]).

Create HintDb proxy.
#[export] Hint Resolve string_of_bytes_inj : proxy.
