(* ===== verification/Utf8.v ===== *)
(** * UTF-8 ([unicode/utf8], [for range] over a string)

    Go strings are byte sequences. Iterating over one decodes UTF-8, one rune at
    a time; a byte that starts no valid encoding counts as the rune U+FFFD of
    size 1. The JSON codec works on runes. *)

From S2P Require Import Prelude.
Local Open Scope list_scope.
Local Open Scope Z_scope.

Definition code (b : Byte.byte) : Z := Z.of_N (Byte.to_N b).

Definition byte_of (z : Z) : Byte.byte := default Byte.x00 (Byte.of_N (Z.to_N z)).

Definition in_range (lo hi z : Z) : bool := (lo <=? z) && (z <=? hi).

Definition RuneError : Z := 0xFFFD.
Definition RuneSelf : Z := 0x80.

(** A Unicode scalar value: a code point that is not a surrogate. *)
Definition is_rune (r : Z) : bool := in_range 0 0xD7FF r || in_range 0xE000 0x10FFFF r.

Definition continuation (b : Byte.byte) : bool := in_range 0x80 0xBF (code b).

(** [utf8.DecodeRune]: the rune at the head of a non-empty sequence, and its size. *)
Definition DecodeRune (s : bytes) : Z * nat :=
  match s with
  | [] => (RuneError, 0%nat)
  | b0 :: s1 =>
      let c0 := code b0 in
      if c0 <? RuneSelf then (c0, 1%nat)
      else
        match s1 with
        | [] => (RuneError, 1%nat)
        | b1 :: s2 =>
            let c1 := code b1 in
            if in_range 0xC2 0xDF c0 && continuation b1
            then ((c0 - 0xC0) * 64 + (c1 - 0x80), 2%nat)
            else
              match s2 with
              | [] => (RuneError, 1%nat)
              | b2 :: s3 =>
                  let c2 := code b2 in
                  if in_range 0xE0 0xEF c0 && continuation b2 &&
                     in_range (if c0 =? 0xE0 then 0xA0 else 0x80)
                              (if c0 =? 0xED then 0x9F else 0xBF) c1
                  then ((c0 - 0xE0) * 4096 + (c1 - 0x80) * 64 + (c2 - 0x80), 3%nat)
                  else
                    match s3 with
                    | [] => (RuneError, 1%nat)
                    | b3 :: _ =>
                        let c3 := code b3 in
                        if in_range 0xF0 0xF4 c0 && continuation b2 && continuation b3 &&
                           in_range (if c0 =? 0xF0 then 0x90 else 0x80)
                                    (if c0 =? 0xF4 then 0x8F else 0xBF) c1
                        then ((c0 - 0xF0) * 262144 + (c1 - 0x80) * 4096 +
                              (c2 - 0x80) * 64 + (c3 - 0x80), 4%nat)
                        else (RuneError, 1%nat)
                    end
              end
        end
  end.

(** [utf8.AppendRune] to nothing: surrogates and values out of range are encoded
    as U+FFFD. *)
Definition EncodeRune (r : Z) : bytes :=
  let r := if is_rune r then r else RuneError in
  if r <? 0x80 then [byte_of r]
  else if r <? 0x800 then [byte_of (0xC0 + r / 64); byte_of (0x80 + r mod 64)]
  else if r <? 0x10000 then
    [byte_of (0xE0 + r / 4096); byte_of (0x80 + r / 64 mod 64); byte_of (0x80 + r mod 64)]
  else
    [byte_of (0xF0 + r / 262144); byte_of (0x80 + r / 4096 mod 64);
     byte_of (0x80 + r / 64 mod 64); byte_of (0x80 + r mod 64)].

(** [for i := 0; i < len(s); i += size]: the decoded runes with their sizes.
    [skip] bytes belong to the rune before. *)
Fixpoint range_from (skip : nat) (s : bytes) {struct s} : list (Z * nat) :=
  match s with
  | [] => []
  | _ :: s' =>
      match skip with
      | S k => range_from k s'
      | O => DecodeRune s :: range_from (pred (DecodeRune s).2) s'
      end
  end.

Definition range_runes (s : bytes) : list (Z * nat) := range_from 0 s.

Definition of_runes (rs : list Z) : bytes := rs ≫= EncodeRune.

(** Every invalid byte replaced by the encoding of U+FFFD. *)
Definition sanitize (s : bytes) : bytes := of_runes (range_runes s).*1.

Definition ToValidUTF8 (s : string) : string := string_of_bytes (sanitize (bytes_of_string s)).

(** [utf8.ValidString] *)
Definition ValidString (s : string) : Prop := ToValidUTF8 s = s.

#[global] Instance ValidString_dec s : Decision (ValidString s).
Proof. unfold ValidString. apply _. Defined.

(** ** Lemmas *)

Lemma code_bound b : 0 ≤ code b < 256.
Proof. unfold code. pose proof (Byte.to_N_bounded b). lia. Qed.

Lemma code_byte_of z : 0 ≤ z < 256 → code (byte_of z) = z.
Proof.
  intros Hz. unfold code, byte_of.
  destruct (Byte.of_N (Z.to_N z)) as [b|] eqn:E; simpl.
  - apply Byte.to_of_N in E. rewrite E. lia.
  - apply Byte.of_N_None_iff in E. lia.
Qed.

Lemma in_range_true lo hi z : in_range lo hi z = true ↔ lo ≤ z ≤ hi.
Proof. unfold in_range. rewrite andb_true_iff, !Z.leb_le. done. Qed.

Lemma in_range_false lo hi z : in_range lo hi z = false ↔ z < lo ∨ hi < z.
Proof. unfold in_range. rewrite andb_false_iff, !Z.leb_gt. done. Qed.

Lemma is_rune_true r : is_rune r = true ↔ 0 ≤ r ≤ 0xD7FF ∨ 0xE000 ≤ r ≤ 0x10FFFF.
Proof. unfold is_rune. by rewrite orb_true_iff, !in_range_true. Qed.

(** The size of an encoding. *)
Definition rune_len (r : Z) : nat :=
  if r <? 0x80 then 1 else if r <? 0x800 then 2 else if r <? 0x10000 then 3 else 4.

Lemma EncodeRune_length r : is_rune r = true → length (EncodeRune r) = rune_len r.
Proof. unfold EncodeRune, rune_len. intros ->. by repeat case_match. Qed.

(** The tests of [DecodeRune] as inequalities. *)
Ltac byte_tests :=
  repeat match goal with
  | H : in_range _ _ _ = true |- _ => apply in_range_true in H
  | H : in_range _ _ _ = false |- _ => apply in_range_false in H
  | H : is_rune _ = true |- _ => apply is_rune_true in H
  | H : (_ <? _) = true |- _ => apply Z.ltb_lt in H
  | H : (_ <? _) = false |- _ => apply Z.ltb_ge in H
  | H : (_ =? _) = true |- _ => apply Z.eqb_eq in H
  | H : (_ =? _) = false |- _ => apply Z.eqb_neq in H
  end.

#[local] Ltac Zify.zify_post_hook ::= Z.to_euclidean_division_equations.

Ltac eval_byte_tests :=
  repeat match goal with
  | |- context [code (byte_of ?z)] => rewrite (code_byte_of z) by lia
  | |- context [?a <? ?b] =>
      first [rewrite (proj2 (Z.ltb_lt a b)) by lia | rewrite (proj2 (Z.ltb_ge a b)) by lia]
  | |- context [?a =? ?b] =>
      first [rewrite (proj2 (Z.eqb_eq a b)) by lia | rewrite (proj2 (Z.eqb_neq a b)) by lia]
  | |- context [in_range ?a ?b ?c] =>
      first [rewrite (proj2 (in_range_true a b c)) by lia |
             rewrite (proj2 (in_range_false a b c)) by lia]
  end.

Lemma DecodeRune_EncodeRune r s :
  is_rune r = true → DecodeRune (EncodeRune r ++ s) = (r, rune_len r).
Proof.
  intros Hr. unfold EncodeRune, rune_len, DecodeRune, RuneSelf, continuation. rewrite Hr.
  byte_tests. destruct (r <? 0x80) eqn:E1; byte_tests; simpl; [eval_byte_tests; done|].
  destruct (r <? 0x800) eqn:E2; byte_tests; simpl.
  { eval_byte_tests. simpl. f_equal. lia. }
  destruct (r <? 0x10000) eqn:E3; byte_tests; simpl.
  - eval_byte_tests. simpl.
    destruct (0xE0 + r / 4096 =? 0xE0) eqn:E4, (0xE0 + r / 4096 =? 0xED) eqn:E5; byte_tests;
      eval_byte_tests; simpl; f_equal; lia.
  - eval_byte_tests. simpl.
    destruct (0xF0 + r / 262144 =? 0xF0) eqn:E4, (0xF0 + r / 262144 =? 0xF4) eqn:E5; byte_tests;
      eval_byte_tests; simpl; f_equal; lia.
Qed.

Lemma DecodeRune_is_rune s : s ≠ [] → is_rune (DecodeRune s).1 = true.
Proof.
  intros Hs. unfold DecodeRune, RuneSelf, continuation.
  destruct s as [|b0 s]; [done|]. pose proof (code_bound b0).
  destruct s as [|b1 [|b2 [|b3 s]]];
    repeat (destruct_match_goal; try done);
    repeat match goal with H : (_ && _)%bool = true |- _ => apply andb_true_iff in H as [? ?] end;
    byte_tests; simpl; apply is_rune_true; lia.
Qed.

Lemma range_from_skip k s : range_from k s = range_runes (drop k s).
Proof.
  revert k. induction s as [|b s IH]; intros [|k]; simpl; done.
Qed.

Lemma range_runes_cons s :
  s ≠ [] → range_runes s = DecodeRune s :: range_runes (drop (pred (DecodeRune s).2) (tail s)).
Proof. destruct s as [|b s]; [done|]. intros _. simpl. by rewrite <- range_from_skip. Qed.

Lemma EncodeRune_nonempty r : EncodeRune r ≠ [].
Proof. unfold EncodeRune. by repeat case_match. Qed.

Lemma range_runes_EncodeRune r s :
  is_rune r = true → range_runes (EncodeRune r ++ s) = (r, rune_len r) :: range_runes s.
Proof.
  intros Hr. pose proof (EncodeRune_length r Hr) as Hlen.
  rewrite range_runes_cons, DecodeRune_EncodeRune by
    (try done; intros [Hn _]%app_nil; by apply EncodeRune_nonempty in Hn).
  simpl. do 2 f_equal. destruct (EncodeRune r) as [|b e] eqn:E; [by apply EncodeRune_nonempty in E|].
  simpl in *. rewrite <- Hlen. simpl. apply drop_app_length.
Qed.

Lemma range_runes_runes s : Forall (λ r, is_rune r = true) (range_runes s).*1.
Proof.
  unfold range_runes. generalize 0%nat as k.
  induction s as [|b s IH]; intros [|k]; simpl; [constructor|constructor| |apply IH].
  constructor; [|apply IH]. by apply (DecodeRune_is_rune (b :: s)).
Qed.

Lemma of_runes_cons r rs : of_runes (r :: rs) = EncodeRune r ++ of_runes rs.
Proof. done. Qed.

Lemma range_runes_of_runes rs s :
  Forall (λ r, is_rune r = true) rs →
  range_runes (of_runes rs ++ s) = ((λ r, (r, rune_len r)) <$> rs) ++ range_runes s.
Proof.
  induction 1 as [|r rs Hr _ IH]; [done|].
  by rewrite of_runes_cons, <- app_assoc, range_runes_EncodeRune, IH.
Qed.

Lemma of_runes_app rs rs' : of_runes (rs ++ rs') = of_runes rs ++ of_runes rs'.
Proof. apply bind_app. Qed.

Lemma sanitize_of_runes rs : Forall (λ r, is_rune r = true) rs → sanitize (of_runes rs) = of_runes rs.
Proof.
  intros Hrs. unfold sanitize. rewrite <- (app_nil_r (of_runes rs)) at 1.
  rewrite range_runes_of_runes by done. rewrite app_nil_r, <- list_fmap_compose.
  unfold compose. simpl. by rewrite list_fmap_id.
Qed.

Lemma bytes_of_string_of_bytes b : bytes_of_string (string_of_bytes b) = b.
Proof. apply String.list_byte_of_string_of_list_byte. Qed.

Lemma string_of_bytes_of_string s : string_of_bytes (bytes_of_string s) = s.
Proof. apply String.string_of_list_byte_of_string. Qed.

Lemma ValidString_of_runes rs :
  Forall (λ r, is_rune r = true) rs → ValidString (string_of_bytes (of_runes rs)).
Proof.
  intros Hrs. unfold ValidString, ToValidUTF8.
  by rewrite bytes_of_string_of_bytes, sanitize_of_runes.
Qed.

Lemma ToValidUTF8_valid s : ValidString (ToValidUTF8 s).
Proof. apply ValidString_of_runes, range_runes_runes. Qed.

(** An ASCII string is valid. *)
Lemma EncodeRune_ascii b : code b < 128 → EncodeRune (code b) = [b].
Proof. destruct b; try done; intros H; vm_compute in H; discriminate. Qed.

Lemma sanitize_ascii s : Forall (λ b, code b < 128) s → sanitize s = s.
Proof.
  intros Hs. assert (Hrunes : Forall (λ r, is_rune r = true) (code <$> s)).
  { apply Forall_fmap. eapply Forall_impl; [exact Hs|]. intros b Hb.
    pose proof (code_bound b). apply is_rune_true. lia. }
  assert (of_runes (code <$> s) = s) as <-; [|by apply sanitize_of_runes].
  clear Hrunes. induction Hs as [|b s Hb _ IH]; [done|].
  by rewrite fmap_cons, of_runes_cons, EncodeRune_ascii, IH.
Qed.

(** The bytes of a rune beyond ASCII are beyond ASCII. *)
Lemma EncodeRune_high r :
  is_rune r = true → 128 ≤ r → Forall (λ b, 128 ≤ code b) (EncodeRune r).
Proof.
  intros Hr Hhigh. unfold EncodeRune. rewrite Hr. byte_tests.
  destruct (r <? 0x80) eqn:E; byte_tests; [lia|].
  repeat case_match; byte_tests; repeat constructor; rewrite code_byte_of; lia.
Qed.

Lemma code_byte_of_id b : byte_of (code b) = b.
Proof.
  unfold byte_of, code. by rewrite N2Z.id, Byte.of_to_N.
Qed.
