(* ===== verification/Json.v ===== *)
(** * JSON ([encoding/json])

    The parts of the Go standard library's codec that the program uses: the
    encoding of strings and objects, the syntax of documents, and decoding into
    strings, slices, maps and structs. [parse_value] is the grammar the library's
    scanner accepts, with its limit on nesting; strings are unquoted as
    [unquoteBytes] does. A decoder that meets a value of the wrong type goes on and
    reports the first such error at the end; as the caller drops the partial value,
    the decoders here stop there. *)

From S2P Require Import Prelude Utf8.
Local Open Scope string_scope.
Local Open Scope list_scope.
Local Open Scope Z_scope.
Local Open Scope go_scope.

(** ** Documents *)

Inductive json :=
| JNull
| JBool (b : bool)
| JNumber (lit : string)
| JString (s : string)
| JArray (vs : list json)
| JObject (ms : list (string * json)).

(** Induction with hypotheses on the elements of arrays and objects. *)
Lemma json_nested_ind (P : json → Prop) :
  P JNull → (∀ b, P (JBool b)) → (∀ lit, P (JNumber lit)) → (∀ s, P (JString s)) →
  (∀ vs, Forall P vs → P (JArray vs)) →
  (∀ ms, Forall (λ m, P m.2) ms → P (JObject ms)) → ∀ v, P v.
Proof.
  intros Hnull Hbool Hnum Hstr Harr Hobj.
  fix go 1. intros [|b|lit|s|vs|ms]; [done|auto..| |].
  - apply Harr. induction vs; constructor; auto.
  - apply Hobj. induction ms; constructor; auto.
Qed.

Inductive json_error := SyntaxError | UnmarshalTypeError.

Definition json_error_text (err : json_error) : error :=
  match err with
  | SyntaxError => "json: syntax error"
  | UnmarshalTypeError => "json: cannot unmarshal"
  end.

(** ** Encoding *)

Definition lit (s : string) : bytes := bytes_of_string s.

(** The digit of [0 ≤ n < 16] in lower case. *)
Definition hex (n : Z) : Byte.byte := byte_of (if n <? 10 then 0x30 + n else 0x57 + n).

(** [htmlSafeSet] *)
Definition htmlSafe (r : Z) : bool :=
  (0x20 <=? r) && negb (bool_decide (r ∈ [0x22; 0x26; 0x3C; 0x3E; 0x5C])).

(** One turn of the loop of [appendString]: a rune of the string and its size. A
    valid rune is copied, as the bytes it was decoded from. *)
Definition append_rune (c : Z * nat) : bytes :=
  let '(r, size) := c in
  if r <? RuneSelf then
    if htmlSafe r then [byte_of r]
    else if (r =? 0x5C) || (r =? 0x22) then [Byte.x5c; byte_of r]
    else if r =? 0x08 then lit "\b"
    else if r =? 0x0C then lit "\f"
    else if r =? 0x0A then lit "\n"
    else if r =? 0x0D then lit "\r"
    else if r =? 0x09 then lit "\t"
    else lit "\u00" ++ [hex (r / 16); hex (r mod 16)]
  else if (r =? RuneError) && (size =? 1)%nat then lit "\ufffd"
  else if (r =? 0x2028) || (r =? 0x2029) then lit "\u202" ++ [hex (r mod 16)]
  else EncodeRune r.

Definition string_body (s : string) : bytes := range_runes (bytes_of_string s) ≫= append_rune.

Definition appendString (s : string) : bytes := [Byte.x22] ++ string_body s ++ [Byte.x22].

(** Elements with commas between them. *)
Fixpoint comma_separated (l : list bytes) : bytes :=
  match l with
  | [] => []
  | [x] => x
  | x :: l' => x ++ [Byte.x2c] ++ comma_separated l'
  end.

(** The compact form [json.Marshal] gives a value. *)
Fixpoint encode (v : json) : bytes :=
  match v with
  | JNull => lit "null"
  | JBool true => lit "true"
  | JBool false => lit "false"
  | JNumber l => lit l
  | JString s => appendString s
  | JArray vs => [Byte.x5b] ++ comma_separated (List.map encode vs) ++ [Byte.x5d]
  | JObject ms =>
      [Byte.x7b] ++
      comma_separated (List.map (λ m, appendString m.1 ++ [Byte.x3a] ++ encode m.2) ms) ++
      [Byte.x7d]
  end.

(** [json.Marshal]: for values made of strings it cannot fail. *)
Definition Marshal (v : json) : result json_error bytes := Ok (encode v).

(** ** Syntax *)

Definition is_space (b : Byte.byte) : bool :=
  bool_decide (b ∈ [Byte.x20; Byte.x09; Byte.x0d; Byte.x0a]).

Fixpoint skip_space (s : bytes) : bytes :=
  match s with
  | b :: s' => if is_space b then skip_space s' else s
  | [] => []
  end.

Definition hex_value (b : Byte.byte) : option Z :=
  let c := code b in
  if in_range 0x30 0x39 c then Some (c - 0x30)
  else if in_range 0x61 0x66 c then Some (c - 0x57)
  else if in_range 0x41 0x46 c then Some (c - 0x37) else None.

Definition is_escape (b : Byte.byte) : bool := bool_decide (b ∈ lit "bfnrt\/" ++ [Byte.x22]).

(** From behind the opening quote: the bytes up to the closing one, and the rest. *)
Fixpoint scan_string (s : bytes) : option (bytes * bytes) :=
  match s with
  | [] => None
  | b :: s' =>
      if decide (b = Byte.x22) then Some ([], s')
      else if decide (b = Byte.x5c) then
        match s' with
        | [] => None
        | e :: s1 =>
            if decide (e = Byte.x75) then
              match s1 with
              | h1 :: h2 :: h3 :: h4 :: s2 =>
                  match hex_value h1, hex_value h2, hex_value h3, hex_value h4 with
                  | Some _, Some _, Some _, Some _ =>
                      prod_map (λ raw, b :: e :: h1 :: h2 :: h3 :: h4 :: raw) id <$> scan_string s2
                  | _, _, _, _ => None
                  end
              | _ => None
              end
            else if is_escape e then prod_map (λ raw, b :: e :: raw) id <$> scan_string s1
            else None
        end
      else if code b <? 0x20 then None
      else prod_map (cons b) id <$> scan_string s'
  end.

Definition is_digit (b : Byte.byte) : bool := in_range 0x30 0x39 (code b).

(** Digits, and the rest. *)
Fixpoint span_digits (s : bytes) : bytes * bytes :=
  match s with
  | b :: s' => if is_digit b then prod_map (cons b) id (span_digits s') else ([], s)
  | [] => ([], [])
  end.

(** At least one digit. *)
Definition digits1 (s : bytes) : option (bytes * bytes) :=
  let '(ds, s') := span_digits s in if nonempty ds then Some (ds, s') else None.

(** The integer part has no leading zero. *)
Definition scan_int (s : bytes) : option (bytes * bytes) :=
  match s with
  | b :: s' => if decide (b = Byte.x30) then Some ([b], s') else digits1 s
  | [] => None
  end.

Definition scan_frac (s : bytes) : option (bytes * bytes) :=
  match s with
  | b :: s' => if decide (b = Byte.x2e) then prod_map (cons b) id <$> digits1 s' else Some ([], s)
  | [] => Some ([], [])
  end.

Definition scan_exp (s : bytes) : option (bytes * bytes) :=
  match s with
  | e :: s' =>
      if decide (e = Byte.x65 ∨ e = Byte.x45) then
        match s' with
        | g :: s2 =>
            if decide (g = Byte.x2b ∨ g = Byte.x2d) then prod_map (app [e; g]) id <$> digits1 s2
            else prod_map (cons e) id <$> digits1 s'
        | [] => None
        end
      else Some ([], s)
  | [] => Some ([], [])
  end.

Definition scan_number (s : bytes) : option (bytes * bytes) :=
  let '(sign, s0) := match s with
                     | b :: s' => if decide (b = Byte.x2d) then ([b], s') else ([], s)
                     | [] => ([], [])
                     end in
  match scan_int s0 with
  | None => None
  | Some (i, s1) =>
      match scan_frac s1 with
      | None => None
      | Some (f, s2) => prod_map (λ x, sign ++ i ++ f ++ x) id <$> scan_exp s2
      end
  end.

(** [maxNestingDepth] *)
Definition maxNestingDepth : Z := 10000.

(** [unquoteBytes]: the rune of [\uXXXX] at the head, [-1] for none. *)
Definition getu4 (s : bytes) : Z :=
  match s with
  | b :: u :: h1 :: h2 :: h3 :: h4 :: _ =>
      if decide (b = Byte.x5c ∧ u = Byte.x75) then
        match hex_value h1, hex_value h2, hex_value h3, hex_value h4 with
        | Some d1, Some d2, Some d3, Some d4 => d1 * 4096 + d2 * 256 + d3 * 16 + d4
        | _, _, _, _ => -1
        end
      else -1
  | _ => -1
  end.

(** [utf16.DecodeRune] *)
Definition utf16_DecodeRune (r1 r2 : Z) : Z :=
  if in_range 0xD800 0xDBFF r1 && in_range 0xDC00 0xDFFF r2
  then (r1 - 0xD800) * 1024 + (r2 - 0xDC00) + 0x10000 else RuneError.

(** The byte an escape letter stands for. *)
Definition unescape (b : Byte.byte) : option Byte.byte :=
  if decide (b ∈ lit "\/'" ++ [Byte.x22]) then Some b
  else if decide (b = Byte.x62) then Some Byte.x08
  else if decide (b = Byte.x66) then Some Byte.x0c
  else if decide (b = Byte.x6e) then Some Byte.x0a
  else if decide (b = Byte.x72) then Some Byte.x0d
  else if decide (b = Byte.x74) then Some Byte.x09
  else None.

(** One turn of the loop of [unquoteBytes]: the bytes written and those read. *)
Definition unquote_step (s : bytes) : option (bytes * nat) :=
  match s with
  | [] => None
  | b :: s' =>
      if decide (b = Byte.x5c) then
        match s' with
        | [] => None
        | e :: _ =>
            if decide (e = Byte.x75) then
              let rr := getu4 s in
              if rr <? 0 then None
              else if in_range 0xD800 0xDFFF rr then
                let dec := utf16_DecodeRune rr (getu4 (drop 6 s)) in
                if dec =? RuneError then Some (EncodeRune RuneError, 6%nat)
                else Some (EncodeRune dec, 12%nat)
              else Some (EncodeRune rr, 6%nat)
            else (λ w, ([w], 2%nat)) <$> unescape e
        end
      else if (code b =? 0x22) || (code b <? 0x20) then None
      else if code b <? RuneSelf then Some ([b], 1%nat)
      else Some (EncodeRune (DecodeRune s).1, (DecodeRune s).2)
  end.

Fixpoint unquote_from (skip : nat) (s : bytes) {struct s} : option bytes :=
  match s with
  | [] => Some []
  | _ :: s' =>
      match skip with
      | S k => unquote_from k s'
      | O =>
          match unquote_step s with
          | None => None
          | Some (w, n) => app w <$> unquote_from (pred n) s'
          end
      end
  end.

Definition unquote (raw : bytes) : option string := string_of_bytes <$> unquote_from 0 raw.

(** From behind the opening quote: the string and the rest. *)
Definition parse_string (s : bytes) : option (string * bytes) :=
  match scan_string s with
  | None => None
  | Some (raw, s') => (λ str, (str, s')) <$> unquote raw
  end.

(** The rest behind a given prefix. *)
Fixpoint strip (prefix s : bytes) : option bytes :=
  match prefix, s with
  | [], _ => Some s
  | p :: prefix', b :: s' => if decide (p = b) then strip prefix' s' else None
  | _ :: _, [] => None
  end.

(** Everything that is neither an array nor an object, from its first byte on. *)
Definition parse_scalar (s : bytes) : option (json * bytes) :=
  match s with
  | [] => None
  | b :: s' =>
      if decide (b = Byte.x22) then prod_map JString id <$> parse_string s'
      else if decide (b = Byte.x74) then pair (JBool true) <$> strip (lit "true") s
      else if decide (b = Byte.x66) then pair (JBool false) <$> strip (lit "false") s
      else if decide (b = Byte.x6e) then pair JNull <$> strip (lit "null") s
      else if is_digit b || bool_decide (b = Byte.x2d)
      then prod_map (λ l, JNumber (string_of_bytes l)) id <$> scan_number s
      else None
  end.

(** A value inside [depth] arrays and objects; the rest of an array from behind
    its bracket or a comma; the rest of an object likewise. *)
Fixpoint parse_value (fuel : nat) (depth : Z) (s : bytes) {struct fuel} : option (json * bytes) :=
  match fuel with
  | O => None
  | S fuel =>
      match skip_space s with
      | [] => None
      | b :: s' =>
          if decide (b = Byte.x5b) then
            if maxNestingDepth <=? depth then None
            else
              match skip_space s' with
              | [] => None
              | c :: s2 =>
                  if decide (c = Byte.x5d) then Some (JArray [], s2)
                  else prod_map JArray id <$> parse_elements fuel (depth + 1) s'
              end
          else if decide (b = Byte.x7b) then
            if maxNestingDepth <=? depth then None
            else
              match skip_space s' with
              | [] => None
              | c :: s2 =>
                  if decide (c = Byte.x7d) then Some (JObject [], s2)
                  else prod_map JObject id <$> parse_members fuel (depth + 1) s'
              end
          else parse_scalar (b :: s')
      end
  end
with parse_elements (fuel : nat) (depth : Z) (s : bytes) {struct fuel} :
    option (list json * bytes) :=
  match fuel with
  | O => None
  | S fuel =>
      match parse_value fuel depth s with
      | None => None
      | Some (v, s1) =>
          match skip_space s1 with
          | [] => None
          | c :: s2 =>
              if decide (c = Byte.x5d) then Some ([v], s2)
              else if decide (c = Byte.x2c) then prod_map (cons v) id <$> parse_elements fuel depth s2
              else None
          end
      end
  end
with parse_members (fuel : nat) (depth : Z) (s : bytes) {struct fuel} :
    option (list (string * json) * bytes) :=
  match fuel with
  | O => None
  | S fuel =>
      match skip_space s with
      | [] => None
      | q :: s0 =>
          if decide (q = Byte.x22) then
            match parse_string s0 with
            | None => None
            | Some (key, s1) =>
                match skip_space s1 with
                | [] => None
                | c :: s2 =>
                    if decide (c = Byte.x3a) then
                      match parse_value fuel depth s2 with
                      | None => None
                      | Some (v, s3) =>
                          match skip_space s3 with
                          | [] => None
                          | d :: s4 =>
                              if decide (d = Byte.x7d) then Some ([(key, v)], s4)
                              else if decide (d = Byte.x2c)
                              then prod_map (cons (key, v)) id <$> parse_members fuel depth s4
                              else None
                          end
                      end
                    else None
                end
            end
          else None
      end
  end.

(** A whole document: one value and white space. Two calls per byte are enough,
    see [parse_fuel]. *)
Definition parse (data : bytes) : option json :=
  match parse_value (2 * length data + 1) 0 data with
  | Some (v, rest) => if decide (skip_space rest = []) then Some v else None
  | None => None
  end.

(** ** Quoting and unquoting *)

Lemma unquote_from_skip k s : unquote_from k s = unquote_from 0 (drop k s).
Proof. revert k. induction s as [|b s IH]; intros [|k]; try done. apply IH. Qed.

(** A turn of the loop. *)
Lemma unquote_from_step s w n s' :
  s ≠ [] → (0 < n)%nat → unquote_step s = Some (w, n) → drop n s = s' →
  unquote_from 0 s = app w <$> unquote_from 0 s'.
Proof.
  intros Hs Hn Hstep <-. destruct s as [|b s]; [done|]. cbn [unquote_from]. rewrite Hstep.
  rewrite unquote_from_skip. by destruct n; [lia|].
Qed.

(** A piece [e] of a string body that stands for [w]. *)
Record quotes (e w : bytes) : Prop := {
  qu_unquote rest : unquote_from 0 (e ++ rest) = app w <$> unquote_from 0 rest;
  qu_scan rest : scan_string (e ++ rest) = prod_map (app e) id <$> scan_string rest;
}.

Lemma quotes_nil : quotes [] [].
Proof.
  split; intros rest; simpl.
  - by destruct (unquote_from 0 rest).
  - by destruct (scan_string rest) as [[]|].
Qed.

Lemma quotes_app e w e' w' : quotes e w → quotes e' w' → quotes (e ++ e') (w ++ w').
Proof.
  intros [Hu Hs] [Hu' Hs']. split; intros rest; rewrite <- app_assoc.
  - rewrite Hu, Hu'. destruct (unquote_from 0 rest); simpl; by rewrite ?app_assoc.
  - rewrite Hs, Hs'. destruct (scan_string rest) as [[]|]; simpl; by rewrite ?app_assoc.
Qed.

Ltac quotes_by_steps :=
  split; intros rest; [eapply unquote_from_step; [discriminate| |reflexivity|reflexivity]; lia|
                       reflexivity].

Lemma append_rune_ascii b n : code b < 128 → quotes (append_rune (code b, n)) [b].
Proof. destruct b; intros Hb; first [quotes_by_steps | vm_compute in Hb; discriminate Hb].
Qed.

Lemma scan_high e rest :
  Forall (λ b, 128 ≤ code b) e → scan_string (e ++ rest) = prod_map (app e) id <$> scan_string rest.
Proof.
  induction 1 as [|b e Hb _ IH]; simpl; [by destruct (scan_string rest) as [[]|]|].
  rewrite !decide_False by (intros ->; vm_compute in Hb; by destruct Hb).
  rewrite (proj2 (Z.ltb_ge _ _)) by lia. rewrite IH. by destruct (scan_string rest) as [[]|].
Qed.

Lemma encode_rune_quotes r : is_rune r = true → 128 ≤ r → quotes (EncodeRune r) (EncodeRune r).
Proof.
  intros Hr Hhigh. pose proof (EncodeRune_high r Hr Hhigh) as Hall.
  split; intros rest; [|by apply scan_high].
  pose proof (EncodeRune_length r Hr) as Hlen.
  apply (unquote_from_step _ _ (rune_len r)).
  - intros [Hn _]%app_nil. by apply EncodeRune_nonempty in Hn.
  - unfold rune_len. repeat case_match; lia.
  - unfold unquote_step. rewrite DecodeRune_EncodeRune by done.
    destruct (EncodeRune r) as [|b e] eqn:E; [by apply EncodeRune_nonempty in E|].
    apply Forall_cons in Hall as [Hb _]. simpl.
    rewrite decide_False by (intros ->; vm_compute in Hb; by destruct Hb).
    unfold RuneSelf. rewrite (proj2 (Z.eqb_neq _ _)), !(proj2 (Z.ltb_ge _ _)) by lia. by rewrite E.
  - rewrite <- Hlen. apply drop_app_length.
Qed.

Lemma quotes_line_separator : quotes (lit "\u2028") (EncodeRune 0x2028).
Proof. quotes_by_steps. Qed.
Lemma quotes_paragraph_separator : quotes (lit "\u2029") (EncodeRune 0x2029).
Proof. quotes_by_steps. Qed.
Lemma quotes_replacement : quotes (lit "\ufffd") (EncodeRune RuneError).
Proof. quotes_by_steps. Qed.

Lemma append_rune_quotes c : is_rune c.1 = true → quotes (append_rune c) (EncodeRune c.1).
Proof.
  destruct c as [r n]. cbn [fst]. intros Hr. destruct (decide (r < 128)) as [Hlow|Hhigh].
  - pose proof Hr as Hr'. apply is_rune_true in Hr'.
    assert (Hb : code (byte_of r) = r) by (apply code_byte_of; lia).
    rewrite <- Hb, EncodeRune_ascii by lia. apply (append_rune_ascii (byte_of r)). lia.
  - unfold append_rune, RuneSelf. rewrite (proj2 (Z.ltb_ge r _)) by lia.
    destruct ((r =? RuneError) && _) eqn:E1.
    { apply andb_true_iff in E1 as [->%Z.eqb_eq _]. apply quotes_replacement. }
    destruct ((r =? 0x2028) || (r =? 0x2029)) eqn:E2.
    + apply orb_true_iff in E2 as [->%Z.eqb_eq| ->%Z.eqb_eq];
        [apply quotes_line_separator|apply quotes_paragraph_separator].
    + apply encode_rune_quotes; [done|lia].
Qed.

Lemma string_body_quotes s : quotes (string_body s) (sanitize (bytes_of_string s)).
Proof.
  unfold string_body, sanitize. pose proof (range_runes_runes (bytes_of_string s)) as Hall.
  induction (range_runes _) as [|c l IH]; [apply quotes_nil|].
  apply Forall_cons in Hall as [Hc Hall]. rewrite fmap_cons, of_runes_cons, bind_cons.
  apply quotes_app; [by apply append_rune_quotes|by apply IH].
Qed.

(** A quoted string reads back as itself, invalid bytes replaced. *)
Lemma parse_string_body s rest :
  parse_string (string_body s ++ Byte.x22 :: rest) = Some (ToValidUTF8 s, rest).
Proof.
  destruct (string_body_quotes s) as [Hu Hs]. unfold parse_string. rewrite Hs. simpl.
  rewrite app_nil_r. unfold unquote. specialize (Hu []). rewrite app_nil_r in Hu. rewrite Hu. simpl.
  by rewrite app_nil_r.
Qed.

(** ** Consumption and fuel *)

Lemma skip_space_length s : (length (skip_space s) ≤ length s)%nat.
Proof. induction s as [|b s IH]; simpl; [lia|]. destruct (is_space b); simpl; lia. Qed.

Lemma skip_space_cons s b s' : skip_space s = b :: s' → (length s' < length s)%nat.
Proof. intros H. pose proof (skip_space_length s). rewrite H in *. simpl in *. lia. Qed.

(** [shorter f]: what [f] leaves is shorter than what it was given. *)
Definition shorter {A} (f : bytes → option (A * bytes)) : Prop :=
  ∀ s a r, f s = Some (a, r) → (length r < length s)%nat.

Ltac inv_map :=
  repeat match goal with
  | H : prod_map _ _ <$> _ = Some _ |- _ => apply fmap_Some in H as ([] & ? & [= ? ->]); subst
  | H : pair _ <$> _ = Some _ |- _ => apply fmap_Some in H as (? & ? & [= ? ->]); subst
  | H : Some _ = Some _ |- _ => injection H as ? ?; subst
  end.

Lemma scan_string_shorter : shorter scan_string.
Proof.
  intros s. remember (length s) as n eqn:Hn. revert s Hn.
  induction n as [n IH] using lt_wf_ind. intros s -> raw r Hscan.
  assert (Hrec : ∀ (k : bytes → bytes) s' raw' r', (length s' < length s)%nat →
    prod_map k id <$> scan_string s' = Some (raw', r') → (length r' < length s)%nat).
  { intros k s' raw' r' Hlt Hm. inv_map.
    match goal with H : scan_string _ = _ |- _ => apply (IH _ Hlt s' eq_refl) in H end.
    unfold id. lia. }
  destruct s as [|b s]; [done|]. simpl in Hscan. case_decide; [inv_map; simpl; lia|].
  case_decide; [|case_match; [done|]; eapply Hrec, Hscan; simpl; lia].
  destruct s as [|e s]; [done|]. case_decide.
  - destruct s as [|h1 [|h2 [|h3 [|h4 s]]]]; try done. repeat (case_match; [|done]).
    eapply Hrec, Hscan. simpl. lia.
  - destruct (is_escape e); [|done]. eapply Hrec, Hscan. simpl. lia.
Qed.

Lemma parse_string_shorter : shorter parse_string.
Proof.
  intros s a r. unfold parse_string. destruct (scan_string s) as [[raw s']|] eqn:E; [|done].
  apply scan_string_shorter in E. intros (str & _ & [= _ <-])%fmap_Some. done.
Qed.

Lemma span_digits_length s : (length (span_digits s).1 + length (span_digits s).2 = length s)%nat.
Proof.
  induction s as [|b s IH]; [done|]. simpl. destruct (is_digit b); [|done].
  destruct (span_digits s); simpl in *. lia.
Qed.

Lemma digits1_shorter : shorter digits1.
Proof.
  intros s ds r. unfold digits1. pose proof (span_digits_length s).
  destruct (span_digits s) as [[|d ds'] s']; simpl in *; [done|]. intros [= _ <-]. lia.
Qed.

Lemma scan_number_shorter : shorter scan_number.
Proof.
  intros s l r Hnum.
  assert (Hint : shorter scan_int).
  { intros [|b s'] i r'; simpl; [done|]. case_decide; [intros [= _ <-]; simpl; lia|].
    apply (digits1_shorter (b :: s')). }
  assert (Hfrac : ∀ s f r, scan_frac s = Some (f, r) → (length r ≤ length s)%nat).
  { intros [|b s'] f r'; simpl; [intros [= _ <-]; simpl; lia|].
    case_decide; [|intros [= _ <-]; simpl; lia]. intros Hd. inv_map.
    match goal with H : digits1 _ = _ |- _ => apply digits1_shorter in H end. unfold id. lia. }
  assert (Hexp : ∀ s x r, scan_exp s = Some (x, r) → (length r ≤ length s)%nat).
  { intros [|e s'] f r'; simpl; [intros [= _ <-]; simpl; lia|].
    case_decide; [|intros [= _ <-]; simpl; lia]. destruct s' as [|g s']; [done|]. intros Hd.
    case_decide; inv_map; match goal with H : digits1 _ = _ |- _ => apply digits1_shorter in H end;
      unfold id; simpl in *; lia. }
  unfold scan_number in Hnum.
  destruct (match s with [] => ([], []) | b :: s' => _ end) as [sign s0] eqn:Es.
  assert (Hs0 : (length s0 ≤ length s)%nat).
  { destruct s as [|b s']; [by injection Es as _ <-|].
    case_decide; injection Es as _ <-; simpl; lia. }
  destruct (scan_int s0) as [[i s1]|] eqn:Ei; [|done]. apply Hint in Ei.
  destruct (scan_frac s1) as [[f s2]|] eqn:Ef; [|done]. apply Hfrac in Ef. inv_map.
  match goal with H : scan_exp _ = _ |- _ => apply Hexp in H end. unfold id. lia.
Qed.

Lemma strip_length p s r : strip p s = Some r → (length r + length p = length s)%nat.
Proof.
  revert s. induction p as [|x p IH]; intros [|b s]; simpl; try done.
  - intros [= <-]. simpl. lia.
  - intros [= <-]. simpl. lia.
  - case_decide; [|done]. intros ?%IH. lia.
Qed.

Lemma parse_scalar_shorter : shorter parse_scalar.
Proof.
  intros [|b s] v r; unfold parse_scalar; [done|].
  repeat (case_decide; [intros ?; inv_map;
    first [match goal with H : parse_string _ = _ |- _ => apply parse_string_shorter in H end
          |match goal with H : strip _ _ = _ |- _ => apply strip_length in H; simpl in H end];
    unfold id; simpl; lia|]).
  destruct (is_digit b || _); [|done]. intros ?. inv_map.
  match goal with H : scan_number _ = _ |- _ => apply scan_number_shorter in H; exact H end.
Qed.

#[local] Arguments parse_scalar : simpl never.
#[local] Arguments parse_string : simpl never.

(** One turn through the three parsers: the results of their calls replace the
    calls, in every branch. *)
Ltac parser_cases :=
  repeat match goal with
  | H : None = Some _ |- _ => discriminate H
  | H : context [match skip_space ?s with _ => _ end] |- _ =>
      let E := fresh "Esk" in
      destruct (skip_space s) as [|? ?] eqn:E; [|apply skip_space_cons in E]
  | H : context [if decide ?P then _ else _] |- _ => destruct (decide P); subst
  | H : context [if ?a <=? ?b then _ else _] |- _ => destruct (a <=? b)
  | H : match ?x with _ => _ end = Some _ |- _ =>
      let E := fresh "Ecall" in destruct x as [[? ?]|] eqn:E
  end; inv_map.

Lemma parse_shorter fuel :
  (∀ d, shorter (parse_value fuel d)) ∧ (∀ d, shorter (parse_elements fuel d)) ∧
  (∀ d, shorter (parse_members fuel d)).
Proof.
  induction fuel as [|fuel (IHv & IHe & IHm)]; [done|].
  split_and!; intros d s x r Hp; simpl in Hp; parser_cases; unfold id in *;
    repeat match goal with
    | H : parse_value _ _ _ = Some _ |- _ => apply IHv in H
    | H : parse_elements _ _ _ = Some _ |- _ => apply IHe in H
    | H : parse_members _ _ _ = Some _ |- _ => apply IHm in H
    | H : parse_string _ = Some _ |- _ => apply parse_string_shorter in H
    | H : parse_scalar _ = Some _ |- _ => apply parse_scalar_shorter in H; simpl in H
    end; simpl in *; lia.
Qed.

Lemma parse_value_shorter fuel d s v r : parse_value fuel d s = Some (v, r) → (length r < length s)%nat.
Proof. apply parse_shorter. Qed.

(** Twice the length of the input is fuel enough: more changes nothing, so that
    [parse] never fails for want of it. *)
Lemma parse_fuel_enough fuel fuel' :
  (∀ d s, (2 * length s + 1 ≤ fuel → 2 * length s + 1 ≤ fuel' →
     parse_value fuel d s = parse_value fuel' d s)%nat) ∧
  (∀ d s, (2 * length s + 2 ≤ fuel → 2 * length s + 2 ≤ fuel' →
     parse_elements fuel d s = parse_elements fuel' d s)%nat) ∧
  (∀ d s, (2 * length s + 2 ≤ fuel → 2 * length s + 2 ≤ fuel' →
     parse_members fuel d s = parse_members fuel' d s)%nat).
Proof.
  revert fuel'. induction fuel as [|fuel IH]; intros [|fuel'];
    [split_and!; intros; lia..|]. destruct (IH fuel') as (IHv & IHe & IHm).
  split_and!; intros d s Hf Hf'; cbn [parse_value parse_elements parse_members].
  - destruct (skip_space s) as [|b s'] eqn:Es; [done|]. apply skip_space_cons in Es.
    rewrite (IHe (d + 1) s'), (IHm (d + 1) s') by lia. done.
  - rewrite (IHv d s) by lia. destruct (parse_value fuel' d s) as [[v s1]|] eqn:Ev; [|done].
    apply parse_value_shorter in Ev.
    destruct (skip_space s1) as [|c s2] eqn:Es; [done|]. apply skip_space_cons in Es.
    by rewrite (IHe d s2) by lia.
  - destruct (skip_space s) as [|q s0] eqn:Es; [done|]. apply skip_space_cons in Es.
    case_decide; [|done]. destruct (parse_string s0) as [[key s1]|] eqn:Ek; [|done].
    apply parse_string_shorter in Ek.
    destruct (skip_space s1) as [|c s2] eqn:Es1; [done|]. apply skip_space_cons in Es1.
    case_decide; [|done]. rewrite (IHv d s2) by lia.
    destruct (parse_value fuel' d s2) as [[v s3]|] eqn:Ev; [|done]. apply parse_value_shorter in Ev.
    destruct (skip_space s3) as [|e s4] eqn:Es3; [done|]. apply skip_space_cons in Es3.
    by rewrite (IHm d s4) by lia.
Qed.

Lemma parse_fuel fuel d s :
  (2 * length s + 1 ≤ fuel)%nat → parse_value fuel d s = parse_value (2 * length s + 1) d s.
Proof. intros Hf. by apply parse_fuel_enough. Qed.

(** ** What is encoded reads back

    For every document without numbers and not nested too deep. *)

Fixpoint fits (depth : Z) (v : json) : bool :=
  match v with
  | JNumber _ => false
  | JArray vs => (depth <? maxNestingDepth) && forallb (fits (depth + 1)) vs
  | JObject ms => (depth <? maxNestingDepth) && forallb (λ m, fits (depth + 1) m.2) ms
  | _ => true
  end.

(** Every string with its invalid bytes replaced. *)
Fixpoint sanitized (v : json) : json :=
  match v with
  | JString s => JString (ToValidUTF8 s)
  | JArray vs => JArray (List.map sanitized vs)
  | JObject ms => JObject (List.map (λ m, (ToValidUTF8 m.1, sanitized m.2)) ms)
  | _ => v
  end.

Lemma encode_head d v : fits d v = true →
  ∃ b t, encode v = b :: t ∧ is_space b = false ∧ b ≠ Byte.x5d.
Proof. destruct v as [|[]|l|s|vs|ms]; intros Hf; [..|done| | |]; by eexists _, _. Qed.

Lemma skip_space_encode d v rest : fits d v = true → skip_space (encode v ++ rest) = encode v ++ rest.
Proof. intros (b & t & -> & Hb & _)%encode_head. simpl. by rewrite Hb. Qed.

(** The value reads back, whatever follows it and wherever it stands. *)
Definition reads_back (v : json) : Prop :=
  ∀ fuel d rest, fits d v = true → (2 * length (encode v ++ rest) + 1 ≤ fuel)%nat →
    parse_value fuel d (encode v ++ rest) = Some (sanitized v, rest).

Lemma comma_separated_cons x y l :
  comma_separated (x :: y :: l) = x ++ [Byte.x2c] ++ comma_separated (y :: l).
Proof. done. Qed.

Lemma elements_read_back vs fuel d rest :
  Forall reads_back vs → vs ≠ [] → forallb (fits d) vs = true →
  let s := comma_separated (List.map encode vs) ++ [Byte.x5d] ++ rest in
  (2 * length s + 2 ≤ fuel)%nat → parse_elements fuel d s = Some (List.map sanitized vs, rest).
Proof.
  intros Hall. revert fuel. induction Hall as [|v vs Hv Hvs IH]; intros fuel Hne Hfits s Hfuel; [done|].
  apply andb_true_iff in Hfits as [Hfit Hfits]. destruct fuel as [|fuel]; [lia|].
  cbn [parse_elements]. destruct vs as [|v' vs].
  - subst s. cbn [List.map comma_separated] in *. rewrite Hv by (done || lia). done.
  - subst s. rewrite !map_cons, comma_separated_cons in *. rewrite <- map_cons in *.
    rewrite <- !app_assoc in *. rewrite Hv by (done || lia). simpl.
    simpl in IH. rewrite IH; [done|done|done|].
    rewrite !length_app in Hfuel. simpl in *. rewrite !length_app in *. simpl in *. lia.
Qed.

Definition encode_member (m : string * json) : bytes := appendString m.1 ++ [Byte.x3a] ++ encode m.2.
Definition sanitized_member (m : string * json) : string * json := (ToValidUTF8 m.1, sanitized m.2).

Lemma encode_object ms :
  encode (JObject ms) = [Byte.x7b] ++ comma_separated (List.map encode_member ms) ++ [Byte.x7d].
Proof. done. Qed.

(** A member up to what follows its value. *)
Lemma parse_members_step fuel d m rest :
  reads_back m.2 → fits d m.2 = true → (2 * length (encode_member m ++ rest) + 1 ≤ fuel)%nat →
  parse_members (S fuel) d (encode_member m ++ rest) =
  match skip_space rest with
  | [] => None
  | e :: s4 =>
      if decide (e = Byte.x7d) then Some ([sanitized_member m], s4)
      else if decide (e = Byte.x2c)
      then prod_map (cons (sanitized_member m)) id <$> parse_members fuel d s4 else None
  end.
Proof.
  destruct m as [k v]. unfold encode_member, appendString, sanitized_member. cbn [fst snd].
  intros Hv Hfit Hfuel. rewrite <- !app_assoc in *. simpl.
  rewrite (parse_string_body k). simpl.
  rewrite Hv; [done|done|].
  simpl in Hfuel. rewrite !length_app in *. simpl in Hfuel. rewrite !length_app in *. lia.
Qed.

Lemma members_read_back ms fuel d rest :
  Forall (λ m, reads_back m.2) ms → ms ≠ [] → forallb (λ m, fits d m.2) ms = true →
  let s := comma_separated (List.map encode_member ms) ++ [Byte.x7d] ++ rest in
  (2 * length s + 2 ≤ fuel)%nat → parse_members fuel d s = Some (List.map sanitized_member ms, rest).
Proof.
  intros Hall. revert fuel. induction Hall as [|m ms Hm Hms IH]; intros fuel Hne Hfits s Hfuel; [done|].
  apply andb_true_iff in Hfits as [Hfit Hfits]. destruct fuel as [|fuel]; [lia|].
  destruct ms as [|m' ms]; subst s.
  - cbn [List.map comma_separated] in *. by rewrite parse_members_step by (done || lia).
  - rewrite !map_cons, comma_separated_cons in *. rewrite <- map_cons in *.
    rewrite <- !app_assoc in *. rewrite parse_members_step by (done || lia). simpl.
    simpl in IH. rewrite IH; [done|done|done|].
    rewrite !length_app in Hfuel. simpl in *. rewrite !length_app in *. simpl in *. lia.
Qed.

Lemma encode_reads_back v : reads_back v.
Proof.
  induction v as [|b|l|s|vs IH|ms IH] using json_nested_ind; intros [|fuel] d rest Hfits Hfuel;
    try lia; try done.
  - by destruct b.
  - simpl. unfold appendString. rewrite <- !app_assoc. unfold parse_scalar. simpl.
    by rewrite (parse_string_body s).
  - simpl in Hfits. apply andb_true_iff in Hfits as [Hd%Z.ltb_lt Hfits].
    cbn [encode] in *. rewrite <- !app_assoc in *. simpl.
    rewrite (proj2 (Z.leb_gt _ _)) by done.
    destruct vs as [|v vs]; [done|].
    assert (Hhead : ∃ b t, comma_separated (List.map encode (v :: vs)) ++ [Byte.x5d] ++ rest = b :: t ∧
      is_space b = false ∧ b ≠ Byte.x5d).
    { simpl in Hfits. apply andb_true_iff in Hfits as [Hfit _].
      destruct (encode_head _ _ Hfit) as (b & t & He & Hb & Hne).
      destruct vs; simpl; rewrite He; by eexists _, _. }
    destruct Hhead as (b & t & Hs & Hb & Hne). simpl in Hs, Hfuel |- *. rewrite Hs. simpl.
    rewrite Hb. rewrite decide_False by done. rewrite <- Hs.
    pose proof (elements_read_back (v :: vs) fuel (d + 1) rest IH ltac:(done) Hfits) as He.
    simpl in He. rewrite He; [done|]. lia.
  - simpl in Hfits. apply andb_true_iff in Hfits as [Hd%Z.ltb_lt Hfits].
    rewrite encode_object in *. rewrite <- !app_assoc in *. simpl.
    rewrite (proj2 (Z.leb_gt _ _)) by done.
    destruct ms as [|m ms]; [done|].
    pose proof (members_read_back (m :: ms) fuel (d + 1) rest IH ltac:(done) Hfits) as He.
    assert (Hhead : ∃ t, comma_separated (List.map encode_member (m :: ms)) ++ [Byte.x7d] ++ rest =
      Byte.x22 :: t) by (destruct ms; simpl; by eexists).
    destruct Hhead as (t & Hs). cbn zeta in He. rewrite Hs in He.
    simpl in Hfuel |- *. simpl in Hs. rewrite Hs in *. simpl in *. rewrite He; [done|]. lia.
Qed.

(** A document printed compactly parses to itself, invalid bytes replaced. *)
Lemma parse_encode v : fits 0 v = true → parse (encode v) = Some (sanitized v).
Proof.
  intros Hf. unfold parse. pose proof (encode_reads_back v (2 * length (encode v) + 1)%nat 0 [] Hf) as He.
  rewrite app_nil_r in He. by rewrite He by lia.
Qed.

(** ** Decoding

    [v] decoded into a variable that holds [old]. [null] leaves strings and
    structs as they are, and empties slices and maps. *)

Definition decode_string (v : json) (old : string) : result json_error string :=
  match v with
  | JNull => Ok old
  | JString s => Ok s
  | _ => Err UnmarshalTypeError
  end.

(** A slice and what its backing array holds beyond it: an array is decoded into
    the old elements, those past the old length included. *)
Record slice (A : Type) := { sl_array : list A; sl_len : nat }.
Arguments sl_array {A}. Arguments sl_len {A}. Arguments Build_slice {A}.

Definition nil_slice {A} : slice A := {| sl_array := []; sl_len := 0 |}.
Definition sl_elements {A} (s : slice A) : list A := take (sl_len s) (sl_array s).

(** The loop of [decodeState.array]; fresh elements are [zero]. *)
Fixpoint decode_elements {A} (elem : json → A → result json_error A) (zero : A)
    (vs : list json) (old : list A) : result json_error (list A) :=
  match vs with
  | [] => Ok old
  | v :: vs' =>
      let? x := elem v (default zero (head old)) in
      let? rest := decode_elements elem zero vs' (tail old) in
      Ok (x :: rest)
  end.

Definition decode_slice {A} (elem : json → A → result json_error A) (zero : A)
    (v : json) (old : slice A) : result json_error (slice A) :=
  match v with
  | JNull => Ok nil_slice
  | JArray [] => Ok nil_slice
  | JArray vs =>
      let? array := decode_elements elem zero vs (sl_array old) in
      Ok {| sl_array := array; sl_len := length vs |}
  | _ => Err UnmarshalTypeError
  end.

(** Each value is decoded into a fresh variable; a repeated key is overwritten. *)
Fixpoint decode_entries {A} (elem : json → result json_error A) (ms : list (string * json))
    (m : gmap string A) : result json_error (gmap string A) :=
  match ms with
  | [] => Ok m
  | (key, v) :: ms' =>
      let? x := elem v in
      decode_entries elem ms' (<[key := x]> m)
  end.

Definition decode_map {A} (elem : json → result json_error A) (v : json) (old : gmap string A) :
    result json_error (gmap string A) :=
  match v with
  | JNull => Ok ∅
  | JObject ms => decode_entries elem ms old
  | _ => Err UnmarshalTypeError
  end.

(** [foldRune], as far as it reaches ASCII: the letters, "ſ" and the Kelvin sign.
    Other runes are equivalent to no ASCII one, which field names consist of. *)
Definition foldRune (r : Z) : Z :=
  if in_range 0x61 0x7A r then r - 0x20
  else if r =? 0x17F then 0x53
  else if r =? 0x212A then 0x4B else r.

Definition foldName (name : string) : bytes :=
  of_runes (foldRune <$> (range_runes (bytes_of_string name)).*1).

(** The fields of a struct type: the name in the tag, and how a value is decoded
    into the field. *)
Abbreviation fields T := (list (string * (json → T → result json_error T))).

(** The exact name first, then any that differs in case only. *)
Definition find_field {T} (fs : fields T) (key : string) : option (json → T → result json_error T) :=
  match List.find (λ f, bool_decide (f.1 = key)) fs with
  | Some f => Some f.2
  | None => snd <$> List.find (λ f, bool_decide (foldName f.1 = foldName key)) fs
  end.

Fixpoint decode_members {T} (fs : fields T) (ms : list (string * json)) (t : T) :
    result json_error T :=
  match ms with
  | [] => Ok t
  | (key, v) :: ms' =>
      match find_field fs key with
      | None => decode_members fs ms' t
      | Some set => let? t' := set v t in decode_members fs ms' t'
      end
  end.

Definition decode_struct {T} (fs : fields T) (v : json) (t : T) : result json_error T :=
  match v with
  | JNull => Ok t
  | JObject ms => decode_members fs ms t
  | _ => Err UnmarshalTypeError
  end.

(** [json.Unmarshal] into a variable of a type decoded by [decode] that holds
    [t]: nothing is decoded from a document with a syntax error. *)
Definition Unmarshal {T} (decode : json → T → result json_error T) (data : bytes) (t : T) :
    result json_error T :=
  match parse data with
  | None => Err SyntaxError
  | Some v => decode v t
  end.

Lemma Unmarshal_encode {T} (decode : json → T → result json_error T) v t :
  fits 0 v = true → Unmarshal decode (encode v) t = decode (sanitized v) t.
Proof. intros Hf. unfold Unmarshal. by rewrite parse_encode. Qed.

(** ** Every decoded string is valid UTF-8 *)

Inductive valid_json : json → Prop :=
| valid_null : valid_json JNull
| valid_bool b : valid_json (JBool b)
| valid_number l : valid_json (JNumber l)
| valid_string s : ValidString s → valid_json (JString s)
| valid_array vs : Forall valid_json vs → valid_json (JArray vs)
| valid_object ms : Forall (λ m, ValidString m.1 ∧ valid_json m.2) ms → valid_json (JObject ms).

#[local] Hint Constructors valid_json Forall : core.

Lemma EncodeRune_coerced r : ∃ r', is_rune r' = true ∧ EncodeRune r = EncodeRune r'.
Proof.
  destruct (is_rune r) eqn:E; [by exists r|]. exists RuneError. split; [done|].
  unfold EncodeRune. by rewrite E.
Qed.

(** What a turn of [unquoteBytes] writes is one rune. *)
Lemma unquote_step_rune s w n :
  unquote_step s = Some (w, n) → ∃ r, is_rune r = true ∧ w = EncodeRune r.
Proof.
  assert (Hascii : ∀ b, code b < 128 → ∃ r, is_rune r = true ∧ [b] = EncodeRune r).
  { intros b Hb. exists (code b). split; [|by rewrite EncodeRune_ascii].
    apply is_rune_true. pose proof (code_bound b). lia. }
  unfold unquote_step. destruct s as [|b s]; [done|]. case_decide.
  - destruct s as [|e s]; [done|]. case_decide.
    + destruct (_ <? 0); [done|]. destruct (in_range _ _ _).
      * destruct (_ =? _); intros [= <- _]; apply EncodeRune_coerced.
      * intros [= <- _]. apply EncodeRune_coerced.
    + intros (x & Hx & [= -> _])%fmap_Some. apply Hascii. unfold unescape in Hx.
      case_decide as Hin; [injection Hx as <-|by repeat (case_decide; [by injection Hx as <-|])].
      repeat (apply elem_of_cons in Hin as [->|Hin]; [done|]). by apply elem_of_nil in Hin.
  - destruct (_ || _); [done|]. destruct (code b <? RuneSelf) eqn:E.
    + intros [= <- _]. apply Hascii. by apply Z.ltb_lt in E.
    + intros [= <- _]. apply EncodeRune_coerced.
Qed.

Lemma unquote_valid raw s : unquote raw = Some s → ValidString s.
Proof.
  unfold unquote. intros (b & Hb & ->)%fmap_Some.
  assert (∃ rs, Forall (λ r, is_rune r = true) rs ∧ b = of_runes rs) as (rs & Hrs & ->);
    [|by apply ValidString_of_runes].
  revert b Hb. generalize 0%nat as k.
  induction raw as [|x raw IH]; intros [|k] b Hb; cbn [unquote_from] in Hb;
    [by injection Hb as <-; exists []..| |by eapply IH].
  destruct (unquote_step (x :: raw)) as [[w n]|] eqn:E; [|done].
  apply unquote_step_rune in E as (r & Hr & ->).
  apply fmap_Some in Hb as (b' & Hb' & ->). apply IH in Hb' as (rs & Hrs & ->).
  exists (r :: rs). split; [by constructor|done].
Qed.

Lemma parse_string_valid s str r : parse_string s = Some (str, r) → ValidString str.
Proof.
  unfold parse_string. destruct (scan_string s) as [[raw s']|]; [|done].
  intros (x & Hx & [= -> ->])%fmap_Some. by eapply unquote_valid.
Qed.

Lemma parse_scalar_valid s v r : parse_scalar s = Some (v, r) → valid_json v.
Proof.
  unfold parse_scalar. destruct s as [|b s]; [done|]. case_decide.
  { intros ([str r'] & Hs & [= -> _])%fmap_Some. constructor. by eapply parse_string_valid. }
  do 3 (case_decide; [intros (? & _ & [= -> _])%fmap_Some; constructor|]).
  destruct (is_digit b || _); [|done]. intros (? & _ & [= -> _])%fmap_Some. constructor.
Qed.

Lemma parsers_valid fuel :
  (∀ d s v r, parse_value fuel d s = Some (v, r) → valid_json v) ∧
  (∀ d s vs r, parse_elements fuel d s = Some (vs, r) → Forall valid_json vs) ∧
  (∀ d s ms r, parse_members fuel d s = Some (ms, r) →
     Forall (λ m, ValidString m.1 ∧ valid_json m.2) ms).
Proof.
  induction fuel as [|fuel (IHv & IHe & IHm)]; [done|].
  split_and!; intros d s x r Hp; cbn [parse_value parse_elements parse_members] in Hp;
    parser_cases;
    repeat match goal with
    | H : parse_value _ _ _ = Some _ |- _ => apply IHv in H
    | H : parse_elements _ _ _ = Some _ |- _ => apply IHe in H
    | H : parse_members _ _ _ = Some _ |- _ => apply IHm in H
    | H : parse_string _ = Some _ |- _ => apply parse_string_valid in H
    | H : parse_scalar _ = Some _ |- _ => apply parse_scalar_valid in H
    end; auto 6.
Qed.

Lemma parse_valid data v : parse data = Some v → valid_json v.
Proof.
  unfold parse. destruct (parse_value _ _ _) as [[v' r]|] eqn:E; [|done].
  case_decide; [|done]. intros [= <-]. by eapply parsers_valid.
Qed.

(** ** What decoders preserve

    [decodes P decode]: from a valid document and a variable in [P], the variable
    ends up in [P]. *)

Definition decodes {T} (P : T → Prop) (decode : json → T → result json_error T) : Prop :=
  ∀ v t t', valid_json v → P t → decode v t = Ok t' → P t'.

Lemma decode_string_decodes : decodes ValidString decode_string.
Proof. intros v t t' Hv Ht. destruct Hv; intros [= <-]; done. Qed.

Lemma decode_struct_decodes {T} (P : T → Prop) (fs : fields T) :
  (∀ f, f ∈ fs → decodes P f.2) → decodes P (decode_struct fs).
Proof.
  intros Hfs v t t' Hv Ht. destruct Hv as [| | | | |ms Hms]; simpl; try done; [by intros [= <-]|].
  revert t Ht. induction Hms as [|[key v] ms [_ Hv] _ IH]; intros t Ht; simpl; [by intros [= <-]|].
  destruct (find_field fs key) as [set|] eqn:Ef; [|by apply IH].
  intros (t1 & Hset & Hrest)%result_bind_Ok. eapply IH; [|exact Hrest].
  assert (∃ f, f ∈ fs ∧ set = f.2) as (f & Hin & ->);
    [|by apply (Hfs f Hin v t t1 Hv Ht Hset)].
  unfold find_field in Ef. destruct (List.find _ fs) as [f|] eqn:E1.
  - injection Ef as <-. apply List.find_some in E1 as [Hin _]. exists f. by rewrite list_elem_of_In.
  - apply fmap_Some in Ef as (f & E2 & ->). apply List.find_some in E2 as [Hin _].
    exists f. by rewrite list_elem_of_In.
Qed.

Lemma decode_map_decodes {A} (P : A → Prop) (elem : json → result json_error A) :
  (∀ v x, valid_json v → elem v = Ok x → P x) →
  decodes (map_Forall (λ key x, ValidString key ∧ P x)) (decode_map elem).
Proof.
  intros Helem v t t' Hv Ht. destruct Hv as [| | | | |ms Hms]; simpl; try done;
    [intros [= <-]; apply map_Forall_empty|].
  revert t Ht. induction Hms as [|[key v] ms [Hkey Hv] _ IH]; intros t Ht; simpl; [by intros [= <-]|].
  intros (x & Hx & Hrest)%result_bind_Ok. eapply IH; [|exact Hrest].
  apply map_Forall_insert_2; [|done]. split; [done|by eapply Helem].
Qed.

Lemma decode_slice_decodes {A} (P : A → Prop) (elem : json → A → result json_error A) zero :
  decodes P elem → P zero → decodes (λ s, Forall P (sl_array s)) (decode_slice elem zero).
Proof.
  intros Helem Hzero v [old n] t' Hv Hold. simpl in Hold.
  destruct Hv as [| | | |vs Hvs|]; simpl; try done; [intros [= <-]; constructor|].
  intros Hdec. assert (Hres : ∀ vs' r, Forall valid_json vs' →
      decode_elements elem zero vs' old = Ok r → Forall P r).
  { clear Hvs Hdec. intros vs' r Hvs'. revert old Hold r.
    induction Hvs' as [|v vs' Hv _ IH]; intros old Hold r; simpl; [by intros [= <-]|].
    intros (x & Hx & (rest & Hrest & [= <-])%result_bind_Ok)%result_bind_Ok. constructor.
    - eapply Helem; [done| |exact Hx]. destruct Hold; done.
    - eapply IH; [|exact Hrest]. destruct Hold; [constructor|done]. }
  destruct vs as [|v vs]; [injection Hdec as <-; constructor|].
  apply result_bind_Ok in Hdec as (array & Harr & [= <-]). simpl. by eapply Hres.
Qed.

Lemma sl_elements_Forall {A} (P : A → Prop) (s : slice A) :
  Forall P (sl_array s) → Forall P (sl_elements s).
Proof. apply Forall_take. Qed.
