(* ===== verification/TemporalApi.v ===== *)
(** * The Temporal API messages, as the proxy sees them

    [go.temporal.io/api] is generated code outside the repository. The program
    relies on three documented facts of it, and this file states no more: which
    request and response types there are, which fields the program reads or
    writes (under the names it uses), and that a generated getter returns the
    zero value on a nil message. Fields the program never looks at are left
    out. A message reference is a [ptr], [None] being nil. *)

From S2P Require Import Prelude.
Local Open Scope string_scope.
Local Open Scope list_scope.

(** ** Getters *)

(** [m.GetField()]: the field, or its zero value when [m] is nil. *)
Definition getter {M A} (zero : A) (field : M → A) (m : ptr M) : A :=
  match m with Some m => field m | None => zero end.

(** ** Task queues, worker heartbeats *)

Inductive TaskQueueKind :=
| TASK_QUEUE_KIND_UNSPECIFIED
| TASK_QUEUE_KIND_NORMAL
| TASK_QUEUE_KIND_STICKY.

#[global] Instance TaskQueueKind_eq_dec : EqDecision TaskQueueKind.
Proof. solve_decision. Defined.

Record TaskQueue := {
  tq_Name : string;
  tq_Kind : TaskQueueKind;
  tq_NormalName : string;
}.

Definition GetName (tq : ptr TaskQueue) : string := getter "" tq_Name tq.
Definition GetKind (tq : ptr TaskQueue) : TaskQueueKind :=
  getter TASK_QUEUE_KIND_UNSPECIFIED tq_Kind tq.
Definition GetNormalName (tq : ptr TaskQueue) : string := getter "" tq_NormalName tq.

Record WorkerHeartbeat := { hb_TaskQueue : string }.

Definition hb_GetTaskQueue (hb : ptr WorkerHeartbeat) : string := getter "" hb_TaskQueue hb.

(** ** Workflow commands

    [Command.attributes] is a protobuf oneof. The constructors are the variants
    the repository names; [OtherCommandAttributes] stands for the rest, which
    it handles in the default branch of its type switches. *)

Record ScheduleActivityTaskCommandAttributes := { sat_TaskQueue : ptr TaskQueue }.

Record StartChildWorkflowExecutionCommandAttributes := {
  scw_Namespace : string;
  scw_TaskQueue : ptr TaskQueue;
}.

Record ContinueAsNewWorkflowExecutionCommandAttributes := { can_TaskQueue : ptr TaskQueue }.

Inductive CommandAttributes :=
| Command_ScheduleActivityTask (a : ptr ScheduleActivityTaskCommandAttributes)
| Command_StartChildWorkflowExecution (a : ptr StartChildWorkflowExecutionCommandAttributes)
| Command_ContinueAsNewWorkflowExecution (a : ptr ContinueAsNewWorkflowExecutionCommandAttributes)
| Command_StartTimer
| Command_SignalExternalWorkflowExecution
| Command_UpsertWorkflowSearchAttributes
| Command_ScheduleNexusOperation
| Command_RequestCancelNexusOperation
| Command_CompleteWorkflowExecution
| Command_FailWorkflowExecution
| Command_CancelWorkflowExecution
| Command_RequestCancelActivityTask
| Command_CancelTimer
| Command_RequestCancelExternalWorkflowExecution
| Command_RecordMarker
| Command_ProtocolMessage
| Command_ModifyWorkflowProperties
| OtherCommandAttributes.

Record Command := { cmd_Attributes : option CommandAttributes }.

(** The oneof is [None] when unset. *)
Definition GetAttributes (cmd : ptr Command) : option CommandAttributes :=
  getter None cmd_Attributes cmd.

(** ** Requests *)

Inductive Request :=
| PollWorkflowTaskQueueRequest (Namespace : string) (TaskQueue : ptr TaskQueue)
| PollActivityTaskQueueRequest (Namespace : string) (TaskQueue : ptr TaskQueue)
| PollNexusTaskQueueRequest (Namespace : string) (TaskQueue : ptr TaskQueue)
    (WorkerHeartbeat : list (ptr WorkerHeartbeat))
| RespondWorkflowTaskCompletedRequest (Namespace : string) (TaskToken : bytes)
    (Commands : list (ptr Command))
| RespondWorkflowTaskFailedRequest (Namespace : string) (TaskToken : bytes)
| RecordActivityTaskHeartbeatRequest (Namespace : string) (TaskToken : bytes)
| RespondActivityTaskCompletedRequest (Namespace : string) (TaskToken : bytes)
| RespondActivityTaskFailedRequest (Namespace : string) (TaskToken : bytes)
| RespondActivityTaskCanceledRequest (Namespace : string) (TaskToken : bytes)
| RespondNexusTaskCompletedRequest (Namespace : string) (TaskToken : bytes)
| RespondNexusTaskFailedRequest (Namespace : string) (TaskToken : bytes)
| RespondQueryTaskCompletedRequest (Namespace : string) (TaskToken : bytes)
| GetSystemInfoRequest
| DescribeNamespaceRequest (Namespace : string)
| ShutdownWorkerRequest (Namespace : string) (TaskQueue : string)
| RecordWorkerHeartbeatRequest (Namespace : string)
    (WorkerHeartbeat : list (ptr WorkerHeartbeat))
| OtherRequest (method : string).

(** The WorkflowService method whose request type this is. gRPC decodes the
    request of a call to method [M] as an [MRequest]. *)
Definition request_method (req : Request) : string :=
  match req with
  | PollWorkflowTaskQueueRequest _ _ => "PollWorkflowTaskQueue"
  | PollActivityTaskQueueRequest _ _ => "PollActivityTaskQueue"
  | PollNexusTaskQueueRequest _ _ _ => "PollNexusTaskQueue"
  | RespondWorkflowTaskCompletedRequest _ _ _ => "RespondWorkflowTaskCompleted"
  | RespondWorkflowTaskFailedRequest _ _ => "RespondWorkflowTaskFailed"
  | RecordActivityTaskHeartbeatRequest _ _ => "RecordActivityTaskHeartbeat"
  | RespondActivityTaskCompletedRequest _ _ => "RespondActivityTaskCompleted"
  | RespondActivityTaskFailedRequest _ _ => "RespondActivityTaskFailed"
  | RespondActivityTaskCanceledRequest _ _ => "RespondActivityTaskCanceled"
  | RespondNexusTaskCompletedRequest _ _ => "RespondNexusTaskCompleted"
  | RespondNexusTaskFailedRequest _ _ => "RespondNexusTaskFailed"
  | RespondQueryTaskCompletedRequest _ _ => "RespondQueryTaskCompleted"
  | GetSystemInfoRequest => "GetSystemInfo"
  | DescribeNamespaceRequest _ => "DescribeNamespace"
  | ShutdownWorkerRequest _ _ => "ShutdownWorker"
  | RecordWorkerHeartbeatRequest _ _ => "RecordWorkerHeartbeat"
  | OtherRequest m => m
  end.

(** ** Responses *)

Record PollWorkflowTaskQueueResponse_ := { pw_TaskToken : bytes }.
Record PollActivityTaskQueueResponse_ := { pa_TaskToken : bytes }.
Record PollNexusTaskQueueResponse_ := { pn_TaskToken : bytes }.

Record RespondWorkflowTaskCompletedResponse_ := {
  rw_WorkflowTask : ptr PollWorkflowTaskQueueResponse_;
  rw_ActivityTasks : list (ptr PollActivityTaskQueueResponse_);
}.

Record Capabilities := {
  cap_WorkerCommands : bool;
  cap_WorkerHeartbeats : bool;
  cap_SyncUpdate : bool;
  cap_PollerAutoscaling : bool;
}.

Record NamespaceInfo := { ni_Capabilities : ptr Capabilities }.

Record DescribeNamespaceResponse_ := { dn_NamespaceInfo : ptr NamespaceInfo }.

Inductive Response :=
| PollWorkflowTaskQueueResponse (r : ptr PollWorkflowTaskQueueResponse_)
| PollActivityTaskQueueResponse (r : ptr PollActivityTaskQueueResponse_)
| PollNexusTaskQueueResponse (r : ptr PollNexusTaskQueueResponse_)
| RespondWorkflowTaskCompletedResponse (r : ptr RespondWorkflowTaskCompletedResponse_)
| DescribeNamespaceResponse (r : ptr DescribeNamespaceResponse_)
| OtherResponse (method : string).

(** The method whose response type this is: the generated client of method [M]
    returns an [*MResponse]. *)
Definition response_method (resp : Response) : string :=
  match resp with
  | PollWorkflowTaskQueueResponse _ => "PollWorkflowTaskQueue"
  | PollActivityTaskQueueResponse _ => "PollActivityTaskQueue"
  | PollNexusTaskQueueResponse _ => "PollNexusTaskQueue"
  | RespondWorkflowTaskCompletedResponse _ => "RespondWorkflowTaskCompleted"
  | DescribeNamespaceResponse _ => "DescribeNamespace"
  | OtherResponse m => m
  end.

Definition pw_GetTaskToken (r : ptr PollWorkflowTaskQueueResponse_) : bytes :=
  getter [] pw_TaskToken r.
Definition pa_GetTaskToken (r : ptr PollActivityTaskQueueResponse_) : bytes :=
  getter [] pa_TaskToken r.
Definition pn_GetTaskToken (r : ptr PollNexusTaskQueueResponse_) : bytes :=
  getter [] pn_TaskToken r.
Definition GetWorkflowTask (r : ptr RespondWorkflowTaskCompletedResponse_) :
  ptr PollWorkflowTaskQueueResponse_ := getter None rw_WorkflowTask r.
Definition GetActivityTasks (r : ptr RespondWorkflowTaskCompletedResponse_) :
  list (ptr PollActivityTaskQueueResponse_) := getter [] rw_ActivityTasks r.

(** A Go [any] that may or may not hold a [proto.Message]. *)
Inductive any (M : Type) : Type :=
| Message (m : M)
| NotMessage.

Arguments Message {M} m.
Arguments NotMessage {M}.

(** ** gRPC status values

    A status is a code and a message; the proxy makes three codes of its own
    and passes through whatever the upstream returned. *)

Inductive Code :=
| PermissionDenied
| Internal
| Unavailable
| OtherCode (n : N).

#[global] Instance Code_eq_dec : EqDecision Code.
Proof. solve_decision. Defined.
