(* ===== verification/RpcPolicy.v ===== *)
(** * The RPC allowlist ([internal/rpcpolicy/allowlist.go]) *)

From S2P Require Import Prelude.
Local Open Scope string_scope.
Local Open Scope list_scope.

(** How a request carries what is needed to scope it. *)
Inductive Category :=
| CategoryPoll
| CategoryToken
| CategoryUnscoped
| CategoryNamespaceOnly
| CategoryWorker
| CategoryWorkerHeartbeat.

#[global] Instance Category_eq_dec : EqDecision Category.
Proof. solve_decision. Defined.

(** [Terminal]: a successful call ends the task token's lifecycle. *)
Record Policy := {
  policy_Category : Category;
  policy_Terminal : bool;
}.

#[global] Instance Policy_eq_dec : EqDecision Policy.
Proof. solve_decision. Defined.

Definition policy (c : Category) (terminal : bool) : Policy :=
  {| policy_Category := c; policy_Terminal := terminal |}.

(** The entries of the [Allowed] map literal, in source order. *)
Definition Allowed_entries : list (string * Policy) := [
  ("PollWorkflowTaskQueue", policy CategoryPoll false);
  ("PollActivityTaskQueue", policy CategoryPoll false);
  ("PollNexusTaskQueue", policy CategoryPoll false);
  ("RespondWorkflowTaskCompleted", policy CategoryToken true);
  ("RespondWorkflowTaskFailed", policy CategoryToken true);
  ("RecordActivityTaskHeartbeat", policy CategoryToken false);
  ("RespondActivityTaskCompleted", policy CategoryToken true);
  ("RespondActivityTaskFailed", policy CategoryToken true);
  ("RespondActivityTaskCanceled", policy CategoryToken true);
  ("RespondNexusTaskCompleted", policy CategoryToken true);
  ("RespondNexusTaskFailed", policy CategoryToken true);
  ("RespondQueryTaskCompleted", policy CategoryToken false);
  ("GetSystemInfo", policy CategoryUnscoped false);
  ("DescribeNamespace", policy CategoryNamespaceOnly false);
  ("ShutdownWorker", policy CategoryWorker false);
  ("RecordWorkerHeartbeat", policy CategoryWorkerHeartbeat false)
].

Definition Allowed : gmap string Policy := list_to_map Allowed_entries.

(** ** The table, read as a function *)

Lemma Allowed_entries_NoDup : NoDup Allowed_entries.*1.
Proof. apply (bool_decide_unpack _). vm_compute. exact I. Qed.

Lemma Allowed_lookup rpc p : Allowed !! rpc = Some p ↔ (rpc, p) ∈ Allowed_entries.
Proof.
  symmetry. apply elem_of_list_to_map, Allowed_entries_NoDup.
Qed.

(** Case analysis on an allowed RPC: one case per table entry. *)
Lemma Allowed_cases rpc p (P : string → Policy → Prop) :
  Forall (λ e, P e.1 e.2) Allowed_entries → Allowed !! rpc = Some p → P rpc p.
Proof.
  intros Hall Hin%Allowed_lookup.
  rewrite Forall_forall in Hall. apply (Hall _ Hin).
Qed.

(** Only token RPCs are terminal. *)
Lemma Terminal_is_token rpc p :
  Allowed !! rpc = Some p → policy_Terminal p = true → policy_Category p = CategoryToken.
Proof.
  apply (Allowed_cases rpc p (λ _ p, policy_Terminal p = true → policy_Category p = CategoryToken)).
  repeat constructor; done.
Qed.

(** The lemmas above are the way to reason about the table. *)
#[global] Opaque Allowed.
