(* ===== verification/Scope.v ===== *)
(** * Request scoping ([internal/scope/scope.go])

    Extraction of the namespace, task queue and task tokens of the allowed RPCs,
    and the validation of worker heartbeats and workflow commands. Each [switch]
    over the concrete request type is a [match] with the same cases; the Go pair
    [(value, ok)] is a pair. *)

From S2P Require Import Prelude TemporalApi RpcPolicy.
Local Open Scope string_scope.
Local Open Scope list_scope.

(** ** Extraction *)

Definition RequestNamespace (req : Request) : string * bool :=
  match req with
  | PollWorkflowTaskQueueRequest ns _ => (ns, true)
  | PollActivityTaskQueueRequest ns _ => (ns, true)
  | PollNexusTaskQueueRequest ns _ _ => (ns, true)
  | RespondWorkflowTaskCompletedRequest ns _ _ => (ns, true)
  | RespondWorkflowTaskFailedRequest ns _ => (ns, true)
  | RecordActivityTaskHeartbeatRequest ns _ => (ns, true)
  | RespondActivityTaskCompletedRequest ns _ => (ns, true)
  | RespondActivityTaskFailedRequest ns _ => (ns, true)
  | RespondActivityTaskCanceledRequest ns _ => (ns, true)
  | RespondQueryTaskCompletedRequest ns _ => (ns, true)
  | RespondNexusTaskCompletedRequest ns _ => (ns, true)
  | RespondNexusTaskFailedRequest ns _ => (ns, true)
  | DescribeNamespaceRequest ns => (ns, true)
  | ShutdownWorkerRequest ns _ => (ns, true)
  | RecordWorkerHeartbeatRequest ns _ => (ns, true)
  | _ => ("", false)
  end.

Definition RequestTaskQueueName (req : Request) : string * bool :=
  match req with
  | PollWorkflowTaskQueueRequest _ tq => (GetName tq, true)
  | PollActivityTaskQueueRequest _ tq => (GetName tq, true)
  | ShutdownWorkerRequest _ tq => (tq, true)
  | _ => ("", false)
  end.

Definition RequestTaskQueue (req : Request) : ptr TaskQueue * bool :=
  match req with
  | PollWorkflowTaskQueueRequest _ tq => (tq, true)
  | PollActivityTaskQueueRequest _ tq => (tq, true)
  | PollNexusTaskQueueRequest _ tq _ => (tq, true)
  | _ => (None, false)
  end.

Definition RequestTaskToken (req : Request) : bytes * bool :=
  match req with
  | RespondWorkflowTaskCompletedRequest _ tok _ => (tok, true)
  | RespondWorkflowTaskFailedRequest _ tok => (tok, true)
  | RecordActivityTaskHeartbeatRequest _ tok => (tok, true)
  | RespondActivityTaskCompletedRequest _ tok => (tok, true)
  | RespondActivityTaskFailedRequest _ tok => (tok, true)
  | RespondActivityTaskCanceledRequest _ tok => (tok, true)
  | RespondQueryTaskCompletedRequest _ tok => (tok, true)
  | RespondNexusTaskCompletedRequest _ tok => (tok, true)
  | RespondNexusTaskFailedRequest _ tok => (tok, true)
  | _ => ([], false)
  end.

(** [if tok := ...; len(tok) > 0 { tokens = append(tokens, tok) }] *)
Definition append_token (tokens : list bytes) (tok : bytes) : list bytes :=
  if nonempty tok then tokens ++ [tok] else tokens.

Definition CollectResponseTaskTokens (resp : Response) : list bytes :=
  match resp with
  | PollWorkflowTaskQueueResponse r => append_token [] (pw_GetTaskToken r)
  | PollActivityTaskQueueResponse r => append_token [] (pa_GetTaskToken r)
  | PollNexusTaskQueueResponse r => append_token [] (pn_GetTaskToken r)
  | RespondWorkflowTaskCompletedResponse r =>
      let tokens :=
        match GetWorkflowTask r with
        | Some wt => append_token [] (pw_GetTaskToken (Some wt))
        | None => []
        end in
      fold_left (λ tokens at_, append_token tokens (pa_GetTaskToken at_))
        (GetActivityTasks r) tokens
  | _ => []
  end.

(** ** Worker heartbeats *)

Inductive HeartbeatError :=
| HeartbeatMissingTaskQueue (i : nat)
| HeartbeatNotAuthorized (i : nat) (tq : string).

Definition containsTaskQueue (taskQueues : list string) (taskQueue : string) : bool :=
  range_contains taskQueues taskQueue.

(** The loop [for i, hb := range heartbeats], from index [i]. *)
Fixpoint validate_heartbeats_from (i : nat) (heartbeats : list (ptr WorkerHeartbeat))
    (taskQueues : list string) : option HeartbeatError :=
  match heartbeats with
  | [] => None
  | hb :: heartbeats' =>
      let tq := hb_GetTaskQueue hb in
      if decide (tq = "") then Some (HeartbeatMissingTaskQueue i)
      else if negb (containsTaskQueue taskQueues tq) then Some (HeartbeatNotAuthorized i tq)
      else validate_heartbeats_from (S i) heartbeats' taskQueues
  end.

Definition ValidateWorkerHeartbeatTaskQueues (heartbeats : list (ptr WorkerHeartbeat))
    (taskQueues : list string) : option HeartbeatError :=
  validate_heartbeats_from 0 heartbeats taskQueues.

(** ** Workflow commands *)

Inductive CommandError :=
| ScheduleActivityTaskTargetsQueue (tq : string)
| StartChildWorkflowTargetsQueue (tq : string)
| StartChildWorkflowTargetsNamespace (ns : string)
| ContinueAsNewTargetsQueue (tq : string).

(** The body of the loop for one command. *)
Definition validate_command (cmd : ptr Command) (namespace taskQueue : string) :
    option CommandError :=
  match GetAttributes cmd with
  | Some (Command_ScheduleActivityTask a) =>
      let tq := GetName (getter None sat_TaskQueue a) in
      if decide (tq ≠ taskQueue) then Some (ScheduleActivityTaskTargetsQueue tq) else None
  | Some (Command_StartChildWorkflowExecution a) =>
      let tq := GetName (getter None scw_TaskQueue a) in
      if decide (tq ≠ taskQueue) then Some (StartChildWorkflowTargetsQueue tq)
      else
        let ns := getter "" scw_Namespace a in
        if decide (ns ≠ "" ∧ ns ≠ namespace) then Some (StartChildWorkflowTargetsNamespace ns)
        else None
  | Some (Command_ContinueAsNewWorkflowExecution a) =>
      let tq := GetName (getter None can_TaskQueue a) in
      if decide (tq ≠ "" ∧ tq ≠ taskQueue) then Some (ContinueAsNewTargetsQueue tq) else None
  | _ => None
  end.

Fixpoint ValidateCommands (commands : list (ptr Command)) (namespace taskQueue : string) :
    option CommandError :=
  match commands with
  | [] => None
  | cmd :: commands' =>
      match validate_command cmd namespace taskQueue with
      | Some err => Some err
      | None => ValidateCommands commands' namespace taskQueue
      end
  end.

(** ** Specifications *)

(** The task queue and namespace a command directs work to, [None] when it does
    not name one and the server uses the workflow's own. *)
Definition command_target (cmd : ptr Command) : option (option string * option string) :=
  let named s := if decide (s = "") then None else Some s in
  match GetAttributes cmd with
  | Some (Command_ScheduleActivityTask a) =>
      Some (None, Some (GetName (getter None sat_TaskQueue a)))
  | Some (Command_StartChildWorkflowExecution a) =>
      Some (named (getter "" scw_Namespace a), Some (GetName (getter None scw_TaskQueue a)))
  | Some (Command_ContinueAsNewWorkflowExecution a) =>
      Some (None, named (GetName (getter None can_TaskQueue a)))
  | _ => None
  end.

(** A command stays in scope when whatever it names is its own. *)
Definition command_in_scope (namespace taskQueue : string) (cmd : ptr Command) : Prop :=
  match command_target cmd with
  | None => True
  | Some (ns, tq) => from_option (λ n, n = namespace) True ns ∧
                     from_option (λ q, q = taskQueue) True tq
  end.

(** A heartbeat is reported for one of the queues of the identity. *)
Definition heartbeat_in_scope (taskQueues : list string) (hb : ptr WorkerHeartbeat) : Prop :=
  hb_GetTaskQueue hb ≠ "" ∧ hb_GetTaskQueue hb ∈ taskQueues.

(** The tokens a response carries. *)
Definition token_in_response (tok : bytes) (resp : Response) : Prop :=
  match resp with
  | PollWorkflowTaskQueueResponse r => tok = pw_GetTaskToken r
  | PollActivityTaskQueueResponse r => tok = pa_GetTaskToken r
  | PollNexusTaskQueueResponse r => tok = pn_GetTaskToken r
  | RespondWorkflowTaskCompletedResponse r =>
      (∃ wt, GetWorkflowTask r = Some wt ∧ tok = pw_TaskToken wt) ∨
      (∃ a, Some a ∈ GetActivityTasks r ∧ tok = pa_TaskToken a)
  | _ => False
  end.

(** What the interceptor reads of a request, per category. *)
Definition has_scope_fields (c : Category) (req : Request) : bool :=
  match c with
  | CategoryPoll => (RequestNamespace req).2 && (RequestTaskQueue req).2
  | CategoryToken => (RequestNamespace req).2 && (RequestTaskToken req).2
  | CategoryUnscoped => true
  | CategoryNamespaceOnly => (RequestNamespace req).2
  | CategoryWorker => (RequestNamespace req).2 && (RequestTaskQueueName req).2
  | CategoryWorkerHeartbeat => (RequestNamespace req).2
  end.

(** ** Lemmas *)

Lemma validate_command_None cmd ns tq :
  validate_command cmd ns tq = None ↔ command_in_scope ns tq cmd.
Proof.
  unfold validate_command, command_in_scope, command_target.
  destruct (GetAttributes cmd) as [[]|]; simpl; try done;
    repeat case_decide; simpl; bool_to_prop; naive_solver.
Qed.

Lemma ValidateCommands_None cmds ns tq :
  ValidateCommands cmds ns tq = None ↔ Forall (command_in_scope ns tq) cmds.
Proof.
  induction cmds as [|cmd cmds IH]; simpl; [split; constructor|].
  rewrite Forall_cons, <- validate_command_None, <- IH.
  destruct (validate_command cmd ns tq); naive_solver.
Qed.

Lemma validate_heartbeats_from_None i hbs tqs :
  validate_heartbeats_from i hbs tqs = None ↔ Forall (heartbeat_in_scope tqs) hbs.
Proof.
  revert i. induction hbs as [|hb hbs IH]; intros i; simpl; [split; constructor|].
  rewrite Forall_cons, <- (IH (S i)). unfold heartbeat_in_scope, containsTaskQueue.
  case_decide; [naive_solver|].
  destruct (range_contains tqs (hb_GetTaskQueue hb)) eqn:E; simpl; bool_to_prop; naive_solver.
Qed.

Lemma ValidateWorkerHeartbeatTaskQueues_None hbs tqs :
  ValidateWorkerHeartbeatTaskQueues hbs tqs = None ↔ Forall (heartbeat_in_scope tqs) hbs.
Proof. apply validate_heartbeats_from_None. Qed.

(** The error names the first entry out of scope. *)
Definition heartbeat_error_at (i : nat) (hb : ptr WorkerHeartbeat) : HeartbeatError :=
  if decide (hb_GetTaskQueue hb = "") then HeartbeatMissingTaskQueue i
  else HeartbeatNotAuthorized i (hb_GetTaskQueue hb).

Lemma validate_heartbeats_from_Some i hbs tqs err :
  validate_heartbeats_from i hbs tqs = Some err ↔
  ∃ j hb, hbs !! j = Some hb ∧ err = heartbeat_error_at (i + j) hb ∧
    ¬ heartbeat_in_scope tqs hb ∧ Forall (heartbeat_in_scope tqs) (take j hbs).
Proof.
  revert i. induction hbs as [|hb hbs IH]; intros i; simpl; [naive_solver|].
  destruct (decide (heartbeat_in_scope tqs hb)) as [Hin|Hout].
  - pose proof Hin as [Hne Hmem]. rewrite decide_False by done.
    unfold containsTaskQueue. rewrite (proj2 (range_contains_true _ _)) by done. simpl.
    rewrite IH. split.
    + intros (j & hb' & Hj & -> & Hbad & Hpre). exists (S j), hb'.
      rewrite Nat.add_succ_r. split_and!; try done. by constructor.
    + intros ([|j] & hb' & Hj & -> & Hbad & Hpre); simplify_eq/=.
      exists j, hb'. rewrite Nat.add_succ_r. split_and!; try done. by inversion Hpre.
  - transitivity (err = heartbeat_error_at i hb).
    + unfold heartbeat_error_at, heartbeat_in_scope, containsTaskQueue in *.
      case_decide; [naive_solver|].
      destruct (range_contains tqs (hb_GetTaskQueue hb)) eqn:E; simpl; bool_to_prop.
      * by destruct Hout.
      * naive_solver.
    + split.
      * intros ->. exists 0, hb. rewrite Nat.add_0_r. by split_and!.
      * intros ([|j] & hb' & Hj & -> & Hbad & Hpre); simplify_eq/=; [by rewrite Nat.add_0_r|].
        by inversion Hpre.
Qed.

Lemma elem_of_append_token tok tokens t :
  tok ∈ append_token tokens t ↔ tok ∈ tokens ∨ (tok ≠ [] ∧ tok = t).
Proof. unfold append_token. destruct t; simpl; set_solver. Qed.

Lemma elem_of_append_tokens {A} (f : A → bytes) tok l tokens :
  tok ∈ fold_left (λ tokens a, append_token tokens (f a)) l tokens ↔
  tok ∈ tokens ∨ (tok ≠ [] ∧ ∃ a, a ∈ l ∧ tok = f a).
Proof.
  revert tokens. induction l as [|a l IH]; intros tokens; simpl; [set_solver|].
  rewrite IH, elem_of_append_token. set_solver.
Qed.

Lemma elem_of_CollectResponseTaskTokens tok resp :
  tok ∈ CollectResponseTaskTokens resp ↔ tok ≠ [] ∧ token_in_response tok resp.
Proof.
  destruct resp as [r|r|r|r| |]; simpl; rewrite ?elem_of_append_token; try set_solver.
  rewrite elem_of_append_tokens.
  assert (Hat : tok ≠ [] → (∃ a, a ∈ GetActivityTasks r ∧ tok = pa_GetTaskToken a) ↔
                (∃ a, Some a ∈ GetActivityTasks r ∧ tok = pa_TaskToken a)).
  { intros Hne. split; [|naive_solver]. intros ([a|] & ? & ->); [naive_solver|done]. }
  destruct (GetWorkflowTask r) as [wt|]; rewrite ?elem_of_append_token; set_solver.
Qed.

(** Every request of an allowed method has the fields its category needs, so no
    extractor falls into its default branch. *)
Lemma allowed_has_scope_fields req p :
  Allowed !! request_method req = Some p →
  (∀ m, req ≠ OtherRequest m) →
  has_scope_fields (policy_Category p) req = true.
Proof.
  intros Hp Hother. destruct req; try (vm_compute in Hp; simplify_eq; reflexivity).
  by destruct (Hother method).
Qed.

(** ** Properties *)

(** C27. A workflow task's commands are accepted exactly when each of them keeps
    to the namespace and the task queue of the task: activities and child
    workflows go to that queue, child workflows to that namespace, a
    continue-as-new to the same queue; and the error reported is that of the
    first command that does not. *)
Theorem ValidateCommands_exact cmds ns tq :
  (ValidateCommands cmds ns tq = None ↔ Forall (command_in_scope ns tq) cmds) ∧
  ∀ err, ValidateCommands cmds ns tq = Some err ↔
    ∃ pre cmd post, cmds = pre ++ cmd :: post ∧ Forall (command_in_scope ns tq) pre ∧
      ¬ command_in_scope ns tq cmd ∧ validate_command cmd ns tq = Some err.
Proof.
  split; [apply ValidateCommands_None|]. intros err.
  setoid_rewrite <- validate_command_None.
  induction cmds as [|cmd cmds IH]; simpl.
  - split; [done|]. by intros ([|? ?] & ? & ? & ? & _).
  - destruct (validate_command cmd ns tq) as [err'|] eqn:E.
    + split.
      * intros [= ->]. exists [], cmd, cmds. by rewrite E.
      * intros ([|c pre] & cmd' & post & [= <- ->] & Hpre & _ & Herr); [congruence|].
        apply Forall_cons in Hpre as [Hc%validate_command_None _]. congruence.
    + rewrite IH. split.
      * intros (pre & c & post & -> & Hpre & Hc & Herr). exists (cmd :: pre), c, post.
        split_and!; [done| |done..]. constructor; [by apply validate_command_None|done].
      * intros ([|c pre] & cmd' & post & [= <- ->] & Hpre & Hc & Herr); [congruence|].
        apply Forall_cons in Hpre as [_ ?]. by exists pre, cmd', post.
Qed.

(** C28. Worker heartbeats are accepted exactly when each is for one of the
    identity's task queues; otherwise the error names the first one that is not,
    by its index, and says whether its queue is missing or foreign. *)
Theorem ValidateWorkerHeartbeatTaskQueues_exact hbs tqs :
  (ValidateWorkerHeartbeatTaskQueues hbs tqs = None ↔ Forall (heartbeat_in_scope tqs) hbs) ∧
  ∀ err, ValidateWorkerHeartbeatTaskQueues hbs tqs = Some err ↔
    ∃ i hb, hbs !! i = Some hb ∧ Forall (heartbeat_in_scope tqs) (take i hbs) ∧
      ¬ heartbeat_in_scope tqs hb ∧
      err = if decide (hb_GetTaskQueue hb = "") then HeartbeatMissingTaskQueue i
            else HeartbeatNotAuthorized i (hb_GetTaskQueue hb).
Proof.
  split; [apply ValidateWorkerHeartbeatTaskQueues_None|]. intros err.
  unfold ValidateWorkerHeartbeatTaskQueues. rewrite validate_heartbeats_from_Some.
  unfold heartbeat_error_at. naive_solver.
Qed.

(** C29. Every task token of a response is collected, and nothing else: exactly
    the non-empty tokens of a polled task, of the next workflow task and of the
    eagerly started activities. *)
Theorem CollectResponseTaskTokens_exact resp tok :
  tok ∈ CollectResponseTaskTokens resp ↔ tok ≠ [] ∧ token_in_response tok resp.
Proof. apply elem_of_CollectResponseTaskTokens. Qed.

(** C30. The extractors cover the allowlist: every request of an allowed method
    yields the namespace, task queue or token that its category is checked on, so
    no check is skipped for a request type someone forgot. *)
Theorem extractors_cover_allowlist req p :
  Allowed !! request_method req = Some p → (∀ m, req ≠ OtherRequest m) →
  has_scope_fields (policy_Category p) req = true.
Proof. apply allowed_has_scope_fields. Qed.

Lemma extractors_cover_allowlist_witness :
  has_scope_fields CategoryToken (RespondNexusTaskFailedRequest "ns" []) = true.
Proof.
  apply (extractors_cover_allowlist (RespondNexusTaskFailedRequest "ns" []) (policy CategoryToken true)).
  - vm_compute. reflexivity.
  - intros m. discriminate.
Defined.
