(* ===== verification/Actions.v ===== *)
(** * Billable actions ([internal/actions/actions.go]) *)

From S2P Require Import Prelude TemporalApi.
Local Open Scope string_scope.
Local Open Scope list_scope.

Definition ScheduleActivity := "schedule_activity".
Definition StartTimer := "start_timer".
Definition StartChildWorkflow := "start_child_workflow".
Definition ContinueAsNewWorkflow := "continue_as_new_workflow".
Definition SignalExternalWorkflow := "signal_external_workflow".
Definition UpsertSearchAttributes := "upsert_workflow_search_attributes".
Definition ScheduleNexusOperation := "schedule_nexus_operation".
Definition RequestCancelNexusOperation := "request_nexus_operation_cancellation".
Definition RecordActivityHeartbeat := "record_activity_heartbeat".

Record Action := {
  action_Type : string;
  action_Count : Z;
}.

Definition action (t : string) (n : Z) : Action := {| action_Type := t; action_Count := n |}.

(** [(Action, ok)] as an option. *)
Definition fromCommand (cmd : ptr Command) : option Action :=
  match GetAttributes cmd with
  | Some (Command_ScheduleActivityTask _) => Some (action ScheduleActivity 1)
  | Some Command_StartTimer => Some (action StartTimer 1)
  | Some (Command_StartChildWorkflowExecution _) => Some (action StartChildWorkflow 2)
  | Some (Command_ContinueAsNewWorkflowExecution _) => Some (action ContinueAsNewWorkflow 1)
  | Some Command_SignalExternalWorkflowExecution => Some (action SignalExternalWorkflow 1)
  | Some Command_UpsertWorkflowSearchAttributes => Some (action UpsertSearchAttributes 1)
  | Some Command_ScheduleNexusOperation => Some (action ScheduleNexusOperation 1)
  | Some Command_RequestCancelNexusOperation => Some (action RequestCancelNexusOperation 1)
  | _ => None
  end.

Definition FromRequest (req : Request) : list Action :=
  match req with
  | RespondWorkflowTaskCompletedRequest _ _ commands =>
      fold_left (λ out cmd,
        match fromCommand cmd with Some a => out ++ [a] | None => out end) commands []
  | RecordActivityTaskHeartbeatRequest _ _ => [action RecordActivityHeartbeat 1]
  | _ => []
  end.

(** ** Specification: the bill of a request

    The price list of Temporal Cloud, by the codes of its documentation: what a
    command of each kind is billed as. A kind that is not listed is free. *)

Inductive billed : CommandAttributes → string → Z → Prop :=
| billed_activity x : billed (Command_ScheduleActivityTask x) "schedule_activity" 1
| billed_timer : billed Command_StartTimer "start_timer" 1
| billed_child x : billed (Command_StartChildWorkflowExecution x) "start_child_workflow" 2
| billed_continue x :
    billed (Command_ContinueAsNewWorkflowExecution x) "continue_as_new_workflow" 1
| billed_signal : billed Command_SignalExternalWorkflowExecution "signal_external_workflow" 1
| billed_upsert :
    billed Command_UpsertWorkflowSearchAttributes "upsert_workflow_search_attributes" 1
| billed_nexus : billed Command_ScheduleNexusOperation "schedule_nexus_operation" 1
| billed_cancel_nexus :
    billed Command_RequestCancelNexusOperation "request_nexus_operation_cancellation" 1.

(** The bill of a list of commands: one line for each billed one, in order. *)
Inductive commands_bill : list (ptr Command) → list Action → Prop :=
| bill_nil : commands_bill [] []
| bill_line cmd attributes code count commands bill :
    GetAttributes cmd = Some attributes → billed attributes code count →
    commands_bill commands bill →
    commands_bill (cmd :: commands) ({| action_Type := code; action_Count := count |} :: bill)
| bill_free cmd commands bill :
    (∀ attributes code count, GetAttributes cmd = Some attributes → ¬ billed attributes code count) →
    commands_bill commands bill → commands_bill (cmd :: commands) bill.

Definition request_bill (req : Request) (bill : list Action) : Prop :=
  match req with
  | RespondWorkflowTaskCompletedRequest _ _ commands => commands_bill commands bill
  | RecordActivityTaskHeartbeatRequest _ _ =>
      bill = [{| action_Type := "record_activity_heartbeat"; action_Count := 1 |}]
  | _ => bill = []
  end.

Definition total_count (l : list Action) : Z := foldr (λ a n, action_Count a + n)%Z 0%Z l.

(** What one command costs. *)
Definition command_price (cmd : ptr Command) : Z :=
  match GetAttributes cmd with
  | Some (Command_StartChildWorkflowExecution _) => 2
  | Some (Command_ScheduleActivityTask _ | Command_ContinueAsNewWorkflowExecution _
         | Command_StartTimer | Command_SignalExternalWorkflowExecution
         | Command_UpsertWorkflowSearchAttributes | Command_ScheduleNexusOperation
         | Command_RequestCancelNexusOperation) => 1
  | _ => 0
  end.

Definition request_price (req : Request) : Z :=
  match req with
  | RespondWorkflowTaskCompletedRequest _ _ commands =>
      foldr (λ cmd n, command_price cmd + n)%Z 0%Z commands
  | RecordActivityTaskHeartbeatRequest _ _ => 1
  | _ => 0
  end.

(** ** Lemmas *)

(** The appending loop is [omap], one action per billable command, in order. *)
Lemma FromRequest_loop commands out :
  fold_left (λ out cmd,
    match fromCommand cmd with Some a => out ++ [a] | None => out end) commands out
  = out ++ omap fromCommand commands.
Proof.
  revert out. induction commands as [|cmd commands IH]; intros out; simpl.
  - by rewrite app_nil_r.
  - rewrite IH. destruct (fromCommand cmd); simpl; [|done]. by rewrite <- app_assoc.
Qed.

Lemma FromRequest_commands ns tok commands :
  FromRequest (RespondWorkflowTaskCompletedRequest ns tok commands) = omap fromCommand commands.
Proof. apply FromRequest_loop. Qed.

Lemma fromCommand_price cmd :
  command_price cmd = from_option action_Count 0%Z (fromCommand cmd).
Proof. unfold command_price, fromCommand. by destruct (GetAttributes cmd) as [[]|]. Qed.

Lemma total_count_omap commands :
  total_count (omap fromCommand commands) = foldr (λ cmd n, command_price cmd + n)%Z 0%Z commands.
Proof.
  induction commands as [|cmd commands IH]; simpl; [done|].
  rewrite fromCommand_price, <- IH. by destruct (fromCommand cmd).
Qed.

(** ** Properties *)

Lemma fromCommand_billed cmd :
  match fromCommand cmd with
  | Some a => ∃ attributes, GetAttributes cmd = Some attributes ∧
                billed attributes (action_Type a) (action_Count a)
  | None => ∀ attributes code count, GetAttributes cmd = Some attributes →
              ¬ billed attributes code count
  end.
Proof.
  unfold fromCommand. destruct (GetAttributes cmd) as [[]|]; simpl;
    first [by eexists; split; [done|constructor] | intros attributes code count [= <-] Hb; inversion Hb | done].
Qed.

Lemma commands_bill_omap commands : commands_bill commands (omap fromCommand commands).
Proof.
  induction commands as [|cmd commands IH]; simpl; [constructor|].
  pose proof (fromCommand_billed cmd) as Hcmd. destruct (fromCommand cmd) as [[code count]|].
  - destruct Hcmd as (attributes & Hget & Hb). by eapply bill_line.
  - by apply bill_free.
Qed.

(** C34. The bill of a call is exact: one line for each billable command of a
    completed workflow task, in order, under the code and with the count of the
    price list for commands of its kind; one line for an activity heartbeat; none
    for anything else. The counts add up to the price of the request. *)
Theorem bill_is_exact req :
  request_bill req (FromRequest req) ∧ total_count (FromRequest req) = request_price req.
Proof.
  destruct req; try (by split). rewrite FromRequest_commands.
  split; [apply commands_bill_omap|apply total_count_omap].
Qed.
