(* ===== verification/Store.v ===== *)
(** * The token store interface ([internal/tokencache/cache.go], [Store])

    What the interceptor needs of a token cache, and what every implementation
    promises. [TokenCache] and [Valkey] are the two implementations; the
    interceptor's theorems are proved against the interface alone. *)

From S2P Require Import Prelude Utf8.

(** The identity a task token was issued to. *)
Record Entry := {
  entry_Namespace : string;
  entry_TaskQueue : string;
}.

#[global] Instance Entry_eq_dec : EqDecision Entry.
Proof. solve_decision. Defined.

(** The operations, over the state [S] of everything the implementation reads
    and writes: its maps, its clock, its connection. [Get] returns the Go triple
    [(entry, found, err)]: [Err e] is a non-nil error, [Ok None] is not found. *)
Class Store (S : Type) := {
  store_Put : bytes → Entry → S → goerror * S;
  store_Get : bytes → S → result error (option Entry) * S;
  store_Delete : bytes → S → goerror * S;
}.

(** Text that every store gives back unchanged. *)
Definition entry_utf8 (e : Entry) : Prop :=
  ValidString (entry_Namespace e) ∧ ValidString (entry_TaskQueue e).

(** The promise: a ghost view of the tokens the store has recorded, which only
    [Put] extends, and only with the entry it was given, for the token it was
    given or one the store cannot tell from it ([store_alias]: equality for the
    cache in memory, equality of SHA-256 digests for Valkey). Entries may
    disappear at any time (expiry, eviction), and a failed [Put] may or may not
    have taken effect. *)
Class StoreLaws (S : Type) `{Store S} := {
  store_inv : S → Prop;
  store_view : S → bytes → option Entry;
  store_alias : relation bytes;
  store_alias_equiv :: Equivalence store_alias;
  store_alias_dec :: RelDecision store_alias;
  store_Put_inv tok e s r s' : store_inv s → store_Put tok e s = (r, s') → store_inv s';
  store_Get_inv tok s r s' : store_inv s → store_Get tok s = (r, s') → store_inv s';
  store_Delete_inv tok s r s' : store_inv s → store_Delete tok s = (r, s') → store_inv s';
  store_Put_view tok e s r s' tok' e' :
    store_inv s → store_Put tok e s = (r, s') →
    store_view s' tok' = Some e' →
    (store_alias tok' tok ∧ (entry_utf8 e → e' = e)) ∨ store_view s tok' = Some e';
  store_Get_view tok s r s' tok' e' :
    store_inv s → store_Get tok s = (r, s') →
    store_view s' tok' = Some e' → store_view s tok' = Some e';
  store_Get_found tok s e s' :
    store_inv s → store_Get tok s = (Ok (Some e), s') → store_view s tok = Some e;
  store_Delete_view tok s r s' tok' e' :
    store_inv s → store_Delete tok s = (r, s') →
    store_view s' tok' = Some e' → store_view s tok' = Some e';
  store_Delete_gone tok s s' :
    store_inv s → store_Delete tok s = (None, s') → store_view s' tok = None;
}.

(** One store state holds no more than another. *)
Definition view_le {S} `{StoreLaws S} (s' s : S) : Prop :=
  ∀ tok e, store_view s' tok = Some e → store_view s tok = Some e.

#[global] Instance view_le_preorder {S} `{StoreLaws S} : PreOrder (view_le (S := S)).
Proof. split; [by intros s tok e | intros s1 s2 s3 H1 H2 tok e He; by apply H2, H1]. Qed.
