(* ===== verification/LruSpec.v ===== *)
(** * The specification of a token-cache shard: an LRU list

    What a shard of [internal/tokencache/cache.go] promises, without its
    pointers: a list of items, most recently used first, with distinct keys, at
    most [N] of them when [N > 0]. [Shard] proves that the pointer
    implementation refines it; expiry and retention are proved here. Times and
    durations are nanoseconds. *)

From S2P Require Import Prelude Store.
Local Open Scope Z_scope.

Record item := {
  item_key : string;
  item_entry : Entry;
  item_expiresAt : Z;
}.

Definition spec_remove (key : string) (l : list item) : list item :=
  filter (λ it, item_key it ≠ key) l.

Definition spec_lookup (key : string) (l : list item) : option item :=
  head (filter (λ it, item_key it = key) l).

Definition spec_truncate (N : Z) (l : list item) : list item :=
  if 0 <? N then take (Z.to_nat N) l else l.

Definition spec_put (N : Z) (key : string) (entry : Entry) (expiresAt : Z) (l : list item) :
    list item :=
  let it := {| item_key := key; item_entry := entry; item_expiresAt := expiresAt |} in
  match spec_lookup key l with
  | Some _ => it :: spec_remove key l
  | None => spec_truncate N (it :: l)
  end.

Definition spec_get (key : string) (ttl now1 now2 : Z) (l : list item) :
    option Entry * list item :=
  match spec_lookup key l with
  | None => (None, l)
  | Some it =>
      if item_expiresAt it <? now1 then (None, spec_remove key l)
      else (Some (item_entry it),
            {| item_key := key; item_entry := item_entry it;
               item_expiresAt := now2 + ttl |} :: spec_remove key l)
  end.

Definition spec_evict (now : Z) (l : list item) : list item :=
  filter (λ it, now ≤ item_expiresAt it) l.

(** The operations of a shard, as one sequence: the order in which its mutex is
    taken. Each carries the clock readings it makes. *)
Inductive shard_op :=
| OpPut (key : string) (entry : Entry) (ttl now : Z)
| OpGet (key : string) (ttl now1 now2 : Z)
| OpDelete (key : string)
| OpEvict (now : Z).

Definition spec_step (N : Z) (l : list item) (op : shard_op) : list item :=
  match op with
  | OpPut key entry ttl now => spec_put N key entry (now + ttl) l
  | OpGet key ttl now1 now2 => (spec_get key ttl now1 now2 l).2
  | OpDelete key => spec_remove key l
  | OpEvict now => spec_evict now l
  end.

Definition spec_run (N : Z) (ops : list shard_op) (l : list item) : list item :=
  foldl (spec_step N) l ops.

(** The key an operation is about. *)
Definition op_key (op : shard_op) : option string :=
  match op with
  | OpPut key _ _ _ | OpGet key _ _ _ | OpDelete key => Some key
  | OpEvict _ => None
  end.

(** The keys a sequence of operations may move to the front. *)
Definition op_touches (op : shard_op) : gset string :=
  match op with
  | OpPut key _ _ _ | OpGet key _ _ _ => {[key]}
  | _ => ∅
  end.

Definition touched (ops : list shard_op) : gset string := ⋃ (op_touches <$> ops).

Abbreviation keys l := (fmap (M:=list) item_key l).

Implicit Types (l : list item) (it : item) (T : gset string).

(** ** Lookup and removal *)

Lemma elem_of_keys k l : k ∈ keys l ↔ ∃ it, it ∈ l ∧ item_key it = k.
Proof. rewrite list_elem_of_fmap. naive_solver. Qed.

Lemma spec_lookup_Some k l it :
  NoDup (keys l) → spec_lookup k l = Some it ↔ it ∈ l ∧ item_key it = k.
Proof.
  unfold spec_lookup. induction l as [|x l IH]; simpl; intros Hnd; [set_solver|].
  apply NoDup_cons in Hnd as [Hx Hnd]. rewrite filter_cons. case_decide as Hk; simpl.
  - split; [intros [= ->]; set_solver|]. intros [[->|Hit]%elem_of_cons Hkey]; [done|].
    destruct Hx. apply elem_of_keys. exists it. split; [done|congruence].
  - rewrite IH by done. set_solver.
Qed.

Lemma spec_lookup_None k l : spec_lookup k l = None ↔ k ∉ keys l.
Proof.
  unfold spec_lookup. induction l as [|x l IH]; simpl; [set_solver|].
  rewrite filter_cons. case_decide; simpl; [set_solver|]. rewrite IH. set_solver.
Qed.

Lemma elem_of_spec_remove k l it : it ∈ spec_remove k l ↔ it ∈ l ∧ item_key it ≠ k.
Proof. unfold spec_remove. rewrite list_elem_of_filter. naive_solver. Qed.

Lemma spec_remove_notin k l : k ∉ keys l → spec_remove k l = l.
Proof.
  induction l as [|x l IH]; simpl; intros Hk; [done|].
  unfold spec_remove in *. rewrite filter_cons. case_decide; [f_equal|]; set_solver.
Qed.

Lemma keys_spec_remove k l : keys (spec_remove k l) = filter (.≠ k) (keys l).
Proof.
  unfold spec_remove. induction l as [|x l IH]; [done|].
  rewrite fmap_cons, !filter_cons. repeat case_decide; rewrite ?fmap_cons, ?IH; done.
Qed.

Lemma NoDup_keys_sublist l1 l2 : l1 `sublist_of` l2 → NoDup (keys l2) → NoDup (keys l1).
Proof. intros Hs Hnd. eapply sublist_NoDup; [done|]. by apply fmap_sublist. Qed.

Lemma spec_remove_sublist k l : spec_remove k l `sublist_of` l.
Proof. apply sublist_filter. Qed.

Lemma spec_truncate_sublist N l : spec_truncate N l `sublist_of` l.
Proof. unfold spec_truncate. destruct (0 <? N); [apply sublist_take|done]. Qed.

Lemma spec_evict_sublist now l : spec_evict now l `sublist_of` l.
Proof. apply sublist_filter. Qed.

(** ** The list invariant *)

Record lru_ok (N : Z) (l : list item) : Prop := {
  lru_keys : NoDup (keys l);
  lru_size : 0 < N → Z.of_nat (length l) ≤ N;
}.

Lemma lru_ok_sublist N l1 l2 : l1 `sublist_of` l2 → lru_ok N l2 → lru_ok N l1.
Proof.
  intros Hs [Hk Hn]. split; [by eapply NoDup_keys_sublist|].
  intros HN. apply sublist_length in Hs. specialize (Hn HN). lia.
Qed.

(** ** Every operation keeps the invariant *)

Lemma lru_ok_front N it l :
  lru_ok N l → item_key it ∈ keys l → lru_ok N (it :: spec_remove (item_key it) l).
Proof.
  intros [Hnd Hsz] Hin. split.
  - rewrite fmap_cons, keys_spec_remove. constructor; [|by apply NoDup_filter].
    rewrite list_elem_of_filter. naive_solver.
  - intros HN. specialize (Hsz HN). simpl.
    assert (length (spec_remove (item_key it) l) < length l)%nat; [|lia].
    apply elem_of_keys in Hin as (x & Hx & Hkx).
    unfold spec_remove. eapply length_filter_lt; [done|]. by intros ?.
Qed.

Lemma lru_ok_truncate N l : NoDup (keys l) → lru_ok N (spec_truncate N l).
Proof.
  intros Hnd. split; [by eapply NoDup_keys_sublist, Hnd; apply spec_truncate_sublist|].
  intros HN. unfold spec_truncate. rewrite (proj2 (Z.ltb_lt _ _)) by done.
  rewrite length_take. lia.
Qed.

Lemma spec_put_ok N key entry exp l : lru_ok N l → lru_ok N (spec_put N key entry exp l).
Proof.
  intros Hok. unfold spec_put. destruct (spec_lookup key l) as [x|] eqn:E.
  - apply (lru_ok_front N (Build_item key entry exp)); [done|]. simpl.
    apply spec_lookup_Some in E; [|by apply Hok]. apply elem_of_keys. naive_solver.
  - apply spec_lookup_None in E. apply lru_ok_truncate. constructor; [done|apply Hok].
Qed.

Lemma spec_get_ok N key ttl now1 now2 l :
  lru_ok N l → lru_ok N (spec_get key ttl now1 now2 l).2.
Proof.
  intros Hok. unfold spec_get. destruct (spec_lookup key l) as [x|] eqn:E; [|done].
  destruct (item_expiresAt x <? now1); simpl.
  - eapply lru_ok_sublist, Hok. apply spec_remove_sublist.
  - apply (lru_ok_front N (Build_item key (item_entry x) (now2 + ttl))); [done|]. simpl.
    apply spec_lookup_Some in E; [|by apply Hok]. apply elem_of_keys. naive_solver.
Qed.

Lemma spec_step_ok N l op : lru_ok N l → lru_ok N (spec_step N l op).
Proof.
  destruct op; simpl; intros Hok;
    [by apply spec_put_ok | by apply spec_get_ok | |];
    (eapply lru_ok_sublist, Hok); [apply spec_remove_sublist|apply spec_evict_sublist].
Qed.

Lemma spec_run_ok N ops l : lru_ok N l → lru_ok N (spec_run N ops l).
Proof. revert l. induction ops as [|op ops IH]; simpl; auto using spec_step_ok. Qed.

(** ** Where the items of the next state come from *)

Lemma elem_of_spec_put N key entry exp l it :
  it ∈ spec_put N key entry exp l →
  it = Build_item key entry exp ∨ (it ∈ l ∧ item_key it ≠ key).
Proof.
  unfold spec_put. destruct (spec_lookup key l) eqn:E.
  - rewrite elem_of_cons, elem_of_spec_remove. naive_solver.
  - intros Hit. eapply elem_of_sublist in Hit; [|apply spec_truncate_sublist].
    apply elem_of_cons in Hit as [?|Hit]; [by left|right]. split; [done|].
    intros <-. apply spec_lookup_None in E. apply E, elem_of_keys. eauto.
Qed.

Lemma elem_of_spec_get key ttl now1 now2 l it :
  it ∈ (spec_get key ttl now1 now2 l).2 →
  (it ∈ l ∧ (item_key it = key → spec_lookup key l = None)) ∨
  (∃ x, spec_lookup key l = Some x ∧ now1 ≤ item_expiresAt x ∧
        it = Build_item key (item_entry x) (now2 + ttl)).
Proof.
  unfold spec_get. destruct (spec_lookup key l) as [x|] eqn:E; [|naive_solver].
  destruct (item_expiresAt x <? now1) eqn:Ex; simpl; bool_to_prop;
    rewrite ?elem_of_cons, elem_of_spec_remove; naive_solver.
Qed.

(** An operation on another key changes neither entry nor expiry of [k]'s item. *)
Lemma spec_step_other N l op it :
  it ∈ spec_step N l op → op_key op ≠ Some (item_key it) → it ∈ l.
Proof.
  destruct op; simpl; intros Hit Hne.
  - apply elem_of_spec_put in Hit as [->|[? _]]; naive_solver.
  - apply elem_of_spec_get in Hit as [[? _]|(x & _ & _ & ->)]; naive_solver.
  - by apply elem_of_spec_remove in Hit as [? _].
  - by apply list_elem_of_filter in Hit as [_ ?].
Qed.

Lemma spec_run_other N ops l it :
  it ∈ spec_run N ops l → Forall (λ op, op_key op ≠ Some (item_key it)) ops → it ∈ l.
Proof.
  revert l. induction ops as [|op ops IH]; simpl; intros l Hit Hops; [done|].
  inversion Hops; subst. eapply spec_step_other; [|done]. by eapply IH.
Qed.

(** ** Retention: the LRU guarantee *)

(** [it] sits behind items whose keys are all in [T]. *)
Definition behind (T : gset string) (it : item) (l : list item) : Prop :=
  ∃ pre post, l = pre ++ it :: post ∧ ∀ k, k ∈ keys pre → k ∈ T.

Lemma behind_mono T T' it l : T ⊆ T' → behind T it l → behind T' it l.
Proof. intros HT (pre & post & -> & Hpre). exists pre, post. set_solver. Qed.

Lemma behind_remove T it k l :
  item_key it ≠ k → behind T it l → behind T it (spec_remove k l).
Proof.
  intros Hne (pre & post & -> & Hpre). exists (spec_remove k pre), (spec_remove k post).
  split; [unfold spec_remove; by rewrite filter_app, filter_cons_True|].
  intros k'. rewrite keys_spec_remove, list_elem_of_filter. naive_solver.
Qed.

Lemma behind_front T it x l :
  behind T it l → behind ({[item_key x]} ∪ T) it (x :: l).
Proof. intros (pre & post & -> & Hpre). exists (x :: pre), post. set_solver. Qed.

Lemma behind_length T it l pre post :
  NoDup (keys (pre ++ it :: post)) → l = pre ++ it :: post →
  (∀ k, k ∈ keys pre → k ∈ T) → (length pre ≤ size T)%nat.
Proof.
  intros Hnd _ Hpre. rewrite fmap_app in Hnd. apply NoDup_app in Hnd as (Hnd & _ & _).
  rewrite <- (length_fmap item_key), <- (size_list_to_set (C := gset string)) by done.
  apply subseteq_size. intros k. rewrite elem_of_list_to_set. auto.
Qed.

Lemma behind_truncate N T it l :
  NoDup (keys l) → behind T it l → Z.of_nat (size T) < N → behind T it (spec_truncate N l).
Proof.
  intros Hnd (pre & post & -> & Hpre) Hlt.
  pose proof (behind_length T it _ pre post Hnd eq_refl Hpre) as Hlen.
  unfold spec_truncate. rewrite (proj2 (Z.ltb_lt _ _)) by lia.
  exists pre, (take (Z.to_nat N - length pre - 1) post). split; [|done].
  rewrite take_app, (take_ge pre) by lia. f_equal.
  destruct (Z.to_nat N - length pre)%nat as [|n] eqn:E; [lia|]. simpl. do 2 f_equal. lia.
Qed.

(** What leaves [it] alone: operations on other keys, sweeps before its expiry. *)
Definition op_spares (it : item) (op : shard_op) : Prop :=
  op_key op ≠ Some (item_key it) ∧
  match op with OpEvict now => now ≤ item_expiresAt it | _ => True end.

Lemma behind_put N T it key entry exp l :
  lru_ok N l → behind T it l → key ≠ item_key it →
  (0 < N → Z.of_nat (size ({[key]} ∪ T)) < N) →
  behind ({[key]} ∪ T) it (spec_put N key entry exp l).
Proof.
  intros Hok Hb Hne Hsz. unfold spec_put. destruct (spec_lookup key l) eqn:E.
  - by apply (behind_front T it (Build_item key entry exp)), behind_remove.
  - apply spec_lookup_None in E.
    assert (Hf : behind ({[key]} ∪ T) it (Build_item key entry exp :: l))
      by by apply (behind_front T it (Build_item key entry exp)).
    destruct (decide (0 < N)) as [HN|HN].
    + apply behind_truncate; [by constructor; [|apply Hok]|done|auto].
    + unfold spec_truncate. by rewrite (proj2 (Z.ltb_ge _ _)) by lia.
Qed.

Lemma behind_get T it key ttl now1 now2 l :
  behind T it l → key ≠ item_key it →
  behind ({[key]} ∪ T) it (spec_get key ttl now1 now2 l).2.
Proof.
  intros Hb Hne. unfold spec_get. destruct (spec_lookup key l) as [x|].
  - destruct (item_expiresAt x <? now1); simpl.
    + apply behind_remove; [done|]. eapply behind_mono, Hb. set_solver.
    + by apply (behind_front T it (Build_item key (item_entry x) (now2 + ttl))), behind_remove.
  - eapply behind_mono, Hb. set_solver.
Qed.

Lemma behind_step N T it l op :
  lru_ok N l → behind T it l → op_spares it op →
  (0 < N → Z.of_nat (size (op_touches op ∪ T)) < N) →
  behind (op_touches op ∪ T) it (spec_step N l op).
Proof.
  intros Hok Hb [Hkey Hev] Hsz. destruct op; simpl in *.
  - apply behind_put; naive_solver.
  - apply behind_get; naive_solver.
  - rewrite (left_id_L ∅ (∪)). apply behind_remove; naive_solver.
  - rewrite (left_id_L ∅ (∪)). destruct Hb as (pre & post & -> & Hpre).
    exists (spec_evict now pre), (spec_evict now post). split.
    + unfold spec_evict. by rewrite filter_app, filter_cons_True.
    + intros k (x & Hx & <-)%elem_of_keys. apply Hpre, elem_of_keys.
      apply list_elem_of_filter in Hx as [_ ?]. eauto.
Qed.

Lemma behind_run N T it ops l :
  lru_ok N l → behind T it l → Forall (op_spares it) ops →
  (0 < N → Z.of_nat (size (touched ops ∪ T)) < N) →
  ∃ T', behind T' it (spec_run N ops l).
Proof.
  revert T l. induction ops as [|op ops IH]; simpl; intros T l Hok Hb Hops Hsz; [by exists T|].
  inversion Hops as [|? ? Hop Hops']; subst.
  apply (IH (op_touches op ∪ T)); [by apply spec_step_ok| |done|].
  - apply behind_step; [done..|]. intros HN. specialize (Hsz HN).
    assert (size (op_touches op ∪ T) ≤ size (touched (op :: ops) ∪ T))%nat; [|lia].
    apply subseteq_size. unfold touched. simpl. set_solver.
  - intros HN. specialize (Hsz HN). unfold touched in *. simpl in Hsz.
    by replace (⋃ (op_touches <$> ops) ∪ (op_touches op ∪ T))
      with (op_touches op ∪ ⋃ (op_touches <$> ops) ∪ T) by set_solver.
Qed.

(** An item at the front survives any operations on fewer than [N] other keys. *)
Lemma lru_retention N it ops l :
  lru_ok N (it :: l) → Forall (op_spares it) ops →
  (0 < N → Z.of_nat (size (touched ops)) < N) →
  spec_lookup (item_key it) (spec_run N ops (it :: l)) = Some it.
Proof.
  intros Hok Hops Hsz.
  destruct (behind_run N ∅ it ops (it :: l)) as (T & pre & post & Heq & _); [done| |done| |].
  - exists [], l. set_solver.
  - by rewrite (right_id_L ∅ (∪)).
  - apply spec_lookup_Some; [by apply (spec_run_ok N ops) in Hok as [? _]|].
    rewrite Heq. set_solver.
Qed.

(** ** Expiry *)

(** Once [k] is left alone, a lookup after its expiry misses. *)
Lemma lru_expiry N it ops l ttl now1 now2 :
  lru_ok N (it :: l) → Forall (λ op, op_key op ≠ Some (item_key it)) ops →
  item_expiresAt it < now1 →
  (spec_get (item_key it) ttl now1 now2 (spec_run N ops (it :: l))).1 = None.
Proof.
  intros Hok Hops Hlt. unfold spec_get.
  destruct (spec_lookup _ _) as [x|] eqn:E; [|done].
  pose proof (spec_run_ok N ops _ Hok) as [Hnd' _].
  apply spec_lookup_Some in E as [Hx Hkx]; [|done].
  assert (x ∈ it :: l) as Hin.
  { eapply spec_run_other; [done|]. by rewrite Hkx. }
  assert (x = it) as ->.
  { apply elem_of_cons in Hin as [?|Hin]; [done|]. destruct Hok as [Hnd _].
    apply NoDup_cons in Hnd as [[] _]. apply elem_of_keys. eauto. }
  by rewrite (proj2 (Z.ltb_lt _ _)).
Qed.
