(* ===== verification/Shard.v ===== *)
(** * One shard of the local token cache ([internal/tokencache/cache.go])

    A shard is modelled with its pointers: the map [items] from key to list
    element, the doubly linked list [ll] as the sequence of its element
    addresses (front first) and the memory those addresses point to. Every
    operation runs under the shard's mutex and so is one atomic step. It refines
    [LruSpec]. *)

From S2P Require Import Prelude Store LruSpec.
Local Open Scope Z_scope.

(** ** Data *)

(** The address of a [*list.Element]. *)
Abbreviation loc := nat.

Record shard := {
  sh_items : gmap string loc;
  sh_ll : list loc;
  sh_elems : loc → item;  (* what each element's Value points to *)
  sh_next : loc;          (* the next address the allocator returns *)
  sh_maxSize : Z;
}.

Definition zero_item : item :=
  {| item_key := ""; item_expiresAt := 0;
     item_entry := {| entry_Namespace := ""; entry_TaskQueue := "" |} |}.

Definition newShard (maxSize : Z) : shard :=
  {| sh_items := ∅; sh_ll := []; sh_elems := λ _, zero_item; sh_next := O;
     sh_maxSize := maxSize |}.

(** ** [container/list] *)

Definition list_Remove (el : loc) (ll : list loc) : list loc := filter (.≠ el) ll.

Definition list_MoveToFront (el : loc) (ll : list loc) : list loc := el :: list_Remove el ll.

Definition list_Back (ll : list loc) : option loc := last ll.

(** [el.Prev()]: the element before [el], nil at the front. *)
Fixpoint list_Prev (el : loc) (ll : list loc) : option loc :=
  match ll with
  | x :: (y :: _) as ll' => if decide (y = el) then Some x else list_Prev el ll'
  | _ => None
  end.

(** ** Shard operations *)

(** [*el.Value.( *item) = it] *)
Definition set_elem (el : loc) (it : item) (s : shard) : shard :=
  {| sh_items := sh_items s; sh_ll := sh_ll s;
     sh_elems := λ l, if decide (l = el) then it else sh_elems s l;
     sh_next := sh_next s; sh_maxSize := sh_maxSize s |}.

Definition move_to_front (el : loc) (s : shard) : shard :=
  {| sh_items := sh_items s; sh_ll := list_MoveToFront el (sh_ll s);
     sh_elems := sh_elems s; sh_next := sh_next s; sh_maxSize := sh_maxSize s |}.

Definition removeElement (el : loc) (s : shard) : shard :=
  {| sh_items := delete (item_key (sh_elems s el)) (sh_items s);
     sh_ll := list_Remove el (sh_ll s);
     sh_elems := sh_elems s; sh_next := sh_next s; sh_maxSize := sh_maxSize s |}.

(** [el := s.ll.PushFront(it); s.items[it.key] = el] *)
Definition push_item (it : item) (s : shard) : shard :=
  let el := sh_next s in
  {| sh_items := <[item_key it := el]> (sh_items s);
     sh_ll := el :: sh_ll s;
     sh_elems := λ l, if decide (l = el) then it else sh_elems s l;
     sh_next := Datatypes.S el; sh_maxSize := sh_maxSize s |}.

(** The condition of the eviction loop of [put]. *)
Definition over_capacity (s : shard) : bool :=
  (0 <? sh_maxSize s) && (sh_maxSize s <? Z.of_nat (size (sh_items s))).

(** The eviction loop of [put]: the shard it leaves, or [None] if it has not left
    the loop after [fuel] tests of its condition. *)
Fixpoint evict_loop (fuel : nat) (s : shard) : option shard :=
  match fuel with
  | O => None
  | Datatypes.S fuel' =>
      if over_capacity s then
        match list_Back (sh_ll s) with
        | None => Some s
        | Some back => evict_loop fuel' (removeElement back s)
        end
      else Some s
  end.

(** [now] is the one clock reading of the call. The loop is given a test for each
    entry and one to leave on, which is enough ([shard_loops_terminate]). *)
Definition shard_put (key : string) (entry : Entry) (ttl now : Z) (s : shard) : shard :=
  let expiresAt := now + ttl in
  let it := {| item_key := key; item_entry := entry; item_expiresAt := expiresAt |} in
  match sh_items s !! key with
  | Some el =>
      let old := sh_elems s el in
      move_to_front el
        (set_elem el {| item_key := item_key old; item_entry := entry;
                        item_expiresAt := expiresAt |} s)
  | None =>
      let s1 := push_item it s in
      default s1 (evict_loop (Datatypes.S (size (sh_items s1))) s1)
  end.

(** [now1] is the reading compared with the expiry, [now2] the later one that
    the new expiry is counted from. *)
Definition shard_get (key : string) (ttl now1 now2 : Z) (s : shard) : option Entry * shard :=
  match sh_items s !! key with
  | None => (None, s)
  | Some el =>
      let it := sh_elems s el in
      if item_expiresAt it <? now1 then (None, removeElement el s)
      else
        (Some (item_entry it),
         move_to_front el
           (set_elem el {| item_key := item_key it; item_entry := item_entry it;
                           item_expiresAt := now2 + ttl |} s))
  end.

Definition shard_delete (key : string) (s : shard) : shard :=
  match sh_items s !! key with
  | Some el => removeElement el s
  | None => s
  end.

(** The loop of [evictExpired], from element [el]: the shard it leaves, or [None]
    if it has not left the loop after [fuel] tests of [el != nil]. [Prev] is read
    before the element is removed. *)
Fixpoint evict_from (fuel : nat) (el : option loc) (now : Z) (s : shard) : option shard :=
  match fuel with
  | O => None
  | Datatypes.S fuel' =>
      match el with
      | None => Some s
      | Some el =>
          let prev := list_Prev el (sh_ll s) in
          let s' := if item_expiresAt (sh_elems s el) <? now then removeElement el s else s in
          evict_from fuel' prev now s'
      end
  end.

Definition evictExpired (now : Z) (s : shard) : shard :=
  default s (evict_from (Datatypes.S (length (sh_ll s))) (list_Back (sh_ll s)) now s).

(** What a shard stands for. *)
Definition shard_abs (s : shard) : list item := sh_elems s <$> sh_ll s.

(** The list holds each element once; the map and the list hold the same
    elements, each under its item's key; no element lies beyond the allocator. *)
Record shard_inv (s : shard) : Prop := {
  inv_nodup : NoDup (sh_ll s);
  inv_items k el : sh_items s !! k = Some el ↔ el ∈ sh_ll s ∧ item_key (sh_elems s el) = k;
  inv_alloc el : el ∈ sh_ll s → (el < sh_next s)%nat;
}.

(** Between operations the shard is also within its capacity. *)
Record shard_wf (s : shard) : Prop := {
  wf_inv : shard_inv s;
  wf_size : 0 < sh_maxSize s → Z.of_nat (length (sh_ll s)) ≤ sh_maxSize s;
}.

Definition shard_step (s : shard) (op : shard_op) : shard :=
  match op with
  | OpPut key entry ttl now => shard_put key entry ttl now s
  | OpGet key ttl now1 now2 => (shard_get key ttl now1 now2 s).2
  | OpDelete key => shard_delete key s
  | OpEvict now => evictExpired now s
  end.

Definition shard_run (ops : list shard_op) (s : shard) : shard := foldl shard_step s ops.

(** ** The list operations *)

Lemma elem_of_list_Remove x el ll : x ∈ list_Remove el ll ↔ x ∈ ll ∧ x ≠ el.
Proof. unfold list_Remove. rewrite list_elem_of_filter. naive_solver. Qed.

Lemma list_Remove_middle pre el post :
  NoDup (pre ++ el :: post) → list_Remove el (pre ++ el :: post) = pre ++ post.
Proof. apply filter_neq_middle. Qed.

Lemma list_Prev_middle pre el post :
  NoDup (pre ++ el :: post) → list_Prev el (pre ++ el :: post) = last pre.
Proof.
  induction pre as [|x pre IH]; intros Hnd.
  - assert (Hout : ∀ ll, el ∉ ll → ∀ z, list_Prev el (z :: ll) = None).
    { induction ll as [|w ll IHl]; intros Hw z; [done|]. cbn [list_Prev].
      rewrite decide_False by set_solver. apply IHl. set_solver. }
    apply NoDup_cons in Hnd as [Hel _]. exact (Hout post Hel el).
  - simpl in Hnd. apply NoDup_cons in Hnd as [Hx Hnd].
    destruct pre as [|y pre]; cbn [app list_Prev].
    + by rewrite decide_True.
    + rewrite decide_False; [|intros ->; apply NoDup_cons in Hnd as [[] _]; set_solver].
      rewrite last_cons_cons. by apply IH.
Qed.

(** ** The abstraction *)

Section abstraction.
Context (s : shard) (Hinv : shard_inv s).

Lemma elem_of_shard_abs it : it ∈ shard_abs s ↔ ∃ el, el ∈ sh_ll s ∧ sh_elems s el = it.
Proof. unfold shard_abs. rewrite list_elem_of_fmap. naive_solver. Qed.

Lemma shard_key_inj x y :
  x ∈ sh_ll s → y ∈ sh_ll s → item_key (sh_elems s x) = item_key (sh_elems s y) → x = y.
Proof.
  intros Hx Hy Heq.
  assert (sh_items s !! item_key (sh_elems s x) = Some x) by by apply Hinv.
  assert (sh_items s !! item_key (sh_elems s x) = Some y) by by apply Hinv.
  congruence.
Qed.

Lemma shard_keys_NoDup : NoDup (keys (shard_abs s)).
Proof.
  unfold shard_abs. rewrite <- list_fmap_compose. apply NoDup_fmap_2_strong; [|apply Hinv].
  intros x y Hx Hy. by apply shard_key_inj.
Qed.

Lemma shard_items_size : size (sh_items s) = length (sh_ll s).
Proof.
  assert (sh_items s = list_to_map ((λ el, (item_key (sh_elems s el), el)) <$> sh_ll s)) as ->.
  { apply map_eq. intros k. apply option_eq. intros el. rewrite inv_items by done.
    rewrite <- elem_of_list_to_map.
    - rewrite list_elem_of_fmap. naive_solver.
    - rewrite <- list_fmap_compose. change (NoDup ((item_key ∘ sh_elems s) <$> sh_ll s)).
      rewrite list_fmap_compose. apply shard_keys_NoDup. }
  rewrite map_size_list_to_map; [by rewrite length_fmap|].
  rewrite <- list_fmap_compose. change (NoDup ((item_key ∘ sh_elems s) <$> sh_ll s)).
  rewrite list_fmap_compose. apply shard_keys_NoDup.
Qed.

Lemma shard_lookup_Some k el :
  sh_items s !! k = Some el → spec_lookup k (shard_abs s) = Some (sh_elems s el).
Proof.
  intros [Hel Hk]%inv_items; [|done]. apply spec_lookup_Some; [apply shard_keys_NoDup|].
  split; [|done]. apply elem_of_shard_abs. eauto.
Qed.

Lemma shard_lookup_None k : sh_items s !! k = None → spec_lookup k (shard_abs s) = None.
Proof.
  intros Hk. apply spec_lookup_None. intros (it & (el & Hel & <-)%elem_of_shard_abs & Heq)%elem_of_keys.
  assert (sh_items s !! k = Some el) by by apply inv_items. congruence.
Qed.

Lemma removeElement_inv el : el ∈ sh_ll s → shard_inv (removeElement el s).
Proof.
  intros Hel. split; simpl.
  - apply NoDup_filter, Hinv.
  - intros k x. rewrite lookup_delete_Some, inv_items, elem_of_list_Remove by done.
    split; [intros (Hne & Hx & Hk); naive_solver|].
    intros ((Hx & Hne) & <-). split_and!; [|done..].
    intros Heq. by destruct Hne; apply shard_key_inj.
  - intros x [Hx _]%elem_of_list_Remove. by apply Hinv.
Qed.

Lemma removeElement_abs el :
  el ∈ sh_ll s →
  shard_abs (removeElement el s) = spec_remove (item_key (sh_elems s el)) (shard_abs s).
Proof.
  intros Hel. unfold shard_abs, spec_remove, list_Remove; simpl.
  rewrite filter_fmap. f_equal. apply filter_ext_in.
  intros x Hx. simpl. split; [intros Hne Heq|naive_solver].
  by apply Hne, shard_key_inj.
Qed.
End abstraction.

(** ** Refreshing an element *)

(** Overwriting an element with an item of the same key and moving it to the
    front: what [put] on a present key and a hit of [get] do. *)
Lemma refresh_inv s el it :
  shard_inv s → el ∈ sh_ll s → item_key it = item_key (sh_elems s el) →
  shard_inv (move_to_front el (set_elem el it s)).
Proof.
  intros Hinv Hel Hkey. split; simpl; unfold list_MoveToFront.
  - constructor; [|by apply NoDup_filter, Hinv]. rewrite elem_of_list_Remove. naive_solver.
  - intros k x. rewrite inv_items, elem_of_cons, elem_of_list_Remove by done.
    case_decide; subst; naive_solver.
  - intros x. rewrite elem_of_cons, elem_of_list_Remove. intros [->|[Hx _]]; by apply Hinv.
Qed.

Lemma refresh_abs s el it :
  shard_inv s → el ∈ sh_ll s → item_key it = item_key (sh_elems s el) →
  shard_abs (move_to_front el (set_elem el it s)) = it :: spec_remove (item_key it) (shard_abs s).
Proof.
  intros Hinv Hel Hkey. rewrite Hkey, <- (removeElement_abs s Hinv) by done.
  unfold shard_abs. simpl. rewrite decide_True by done. f_equal.
  apply list_fmap_ext. intros i x Hx%list_elem_of_lookup_2.
  apply elem_of_list_Remove in Hx as [_ Hne]. by rewrite decide_False.
Qed.

Lemma length_list_Remove el ll : (length (list_Remove el ll) ≤ length ll)%nat.
Proof. apply length_filter. Qed.

Lemma length_MoveToFront el ll :
  el ∈ ll → (length (list_MoveToFront el ll) ≤ length ll)%nat.
Proof.
  intros Hel. simpl. assert (length (list_Remove el ll) < length ll)%nat; [|lia].
  unfold list_Remove. eapply length_filter_lt; [done|]. naive_solver.
Qed.

(** ** Inserting *)

Lemma push_item_inv s it :
  shard_inv s → sh_items s !! item_key it = None → shard_inv (push_item it s).
Proof.
  intros Hinv Hnone.
  assert (Hfresh : sh_next s ∉ sh_ll s) by (intros Hin%Hinv; lia).
  split; simpl.
  - by constructor; [|apply Hinv].
  - intros k x. rewrite elem_of_cons. case_decide as Hx; subst.
    + split; [|intros [_ <-]; by rewrite lookup_insert_eq].
      intros [[<- _]|[Hne Hk%inv_items]]%lookup_insert_Some; naive_solver.
    + rewrite lookup_insert_Some, inv_items by done. split; [naive_solver|].
      intros [[?|Hin] <-]; [done|]. right. split; [|done].
      intros Heq. assert (sh_items s !! item_key it = Some x) by by apply inv_items. congruence.
  - intros x [->|Hx]%elem_of_cons; [lia|]. apply Hinv in Hx. lia.
Qed.

Lemma push_item_abs s it : shard_inv s → shard_abs (push_item it s) = it :: shard_abs s.
Proof.
  intros Hinv. unfold shard_abs. simpl. rewrite decide_True by done. f_equal.
  apply list_fmap_ext. intros i x Hx%list_elem_of_lookup_2.
  rewrite decide_False; [done|]. intros ->. apply Hinv in Hx. lia.
Qed.

(** ** The eviction loop of [put] *)

Lemma spec_remove_last l it :
  NoDup (keys (l ++ [it])) → spec_remove (item_key it) (l ++ [it]) = l.
Proof.
  rewrite fmap_app. intros (_ & Hdisj & _)%NoDup_app.
  unfold spec_remove. rewrite filter_app, filter_cons_False by naive_solver.
  rewrite filter_nil, app_nil_r. apply filter_all, Forall_forall. intros x Hx Heq.
  apply (Hdisj (item_key x)); [apply elem_of_keys; eauto|]. rewrite Heq. set_solver.
Qed.

Lemma spec_truncate_drop_last N l it :
  0 < N → N < Z.of_nat (length (l ++ [it])) → spec_truncate N (l ++ [it]) = spec_truncate N l.
Proof.
  intros HN Hlt. unfold spec_truncate. rewrite (proj2 (Z.ltb_lt _ _)) by done.
  rewrite length_app in Hlt. simpl in Hlt. rewrite take_app_le; [done|lia].
Qed.

(** Removing the back of the list keeps what truncation keeps. *)
Lemma evict_back s back :
  shard_inv s → over_capacity s = true → list_Back (sh_ll s) = Some back →
  back ∈ sh_ll s ∧
  spec_truncate (sh_maxSize s) (shard_abs (removeElement back s)) =
  spec_truncate (sh_maxSize s) (shard_abs s).
Proof.
  intros Hinv Hover Hback. unfold over_capacity in Hover. bool_to_prop.
  rewrite shard_items_size in * by done.
  apply last_Some in Hback as (ll & Hll).
  assert (Hin : back ∈ sh_ll s) by (rewrite Hll; set_solver). split; [done|].
  rewrite removeElement_abs by done.
  pose proof (shard_keys_NoDup s Hinv) as Hnd.
  unfold shard_abs in *. rewrite Hll, fmap_app in *. simpl in *.
  rewrite spec_remove_last by done. symmetry. apply spec_truncate_drop_last; [done|].
  rewrite length_app, length_fmap in *. done.
Qed.

(** With a test for every entry of the map and one more, the loop leaves through
    its condition, and it has truncated the list. *)
Lemma evict_loop_spec fuel s :
  shard_inv s → (size (sh_items s) < fuel)%nat →
  ∃ s', evict_loop fuel s = Some s' ∧
    shard_inv s' ∧ over_capacity s' = false ∧ sh_maxSize s' = sh_maxSize s ∧
    shard_abs s' = spec_truncate (sh_maxSize s) (shard_abs s).
Proof.
  assert (Hdone : ∀ s, shard_inv s → over_capacity s = false →
    shard_abs s = spec_truncate (sh_maxSize s) (shard_abs s)).
  { intros s0 Hinv Hover. unfold over_capacity in Hover.
    rewrite shard_items_size in Hover by done. unfold spec_truncate.
    destruct (0 <? sh_maxSize s0) eqn:HN; simpl in *; [|done]. bool_to_prop.
    rewrite take_ge; [done|]. unfold shard_abs. rewrite length_fmap. lia. }
  revert s. induction fuel as [|fuel IH]; intros s Hinv Hfuel; [lia|]. simpl.
  destruct (over_capacity s) eqn:Hover; [|exists s; split_and!; auto].
  destruct (list_Back (sh_ll s)) as [back|] eqn:Hback.
  - destruct (evict_back s back Hinv Hover Hback) as [Hin Habs].
    pose proof (removeElement_inv s Hinv back Hin) as Hinv'.
    destruct (IH (removeElement back s) Hinv') as (s' & Hs' & ? & ? & ? & Habs').
    + rewrite !shard_items_size in * by done.
      assert (length (list_Remove back (sh_ll s)) < length (sh_ll s))%nat; [|simpl; lia].
      unfold list_Remove. eapply length_filter_lt; [done|]. naive_solver.
    + exists s'. split_and!; [done..|]. by rewrite Habs'.
  - apply last_None in Hback. unfold over_capacity in Hover.
    rewrite shard_items_size, Hback in Hover by done. bool_to_prop. simpl in *. lia.
Qed.

Lemma over_capacity_false s :
  shard_inv s → over_capacity s = false → shard_wf s.
Proof.
  intros Hinv Hover. split; [done|]. intros HN. unfold over_capacity in Hover.
  rewrite shard_items_size in Hover by done. apply andb_false_iff in Hover.
  rewrite !Z.ltb_ge in Hover. lia.
Qed.

(** ** The operations *)

Lemma shard_put_refines key entry ttl now s :
  shard_wf s →
  let s' := shard_put key entry ttl now s in
  shard_wf s' ∧ sh_maxSize s' = sh_maxSize s ∧
  shard_abs s' = spec_put (sh_maxSize s) key entry (now + ttl) (shard_abs s).
Proof.
  intros [Hinv Hsz]. unfold shard_put, spec_put. destruct (sh_items s !! key) as [el|] eqn:E.
  - rewrite (shard_lookup_Some s Hinv _ _ E). apply inv_items in E as [Hel Hkey]; [|done].
    split_and!; [|done|].
    + split; [by apply refresh_inv|]. simpl. intros HN. specialize (Hsz HN).
      pose proof (length_MoveToFront el (sh_ll s) Hel) as Hlen. simpl in Hlen. lia.
    + rewrite refresh_abs by done. simpl. by rewrite Hkey.
  - rewrite (shard_lookup_None s Hinv _ E).
    set (it := {| item_key := key; item_entry := entry; item_expiresAt := now + ttl |}).
    destruct (evict_loop_spec _ (push_item it s) (push_item_inv s it Hinv E) (Nat.lt_succ_diag_r _))
      as (s' & -> & Hinv' & Hover & Hmax & Habs). simpl.
    split_and!; [by apply over_capacity_false|by rewrite Hmax|].
    by rewrite Habs, push_item_abs.
Qed.

Lemma removeElement_wf s el : shard_wf s → el ∈ sh_ll s → shard_wf (removeElement el s).
Proof.
  intros [Hinv Hsz] Hel. split; [by apply removeElement_inv|]. simpl. intros HN.
  specialize (Hsz HN). pose proof (length_list_Remove el (sh_ll s)). lia.
Qed.

Lemma shard_get_refines key ttl now1 now2 s :
  shard_wf s →
  let '(r, s') := shard_get key ttl now1 now2 s in
  shard_wf s' ∧ sh_maxSize s' = sh_maxSize s ∧
  (r, shard_abs s') = spec_get key ttl now1 now2 (shard_abs s).
Proof.
  intros Hwf. pose proof Hwf as [Hinv Hsz]. unfold shard_get, spec_get.
  destruct (sh_items s !! key) as [el|] eqn:E.
  - rewrite (shard_lookup_Some s Hinv _ _ E). apply inv_items in E as [Hel Hkey]; [|done].
    destruct (item_expiresAt (sh_elems s el) <? now1).
    + split_and!; [by apply removeElement_wf|done|]. by rewrite removeElement_abs, Hkey.
    + split_and!; [|done|].
      * split; [by apply refresh_inv|]. simpl. intros HN. specialize (Hsz HN).
        pose proof (length_MoveToFront el (sh_ll s) Hel) as Hlen. simpl in Hlen. lia.
      * rewrite refresh_abs by done. simpl. by rewrite Hkey.
  - by rewrite (shard_lookup_None s Hinv _ E).
Qed.

Lemma shard_delete_refines key s :
  shard_wf s →
  let s' := shard_delete key s in
  shard_wf s' ∧ sh_maxSize s' = sh_maxSize s ∧ shard_abs s' = spec_remove key (shard_abs s).
Proof.
  intros Hwf. pose proof Hwf as [Hinv Hsz]. unfold shard_delete.
  destruct (sh_items s !! key) as [el|] eqn:E.
  - apply inv_items in E as [Hel Hkey]; [|done].
    split_and!; [by apply removeElement_wf|done|]. by rewrite removeElement_abs, Hkey.
  - split_and!; [done..|]. symmetry. apply spec_remove_notin, spec_lookup_None.
    by apply shard_lookup_None.
Qed.

(** ** The sweep *)

(** The loop, positioned on the last element of [pre], with [post] already
    visited: it leaves after [pre], which it filters, and leaves [post] alone. *)
Lemma evict_from_spec now pre s post fuel :
  shard_wf s → sh_ll s = pre ++ post → (length pre < fuel)%nat →
  ∃ s', evict_from fuel (last pre) now s = Some s' ∧
    shard_wf s' ∧ sh_maxSize s' = sh_maxSize s ∧
    shard_abs s' = spec_evict now (sh_elems s <$> pre) ++ (sh_elems s <$> post).
Proof.
  revert s post fuel. induction pre as [|el pre IH] using rev_ind; intros s post fuel Hwf Hll Hfuel.
  - destruct fuel as [|fuel]; simpl in Hfuel; [lia|]. exists s. split_and!; [done..|].
    unfold shard_abs. by rewrite Hll.
  - rewrite length_app in Hfuel. simpl in Hfuel. destruct fuel as [|fuel]; [lia|].
    rewrite last_snoc. cbn [evict_from]. rewrite <- app_assoc in Hll. simpl in Hll.
    pose proof Hwf as [Hinv _]. pose proof (inv_nodup s Hinv) as Hnd. rewrite Hll in Hnd.
    rewrite Hll, list_Prev_middle by done.
    rewrite fmap_app. unfold spec_evict. rewrite filter_app. cbn [fmap list_fmap].
    destruct (item_expiresAt (sh_elems s el) <? now) eqn:Ex; bool_to_prop.
    + rewrite filter_cons_False, filter_nil, app_nil_r by lia.
      apply (IH (removeElement el s) post); [|simpl|lia].
      * apply removeElement_wf; [done|]. rewrite Hll. set_solver.
      * rewrite Hll. by apply list_Remove_middle.
    + rewrite filter_cons_True, filter_nil, <- app_assoc by lia.
      apply (IH s (el :: post)); [done|by rewrite Hll|lia].
Qed.

(** The whole sweep. *)
Lemma evict_all_spec now s fuel :
  shard_wf s → (length (sh_ll s) < fuel)%nat →
  ∃ s', evict_from fuel (list_Back (sh_ll s)) now s = Some s' ∧
    shard_wf s' ∧ sh_maxSize s' = sh_maxSize s ∧ shard_abs s' = spec_evict now (shard_abs s).
Proof.
  intros Hwf Hfuel.
  destruct (evict_from_spec now (sh_ll s) s [] fuel) as (s' & ? & ? & ? & Habs);
    [done|by rewrite app_nil_r|done|].
  exists s'. split_and!; [done..|]. by rewrite Habs, app_nil_r.
Qed.

Lemma evictExpired_refines now s :
  shard_wf s →
  let s' := evictExpired now s in
  shard_wf s' ∧ sh_maxSize s' = sh_maxSize s ∧ shard_abs s' = spec_evict now (shard_abs s).
Proof.
  intros Hwf. unfold evictExpired.
  by destruct (evict_all_spec now s _ Hwf (Nat.lt_succ_diag_r _)) as (s' & -> & ?).
Qed.

(** ** Any sequence of operations *)

Lemma shard_step_refines op s :
  shard_wf s →
  let s' := shard_step s op in
  shard_wf s' ∧ sh_maxSize s' = sh_maxSize s ∧
  shard_abs s' = spec_step (sh_maxSize s) (shard_abs s) op.
Proof.
  intros Hwf. destruct op; simpl.
  - by apply shard_put_refines.
  - pose proof (shard_get_refines key ttl now1 now2 s Hwf) as Hget.
    destruct (shard_get key ttl now1 now2 s) as [r s'], Hget as (? & ? & Heq).
    split_and!; [done..|]. by rewrite <- Heq.
  - by apply shard_delete_refines.
  - by apply evictExpired_refines.
Qed.

Lemma shard_run_refines ops s :
  shard_wf s →
  let s' := shard_run ops s in
  shard_wf s' ∧ sh_maxSize s' = sh_maxSize s ∧
  shard_abs s' = spec_run (sh_maxSize s) ops (shard_abs s).
Proof.
  unfold shard_run, spec_run. revert s. induction ops as [|op ops IH]; intros s Hwf; simpl; [done|].
  destruct (shard_step_refines op s Hwf) as (Hwf' & Hmax & Habs).
  destruct (IH _ Hwf') as (? & ? & ->). rewrite Habs, Hmax in *. done.
Qed.

Lemma newShard_wf N : shard_wf (newShard N).
Proof.
  split; [split|]; simpl; [constructor| |set_solver|lia].
  intros k el. rewrite lookup_empty. set_solver.
Qed.

Lemma shard_wf_lru_ok s : shard_wf s → lru_ok (sh_maxSize s) (shard_abs s).
Proof.
  intros [Hinv Hsz]. split; [by apply shard_keys_NoDup|].
  unfold shard_abs. rewrite length_fmap. done.
Qed.

#[export] Hint Resolve newShard_wf removeElement_wf shard_wf_lru_ok wf_inv : proxy.

(** ** The loops end *)

(** A loop that has left does so with more fuel too, with the same shard. *)
Lemma evict_loop_more fuel more s s' :
  evict_loop fuel s = Some s' → evict_loop (fuel + more) s = Some s'.
Proof.
  revert s. induction fuel as [|fuel IH]; intros s; simpl; [done|].
  destruct (over_capacity s); [|done]. destruct (list_Back (sh_ll s)); [apply IH|done].
Qed.

Lemma evict_from_more fuel more el now s s' :
  evict_from fuel el now s = Some s' → evict_from (fuel + more) el now s = Some s'.
Proof.
  revert el s. induction fuel as [|fuel IH]; intros el s; simpl; [done|].
  destruct el; [apply IH|done].
Qed.

Lemma shard_run_new_wf N ops : shard_wf (shard_run ops (newShard N)).
Proof. by apply shard_run_refines, newShard_wf. Qed.

(** ** Properties *)

(** C16. A shard, pointers and all, behaves as the LRU list: after any sequence
    of operations on a new shard its contents are those of the specification,
    and so is the answer of the next [get]. *)
Theorem shard_refines_lru N ops key ttl now1 now2 :
  let s := shard_run ops (newShard N) in
  shard_abs s = spec_run N ops [] ∧
  (shard_get key ttl now1 now2 s).1 = (spec_get key ttl now1 now2 (spec_run N ops [])).1.
Proof.
  destruct (shard_run_refines ops (newShard N) (newShard_wf N)) as (Hwf & _ & Habs).
  change (shard_abs (newShard N)) with (@nil item) in Habs. simpl in Habs.
  intros s. split; [done|]. rewrite <- Habs.
  pose proof (shard_get_refines key ttl now1 now2 _ Hwf) as Hget.
  destruct (shard_get _ _ _ _ _) as [r s'], Hget as (_ & _ & Heq). by rewrite <- Heq.
Qed.

(** C26. Both loops of a shard terminate. On every reachable shard, the eviction
    loop of [put], entered after the insertion of a new key, leaves through its
    condition after at most one test per entry and one more, and the sweep of
    [evictExpired] reaches the front of the list after at most one test per element
    and one more; the shards they leave are those of [put] and [evictExpired], and
    letting them run longer changes nothing. *)
Theorem shard_loops_terminate N ops key entry ttl now :
  let s := shard_run ops (newShard N) in
  (sh_items s !! key = None →
   let s1 := push_item {| item_key := key; item_entry := entry; item_expiresAt := now + ttl |} s in
   ∃ s', over_capacity s' = false ∧ shard_put key entry ttl now s = s' ∧
     ∀ more, evict_loop (Datatypes.S (size (sh_items s1)) + more) s1 = Some s') ∧
  (∃ s', evictExpired now s = s' ∧
     ∀ more, evict_from (Datatypes.S (length (sh_ll s)) + more) (list_Back (sh_ll s)) now s = Some s').
Proof.
  pose proof (shard_run_new_wf N ops) as Hwf. cbn zeta. split.
  - intros Hnone. set (it := Build_item key entry (now + ttl)).
    pose proof (push_item_inv _ it (wf_inv _ Hwf) Hnone) as Hinv1.
    destruct (evict_loop_spec _ _ Hinv1 (Nat.lt_succ_diag_r _)) as (s' & Hs' & _ & Hover & _).
    exists s'. split_and!; [done| |intros more; by apply evict_loop_more].
    unfold shard_put. rewrite Hnone. fold it. by rewrite Hs'.
  - destruct (evict_all_spec now _ _ Hwf (Nat.lt_succ_diag_r _)) as (s' & Hs' & _).
    exists s'. split; [|intros more; by apply evict_from_more]. unfold evictExpired. by rewrite Hs'.
Qed.
