(* ===== verification/TokenCache.v ===== *)
(** * The local token cache ([internal/tokencache/cache.go], [Cache])

    [numShards] shards, a sliding TTL and a janitor. Requests, the janitor and
    other requests interleave freely between shard operations, so a run of the
    cache is any sequence of [cache_op]s; each touches one shard, and a shard
    sees the subsequence of the operations of its own tokens. *)

From S2P Require Import Prelude Store LruSpec Shard.
Local Open Scope Z_scope.

Definition numShards : nat := 32.

(** [[numShards]*shard], the TTL, the hash seed and whether [stopJanitor] is
    closed. *)
Record Cache := {
  c_shards : list shard;
  c_ttl : Z;
  c_seed : N;
  c_stopped : bool;
}.

Definition second : Z := 1000000000.

(** [max(maxSize/numShards, 1)] *)
Definition perShard (maxSize : Z) : Z := Z.max (Z.quot maxSize (Z.of_nat numShards)) 1.

(** [max(ttl/4, 15*time.Second)], the period of the janitor's ticker. *)
Definition janitorInterval (ttl : Z) : Z := Z.max (Z.quot ttl 4) (15 * second).

(** [seed] is what [maphash.MakeSeed] returned. *)
Definition New (ttl maxSize : Z) (seed : N) : Cache :=
  {| c_shards := replicate numShards (newShard (perShard maxSize));
     c_ttl := ttl; c_seed := seed; c_stopped := false |}.

Definition Cache_Close (c : Cache) : Cache :=
  {| c_shards := c_shards c; c_ttl := c_ttl c; c_seed := c_seed c; c_stopped := true |}.

Definition set_shard (i : nat) (s : shard) (c : Cache) : Cache :=
  {| c_shards := <[i := s]> (c_shards c); c_ttl := c_ttl c; c_seed := c_seed c;
     c_stopped := c_stopped c |}.

(** Run a shard operation on shard [i]; the array index is always in range
    ([shardFor_lt]). *)
Definition on_shard {A} (i : nat) (zero : A) (f : shard → A * shard) (c : Cache) : A * Cache :=
  match c_shards c !! i with
  | Some s => let '(a, s') := f s in (a, set_shard i s' c)
  | None => (zero, c)
  end.

(** What the select of [runJanitor] receives. *)
Inductive janitor_event :=
| Stop
| Tick (now : Z).

Definition sweep_shard (i : nat) (now : Z) (c : Cache) : Cache :=
  (on_shard i tt (λ s, (tt, evictExpired now s)) c).2.

(** [for _, s := range c.shards { s.evictExpired(now) }] *)
Definition sweep (now : Z) (c : Cache) : Cache :=
  foldl (λ c i, sweep_shard i now c) c (seq 0 numShards).

Fixpoint runJanitor (events : list janitor_event) (c : Cache) : Cache :=
  match events with
  | [] => c
  | Stop :: _ => c
  | Tick now :: events' => runJanitor events' (sweep now c)
  end.

Section cache.

(** [hash/maphash]: a function of the seed and the bytes, unspecified otherwise. *)
Context (maphash : N → bytes → N).

(** [h.Sum64() % numShards] *)
Definition shardFor (c : Cache) (token : bytes) : nat :=
  N.to_nat ((maphash (c_seed c) token mod 2 ^ 64) mod N.of_nat numShards).

Definition Cache_Put (token : bytes) (entry : Entry) (now : Z) (c : Cache) : Cache :=
  (on_shard (shardFor c token) tt
     (λ s, (tt, shard_put (string_of_bytes token) entry (c_ttl c) now s)) c).2.

Definition Cache_Get (token : bytes) (now1 now2 : Z) (c : Cache) : option Entry * Cache :=
  on_shard (shardFor c token) None
    (shard_get (string_of_bytes token) (c_ttl c) now1 now2) c.

Definition Cache_Delete (token : bytes) (c : Cache) : Cache :=
  (on_shard (shardFor c token) tt (λ s, (tt, shard_delete (string_of_bytes token) s)) c).2.

(** One atomic step of the cache, under one shard's mutex. *)
Inductive cache_op :=
| CPut (token : bytes) (entry : Entry) (now : Z)
| CGet (token : bytes) (now1 now2 : Z)
| CDelete (token : bytes)
| CSweep (i : nat) (now : Z).

(** The loop over the shards at a tick, one mutex after the other ([sweep_run]). *)
Definition sweep_ops (now : Z) : list cache_op := (λ i, CSweep i now) <$> seq 0 numShards.

Definition cache_step (c : Cache) (op : cache_op) : Cache :=
  match op with
  | CPut token entry now => Cache_Put token entry now c
  | CGet token now1 now2 => (Cache_Get token now1 now2 c).2
  | CDelete token => Cache_Delete token c
  | CSweep i now => sweep_shard i now c
  end.

Definition cache_run (ops : list cache_op) (c : Cache) : Cache := foldl cache_step c ops.

(** The shard operation that [op] is on shard [i], if it is one. *)
Definition op_on_shard (c : Cache) (i : nat) (op : cache_op) : option shard_op :=
  match op with
  | CPut token entry now =>
      if decide (shardFor c token = i)
      then Some (OpPut (string_of_bytes token) entry (c_ttl c) now) else None
  | CGet token now1 now2 =>
      if decide (shardFor c token = i)
      then Some (OpGet (string_of_bytes token) (c_ttl c) now1 now2) else None
  | CDelete token =>
      if decide (shardFor c token = i) then Some (OpDelete (string_of_bytes token)) else None
  | CSweep j now => if decide (j = i) then Some (OpEvict now) else None
  end.

(** ** The store the interceptor sees

    The cache with the process's clock: [ls_clock n] is what the [n]-th call of
    [time.Now] returns. *)
Record LocalStore := {
  ls_cache : Cache;
  ls_clock : nat → Z;
  ls_reads : nat;
}.

Definition with_cache (c : Cache) (reads : nat) (s : LocalStore) : LocalStore :=
  {| ls_cache := c; ls_clock := ls_clock s; ls_reads := ls_reads s + reads |}.

#[global] Instance LocalStore_Store : Store LocalStore := {
  store_Put token entry s :=
    (None, with_cache (Cache_Put token entry (ls_clock s (ls_reads s)) (ls_cache s)) 1 s);
  store_Get token s :=
    let '(r, c) := Cache_Get token (ls_clock s (ls_reads s))
                     (ls_clock s (ls_reads s + 1)%nat) (ls_cache s) in
    (Ok r, with_cache c 2 s);
  store_Delete token s := (None, with_cache (Cache_Delete token (ls_cache s)) 0 s);
}.

(** ** Well-formed caches *)

Record cache_wf (N : Z) (c : Cache) : Prop := {
  cw_length : length (c_shards c) = numShards;
  cw_shards i s : c_shards c !! i = Some s → shard_wf s ∧ sh_maxSize s = N;
}.

(** What the cache holds: the item of a token, expired or not. *)
Definition cache_lookup (token : bytes) (c : Cache) : option item :=
  c_shards c !! shardFor c token ≫= λ s, spec_lookup (string_of_bytes token) (shard_abs s).

Definition cache_size (c : Cache) : nat :=
  sum_list_with (λ s, size (sh_items s)) (c_shards c).

(** ** One shard at a time *)

Lemma shardFor_lt c token : (shardFor c token < numShards)%nat.
Proof.
  unfold shardFor.
  pose proof (N.mod_upper_bound (maphash (c_seed c) token mod 2 ^ 64) (N.of_nat numShards)).
  unfold numShards in *. lia.
Qed.

Lemma cache_step_params c op :
  c_ttl (cache_step c op) = c_ttl c ∧ c_seed (cache_step c op) = c_seed c.
Proof.
  destruct op; simpl; unfold Cache_Put, Cache_Get, Cache_Delete, sweep_shard, on_shard;
    destruct (_ !! _); simpl; try done.
  by destruct (shard_get _ _ _ _ _).
Qed.

Lemma on_shard_lookup {A} i (zero : A) f c j :
  c_shards (on_shard i zero f c).2 !! j =
  (if decide (i = j) then snd ∘ f else id) <$> c_shards c !! j.
Proof.
  unfold on_shard. destruct (c_shards c !! i) as [s|] eqn:E.
  - pose proof (lookup_lt_Some _ _ _ E). destruct (f s) as [a s'] eqn:Ef. simpl.
    case_decide; subst.
    + by rewrite list_lookup_insert_eq, E by done; simpl; rewrite Ef.
    + by rewrite list_lookup_insert_ne, option_fmap_id by done.
  - simpl. case_decide; subst; [by rewrite E|]. by rewrite option_fmap_id.
Qed.

Lemma cache_step_shard c op i :
  c_shards (cache_step c op) !! i =
  (λ s, foldl shard_step s (option_list (op_on_shard c i op))) <$> c_shards c !! i.
Proof.
  destruct op; simpl; unfold Cache_Put, Cache_Get, Cache_Delete, sweep_shard;
    rewrite on_shard_lookup; case_decide; simpl; try apply option_fmap_id; done.
Qed.

(** A shard sees exactly the operations of its own tokens, in order. *)
Lemma cache_run_shard ops c i :
  c_shards (cache_run ops c) !! i =
  shard_run (omap (op_on_shard c i) ops) <$> c_shards c !! i.
Proof.
  unfold cache_run. revert c. induction ops as [|op ops IH]; intros c; simpl.
  - by rewrite option_fmap_id.
  - rewrite IH, cache_step_shard, <- option_fmap_compose.
    assert (Hop : ∀ op', op_on_shard (cache_step c op) i op' = op_on_shard c i op').
    { destruct (cache_step_params c op) as [Httl Hseed].
      intros [ ]; unfold op_on_shard, shardFor; by rewrite ?Httl, ?Hseed. }
    apply option_fmap_ext. intros s. unfold shard_run, compose. simpl.
    assert (omap (op_on_shard (cache_step c op) i) ops = omap (op_on_shard c i) ops) as ->.
    { apply list_omap_ext, Forall_Forall2_diag, Forall_forall. intros; apply Hop. }
    by destruct (op_on_shard c i op).
Qed.

(** ** Preservation *)

Lemma cache_step_wf N c op : cache_wf N c → cache_wf N (cache_step c op).
Proof.
  intros [Hlen Hsh]. split.
  - destruct op; simpl; unfold Cache_Put, Cache_Get, Cache_Delete, sweep_shard, on_shard;
      destruct (_ !! _); simpl; try done; rewrite ?length_insert; try done.
    destruct (shard_get _ _ _ _ _). simpl. by rewrite length_insert.
  - intros i s. rewrite cache_step_shard, fmap_Some. intros (s0 & Hs0 & ->).
    destruct (Hsh _ _ Hs0) as [Hwf Hmax]. destruct (op_on_shard c i op) as [o|]; [|done].
    destruct (shard_step_refines o s0 Hwf) as (? & Hmax' & _). simpl.
    by rewrite Hmax', Hmax.
Qed.

Lemma cache_run_wf N ops c : cache_wf N c → cache_wf N (cache_run ops c).
Proof.
  unfold cache_run. revert c. induction ops as [|op ops IH]; simpl; auto using cache_step_wf.
Qed.

Lemma New_wf ttl maxSize seed : cache_wf (perShard maxSize) (New ttl maxSize seed).
Proof.
  split; [by apply length_replicate|]. cbn [New c_shards].
  intros i s [-> _]%lookup_replicate. split; [apply newShard_wf|done].
Qed.

Lemma perShard_pos maxSize : 1 ≤ perShard maxSize.
Proof. unfold perShard. lia. Qed.

Lemma cache_wf_shard N c token :
  cache_wf N c → ∃ s, c_shards c !! shardFor c token = Some s ∧ shard_wf s ∧ sh_maxSize s = N.
Proof.
  intros [Hlen Hsh]. destruct (lookup_lt_is_Some_2 (c_shards c) (shardFor c token)) as [s Hs].
  - rewrite Hlen. apply shardFor_lt.
  - exists s. split; [done|]. by apply Hsh in Hs.
Qed.

Lemma cache_run_params ops c :
  c_ttl (cache_run ops c) = c_ttl c ∧ c_seed (cache_run ops c) = c_seed c.
Proof.
  unfold cache_run. revert c. induction ops as [|op ops IH]; intros c; simpl; [done|].
  destruct (IH (cache_step c op)) as [-> ->]. apply cache_step_params.
Qed.

Lemma shardFor_run ops c token : shardFor (cache_run ops c) token = shardFor c token.
Proof. unfold shardFor. by destruct (cache_run_params ops c) as [_ ->]. Qed.

(** ** Size *)

Lemma cache_size_bound N c :
  0 < N → cache_wf N c → Z.of_nat (cache_size c) ≤ Z.of_nat numShards * N.
Proof.
  intros HN [Hlen Hsh]. rewrite <- Hlen. clear Hlen. unfold cache_size.
  induction (c_shards c) as [|s ss IH]; simpl; [lia|].
  destruct (Hsh O s) as [[Hinv Hsz] Hmax]; [done|].
  rewrite shard_items_size by done. specialize (Hsz ltac:(lia)).
  specialize (IH (λ i s0 Hs0, Hsh (Datatypes.S i) s0 Hs0)). lia.
Qed.

(** ** Operations on one token, at the level of the LRU list *)

(** The list of the shard a token belongs to. *)
Definition token_list (c : Cache) (token : bytes) : list item :=
  from_option shard_abs [] (c_shards c !! shardFor c token).

Lemma cache_lookup_token_list c token :
  cache_lookup token c = spec_lookup (string_of_bytes token) (token_list c token).
Proof. unfold cache_lookup, token_list. by destruct (c_shards c !! _). Qed.

(** The operations of [ops] that reach the shard of [token]. *)
Definition token_ops (c : Cache) (token : bytes) (ops : list cache_op) : list shard_op :=
  omap (op_on_shard c (shardFor c token)) ops.

Lemma token_list_run N c token ops :
  cache_wf N c →
  token_list (cache_run ops c) token = spec_run N (token_ops c token ops) (token_list c token).
Proof.
  intros Hwf. destruct (cache_wf_shard N c token Hwf) as (s & Hs & Hswf & Hmax).
  unfold token_list. rewrite shardFor_run, cache_run_shard, Hs. simpl.
  destruct (shard_run_refines (token_ops c token ops) s Hswf) as (_ & _ & Habs).
  unfold token_ops in *. by rewrite Habs, Hmax.
Qed.

(** What one operation does to the list of a token's shard. *)
Lemma token_list_step N c token op :
  cache_wf N c →
  token_list (cache_step c op) token =
  match op_on_shard c (shardFor c token) op with
  | Some o => spec_step N (token_list c token) o
  | None => token_list c token
  end.
Proof.
  intros Hwf. pose proof (token_list_run N c token [op] Hwf) as Heq.
  unfold token_ops in Heq. simpl in Heq. by destruct (op_on_shard _ _ op).
Qed.

Lemma Cache_Get_result N c token now1 now2 :
  cache_wf N c →
  (Cache_Get token now1 now2 c).1 =
  (spec_get (string_of_bytes token) (c_ttl c) now1 now2 (token_list c token)).1.
Proof.
  intros Hwf. destruct (cache_wf_shard N c token Hwf) as (s & Hs & Hswf & _).
  unfold Cache_Get, on_shard, token_list. rewrite Hs. simpl.
  pose proof (shard_get_refines (string_of_bytes token) (c_ttl c) now1 now2 s Hswf) as Hget.
  destruct (shard_get _ _ _ _ _) as [r s'], Hget as (_ & _ & Heq). simpl. by rewrite <- Heq.
Qed.

Lemma token_list_Put N c token entry now :
  cache_wf N c →
  token_list (Cache_Put token entry now c) token =
  spec_put N (string_of_bytes token) entry (now + c_ttl c) (token_list c token).
Proof.
  intros Hwf. pose proof (token_list_run N c token [CPut token entry now] Hwf) as Heq.
  unfold token_ops in Heq. simpl in Heq. by rewrite decide_True in Heq.
Qed.

(** A put leaves the token at the front, whatever was there. *)
Lemma spec_put_front N key entry exp l :
  1 ≤ N → ∃ l', spec_put N key entry exp l = Build_item key entry exp :: l'.
Proof.
  intros HN. unfold spec_put. destruct (spec_lookup key l); [eauto|].
  unfold spec_truncate. rewrite (proj2 (Z.ltb_lt _ _)) by lia.
  destruct (Z.to_nat N) as [|n] eqn:E; [lia|]. simpl. eauto.
Qed.

(** ** The view the interceptor's theorems use *)

Definition Cache_view (c : Cache) (token : bytes) : option Entry :=
  item_entry <$> cache_lookup token c.

Lemma token_list_ok N c token : cache_wf N c → lru_ok N (token_list c token).
Proof.
  intros Hwf. destruct (cache_wf_shard N c token Hwf) as (s & Hs & Hswf & <-).
  unfold token_list. rewrite Hs. by apply shard_wf_lru_ok.
Qed.

Lemma Cache_view_Some N c token e :
  cache_wf N c →
  Cache_view c token = Some e ↔
  ∃ it, it ∈ token_list c token ∧ item_key it = string_of_bytes token ∧ item_entry it = e.
Proof.
  intros Hwf. unfold Cache_view. rewrite cache_lookup_token_list, fmap_Some.
  pose proof (lru_keys _ _ (token_list_ok N c token Hwf)) as Hnd.
  setoid_rewrite (spec_lookup_Some _ _ _ Hnd). naive_solver.
Qed.

(** One step adds only what a [CPut] puts. *)
Lemma Cache_view_step N c op token e :
  cache_wf N c → Cache_view (cache_step c op) token = Some e →
  Cache_view c token = Some e ∨ ∃ now, op = CPut token e now.
Proof.
  intros Hwf. pose proof (cache_step_wf N c op Hwf) as Hwf'.
  rewrite (Cache_view_Some N _ _ _ Hwf'), (Cache_view_Some N _ _ _ Hwf).
  rewrite (token_list_run N c token [op] Hwf : token_list (cache_step c op) token = _).
  unfold token_ops. simpl. intros (it & Hit & Hkey & Hent).
  destruct op as [tok entry now|tok now1 now2|tok|i now]; simpl in Hit;
    case_decide; simpl in Hit; try (left; by eauto).
  - apply elem_of_spec_put in Hit as [->|[? _]]; [|left; by eauto].
    simpl in *. right. exists now. apply string_of_bytes_inj in Hkey. by subst.
  - apply elem_of_spec_get in Hit as [[? _]|(x & Hx & _ & ->)]; left; [by eauto|].
    apply spec_lookup_Some in Hx as [Hx Hkx]; [|by apply (token_list_ok N)].
    simpl in *. exists x. split_and!; congruence.
  - apply elem_of_spec_remove in Hit as [? _]. left. eauto.
  - apply list_elem_of_filter in Hit as [_ ?]. left. eauto.
Qed.

#[global] Instance LocalStore_StoreLaws : StoreLaws LocalStore.
Proof.
  refine {| store_inv s := ∃ N, cache_wf N (ls_cache s);
            store_view s := Cache_view (ls_cache s);
            store_alias := eq |}.
  - intros tok e s r s' [N Hwf] [= <- <-]. exists N. apply (cache_step_wf N _ (CPut _ _ _) Hwf).
  - intros tok s r s' [N Hwf]. simpl.
    pose proof (cache_step_wf N _ (CGet tok (ls_clock s (ls_reads s))
      (ls_clock s (ls_reads s + 1)%nat)) Hwf) as Hwf'. simpl in Hwf'.
    destruct (Cache_Get _ _ _ _) as [x c]. intros [= <- <-]. by exists N.
  - intros tok s r s' [N Hwf] [= <- <-]. exists N. apply (cache_step_wf N _ (CDelete _) Hwf).
  - intros tok e s r s' tok' e' [N Hwf] [= <- <-] Hv.
    apply (Cache_view_step N _ (CPut _ _ _)) in Hv as [?|[now [= -> ->]]]; [by right|by left|done].
  - intros tok s r s' tok' e' [N Hwf]. simpl.
    pose proof (Cache_view_step N _ (CGet tok (ls_clock s (ls_reads s))
      (ls_clock s (ls_reads s + 1)%nat)) tok' e' Hwf) as Hv. simpl in Hv.
    destruct (Cache_Get _ _ _ _) as [x c]. intros [= <- <-] Hc.
    by destruct (Hv Hc) as [?|[? [=]]].
  - intros tok s e s' [N Hwf]. simpl.
    pose proof (Cache_Get_result N (ls_cache s) tok (ls_clock s (ls_reads s))
      (ls_clock s (ls_reads s + 1)%nat) Hwf) as Hres.
    destruct (Cache_Get _ _ _ _) as [x c]. intros [= -> <-]. simpl in *.
    unfold Cache_view. rewrite cache_lookup_token_list. unfold spec_get in Hres.
    destruct (spec_lookup _ _) as [it|]; [|done].
    destruct (item_expiresAt it <? _); simpl in *; congruence.
  - intros tok s r s' tok' e' [N Hwf] [= <- <-] Hv.
    by apply (Cache_view_step N _ (CDelete _)) in Hv as [?|[? [=]]].
  - intros tok s s' [N Hwf] [= <-]. simpl. apply eq_None_not_Some. intros [e He].
    pose proof (cache_step_wf N _ (CDelete tok) Hwf) as Hwf'.
    apply (Cache_view_Some N _ _ _ Hwf') in He as (it & Hit & Hkey & _).
    rewrite (token_list_run N _ tok [CDelete tok] Hwf
      : token_list (cache_step (ls_cache s) (CDelete tok)) tok = _) in Hit.
    unfold token_ops in Hit. simpl in Hit. rewrite decide_True in Hit by done.
    by apply elem_of_spec_remove in Hit as [_ ?].
Defined.
End cache.

(** ** Properties of every reachable cache *)

Section reachable.
Context (maphash : N → bytes → N).
Context (ttl maxSize : Z) (seed : N).

(** A cache some sequence of operations leads to. *)
Definition reached (ops : list cache_op) : Cache := cache_run maphash ops (New ttl maxSize seed).

Lemma reached_wf ops : cache_wf (perShard maxSize) (reached ops).
Proof. apply cache_run_wf, New_wf. Qed.

Lemma reached_params ops : c_ttl (reached ops) = ttl.
Proof. unfold reached. by destruct (cache_run_params maphash ops (New ttl maxSize seed)) as [-> _]. Qed.

(** What leaves a token alone until [deadline]: operations on other tokens,
    sweeps not after it. *)
Definition cop_spares (token : bytes) (deadline : Z) (op : cache_op) : Prop :=
  match op with
  | CPut t _ _ | CGet t _ _ | CDelete t => t ≠ token
  | CSweep _ now => now ≤ deadline
  end.

(** The tokens that [ops] touches in the shard of [token]. *)
Definition touched_beside (c : Cache) (token : bytes) (ops : list cache_op) : gset string :=
  touched (token_ops maphash c token ops).

Lemma token_ops_spare c token deadline it ops :
  item_key it = string_of_bytes token → item_expiresAt it = deadline →
  Forall (cop_spares token deadline) ops →
  Forall (op_spares it) (token_ops maphash c token ops).
Proof.
  intros Hkey Hexp Hops. unfold token_ops. apply Forall_forall. intros o Ho.
  apply list_elem_of_omap in Ho as (op & Hop & Ho). rewrite Forall_forall in Hops.
  specialize (Hops _ Hop).
  destruct op; simpl in *; case_decide; simplify_eq; split; simpl; rewrite ?Hkey; try done;
    intros [= ?%string_of_bytes_inj]; done.
Qed.

Lemma op_key_other it ops :
  Forall (op_spares it) ops → Forall (λ op, op_key op ≠ Some (item_key it)) ops.
Proof. intros Hops. eapply Forall_impl; [exact Hops|]. by intros op [? _]. Qed.

(** The front of the token's list after an operation that put it there. *)
Lemma retained_hit N c it token l ops now1 now2 :
  cache_wf N c → token_list maphash c token = it :: l → item_key it = string_of_bytes token →
  Forall (cop_spares token (item_expiresAt it)) ops →
  (0 < N → Z.of_nat (size (touched_beside c token ops)) < N) →
  now1 ≤ item_expiresAt it →
  (Cache_Get maphash token now1 now2 (cache_run maphash ops c)).1 = Some (item_entry it).
Proof.
  intros Hwf Hlist Hkey Hops Hsz Hnow.
  rewrite (Cache_Get_result maphash N) by by apply cache_run_wf.
  rewrite (token_list_run maphash N) by done. rewrite Hlist.
  unfold spec_get. rewrite <- Hkey.
  rewrite (lru_retention N it); [| |by eapply token_ops_spare|done].
  - by rewrite (proj2 (Z.ltb_ge _ _)).
  - rewrite <- Hlist. by apply token_list_ok.
Qed.

Lemma expired_miss N c it token l ops now1 now2 :
  cache_wf N c → token_list maphash c token = it :: l → item_key it = string_of_bytes token →
  Forall (λ op, cop_spares token now1 op ∨ ∃ i now, op = CSweep i now) ops →
  item_expiresAt it < now1 →
  (Cache_Get maphash token now1 now2 (cache_run maphash ops c)).1 = None.
Proof.
  intros Hwf Hlist Hkey Hops Hnow.
  rewrite (Cache_Get_result maphash N) by by apply cache_run_wf.
  rewrite (token_list_run maphash N) by done. rewrite Hlist, <- Hkey.
  apply lru_expiry; [rewrite <- Hlist; by apply token_list_ok| |done].
  apply Forall_forall. intros o (op & Hop & Ho)%list_elem_of_omap.
  rewrite Forall_forall in Hops. specialize (Hops _ Hop).
  destruct op; simpl in *; case_decide; simplify_eq; simpl; rewrite ?Hkey; try done;
    intros [= ?%string_of_bytes_inj]; naive_solver.
Qed.

Lemma token_list_Get_hit N c token now1 now2 e :
  cache_wf N c → (Cache_Get maphash token now1 now2 c).1 = Some e →
  ∃ l, token_list maphash (Cache_Get maphash token now1 now2 c).2 token =
       Build_item (string_of_bytes token) e (now2 + c_ttl c) :: l.
Proof.
  intros Hwf. rewrite (Cache_Get_result maphash N) by done.
  pose proof (token_list_run maphash N c token [CGet token now1 now2] Hwf) as Heq.
  unfold token_ops in Heq. simpl in Heq. rewrite decide_True in Heq by done. rewrite Heq.
  simpl. unfold spec_get. destruct (spec_lookup _ _) as [x|]; [|done].
  destruct (item_expiresAt x <? now1); simpl; [done|]. intros [= <-]. eauto.
Qed.

(** A sweep is one [CSweep] per shard, of which a token's shard sees its own. *)
Lemma sweep_run now c :
  sweep now c = cache_run maphash (sweep_ops now) c.
Proof.
  unfold sweep, cache_run, sweep_ops. generalize (seq 0 numShards). intros idx. revert c.
  induction idx as [|i idx IH]; intros c; [done|]. simpl. apply IH.
Qed.

Lemma token_ops_sweep c token now idx :
  token_ops maphash c token ((λ i, CSweep i now) <$> idx) =
  omap (λ i, if decide (i = shardFor maphash c token) then Some (OpEvict now) else None) idx.
Proof.
  unfold token_ops. induction idx as [|i idx IH]; [done|].
  simpl in *. case_decide; [f_equal|]; exact IH.
Qed.

Lemma omap_seq_one {A} (x : A) j n m :
  (m ≤ j < m + n)%nat → omap (λ i, if decide (i = j) then Some x else None) (seq m n) = [x].
Proof.
  assert (Hnone : ∀ k m, (j < m)%nat →
    omap (λ i, if decide (i = j) then Some x else None) (seq m k) = []).
  { induction k as [|k IH]; intros m' Hm; simpl; [done|].
    rewrite decide_False by lia. apply IH. lia. }
  revert m. induction n as [|n IH]; intros m Hj; [lia|]. simpl. case_decide.
  - rewrite Hnone; [done|lia].
  - apply IH. lia.
Qed.

Lemma token_list_sweep N c token now :
  cache_wf N c →
  token_list maphash (sweep now c) token = spec_evict now (token_list maphash c token).
Proof.
  intros Hwf. rewrite sweep_run, (token_list_run maphash N) by done. unfold sweep_ops.
  rewrite token_ops_sweep, (omap_seq_one (OpEvict now)); [reflexivity|].
  pose proof (shardFor_lt maphash c token). lia.
Qed.
End reachable.

(** An operation sequence that does not name [token]. *)
Definition cop_other (token : bytes) (op : cache_op) : Prop :=
  match op with
  | CPut t _ _ | CGet t _ _ | CDelete t => t ≠ token
  | CSweep _ _ => True
  end.

Lemma cop_other_spares token now ops :
  Forall (cop_other token) ops →
  Forall (λ op, cop_spares token now op ∨ ∃ i now, op = CSweep i now) ops.
Proof. intros Hops. eapply Forall_impl; [exact Hops|]. intros []; naive_solver. Qed.

Lemma Cache_view_run maphash N ops c token e :
  cache_wf N c → Cache_view maphash (cache_run maphash ops c) token = Some e →
  Cache_view maphash c token = Some e ∨ ∃ now, CPut token e now ∈ ops.
Proof.
  unfold cache_run. revert c. induction ops as [|op ops IH]; intros c Hwf Hv; simpl in *; [by left|].
  apply IH in Hv as [Hv|(now & Hin)]; [|right; exists now; set_solver|by apply cache_step_wf].
  apply (Cache_view_step maphash N) in Hv as [?|(now & ->)]; [by left| |done].
  right. exists now. set_solver.
Qed.

Lemma Cache_Get_view maphash N token now1 now2 c e :
  cache_wf N c → (Cache_Get maphash token now1 now2 c).1 = Some e →
  Cache_view maphash c token = Some e.
Proof.
  intros Hwf. rewrite (Cache_Get_result maphash N) by done.
  unfold Cache_view, spec_get. rewrite cache_lookup_token_list.
  destruct (spec_lookup _ _) as [it|]; [|done].
  destruct (item_expiresAt it <? now1); simpl; congruence.
Qed.

Lemma token_list_reached_Put maphash ttl maxSize seed pre token entry now :
  ∃ l, token_list maphash
    (Cache_Put maphash token entry now (reached maphash ttl maxSize seed pre)) token =
    Build_item (string_of_bytes token) entry (now + ttl) :: l.
Proof.
  rewrite (token_list_Put maphash (perShard maxSize)) by apply reached_wf.
  rewrite reached_params. apply spec_put_front, perShard_pos.
Qed.

Lemma reached_step maphash ttl maxSize seed pre op :
  cache_wf (perShard maxSize) (cache_step maphash (reached maphash ttl maxSize seed pre) op).
Proof. apply cache_step_wf, reached_wf. Qed.

(** C17. A recorded token is found until its TTL runs out, whatever other
    goroutines do meanwhile, as long as they touch fewer other tokens of its
    shard than the shard holds: no operation on another token, no sweep and no
    eviction loses it or changes its entry. *)
Theorem cache_hit_within_ttl maphash ttl maxSize seed pre token entry now ops now1 now2 :
  let c := Cache_Put maphash token entry now (reached maphash ttl maxSize seed pre) in
  Forall (cop_spares token (now + ttl)) ops →
  Z.of_nat (size (touched_beside maphash c token ops)) < perShard maxSize →
  now1 ≤ now + ttl →
  (Cache_Get maphash token now1 now2 (cache_run maphash ops c)).1 = Some entry.
Proof.
  intros c Hops Hsz Hnow.
  destruct (token_list_reached_Put maphash ttl maxSize seed pre token entry now) as [l Hl].
  eapply (retained_hit maphash (perShard maxSize) c (Build_item _ entry (now + ttl)));
    [|exact Hl|done..|auto|done].
  apply (reached_step maphash ttl maxSize seed pre (CPut token entry now)).
Qed.

(** A token left alone is denied after its TTL: whatever other goroutines
    do, a lookup later than [now + ttl] misses. *)
Theorem cache_miss_after_ttl maphash ttl maxSize seed pre token entry now ops now1 now2 :
  let c := Cache_Put maphash token entry now (reached maphash ttl maxSize seed pre) in
  Forall (cop_other token) ops →
  now + ttl < now1 →
  (Cache_Get maphash token now1 now2 (cache_run maphash ops c)).1 = None.
Proof.
  intros c Hops Hnow.
  destruct (token_list_reached_Put maphash ttl maxSize seed pre token entry now) as [l Hl].
  eapply (expired_miss maphash (perShard maxSize) c (Build_item _ entry (now + ttl)));
    [|exact Hl|done|by apply cop_other_spares|done].
  apply (reached_step maphash ttl maxSize seed pre (CPut token entry now)).
Qed.

(** C18. A hit slides the TTL: counted from the clock reading after the hit, the
    token is found until the new deadline and missed after it. *)
Theorem cache_get_slides_ttl maphash ttl maxSize seed pre token entry g1 g2 ops now1 now2 :
  let r := Cache_Get maphash token g1 g2 (reached maphash ttl maxSize seed pre) in
  r.1 = Some entry →
  Forall (cop_spares token (g2 + ttl)) ops →
  Z.of_nat (size (touched_beside maphash r.2 token ops)) < perShard maxSize →
  (Cache_Get maphash token now1 now2 (cache_run maphash ops r.2)).1 =
  if now1 <=? g2 + ttl then Some entry else None.
Proof.
  intros r Hr Hops Hsz.
  destruct (token_list_Get_hit maphash _ _ token g1 g2 entry
    (reached_wf maphash ttl maxSize seed pre) Hr) as [l Hl]. rewrite reached_params in Hl.
  pose proof (reached_step maphash ttl maxSize seed pre (CGet token g1 g2)) as Hwf.
  destruct (now1 <=? g2 + ttl) eqn:E; bool_to_prop.
  - by eapply (retained_hit maphash _ r.2 (Build_item _ entry (g2 + ttl))).
  - eapply (expired_miss maphash _ r.2 (Build_item _ entry (g2 + ttl)));
      [exact Hwf|exact Hl|done| |done].
    apply cop_other_spares. eapply Forall_impl; [exact Hops|]. by intros [].
Qed.

(** The cache never makes an entry up: what [Get] finds for a token was put
    for that very token, with that entry. *)
Theorem cache_get_was_put maphash ttl maxSize seed ops token entry now1 now2 :
  (Cache_Get maphash token now1 now2 (reached maphash ttl maxSize seed ops)).1 = Some entry →
  ∃ now, CPut token entry now ∈ ops.
Proof.
  intros Hget. apply (Cache_Get_view maphash (perShard maxSize)) in Hget; [|apply reached_wf].
  apply (Cache_view_run maphash (perShard maxSize)) in Hget as [Hv|?]; [|done|apply New_wf].
  apply (Cache_view_Some maphash (perShard maxSize)) in Hv as (it & Hit & _); [|apply New_wf].
  unfold token_list in Hit. cbn [New c_shards] in Hit.
  destruct (replicate _ _ !! _) as [s|] eqn:E; [|simpl in Hit; set_solver].
  apply lookup_replicate in E as [-> _]. simpl in Hit. set_solver.
Qed.

(** C19. [Delete] revokes: until the token is put again, every lookup misses. *)
Theorem cache_delete_revokes maphash ttl maxSize seed pre token ops now1 now2 :
  (∀ entry now, CPut token entry now ∉ ops) →
  (Cache_Get maphash token now1 now2
    (cache_run maphash ops
      (Cache_Delete maphash token (reached maphash ttl maxSize seed pre)))).1 = None.
Proof.
  intros Hops. apply eq_None_not_Some. intros [e He].
  pose proof (reached_step maphash ttl maxSize seed pre (CDelete token)) as Hwf. simpl in Hwf.
  apply (Cache_Get_view maphash (perShard maxSize)) in He; [|by apply cache_run_wf].
  apply (Cache_view_run maphash (perShard maxSize)) in He as [Hv|[now ?]]; [|naive_solver|done].
  set (s := Build_LocalStore (reached maphash ttl maxSize seed pre) (λ _, 0) 0).
  pose proof (store_Delete_gone (StoreLaws := LocalStore_StoreLaws maphash) token s _
    (ex_intro _ _ (reached_wf maphash ttl maxSize seed pre)) eq_refl) as Hgone.
  simpl in Hgone. congruence.
Qed.

(** C20. A tick of the janitor removes the expired entries and nothing else:
    after it, a token is held exactly if it was held and not yet expired, with
    the same entry and deadline. Once stopped, the janitor does nothing. *)
Theorem janitor_sweep_exact maphash ttl maxSize seed ops rest token now it :
  let c := reached maphash ttl maxSize seed ops in
  cache_lookup maphash token (runJanitor (Tick now :: Stop :: rest) c) = Some it ↔
  cache_lookup maphash token c = Some it ∧ now ≤ item_expiresAt it.
Proof.
  intros c. simpl. pose proof (reached_wf maphash ttl maxSize seed ops) as Hwf. fold c in Hwf.
  assert (Hwf' : cache_wf (perShard maxSize) (sweep now c))
    by (rewrite (sweep_run maphash); by apply cache_run_wf).
  rewrite !cache_lookup_token_list, (token_list_sweep maphash _ _ _ _ Hwf).
  pose proof (token_list_ok maphash _ c token Hwf) as Hok.
  rewrite !spec_lookup_Some; [|apply Hok|].
  - unfold spec_evict. rewrite list_elem_of_filter. naive_solver.
  - eapply NoDup_keys_sublist; [apply spec_evict_sublist|apply Hok].
Qed.

(** C21. Memory is bounded, whatever is put: the cache never holds more entries
    than [maxSize] rounded down to a multiple of the shard count, but up to one
    entry per shard, 32 in all, however small [maxSize] is. So the cap is kept from
    32 on, and a smaller one is not: with a cap of 1 the cache can come to hold 32
    entries. *)
Theorem cache_capacity maphash ttl maxSize seed ops :
  (Z.of_nat (cache_size (reached maphash ttl maxSize seed ops)) ≤ Z.max 32 (32 * Z.quot maxSize 32)) ∧
  (32 ≤ maxSize → Z.of_nat (cache_size (reached maphash ttl maxSize seed ops)) ≤ maxSize) ∧
  ∃ maphash' ops', Z.of_nat (cache_size (reached maphash' ttl 1 seed ops')) = 32.
Proof.
  assert (Hbound : Z.of_nat (cache_size (reached maphash ttl maxSize seed ops)) ≤ 32 * perShard maxSize).
  { apply cache_size_bound; [pose proof (perShard_pos maxSize); lia|apply reached_wf]. }
  unfold perShard in Hbound. change (Z.of_nat numShards) with 32 in Hbound. split_and!.
  - lia.
  - intros Hge. rewrite Z.quot_div_nonneg in Hbound by lia. pose proof (Z.div_mod maxSize 32).
    pose proof (Z.mod_pos_bound maxSize 32). lia.
  - exists (λ _ b, N.of_nat (length b)),
      ((λ n, CPut (replicate n Byte.x00) {| entry_Namespace := "ns"; entry_TaskQueue := "q" |} 0)
         <$> seq 0 32).
    vm_compute. reflexivity.
Qed.

(** ** The janitor's work is done in the end *)

(** An endless run of a new cache, after [n] operations. *)
Definition cache_after maphash ttl maxSize seed (ops : nat → cache_op) (n : nat) : Cache :=
  reached maphash ttl maxSize seed (ops <$> seq 0 n).

(** The janitor keeps running: again and again there is a tick, its time beyond
    any given one, whose operations are all performed, each at some point between
    those of other goroutines. *)
Definition janitor_keeps_ticking (ops : nat → cache_op) : Prop :=
  ∀ n t, ∃ now, t < now ∧ ∀ op, op ∈ sweep_ops now → ∃ m, (n ≤ m)%nat ∧ ops m = op.

Section reclaim.
Context (maphash : N → bytes → N) (ttl maxSize : Z) (seed : N).
Context (token : bytes) (ops : nat → cache_op).

#[local] Abbreviation after := (cache_after maphash ttl maxSize seed ops).
#[local] Abbreviation held c it :=
  (it ∈ token_list maphash c token ∧ item_key it = string_of_bytes token).

Lemma cache_after_S n : after (Datatypes.S n) = cache_step maphash (after n) (ops n).
Proof. unfold cache_after, reached, cache_run. by rewrite seq_S, fmap_app, foldl_app. Qed.

(** Operations on other tokens and sweeps bring no item of [token]. *)
Lemma held_before N c op it :
  cache_wf N c → cop_other token op → held (cache_step maphash c op) it → held c it.
Proof.
  intros Hwf Hop [Hit Hkey]. split; [|done]. rewrite (token_list_step maphash N) in Hit by done.
  destruct (op_on_shard _ _ _ op) as [o|] eqn:E; [|done]. eapply spec_step_other; [exact Hit|].
  rewrite Hkey. destruct op; simpl in *; case_decide; simplify_eq; simpl; try done;
    by intros [= ?%(inj string_of_bytes)].
Qed.

Lemma held_since n k it :
  (∀ m, (n ≤ m)%nat → cop_other token (ops m)) → (n ≤ k)%nat → held (after k) it → held (after n) it.
Proof.
  intros Hops Hle. induction Hle as [|k Hle IH]; [done|]. rewrite cache_after_S.
  intros Hit. by apply IH, (held_before _ _ _ _ (reached_wf maphash ttl maxSize seed _) (Hops k Hle)).
Qed.

(** A sweep of its shard leaves no expired item. *)
Lemma swept N c now it :
  cache_wf N c → held (cache_step maphash c (CSweep (shardFor maphash c token) now)) it →
  now ≤ item_expiresAt it.
Proof.
  intros Hwf [Hit _]. rewrite (token_list_step maphash N) in Hit by done. simpl in Hit.
  rewrite decide_True in Hit by done. simpl in Hit. unfold spec_evict in Hit.
  by apply list_elem_of_filter in Hit as [? _].
Qed.
End reclaim.

Lemma expiry_bounded (l : list item) : ∃ t, ∀ it, it ∈ l → item_expiresAt it ≤ t.
Proof.
  induction l as [|x l [t IH]]; [exists 0; by intros it ?%elem_of_nil|].
  exists (Z.max t (item_expiresAt x)). intros it [->|Hit%IH]%elem_of_cons; lia.
Qed.

(** C5. No token stays in memory for ever: as long as the janitor keeps running, a
    token that is no longer used - by the worker it was given to, or by whoever
    else - is dropped from the cache at some point and never comes back, however
    the operations on other tokens interleave with the sweeps, shard by shard. *)
Theorem abandoned_token_is_reclaimed maphash ttl maxSize seed ops token n :
  janitor_keeps_ticking ops → (∀ m, (n ≤ m)%nat → cop_other token (ops m)) →
  ∃ m, ∀ k, (m ≤ k)%nat → cache_lookup maphash token (cache_after maphash ttl maxSize seed ops k) = None.
Proof.
  intros Hticks Hops. set (after := cache_after maphash ttl maxSize seed ops).
  destruct (expiry_bounded (token_list maphash (after n) token)) as [t Ht].
  destruct (Hticks n t) as (now & Hnow & Htick).
  assert (Hshard : ∀ k, shardFor maphash (after k) token = shardFor maphash (New ttl maxSize seed) token)
    by (intros k; apply shardFor_run).
  destruct (Htick (CSweep (shardFor maphash (New ttl maxSize seed) token) now)) as (m & Hm & Hop).
  { apply list_elem_of_fmap. eexists. split; [done|]. apply elem_of_seq.
    pose proof (shardFor_lt maphash (New ttl maxSize seed) token). lia. }
  exists (Datatypes.S m). intros k Hk. rewrite cache_lookup_token_list. apply spec_lookup_None.
  intros (it & Hit & Hkey)%elem_of_keys.
  assert (Hsm : (n ≤ Datatypes.S m)%nat) by lia.
  pose proof (held_since maphash ttl maxSize seed token ops (Datatypes.S m) k it
    (λ j Hj, Hops j (Nat.le_trans _ _ _ Hsm Hj)) Hk (conj Hit Hkey)) as Hheld.
  pose proof (held_since maphash ttl maxSize seed token ops n (Datatypes.S m) it Hops Hsm Hheld) as [Hn _].
  apply Ht in Hn. rewrite cache_after_S, Hop, <- (Hshard m) in Hheld.
  apply (swept maphash token _ _ _ _ (reached_wf maphash ttl maxSize seed _)) in Hheld. lia.
Qed.

(** ** Concrete runs

    A cache for two entries per shard, a TTL of an hour, and tokens hashed by
    their length. *)

Definition w_hash : N → bytes → N := λ _ b, N.of_nat (length b).
Definition w_hour : Z := 3600 * second.
Definition w_tok : bytes := [Byte.x01].
Definition w_tok2 : bytes := [Byte.x02].
Definition w_entry : Entry := {| entry_Namespace := "ns"; entry_TaskQueue := "q" |}.

(** Another worker's token of the same shard, and a sweep of that shard. *)
Definition w_ops : list cache_op := [CPut w_tok2 w_entry 5; CSweep 1 10; CGet w_tok2 11 11].

Lemma cache_hit_within_ttl_witness :
  (Cache_Get w_hash w_tok w_hour w_hour
     (cache_run w_hash w_ops (Cache_Put w_hash w_tok w_entry 0 (New w_hour 64 7)))).1 = Some w_entry.
Proof.
  apply (cache_hit_within_ttl w_hash w_hour 64 7 [] w_tok w_entry 0 w_ops w_hour w_hour);
    [|by vm_compute|by vm_compute].
  repeat constructor; vm_compute; congruence.
Defined.

Lemma cache_miss_after_ttl_witness :
  (Cache_Get w_hash w_tok (w_hour + 1) (w_hour + 1)
     (cache_run w_hash w_ops (Cache_Put w_hash w_tok w_entry 0 (New w_hour 64 7)))).1 = None.
Proof.
  apply (cache_miss_after_ttl w_hash w_hour 64 7 [] w_tok w_entry 0 w_ops); [|by vm_compute].
  repeat constructor; vm_compute; congruence.
Defined.

Lemma cache_get_slides_ttl_witness :
  let r := Cache_Get w_hash w_tok w_hour w_hour
             (reached w_hash w_hour 64 7 [CPut w_tok w_entry 0]) in
  (Cache_Get w_hash w_tok (2 * w_hour) 0 (cache_run w_hash w_ops r.2)).1 = Some w_entry.
Proof.
  intros r.
  apply (cache_get_slides_ttl w_hash w_hour 64 7 [CPut w_tok w_entry 0] w_tok w_entry w_hour w_hour
    w_ops (2 * w_hour) 0); [by vm_compute| |by vm_compute].
  repeat constructor; vm_compute; congruence.
Defined.

Lemma cache_get_was_put_witness : ∃ now, CPut w_tok w_entry now ∈ CPut w_tok w_entry 0 :: w_ops.
Proof.
  apply (cache_get_was_put w_hash w_hour 64 7 (CPut w_tok w_entry 0 :: w_ops) w_tok w_entry 20 20).
  by vm_compute.
Defined.

Lemma cache_delete_revokes_witness :
  (Cache_Get w_hash w_tok 20 20
     (cache_run w_hash w_ops
        (Cache_Delete w_hash w_tok (reached w_hash w_hour 64 7 [CPut w_tok w_entry 0])))).1 = None.
Proof.
  apply cache_delete_revokes. intros entry now Hin.
  repeat (apply elem_of_cons in Hin as [Hin|Hin]; [discriminate Hin|]). by apply elem_of_nil in Hin.
Defined.

(** A token is put, and the janitor ticks for ever, on one shard after the other. *)
Definition w_run (n : nat) : cache_op :=
  match n with
  | O => CPut w_tok w_entry 0
  | Datatypes.S k => CSweep (k mod numShards) (Z.of_nat (k / numShards))
  end.

Lemma w_run_ticks : janitor_keeps_ticking w_run.
Proof.
  intros n t. exists (Z.of_nat (n + Z.to_nat (Z.max (t + 1) 0))). split; [lia|].
  intros op (i & -> & Hi%elem_of_seq)%list_elem_of_fmap.
  set (tick := (n + Z.to_nat (Z.max (t + 1) 0))%nat).
  exists (Datatypes.S (tick * numShards + i)). unfold numShards in *. split; [subst tick; lia|].
  unfold w_run, numShards. f_equal.
  - rewrite Nat.add_comm, Nat.Div0.mod_add. apply Nat.mod_small. lia.
  - f_equal. rewrite Nat.div_add_l by lia. rewrite Nat.div_small by lia. lia.
Qed.

Lemma abandoned_token_is_reclaimed_witness :
  cache_lookup w_hash w_tok (cache_after w_hash w_hour 64 7 w_run 1) ≠ None ∧
  ∃ m, ∀ k, (m ≤ k)%nat → cache_lookup w_hash w_tok (cache_after w_hash w_hour 64 7 w_run k) = None.
Proof.
  split; [vm_compute; discriminate|].
  apply (abandoned_token_is_reclaimed w_hash w_hour 64 7 w_run w_tok 1 w_run_ticks).
  intros [|m] Hm; [lia|exact I].
Defined.
