(* ===== verification/Sha256.v ===== *)
(** * [crypto/sha256] and [encoding/hex]

    The two Go standard-library functions behind API-key and task-token hashing:
    [sha256.Sum256] (FIPS 180-4, on words below [2^32]) and
    [hex.EncodeToString]. *)

From S2P Require Import Prelude.
From Stdlib Require Import NArith.
Local Open Scope N_scope.

(** ** Words *)

Definition w32 (x : N) : N := N.land x 0xffffffff.
Definition add32 (x y : N) : N := w32 (x + y).
Definition rotr (n x : N) : N := w32 (N.lor (N.shiftr x n) (N.shiftl x (32 - n))).

Definition Ch (x y z : N) : N := N.lxor (N.land x y) (N.land (N.lxor x 0xffffffff) z).
Definition Maj (x y z : N) : N := N.lxor (N.lxor (N.land x y) (N.land x z)) (N.land y z).
Definition Sigma0 (x : N) : N := N.lxor (N.lxor (rotr 2 x) (rotr 13 x)) (rotr 22 x).
Definition Sigma1 (x : N) : N := N.lxor (N.lxor (rotr 6 x) (rotr 11 x)) (rotr 25 x).
Definition sigma0 (x : N) : N := N.lxor (N.lxor (rotr 7 x) (rotr 18 x)) (N.shiftr x 3).
Definition sigma1 (x : N) : N := N.lxor (N.lxor (rotr 17 x) (rotr 19 x)) (N.shiftr x 10).

(** FIPS 180-4 takes its constants from the first 64 primes: the first 32 bits of
    the fractional parts of their cube roots, and of the square roots of the
    first eight. *)
Definition is_prime (n : nat) : bool :=
  (2 <=? n)%nat && forallb (λ d, negb (Nat.modulo n d =? 0)%nat) (seq 2 (n - 2)).

Definition primes : list N := N.of_nat <$> List.filter is_prime (seq 0 312).

(** The integer cube root below [2^k], bit by bit. *)
Fixpoint cube_root (k : nat) (acc n : N) : N :=
  match k with
  | O => acc
  | S k' =>
      let r := acc + N.shiftl 1 (N.of_nat k') in
      cube_root k' (if r * r * r <=? n then r else acc) n
  end.

Definition K256 : list N :=
  Eval vm_compute in (λ p, w32 (cube_root 36 0 (N.shiftl p 96))) <$> primes.

Definition H0_256 : list N :=
  Eval vm_compute in (λ p, w32 (N.sqrt (N.shiftl p 64))) <$> take 8 primes.

(** ** Padding and blocks *)

Definition byte_of_N (n : N) : Byte.byte :=
  match Byte.of_N (N.land n 255) with Some b => b | None => Byte.x00 end.

(** [n] big-endian on [k] bytes. *)
Fixpoint be_bytes (k : nat) (n : N) : bytes :=
  match k with
  | O => []
  | S k' => be_bytes k' (N.shiftr n 8) ++ [byte_of_N n]
  end.

Definition pad (m : bytes) : bytes :=
  let len := length m in
  let zeros := Nat.modulo (64 - Nat.modulo (len + 9) 64) 64 in
  m ++ [Byte.x80] ++ replicate zeros Byte.x00 ++ be_bytes 8 (8 * N.of_nat len).

Fixpoint be_words (m : bytes) : list N :=
  match m with
  | a :: b :: c :: d :: m' =>
      (N.shiftl (Byte.to_N a) 24 + N.shiftl (Byte.to_N b) 16 + N.shiftl (Byte.to_N c) 8 + Byte.to_N d)
        :: be_words m'
  | _ => []
  end.

(** ** Compression *)

(** The message schedule, newest word first. *)
Fixpoint extend (k : nat) (w : list N) : list N :=
  match k with
  | O => w
  | S k' =>
      let at_ i := nth i w 0 in
      extend k' (add32 (add32 (sigma1 (at_ 1%nat)) (at_ 6%nat))
                       (add32 (sigma0 (at_ 14%nat)) (at_ 15%nat)) :: w)
  end.

Definition schedule (block : list N) : list N := rev (extend 48 (rev block)).

Definition round (st : list N) (kw : N * N) : list N :=
  match st with
  | [a; b; c; d; e; f; g; h] =>
      let t1 := add32 (add32 (add32 h (Sigma1 e)) (Ch e f g)) (add32 kw.1 kw.2) in
      let t2 := add32 (Sigma0 a) (Maj a b c) in
      [add32 t1 t2; a; b; c; add32 d t1; e; f; g]
  | _ => st
  end.

Definition compress (st block : list N) : list N :=
  zip_with add32 st (foldl round st (zip K256 (schedule block))).

Fixpoint blocks (fuel : nat) (st words : list N) : list N :=
  match fuel with
  | O => st
  | S fuel' => blocks fuel' (compress st (take 16 words)) (drop 16 words)
  end.

Definition Sum256 (m : bytes) : bytes :=
  let p := pad m in
  concat (be_bytes 4 <$> blocks (Nat.div (length p) 64) H0_256 (be_words p)).

(** ** [hex.EncodeToString] *)

Definition hex_digit (n : N) : Byte.byte :=
  nth (N.to_nat n)
    [Byte.x30; Byte.x31; Byte.x32; Byte.x33; Byte.x34; Byte.x35; Byte.x36; Byte.x37;
     Byte.x38; Byte.x39; Byte.x61; Byte.x62; Byte.x63; Byte.x64; Byte.x65; Byte.x66] Byte.x30.

Definition hex_byte (b : Byte.byte) : bytes :=
  [hex_digit (N.shiftr (Byte.to_N b) 4); hex_digit (N.land (Byte.to_N b) 15)].

Definition hex_EncodeToString (m : bytes) : string := string_of_bytes (concat (hex_byte <$> m)).

(** The digests of "abc" and of a two-block message (FIPS 180-4). *)
Example Sum256_abc :
  hex_EncodeToString (Sum256 (bytes_of_string "abc")) =
  "ba7816bf8f01cfea414140de5dae2223b00361a396177a9cb410ff61f20015ad"%string.
Proof. vm_compute. reflexivity. Qed.

Example Sum256_two_blocks :
  hex_EncodeToString
    (Sum256 (bytes_of_string "abcdbcdecdefdefgefghfghighijhijkijkljklmklmnlmnomnopnopq")) =
  "248d6a61d20638b8e5c026930c3e6039a33ce45964ff2167f6ecedd419db06c1"%string.
Proof. vm_compute. reflexivity. Qed.

(** ** Hex digits determine the bytes *)

Lemma hex_byte_inj b1 b2 : hex_byte b1 = hex_byte b2 → b1 = b2.
Proof.
  assert (Hall : ∀ b, Byte.of_N (16 * (N.shiftr (Byte.to_N b) 4) + N.land (Byte.to_N b) 15) = Some b)
    by (intros []; reflexivity).
  assert (Hdig : ∀ n m, n < 16 → m < 16 → hex_digit n = hex_digit m → n = m).
  { assert (Hd : ∀ n, n < 16 → n = 0 ∨ n = 1 ∨ n = 2 ∨ n = 3 ∨ n = 4 ∨ n = 5 ∨ n = 6 ∨ n = 7 ∨
      n = 8 ∨ n = 9 ∨ n = 10 ∨ n = 11 ∨ n = 12 ∨ n = 13 ∨ n = 14 ∨ n = 15) by (intros; lia).
    intros n m Hn%Hd Hm%Hd. destruct_or!; subst; vm_compute; congruence. }
  assert (Hlo : ∀ b, N.shiftr (Byte.to_N b) 4 < 16 ∧ N.land (Byte.to_N b) 15 < 16)
    by (intros []; vm_compute; done).
  unfold hex_byte. intros [= Hh Hl].
  apply Hdig in Hh; [|apply Hlo..]. apply Hdig in Hl; [|apply Hlo..].
  pose proof (Hall b1) as H1. rewrite Hh, Hl, Hall in H1. congruence.
Qed.

Lemma hex_EncodeToString_inj m1 m2 :
  hex_EncodeToString m1 = hex_EncodeToString m2 → m1 = m2.
Proof.
  unfold hex_EncodeToString. intros Heq%string_of_bytes_inj. revert m2 Heq.
  induction m1 as [|b1 m1 IH]; intros [|b2 m2] Heq; simpl in Heq; try done.
  injection Heq as H1 H2 H3. f_equal; [|by apply IH].
  apply hex_byte_inj. unfold hex_byte. by rewrite H1, H2.
Qed.
