(* ===== verification/Auth.v ===== *)
(** * Worker identities and authenticators ([internal/auth])

    [auth.go]: the [Identity] every access decision is made on and the
    [Authenticator] interface. [static.go]: API keys, looked up by their SHA-256
    digest. [jwt.go]: Google-signed tokens, looked up by verified email. Both
    tables are built from the auth file by [buildIdentities]. *)

From S2P Require Import Prelude Utf8 Json Sha256.
Local Open Scope string_scope.
Local Open Scope list_scope.
Local Open Scope go_scope.

(** ** Identities ([auth.go]) *)

Record Identity := {
  Valid : bool;
  Namespace : string;
  TaskQueues : list string;
  Subject : string;
}.

(** [Identity{}] *)
Definition zero_identity : Identity :=
  {| Valid := false; Namespace := ""; TaskQueues := []; Subject := "" |}.

Definition AllowsTaskQueue (i : Identity) (taskQueue : string) : bool :=
  range_contains (TaskQueues i) taskQueue.

(** A credential resolves to an identity or to an error. *)
Class Authenticator (A : Type) := {
  Authenticate : A → string → result error Identity;
}.

(** What an identity must be for the access checks to mean anything: it names a
    namespace and at least one task queue, no empty name, and only names that a
    store can keep as they are. *)
Record identity_wf (i : Identity) : Prop := {
  iw_namespace : Namespace i ≠ "";
  iw_task_queues : TaskQueues i ≠ [];
  iw_task_queue tq : tq ∈ TaskQueues i → tq ≠ "";
  iw_namespace_utf8 : ValidString (Namespace i);
  iw_task_queue_utf8 tq : tq ∈ TaskQueues i → ValidString tq;
}.

(** The promise of an authenticator: every identity it calls valid is one it is
    meant to give for that credential, and well-formed. *)
Class AuthenticatorLaws (A : Type) `{Authenticator A} := {
  auth_inv : A → Prop;
  auth_identity : string → Identity → Prop;
  auth_valid a key i :
    auth_inv a → Authenticate a key = Ok i → Valid i = true → auth_identity key i;
  auth_identity_wf key i : auth_identity key i → identity_wf i;
}.

Lemma auth_wf {A} `{AuthenticatorLaws A} a key i :
  auth_inv a → Authenticate a key = Ok i → Valid i = true → identity_wf i.
Proof. intros Ha Hi Hv. by eapply auth_identity_wf, auth_valid. Qed.

(** ** The auth file ([static.go]) *)

Record staticKeyEntry := {
  ske_Namespace : string;
  ske_TaskQueues : list string;
  ske_Subject : string;
}.

Record authFileConfig := {
  Keys : gmap string staticKeyEntry;
  Emails : gmap string staticKeyEntry;
}.

(** Decoding of the two types from JSON, by their tags. A [staticKeyEntry] in the
    making has a slice of task queues with its backing array. *)
Record staticKeyTarget := {
  skt_Namespace : string;
  skt_TaskQueues : slice string;
  skt_Subject : string;
}.

Definition staticKeyEntry_fields : fields staticKeyTarget := [
  ("namespace", λ v t,
     let? x := decode_string v (skt_Namespace t) in
     Ok {| skt_Namespace := x; skt_TaskQueues := skt_TaskQueues t; skt_Subject := skt_Subject t |});
  ("task_queues", λ v t,
     let? x := decode_slice decode_string "" v (skt_TaskQueues t) in
     Ok {| skt_Namespace := skt_Namespace t; skt_TaskQueues := x; skt_Subject := skt_Subject t |});
  ("subject", λ v t,
     let? x := decode_string v (skt_Subject t) in
     Ok {| skt_Namespace := skt_Namespace t; skt_TaskQueues := skt_TaskQueues t; skt_Subject := x |})].

Definition decode_staticKeyEntry (v : json) : result json_error staticKeyEntry :=
  let? t := decode_struct staticKeyEntry_fields v
              {| skt_Namespace := ""; skt_TaskQueues := nil_slice; skt_Subject := "" |} in
  Ok {| ske_Namespace := skt_Namespace t; ske_TaskQueues := sl_elements (skt_TaskQueues t);
        ske_Subject := skt_Subject t |}.

Definition authFileConfig_fields : fields authFileConfig := [
  ("keys", λ v c,
     let? x := decode_map decode_staticKeyEntry v (Keys c) in Ok {| Keys := x; Emails := Emails c |});
  ("emails", λ v c,
     let? x := decode_map decode_staticKeyEntry v (Emails c) in Ok {| Keys := Keys c; Emails := x |})].

Definition decode_authFileConfig : json → authFileConfig → result json_error authFileConfig :=
  decode_struct authFileConfig_fields.

Inductive AuthError :=
| AuthReadingFile (err : error)
| AuthParsingFile (err : json_error)
| AuthMissingNamespace (lookupKey : string)
| AuthMissingTaskQueues (lookupKey : string)
| AuthEmptyTaskQueue (lookupKey : string) (i : nat)
| AuthEmptyAudience
| AuthCreatingValidator (err : error).

Definition hashKey (apiKey : string) : string :=
  hex_EncodeToString (Sum256 (bytes_of_string apiKey)).

(** The copying loop of [validateTaskQueues], from index [i]. *)
Fixpoint copy_task_queues (lookupKey : string) (i : nat) (taskQueues out : list string) :
    result AuthError (list string) :=
  match taskQueues with
  | [] => Ok out
  | taskQueue :: rest =>
      if decide (taskQueue = "") then Err (AuthEmptyTaskQueue lookupKey i)
      else copy_task_queues lookupKey (S i) rest (out ++ [taskQueue])
  end.

Definition validateTaskQueues (lookupKey : string) (taskQueues : list string) :
    result AuthError (list string) :=
  if decide (length taskQueues = 0%nat) then Err (AuthMissingTaskQueues lookupKey)
  else copy_task_queues lookupKey 0 taskQueues [].

(** The key an entry is stored under. *)
Definition map_key (hash : bool) (lookupKey : string) : string :=
  if hash then hashKey lookupKey else lookupKey.

(** [entries] in the order the [range] over the Go map visits them. *)
Fixpoint build_loop (entries : list (string * staticKeyEntry)) (hash : bool)
    (identities : gmap string Identity) : result AuthError (gmap string Identity) :=
  match entries with
  | [] => Ok identities
  | (lookupKey, entry) :: rest =>
      if decide (ske_Namespace entry = "") then Err (AuthMissingNamespace lookupKey)
      else
        match validateTaskQueues lookupKey (ske_TaskQueues entry) with
        | Err err => Err err
        | Ok taskQueues =>
            build_loop rest hash
              (<[map_key hash lookupKey :=
                   {| Valid := true; Namespace := ske_Namespace entry;
                      TaskQueues := taskQueues; Subject := ske_Subject entry |}]> identities)
        end
  end.

Definition buildIdentities (entries : list (string * staticKeyEntry)) (hash : bool) :
    result AuthError (gmap string Identity) :=
  build_loop entries hash ∅.

(** ** The static authenticator ([static.go]) *)

Record StaticAuthenticator := { sa_identities : gmap string Identity }.

#[global] Instance StaticAuthenticator_Authenticator : Authenticator StaticAuthenticator := {
  Authenticate s apiKey :=
    match sa_identities s !! hashKey apiKey with
    | None => Ok zero_identity
    | Some identity => Ok identity
    end;
}.

(** ** The JWT authenticator ([jwt.go]) *)

Record JWTAuthenticator := {
  ja_identities : gmap string Identity;
  ja_validate : string → result error string;
}.

Definition with_subject (i : Identity) (subject : string) : Identity :=
  {| Valid := Valid i; Namespace := Namespace i; TaskQueues := TaskQueues i; Subject := subject |}.

#[global] Instance JWTAuthenticator_Authenticator : Authenticator JWTAuthenticator := {
  Authenticate a apiKey :=
    match ja_validate a apiKey with
    | Err _ => Ok zero_identity
    | Ok email =>
        match ja_identities a !! email with
        | None => Ok zero_identity
        | Some identity =>
            if decide (Subject identity = "") then Ok (with_subject identity email)
            else Ok identity
        end
    end;
}.

(** The claims of a validated token: [map[string]any]. *)
Inductive claim :=
| ClaimBool (b : bool)
| ClaimString (s : string)
| ClaimOther.

Definition claim_bool (c : option claim) : bool :=
  match c with Some (ClaimBool b) => b | _ => false end.
Definition claim_string (c : option claim) : string :=
  match c with Some (ClaimString s) => s | _ => "" end.

(** [Validate] is [idtoken.Validator.Validate]. *)
Definition googleTokenValidator (Validate : string → string → result error (gmap string claim))
    (audience token : string) : result error string :=
  match Validate token audience with
  | Err err => Err err
  | Ok claims =>
      if negb (claim_bool (claims !! "email_verified"))
      then Err "auth: token email is not verified"
      else
        let email := claim_string (claims !! "email") in
        if decide (email = "") then Err "auth: token has no email claim" else Ok email
  end.

(** ** Construction from the auth file *)

Section from_file.

(** [os.ReadFile], the iteration order of a Go map, and [idtoken.NewValidator]
    with its [Validate]. *)
Context (ReadFile : string → result error bytes).
Context (range_map : gmap string staticKeyEntry → list (string * staticKeyEntry)).
Context (NewValidator : result error (string → string → result error (gmap string claim))).

Definition loadAuthFile (path : string) : result AuthError authFileConfig :=
  match ReadFile path with
  | Err err => Err (AuthReadingFile err)
  | Ok data =>
      match Unmarshal decode_authFileConfig data {| Keys := ∅; Emails := ∅ |} with
      | Err err => Err (AuthParsingFile err)
      | Ok cfg => Ok cfg
      end
  end.

Definition NewStaticAuthenticatorFromFile (path : string) :
    result AuthError StaticAuthenticator :=
  let? cfg := loadAuthFile path in
  let? identities := buildIdentities (range_map (Keys cfg)) true in
  Ok {| sa_identities := identities |}.

Definition NewJWTAuthenticatorFromFile (path audience : string) :
    result AuthError JWTAuthenticator :=
  if decide (audience = "") then Err AuthEmptyAudience
  else
    let? cfg := loadAuthFile path in
    let? identities := buildIdentities (range_map (Emails cfg)) false in
    match NewValidator with
    | Err err => Err (AuthCreatingValidator err)
    | Ok validator =>
        Ok {| ja_identities := identities;
              ja_validate := googleTokenValidator validator audience |}
    end.
End from_file.

(** ** Specification of the table *)

(** An entry the auth file may hold. *)
Record entry_ok (e : staticKeyEntry) : Prop := {
  eo_namespace : ske_Namespace e ≠ "";
  eo_task_queues : ske_TaskQueues e ≠ [];
  eo_task_queue : Forall (.≠ "") (ske_TaskQueues e);
}.

(** The identity an entry stands for. *)
Definition identity_of (e : staticKeyEntry) : Identity :=
  {| Valid := true; Namespace := ske_Namespace e;
     TaskQueues := ske_TaskQueues e; Subject := ske_Subject e |}.

Lemma AllowsTaskQueue_true i tq : AllowsTaskQueue i tq = true ↔ tq ∈ TaskQueues i.
Proof. apply range_contains_true. Qed.

(** What every entry read from JSON satisfies. *)
Definition names_utf8 (e : staticKeyEntry) : Prop :=
  ValidString (ske_Namespace e) ∧ Forall ValidString (ske_TaskQueues e).

#[global] Instance names_utf8_dec e : Decision (names_utf8 e).
Proof. unfold names_utf8. apply _. Defined.

Lemma identity_of_wf e : entry_ok e → names_utf8 e → identity_wf (identity_of e).
Proof.
  intros [? ? Hall] [Hns Hutf8]. rewrite Forall_forall in Hall. rewrite Forall_forall in Hutf8.
  by split.
Qed.

#[global] Instance entry_ok_dec e : Decision (entry_ok e).
Proof.
  refine (cast_if (decide (ske_Namespace e ≠ "" ∧ ske_TaskQueues e ≠ [] ∧
                           Forall (.≠ "") (ske_TaskQueues e)))).
  - abstract (by split; naive_solver).
  - abstract (by intros []; naive_solver).
Defined.

(** ** Lemmas *)

Lemma copy_task_queues_Ok key i tqs out r :
  copy_task_queues key i tqs out = Ok r ↔ Forall (.≠ "") tqs ∧ r = out ++ tqs.
Proof.
  revert i out. induction tqs as [|tq tqs IH]; intros i out; simpl.
  - rewrite app_nil_r. naive_solver.
  - rewrite Forall_cons. case_decide; [naive_solver|].
    rewrite IH, <- app_assoc. simpl. naive_solver.
Qed.

Lemma validateTaskQueues_Ok key tqs r :
  validateTaskQueues key tqs = Ok r ↔ tqs ≠ [] ∧ Forall (.≠ "") tqs ∧ r = tqs.
Proof.
  unfold validateTaskQueues. destruct tqs as [|tq tqs]; [naive_solver|].
  rewrite decide_False by done. rewrite copy_task_queues_Ok. naive_solver.
Qed.

(** The loop succeeds exactly when every entry is well-formed, and then it has
    inserted their identities one by one. *)
Lemma build_loop_Ok entries hash m r :
  build_loop entries hash m = Ok r ↔
  Forall (λ p, entry_ok p.2) entries ∧
  r = foldl (λ m p, <[map_key hash p.1 := identity_of p.2]> m) m entries.
Proof.
  revert m. induction entries as [|[key e] entries IH]; intros m; simpl; [naive_solver|].
  rewrite Forall_cons. case_decide as Hns.
  { split; [done|]. by intros [[[] _] _]. }
  destruct (validateTaskQueues key (ske_TaskQueues e)) as [tqs|err] eqn:E.
  - apply validateTaskQueues_Ok in E as (Hne & Hall & ->). rewrite IH. simpl.
    split; [intros [? ?]; by repeat split|naive_solver].
  - split; [done|]. intros [[[? Hne Hall] _] _].
    assert (validateTaskQueues key (ske_TaskQueues e) = Ok (ske_TaskQueues e))
      by by apply validateTaskQueues_Ok. congruence.
Qed.

(** With distinct map keys, inserting one by one is [list_to_map]. *)
Lemma insert_all_list_to_map hash entries m :
  NoDup (map_key hash <$> entries.*1) →
  foldl (λ m p, <[map_key hash p.1 := identity_of p.2]> m) m entries =
  (list_to_map ((λ p, (map_key hash p.1, identity_of p.2)) <$> entries) : gmap _ _) ∪ m.
Proof.
  revert m. induction entries as [|[key e] entries IH]; intros m; simpl.
  - intros _. by rewrite (left_id_L ∅ (∪)).
  - intros [Hnot Hnd]%NoDup_cons. rewrite IH by done.
    rewrite <- insert_union_l, insert_union_r; [done|].
    apply not_elem_of_list_to_map_1. rewrite <- list_fmap_compose.
    intros (p & Heq & Hp)%list_elem_of_fmap. simpl in Heq. apply Hnot. rewrite Heq.
    apply list_elem_of_fmap. exists p.1. split; [done|]. by apply list_elem_of_fmap_2.
Qed.

(** The table a map of entries gives, whatever the iteration order. *)
Definition identity_table (hash : bool) (m : gmap string staticKeyEntry) : gmap string Identity :=
  list_to_map ((λ p, (map_key hash p.1, identity_of p.2)) <$> map_to_list m).

(** [hashKey] keeps the lookup keys of [m] apart. *)
Definition keys_distinct (hash : bool) (ks : list string) : Prop := NoDup (map_key hash <$> ks).

Lemma keys_distinct_raw ks : NoDup ks → keys_distinct false ks.
Proof. unfold keys_distinct, map_key. by rewrite list_fmap_id. Qed.

Lemma table_keys hash (l : list (string * staticKeyEntry)) :
  ((λ p, (map_key hash p.1, identity_of p.2)) <$> l).*1 = map_key hash <$> l.*1.
Proof. rewrite <- !list_fmap_compose. done. Qed.

Lemma buildIdentities_spec order hash m r :
  order ≡ₚ map_to_list m → keys_distinct hash (map_to_list m).*1 →
  buildIdentities order hash = Ok r ↔
  map_Forall (λ _ e, entry_ok e) m ∧ r = identity_table hash m.
Proof.
  intros Hperm Hdist. unfold buildIdentities. rewrite build_loop_Ok.
  assert (Hdist' : NoDup (map_key hash <$> order.*1)) by by rewrite Hperm.
  rewrite insert_all_list_to_map, (right_id_L ∅ (∪)) by done.
  assert (list_to_map ((λ p, (map_key hash p.1, identity_of p.2)) <$> order) =
          identity_table hash m) as ->.
  { apply list_to_map_proper; [|by rewrite Hperm].
    rewrite <- list_fmap_compose. by rewrite <- list_fmap_compose in Hdist'. }
  rewrite Hperm, map_Forall_to_list.
  assert (Forall (λ p : string * staticKeyEntry, entry_ok p.2) (map_to_list m) ↔
          Forall (uncurry (λ _ e, entry_ok e)) (map_to_list m)) as ->; [|done].
  apply Forall_iff. by intros [].
Qed.

Lemma identity_table_lookup hash m k :
  keys_distinct hash (k :: (map_to_list m).*1) ∨
    (keys_distinct hash (map_to_list m).*1 ∧ is_Some (m !! k)) →
  identity_table hash m !! map_key hash k = identity_of <$> m !! k.
Proof.
  intros Hk.
  assert (Hdist : keys_distinct hash (map_to_list m).*1)
    by (destruct Hk as [Hk|[Hk _]]; [apply (NoDup_cons_1_2 _ _ Hk)|exact Hk]).
  unfold identity_table. destruct (m !! k) as [e|] eqn:E; simpl.
  - apply elem_of_list_to_map.
    + unfold keys_distinct in Hdist. rewrite table_keys. exact Hdist.
    + apply list_elem_of_fmap. exists (k, e). split; [done|]. by apply elem_of_map_to_list.
  - destruct Hk as [Hk|[_ [? Hx]]]; [|discriminate Hx]. apply not_elem_of_list_to_map_1.
    rewrite <- list_fmap_compose. inversion Hk as [|? ? Hnot _]; subst.
    intros (p & Heq & Hp)%list_elem_of_fmap. apply Hnot. simpl in Heq. rewrite Heq.
    apply list_elem_of_fmap. exists p.1. split; [done|]. by apply list_elem_of_fmap_2.
Qed.

(** Whatever the iteration order and whatever collides, every identity in the
    table comes from a well-formed entry whose key has that map key. *)
Lemma build_loop_sound entries hash m r k i :
  build_loop entries hash m = Ok r → r !! k = Some i →
  m !! k = Some i ∨
  ∃ key e, (key, e) ∈ entries ∧ k = map_key hash key ∧ entry_ok e ∧ i = identity_of e.
Proof.
  intros [Hall ->]%build_loop_Ok. revert m. induction entries as [|[key e] entries IH]; intros m.
  - by left.
  - simpl. inversion Hall as [|? ? He Hall']; subst. intros Hr. destruct (IH Hall' _ Hr) as [Hin|].
    + apply lookup_insert_Some in Hin as [[<- <-]|[_ ?]]; [|by left].
      right. exists key, e. set_solver.
    + right. set_solver.
Qed.

(** A table all of whose identities come from well-formed entries. *)
Definition table_wf (m : gmap string Identity) : Prop :=
  map_Forall (λ _ i, ∃ e, entry_ok e ∧ names_utf8 e ∧ i = identity_of e) m.

Lemma buildIdentities_wf order hash r :
  Forall (λ p, names_utf8 p.2) order → buildIdentities order hash = Ok r → table_wf r.
Proof.
  intros Hutf8 Hb k i Hi.
  destruct (build_loop_sound _ _ _ _ _ _ Hb Hi) as [Hn|(key & e & Hin & _ & He & ->)].
  - by rewrite lookup_empty in Hn.
  - exists e. rewrite Forall_forall in Hutf8. split_and!; [done|by apply (Hutf8 (key, e))|done].
Qed.

(** ** Names read from JSON *)

Lemma decode_staticKeyEntry_utf8 v e :
  valid_json v → decode_staticKeyEntry v = Ok e → names_utf8 e.
Proof.
  intros Hv (t & Ht & [= <-])%result_bind_Ok.
  apply (decode_struct_decodes
    (λ t, ValidString (skt_Namespace t) ∧ Forall ValidString (sl_array (skt_TaskQueues t)))) in Ht;
    [|clear|done|by split; [|constructor]].
  - destruct Ht as [Hns Htq]. split; [done|by apply sl_elements_Forall].
  - intros f Hf v t t' Hv [Hns Htq]. unfold staticKeyEntry_fields in Hf.
    inv_member Hf; subst f; simpl; intros (x & Hx & [= <-])%result_bind_Ok; split; simpl; try done.
    + by eapply decode_string_decodes.
    + by eapply (decode_slice_decodes ValidString); [apply decode_string_decodes|..|exact Hx].
Qed.

(** Both sections of an auth file. *)
Definition config_utf8 (cfg : authFileConfig) : Prop :=
  map_Forall (λ _ e, names_utf8 e) (Keys cfg) ∧ map_Forall (λ _ e, names_utf8 e) (Emails cfg).

Definition sound_section (m : gmap string staticKeyEntry) : Prop :=
  map_Forall (λ key e, ValidString key ∧ names_utf8 e) m.

Lemma decode_authFileConfig_utf8 v cfg :
  valid_json v → decode_authFileConfig v {| Keys := ∅; Emails := ∅ |} = Ok cfg → config_utf8 cfg.
Proof.
  intros Hv Hdec.
  apply (decode_struct_decodes (λ c, sound_section (Keys c) ∧ sound_section (Emails c))) in Hdec
    as [Hks Hes]; [| |done|].
  - split; intros k e Hl; [by apply Hks in Hl as []|by apply Hes in Hl as []].
  - clear. intros f Hf v t t' Hv [Hks Hes]. unfold authFileConfig_fields in Hf.
    pose proof (decode_map_decodes names_utf8 decode_staticKeyEntry
                  decode_staticKeyEntry_utf8) as Hmap.
    inv_member Hf; subst f; simpl; intros (x & Hx & [= <-])%result_bind_Ok; split; simpl; try done.
    + exact (Hmap _ _ _ Hv Hks Hx).
    + exact (Hmap _ _ _ Hv Hes Hx).
  - split; apply map_Forall_empty.
Qed.

#[global] Instance StaticAuthenticator_laws : AuthenticatorLaws StaticAuthenticator.
Proof.
  refine {| auth_inv s := table_wf (sa_identities s); auth_identity _ := identity_wf |}; [|done].
  intros s key i Hs. simpl. destruct (sa_identities s !! hashKey key) as [j|] eqn:E.
  - intros [= ->] _. apply Hs in E as (e & He & Hu & ->). by apply identity_of_wf.
  - by intros [= <-].
Defined.

Lemma with_subject_wf i s : identity_wf i → identity_wf (with_subject i s).
Proof. intros [? ? ? ? ?]. by split. Qed.

#[global] Instance JWTAuthenticator_laws : AuthenticatorLaws JWTAuthenticator.
Proof.
  refine {| auth_inv a := table_wf (ja_identities a); auth_identity _ := identity_wf |}; [|done].
  intros a key i Ha. simpl. destruct (ja_validate a key) as [email|]; [|by intros [= <-]].
  destruct (ja_identities a !! email) as [j|] eqn:E; [|by intros [= <-]].
  apply Ha in E as (e & He & Hu & ->). pose proof (identity_of_wf _ He Hu) as Hwf.
  case_decide; intros [= <-] _; [by apply with_subject_wf|done].
Defined.

#[export] Hint Resolve identity_of_wf with_subject_wf buildIdentities_wf : proxy.

(** ** Properties *)

Section from_file_properties.
Context (ReadFile : string → result error bytes).
Context (range_map : gmap string staticKeyEntry → list (string * staticKeyEntry)).
Context (Hrange : ∀ m, range_map m ≡ₚ map_to_list m).
Context (NewValidator : result error (string → string → result error (gmap string claim))).

Definition new_static := NewStaticAuthenticatorFromFile ReadFile range_map.
Definition new_jwt := NewJWTAuthenticatorFromFile ReadFile range_map NewValidator.
Definition load_auth := loadAuthFile ReadFile.

Lemma new_static_Ok path a :
  new_static path = Ok a ↔
  ∃ cfg, load_auth path = Ok cfg ∧
    buildIdentities (range_map (Keys cfg)) true = Ok (sa_identities a).
Proof.
  unfold new_static, NewStaticAuthenticatorFromFile, load_auth.
  rewrite result_bind_Ok. setoid_rewrite result_bind_Ok. destruct a as [ids]. simpl. naive_solver.
Qed.

Lemma new_jwt_Ok path audience a :
  new_jwt path audience = Ok a ↔
  audience ≠ "" ∧ ∃ cfg validator, load_auth path = Ok cfg ∧ NewValidator = Ok validator ∧
    buildIdentities (range_map (Emails cfg)) false = Ok (ja_identities a) ∧
    ja_validate a = googleTokenValidator validator audience.
Proof.
  unfold new_jwt, NewJWTAuthenticatorFromFile, load_auth. destruct a as [ids val]. simpl.
  case_decide; [naive_solver|]. rewrite result_bind_Ok. setoid_rewrite result_bind_Ok.
  destruct NewValidator; naive_solver.
Qed.

Lemma load_auth_utf8 path cfg : load_auth path = Ok cfg → config_utf8 cfg.
Proof.
  unfold load_auth, loadAuthFile. destruct (ReadFile path) as [data|]; [|done].
  unfold Unmarshal. destruct (parse data) as [v|] eqn:Ep; [|done].
  destruct (decode_authFileConfig _ _) as [c|] eqn:Ed; [|done]. intros [= <-].
  eapply decode_authFileConfig_utf8; [by eapply parse_valid|exact Ed].
Qed.

Lemma range_map_utf8 m :
  map_Forall (λ _ e, names_utf8 e) m → Forall (λ p, names_utf8 p.2) (range_map m).
Proof.
  intros Hm. rewrite Hrange. apply Forall_forall. intros [k e] Hin%elem_of_map_to_list.
  by apply Hm in Hin.
Qed.

Lemma new_static_inv path a : new_static path = Ok a → auth_inv a.
Proof.
  intros (cfg & Hcfg%load_auth_utf8 & Hb)%new_static_Ok.
  eapply buildIdentities_wf; [|exact Hb]. apply range_map_utf8, Hcfg.
Qed.

Lemma new_jwt_inv path audience a : new_jwt path audience = Ok a → auth_inv a.
Proof.
  intros (_ & cfg & v & Hcfg%load_auth_utf8 & _ & Hb & _)%new_jwt_Ok.
  eapply buildIdentities_wf; [|exact Hb]. apply range_map_utf8, Hcfg.
Qed.

(** Whether the table can be built does not depend on the order of the map. *)
Lemma buildIdentities_ok (m : gmap string staticKeyEntry) order hash :
  order ≡ₚ map_to_list m →
  is_ok (buildIdentities order hash) = true ↔ map_Forall (λ _ e, entry_ok e) m.
Proof.
  intros Hperm. rewrite is_ok_true. unfold buildIdentities. setoid_rewrite build_loop_Ok.
  rewrite map_Forall_to_list.
  assert (Forall (λ p : string * staticKeyEntry, entry_ok p.2) order ↔
          Forall (uncurry (λ _ e, entry_ok e)) (map_to_list m)) as <-; [|naive_solver].
  rewrite Hperm. apply Forall_iff. by intros [].
Qed.

(** C33. Starting with an auth file is all or nothing: whatever order the entries
    are visited in, an authenticator is built exactly if the file can be read and
    parsed and every entry of its section has a namespace and at least one task
    queue, none of them empty; for JWTs also exactly if the audience is not empty
    and the validator is available. *)
Theorem auth_file_all_or_nothing path audience :
  (is_ok (new_static path) = true ↔
   ∃ cfg, load_auth path = Ok cfg ∧ map_Forall (λ _ e, entry_ok e) (Keys cfg)) ∧
  (is_ok (new_jwt path audience) = true ↔
   audience ≠ "" ∧ is_ok NewValidator = true ∧
   ∃ cfg, load_auth path = Ok cfg ∧ map_Forall (λ _ e, entry_ok e) (Emails cfg)).
Proof.
  split.
  - rewrite is_ok_true. setoid_rewrite new_static_Ok. split.
    + intros (a & cfg & Hcfg & Hb). exists cfg. split; [done|].
      apply (buildIdentities_ok _ _ true (Hrange _)). by rewrite Hb.
    + intros (cfg & Hcfg & Hall). apply (buildIdentities_ok _ _ true (Hrange _)) in Hall.
      apply is_ok_true in Hall as [ids Hb]. by exists {| sa_identities := ids |}, cfg.
  - rewrite !is_ok_true. setoid_rewrite new_jwt_Ok. split.
    + intros (a & Haud & cfg & v & Hcfg & Hv & Hb & _). split_and!; [done|by exists v|].
      exists cfg. split; [done|].
      apply (buildIdentities_ok _ _ false (Hrange _)). by rewrite Hb.
    + intros (Haud & [v Hv] & cfg & Hcfg & Hall).
      apply (buildIdentities_ok _ _ false (Hrange _)) in Hall.
      apply is_ok_true in Hall as [ids Hb].
      exists {| ja_identities := ids; ja_validate := googleTokenValidator v audience |}.
      split; [done|]. by exists cfg, v.
Qed.

(** C31. API keys resolve exactly: a key of the auth file gives the identity of
    its entry, any other the invalid zero identity, and never an error - provided
    SHA-256 does not collide on the keys of the file and the key presented. *)
Theorem static_authenticate_exact path a cfg key :
  new_static path = Ok a → load_auth path = Ok cfg →
  (∀ k1 k2, (k1 = key ∨ is_Some (Keys cfg !! k1)) → is_Some (Keys cfg !! k2) →
     hashKey k1 = hashKey k2 → k1 = k2) →
  Authenticate a key = Ok (from_option identity_of zero_identity (Keys cfg !! key)).
Proof.
  intros (cfg' & Hcfg' & Hb)%new_static_Ok Hcfg Hinj.
  rewrite Hcfg in Hcfg'. injection Hcfg' as <-.
  assert (Hkey : ∀ k, k ∈ (map_to_list (Keys cfg)).*1 → is_Some (Keys cfg !! k)).
  { intros k ([k' e] & -> & Hin)%list_elem_of_fmap. exists e. by apply elem_of_map_to_list in Hin. }
  assert (Hdist : keys_distinct true (map_to_list (Keys cfg)).*1).
  { apply NoDup_fmap_2_strong; [|apply NoDup_fst_map_to_list].
    intros k1 k2 H1%Hkey H2%Hkey. apply Hinj; auto. }
  apply (buildIdentities_spec _ _ _ _ (Hrange _) Hdist) in Hb as [_ Hids].
  simpl. rewrite Hids. change (hashKey key) with (map_key true key).
  rewrite identity_table_lookup; [by destruct (Keys cfg !! key)|].
  destruct (Keys cfg !! key) as [e|] eqn:E; [right; split; [done|by exists e]|left].
  constructor; [|exact Hdist]. intros (k & Heq & Hin%Hkey)%list_elem_of_fmap.
  assert (key = k) as <- by (apply Hinj; auto). rewrite E in Hin. by destruct Hin.
Qed.

(** C32. A token authenticates exactly when Google's validator accepts it for the
    configured audience, its email is verified and listed in the auth file; it is
    never an error, and the identity is that of the entry, under the entry's
    subject or else the email. *)
Theorem jwt_authenticate_exact path audience a cfg validator token :
  new_jwt path audience = Ok a → load_auth path = Ok cfg → NewValidator = Ok validator →
  ∃ i, Authenticate a token = Ok i ∧
    ((i = zero_identity ∧ Valid i = false) ∨ Valid i = true) ∧
    (Valid i = true ↔
     ∃ claims email e,
       validator token audience = Ok claims ∧
       claims !! "email_verified" = Some (ClaimBool true) ∧
       claims !! "email" = Some (ClaimString email) ∧ email ≠ "" ∧
       Emails cfg !! email = Some e ∧
       i = with_subject (identity_of e)
             (if decide (ske_Subject e = "") then email else ske_Subject e)).
Proof.
  intros (_ & cfg' & v & Hcfg' & Hv & Hb & Hval)%new_jwt_Ok Hcfg HV.
  rewrite Hcfg in Hcfg'. injection Hcfg' as <-. rewrite HV in Hv. injection Hv as <-.
  assert (Hdist : keys_distinct false (map_to_list (Emails cfg)).*1)
    by apply keys_distinct_raw, NoDup_fst_map_to_list.
  apply (buildIdentities_spec _ _ _ _ (Hrange _) Hdist) in Hb as [_ Hids].
  assert (Hlook : ∀ email, ja_identities a !! email = identity_of <$> Emails cfg !! email).
  { intros email. rewrite Hids. apply (identity_table_lookup false).
    destruct (Emails cfg !! email) as [e|] eqn:E; [right; split; [done|by exists e]|left].
    apply keys_distinct_raw. constructor; [|apply NoDup_fst_map_to_list].
    intros ([k e] & -> & Hin%elem_of_map_to_list)%list_elem_of_fmap. simpl in E. congruence. }
  simpl. rewrite Hval. unfold googleTokenValidator.
  destruct (validator token audience) as [claims|err]; [|exists zero_identity; naive_solver].
  destruct (claims !! "email_verified") as [[[]| |]|] eqn:Hver; simpl;
    try (exists zero_identity; naive_solver).
  destruct (claims !! "email") as [[|email|]|] eqn:Hemail; simpl;
    try (exists zero_identity; naive_solver).
  case_decide as Hne; [exists zero_identity; naive_solver|].
  rewrite Hlook. destruct (Emails cfg !! email) as [e|] eqn:He; simpl;
    [|exists zero_identity; naive_solver].
  destruct (decide (ske_Subject e = "")) as [Hs|Hs].
  - eexists. split; [done|]. split; [by right|]. split; [|done]. intros _.
    exists claims, email, e. by rewrite decide_True.
  - eexists. split; [done|]. split; [by right|]. split; [|done]. intros _.
    exists claims, email, e. by rewrite decide_False.
Qed.

(** Every identity an authenticator built from an auth file calls valid can
    be checked against: it has a namespace and at least one task queue, none of its
    names is empty, and all are valid UTF-8, as everything read from JSON is. *)
Theorem authenticated_identity_wf path audience key i :
  (∀ a, new_static path = Ok a → Authenticate a key = Ok i → Valid i = true → identity_wf i) ∧
  (∀ a, new_jwt path audience = Ok a → Authenticate a key = Ok i → Valid i = true → identity_wf i).
Proof.
  split; intros a Ha; apply auth_wf; [by eapply new_static_inv|by eapply new_jwt_inv].
Qed.
End from_file_properties.

(** ** A concrete auth file *)

Definition w_key_entry : staticKeyEntry :=
  {| ske_Namespace := "ns"; ske_TaskQueues := ["q"]; ske_Subject := "" |}.
Definition w_auth_file : authFileConfig :=
  {| Keys := {["key" := w_key_entry]}; Emails := {["a@b" := w_key_entry]} |}.
(** Its document, as the comment in [static.go] lays it out. *)
Definition w_entry_json : json :=
  JObject [("namespace", JString "ns"); ("task_queues", JArray [JString "q"]); ("subject", JString "")].
Definition w_auth_json : json :=
  JObject [("keys", JObject [("key", w_entry_json)]); ("emails", JObject [("a@b", w_entry_json)])].
Definition w_read (_ : string) : result error bytes := Ok (encode w_auth_json).
Definition w_validate (token audience : string) : result error (gmap string claim) :=
  if decide (token = "jwt" ∧ audience = "aud")
  then Ok {["email_verified" := ClaimBool true; "email" := ClaimString "a@b"]}
  else Err "invalid".

Lemma w_load path : load_auth w_read path = Ok w_auth_file.
Proof. vm_compute. reflexivity. Qed.

Lemma w_range : ∀ m : gmap string staticKeyEntry, map_to_list m ≡ₚ map_to_list m.
Proof. reflexivity. Qed.

Lemma auth_file_all_or_nothing_witness :
  is_ok (new_static w_read map_to_list "f") = true ∧
  is_ok (new_jwt w_read map_to_list (Ok w_validate) "f" "") = false.
Proof.
  destruct (auth_file_all_or_nothing w_read map_to_list w_range (Ok w_validate) "f" "") as [Hs Hj].
  split.
  - apply Hs. exists w_auth_file. split; [exact (w_load _)|]. apply map_Forall_singleton.
    apply (bool_decide_unpack _). vm_compute. exact I.
  - apply not_true_is_false. intros [Haud _]%Hj. exact (Haud eq_refl).
Defined.

Definition w_static : StaticAuthenticator :=
  {| sa_identities := {[hashKey "key" := identity_of w_key_entry]} |}.

Lemma w_new_static : new_static w_read map_to_list "f" = Ok w_static.
Proof. vm_compute. reflexivity. Qed.

Lemma static_authenticate_exact_witness :
  new_static w_read map_to_list "f" = Ok w_static ∧
  Authenticate w_static "key" = Ok (identity_of w_key_entry).
Proof.
  split; [exact w_new_static|].
  apply (static_authenticate_exact w_read map_to_list w_range "f" _ w_auth_file "key"
    w_new_static (w_load _)).
  assert (Hkey : ∀ k, is_Some (Keys w_auth_file !! k) → k = "key").
  { intros k [e He]. apply (lookup_singleton_Some "key" k w_key_entry e) in He as [<- _]. reflexivity. }
  intros k1 k2 H1 ->%Hkey _. destruct H1 as [->| ->%Hkey]; reflexivity.
Defined.

Definition w_jwt : JWTAuthenticator :=
  {| ja_identities := {["a@b" := identity_of w_key_entry]};
     ja_validate := googleTokenValidator w_validate "aud" |}.

Lemma w_new_jwt : new_jwt w_read map_to_list (Ok w_validate) "f" "aud" = Ok w_jwt.
Proof.
  apply new_jwt_Ok. split; [discriminate|]. exists w_auth_file, w_validate.
  split_and!; [exact (w_load _)|reflexivity..].
Qed.

Lemma jwt_authenticate_exact_witness :
  ∃ i, Authenticate w_jwt "jwt" = Ok i ∧ Valid i = true ∧ Subject i = "a@b".
Proof.
  destruct (jwt_authenticate_exact w_read map_to_list w_range (Ok w_validate) "f" "aud" w_jwt
    w_auth_file w_validate "jwt" w_new_jwt (w_load _) eq_refl)
    as (i & Hi & _ & Hiff).
  vm_compute in Hi. injection Hi as <-. eexists. split; [reflexivity|]. split; [|reflexivity].
  apply Hiff. exists {["email_verified" := ClaimBool true; "email" := ClaimString "a@b"]}, "a@b",
    w_key_entry. split_and!; reflexivity || done.
Defined.

(** Static mode and JWT mode on the same file. *)
Lemma authenticated_identity_wf_witness :
  Authenticate w_static "key" = Ok (identity_of w_key_entry) ∧
  identity_wf (identity_of w_key_entry).
Proof.
  assert (Hauth : Authenticate w_static "key" = Ok (identity_of w_key_entry))
    by (vm_compute; reflexivity).
  split; [exact Hauth|].
  exact (proj1 (authenticated_identity_wf w_read map_to_list w_range (Ok w_validate) "f" "aud" "key" _)
    w_static w_new_static Hauth eq_refl).
Defined.
