(* ===== verification/Grpc.v ===== *)
(** * Calls, contexts and effects

    What the proxy uses of gRPC: the context of a call with its metadata, the
    status errors it returns, and its [strings] operations on them. A handler
    is a [prog]: a finite tree of the effects it performs, each with one branch
    per answer, so that a theorem about a handler holds for every environment. *)

From S2P Require Import Prelude TemporalApi Scope Auth Store.
Local Open Scope string_scope.
Local Open Scope list_scope.

(** ** Strings ([strings.HasPrefix], [TrimPrefix], [LastIndex]) *)

(** [s[n:]] *)
Fixpoint str_drop (n : nat) (s : string) : string :=
  match n, s with
  | O, _ => s
  | S n', String _ s' => str_drop n' s'
  | S _, EmptyString => ""
  end.

Definition HasPrefix (s pre : string) : bool := String.prefix pre s.

Definition TrimPrefix (s pre : string) : string :=
  if HasPrefix s pre then str_drop (String.length pre) s else s.

(** The byte index of the last instance of [sub] in [s], [None] for Go's [-1]. *)
Fixpoint LastIndex (s sub : string) : option nat :=
  let here := if HasPrefix s sub then Some 0%nat else None in
  match s with
  | EmptyString => here
  | String _ s' =>
      match LastIndex s' sub with
      | Some i => Some (S i)
      | None => here
      end
  end.

(** ** Metadata and contexts *)

Abbreviation MD := (gmap string (list string)).

(** [md.Get(k)] of a lower-case key *)
Definition md_Get (md : MD) (k : string) : list string := default [] (md !! k).

(** A [context.Context], as far as the program looks: the metadata the client
    sent (absent outside a gRPC call), the metadata to send upstream, and the
    value under [identityContextKey{}]. *)
Record Context := {
  ctx_incoming : option MD;
  ctx_outgoing : MD;
  ctx_identity : option Identity;
}.

(** [context.WithValue(ctx, identityContextKey{}, identity)] *)
Definition WithIdentity (ctx : Context) (identity : Identity) : Context :=
  {| ctx_incoming := ctx_incoming ctx; ctx_outgoing := ctx_outgoing ctx;
     ctx_identity := Some identity |}.

(** [metadata.AppendToOutgoingContext(ctx, k, v)] *)
Definition AppendToOutgoingContext (ctx : Context) (k v : string) : Context :=
  {| ctx_incoming := ctx_incoming ctx;
     ctx_outgoing := <[k := md_Get (ctx_outgoing ctx) k ++ [v]]> (ctx_outgoing ctx);
     ctx_identity := ctx_identity ctx |}.

(** ** Errors of a call *)

(** Why [authorizeRequest] refuses. *)
Inductive AuthzError :=
| NamespaceNotAuthorized (ns : string)
| MissingTaskQueue
| StickyTaskQueueNotAuthorized (taskQueue : string)
| TaskQueueNotAuthorized (taskQueue : string)
| MissingTaskToken
| TokenCacheUnavailable (err : error)
| UnknownOrExpiredTaskToken
| TaskTokenNotAuthorized
| InvalidWorkerHeartbeatRequest
| OutOfScopeHeartbeat (err : HeartbeatError)
| OutOfScopeCommand (err : CommandError).

(** The message of a status error of the proxy's own; the wording is left out,
    what it interpolates is kept. *)
Inductive StatusMessage :=
| MsgRpcNotPermitted (rpcName : string)
| MsgMissingCredentials
| MsgInvalidCredentials
| MsgNotProtoMessage
| MsgAccessDenied (err : AuthzError)
| MsgTokenCacheUnavailable
| MsgMissingTaskQueueScope.

(** What a call fails with: a status of the proxy, or whatever the upstream
    client returned, passed through. *)
Inductive rpc_error :=
| StatusError (code : Code) (msg : StatusMessage)
| UpstreamError (code : Code) (msg : string).

(** The Go pair [(resp, err)]. A nil [resp] is [NotMessage]: the nil [any] is no
    [proto.Message]. *)
Abbreviation reply := (any Response * option rpc_error)%type.

(** ** Log lines *)

Inductive log_line :=
| LogRpcNotPermitted (rpc : string)
| LogMissingCredentials (rpc : string)
| LogInvalidCredentials (rpc : string)
| LogAccessDenied (rpc subject : string) (reason : AuthzError)
| LogDeleteFailed (rpc subject : string) (err : error)
| LogMissingScope (rpc subject : string)
| LogPutFailed (rpc subject : string) (err : error)
| LogAction (action : string) (actions : Z) (rpc namespace task_queue subject : string).

(** ** Programs with effects *)

Inductive prog (E : Type → Type) (R : Type) : Type :=
| Ret (r : R)
| Vis {X : Type} (e : E X) (k : X → prog E R).

Arguments Ret {E R} r.
Arguments Vis {E R X} e k.

Definition trigger {E X} (e : E X) : prog E X := Vis e Ret.

Fixpoint prog_bind {E R T} (k : R → prog E T) (p : prog E R) : prog E T :=
  match p with
  | Ret r => k r
  | Vis e k' => Vis e (λ x, prog_bind k (k' x))
  end.

#[global] Instance prog_MRet E : MRet (prog E) := λ R r, Ret r.
#[global] Instance prog_MBind E : MBind (prog E) := λ R T k p, prog_bind k p.

(** The effects of a call: the authenticator, the token cache, the upstream
    client and the log. *)
Inductive proxyE : Type → Type :=
| DoAuthenticate (apiKey : string) : proxyE (result error Identity)
| DoGet (token : bytes) : proxyE (result error (option Entry))
| DoPut (token : bytes) (entry : Entry) : proxyE goerror
| DoDelete (token : bytes) : proxyE goerror
| DoUpstream (ctx : Context) (rpc : string) (req : Request) :
    proxyE (Response * option rpc_error)
| DoLog (line : log_line) : proxyE unit.

(** An effect with its answer. *)
Inductive obs :=
| OAuthenticate (apiKey : string) (r : result error Identity)
| OGet (token : bytes) (r : result error (option Entry))
| OPut (token : bytes) (entry : Entry) (r : goerror)
| ODelete (token : bytes) (r : goerror)
| OUpstream (ctx : Context) (rpc : string) (req : Request) (resp : Response)
    (err : option rpc_error)
| OLog (line : log_line).

Definition observe {X} (e : proxyE X) : X → obs :=
  match e in proxyE X return X → obs with
  | DoAuthenticate apiKey => OAuthenticate apiKey
  | DoGet token => OGet token
  | DoPut token entry => OPut token entry
  | DoDelete token => ODelete token
  | DoUpstream ctx rpc req => λ r, OUpstream ctx rpc req r.1 r.2
  | DoLog line => λ _, OLog line
  end.

(** [exec p t r]: in some environment, [p] performs the effects of [t], gets
    the answers of [t], and returns [r]. *)
Fixpoint exec {R} (p : prog proxyE R) (t : list obs) (r : R) : Prop :=
  match p with
  | Ret r' => t = [] ∧ r = r'
  | Vis e k => ∃ x t', t = observe e x :: t' ∧ exec (k x) t' r
  end.

(** ** Sequencing *)

Lemma exec_bind {R T} (p : prog proxyE R) (k : R → prog proxyE T) t r :
  exec (p ≫= k) t r ↔ ∃ t1 t2 x, t = t1 ++ t2 ∧ exec p t1 x ∧ exec (k x) t2 r.
Proof.
  unfold mbind, prog_MBind. revert t. induction p as [x|X e k' IH]; intros t; simpl.
  - split; [by exists [], t, x|]. by intros (t1 & t2 & y & -> & [-> ->] & ?).
  - setoid_rewrite IH. split.
    + intros (y & t' & -> & t1 & t2 & x & -> & ? & ?).
      exists (observe e y :: t1), t2, x. split_and!; [done| |done]. by exists y, t1.
    + intros (t1 & t2 & x & -> & (y & t' & -> & ?) & ?).
      exists y, (t' ++ t2). split; [done|]. by exists t', t2, x.
Qed.

Lemma exec_trigger {X} (e : proxyE X) t x :
  exec (trigger e) t x ↔ t = [observe e x].
Proof. simpl. naive_solver. Qed.

(** Running a program against an environment that answers each effect from the
    effects so far. *)
Fixpoint play {R} (env : ∀ X, list obs → proxyE X → X) (h : list obs) (p : prog proxyE R) :
    list obs * R :=
  match p with
  | Ret r => ([], r)
  | Vis e k =>
      let x := env _ h e in
      let '(t, r) := play env (h ++ [observe e x]) (k x) in (observe e x :: t, r)
  end.

(** Such a run is one of the program's executions: [exec] is never empty. *)
Lemma exec_play {R} env h (p : prog proxyE R) : exec p (play env h p).1 (play env h p).2.
Proof.
  revert h. induction p as [r|X e k IH]; intros h; simpl; [done|].
  specialize (IH (env X h e) (h ++ [observe e (env X h e)])).
  destruct (play env _ _) as [t r]. simpl in *. eauto.
Qed.

(** An effect and the observation of it determine the answer, so an execution is
    determined by its effects. *)
#[global] Instance observe_inj {X} (e : proxyE X) : Inj (=) (=) (observe e).
Proof. intros x y. destruct e; simpl; try (by intros [=]); [|by destruct x, y].
  destruct x, y. by intros [= -> ->]. Qed.

Lemma exec_det {R} (p : prog proxyE R) t r r' : exec p t r → exec p t r' → r = r'.
Proof.
  revert t. induction p as [x|X e k IH]; intros t; simpl; [by intros [-> ->] [_ ->]|].
  intros (x & t1 & -> & Hx) (y & t2 & Heq & Hy).
  injection Heq as Hobs <-. apply observe_inj in Hobs as ->. by eapply IH.
Qed.

(** ** Strings, continued *)

Lemma prefix_app p s : String.prefix p (p +:+ s) = true.
Proof. induction p as [|a p IH]; simpl; [by destruct s|]. destruct (Ascii.ascii_dec a a) as [_|[]]; [exact IH|done]. Qed.

Lemma str_drop_app p s : str_drop (String.length p) (p +:+ s) = s.
Proof. by induction p. Qed.

Lemma TrimPrefix_app p s : TrimPrefix (p +:+ s) p = s.
Proof. unfold TrimPrefix, HasPrefix. by rewrite prefix_app, str_drop_app. Qed.

Lemma HasPrefix_true s p : HasPrefix s p = true ↔ ∃ s', s = p +:+ s'.
Proof.
  split; [|intros [s' ->]; apply prefix_app]. unfold HasPrefix. revert s.
  induction p as [|a p IH]; intros s; simpl; [by exists s|].
  destruct s as [|b s]; [done|]. simpl. simpl. destruct (Ascii.ascii_dec a b) as [->|]; [|done].
  intros [s' ->]%IH. by exists s'.
Qed.

Lemma LastIndex_cons a s sub :
  LastIndex (String a s) sub =
  match LastIndex s sub with
  | Some i => Some (S i)
  | None => if HasPrefix (String a s) sub then Some 0%nat else None
  end.
Proof. done. Qed.

(** What follows the last ["/"] has none. *)
Lemma LastIndex_slash pre m :
  LastIndex m "/" = None → LastIndex (pre +:+ "/" +:+ m) "/" = Some (String.length pre).
Proof.
  intros Hm. induction pre as [|a pre IH].
  - change ("" +:+ "/" +:+ m) with (String (Ascii.ascii_of_nat 47) m). rewrite LastIndex_cons, Hm. by destruct m.
  - change (String a pre +:+ "/" +:+ m) with (String a (pre +:+ "/" +:+ m)).
    by rewrite LastIndex_cons, IH.
Qed.
