(* ===== verification/Interceptor.v ===== *)
(** * The access-control interceptor ([internal/proxy/interceptor.go])

    The one unary interceptor every call passes: allowlist, credentials,
    scoping, the handler, then the token bookkeeping and the billing log. Each
    Go early return is a branch; each call on the authenticator, the cache, the
    upstream or the logger is an effect of the [prog]. *)

From S2P Require Import Prelude TemporalApi RpcPolicy Scope Actions Store Auth Grpc.
Local Open Scope string_scope.
Local Open Scope list_scope.

Definition IdentityFromContext (ctx : Context) : Identity * bool :=
  match ctx_identity ctx with
  | Some id => (id, true)
  | None => (zero_identity, false)
  end.

Definition rpcNameFromFullMethod (fullMethod : string) : string :=
  match LastIndex fullMethod "/" with
  | Some idx => str_drop (idx + 1) fullMethod
  | None => fullMethod
  end.

(** [errMissingCredentials] is the only error. *)
Definition extractAPIKey (ctx : Context) : option string :=
  match ctx_incoming ctx with
  | None => None
  | Some md =>
      match md_Get md "authorization" with
      | [value] =>
          if negb (HasPrefix value "Bearer ") then None
          else
            let key := TrimPrefix value "Bearer " in
            if decide (key = "") then None else Some key
      | _ => None
      end
  end.

Definition grpcErrorForAuthorizationError (err : AuthzError) : rpc_error :=
  match err with
  | TokenCacheUnavailable _ => StatusError Unavailable MsgTokenCacheUnavailable
  | _ => StatusError PermissionDenied (MsgAccessDenied err)
  end.

Definition pollTaskQueueScope (tq : ptr TaskQueue) : string :=
  if decide (GetKind tq = TASK_QUEUE_KIND_STICKY) then GetNormalName tq else GetName tq.

(** The heartbeats of a [PollNexusTaskQueueRequest]; the type assertion fails on
    any other request. *)
Definition poll_heartbeats (req : Request) : option (list (ptr WorkerHeartbeat)) :=
  match req with PollNexusTaskQueueRequest _ _ hbs => Some hbs | _ => None end.

Definition completed_commands (req : Request) : option (list (ptr Command)) :=
  match req with RespondWorkflowTaskCompletedRequest _ _ cmds => Some cmds | _ => None end.

Definition worker_heartbeats (req : Request) : option (list (ptr WorkerHeartbeat)) :=
  match req with RecordWorkerHeartbeatRequest _ hbs => Some hbs | _ => None end.

Definition authorize_poll (req : Request) (identity : Identity) : result AuthzError string :=
  let '(ns, _) := RequestNamespace req in
  if decide (ns ≠ Namespace identity) then Err (NamespaceNotAuthorized ns)
  else
    let '(tq, ok) := RequestTaskQueue req in
    if negb ok || bool_decide (GetName tq = "") then Err MissingTaskQueue
    else
      let taskQueue := pollTaskQueueScope tq in
      if decide (taskQueue = "") then Err MissingTaskQueue
      else if negb (AllowsTaskQueue identity taskQueue) then
        if decide (GetKind tq = TASK_QUEUE_KIND_STICKY)
        then Err (StickyTaskQueueNotAuthorized taskQueue)
        else Err (TaskQueueNotAuthorized taskQueue)
      else
        match poll_heartbeats req ≫= λ hbs,
                ValidateWorkerHeartbeatTaskQueues hbs (TaskQueues identity) with
        | Some err => Err (OutOfScopeHeartbeat err)
        | None => Ok taskQueue
        end.

(** What follows the cache lookup of [CategoryToken]. *)
Definition authorize_entry (req : Request) (rpcName : string) (identity : Identity)
    (entry : Entry) : result AuthzError string :=
  if bool_decide (entry_Namespace entry ≠ Namespace identity) ||
     negb (AllowsTaskQueue identity (entry_TaskQueue entry))
  then Err TaskTokenNotAuthorized
  else
    match (if decide (rpcName = "RespondWorkflowTaskCompleted")
           then completed_commands req ≫= λ cmds,
                  ValidateCommands cmds (Namespace identity) (entry_TaskQueue entry)
           else None) with
    | Some err => Err (OutOfScopeCommand err)
    | None => Ok (entry_TaskQueue entry)
    end.

Definition authorize_token (req : Request) (rpcName : string) (identity : Identity) :
    prog proxyE (result AuthzError string) :=
  let '(ns, ok) := RequestNamespace req in
  if ok && bool_decide (ns ≠ Namespace identity) then mret (Err (NamespaceNotAuthorized ns))
  else
    let '(token, ok) := RequestTaskToken req in
    if negb ok || negb (nonempty token) then mret (Err MissingTaskToken)
    else
      r ← trigger (DoGet token);
      mret match r with
      | Err err => Err (TokenCacheUnavailable err)
      | Ok None => Err UnknownOrExpiredTaskToken
      | Ok (Some entry) => authorize_entry req rpcName identity entry
      end.

Definition authorize_worker (req : Request) (identity : Identity) : result AuthzError string :=
  let '(ns, _) := RequestNamespace req in
  if decide (ns ≠ Namespace identity) then Err (NamespaceNotAuthorized ns)
  else
    let '(tq, ok) := RequestTaskQueueName req in
    if ok then
      if bool_decide (tq ≠ "") && negb (AllowsTaskQueue identity tq)
      then Err (TaskQueueNotAuthorized tq)
      else Ok tq
    else Ok "".

Definition authorize_worker_heartbeat (req : Request) (identity : Identity) :
    result AuthzError string :=
  let '(ns, _) := RequestNamespace req in
  if decide (ns ≠ Namespace identity) then Err (NamespaceNotAuthorized ns)
  else
    match worker_heartbeats req with
    | None => Err InvalidWorkerHeartbeatRequest
    | Some hbs =>
        match ValidateWorkerHeartbeatTaskQueues hbs (TaskQueues identity) with
        | Some err => Err (OutOfScopeHeartbeat err)
        | None => Ok ""
        end
    end.

Definition authorizeRequest (req : Request) (rpcName : string) (policy : Policy)
    (identity : Identity) : prog proxyE (result AuthzError string) :=
  match policy_Category policy with
  | CategoryPoll => mret (authorize_poll req identity)
  | CategoryToken => authorize_token req rpcName identity
  | CategoryUnscoped => mret (Ok "")
  | CategoryNamespaceOnly =>
      let '(ns, _) := RequestNamespace req in
      if decide (ns ≠ Namespace identity) then mret (Err (NamespaceNotAuthorized ns))
      else mret (Ok "")
  | CategoryWorker => mret (authorize_worker req identity)
  | CategoryWorkerHeartbeat => mret (authorize_worker_heartbeat req identity)
  end.

(** [if policy.Terminal { ... cache.Delete ... }] *)
Definition end_token (policy : Policy) (req : Request) (rpcName : string) (identity : Identity) :
    prog proxyE unit :=
  if policy_Terminal policy then
    let '(token, ok) := RequestTaskToken req in
    if ok then
      r ← trigger (DoDelete token);
      match r with
      | Some err => trigger (DoLog (LogDeleteFailed rpcName (Subject identity) err))
      | None => mret tt
      end
    else mret tt
  else mret tt.

(** The loop over [scope.CollectResponseTaskTokens(protoResp)]: the error it
    returns with, if any. *)
Fixpoint register_tokens (tokens : list bytes) (scopedTaskQueue rpcName : string)
    (identity : Identity) : prog proxyE (option rpc_error) :=
  match tokens with
  | [] => mret None
  | token :: rest =>
      if decide (scopedTaskQueue = "") then
        _ ← trigger (DoLog (LogMissingScope rpcName (Subject identity)));
        mret (Some (StatusError Internal MsgMissingTaskQueueScope))
      else
        r ← trigger (DoPut token {| entry_Namespace := Namespace identity;
                                    entry_TaskQueue := scopedTaskQueue |});
        match r with
        | Some err =>
            _ ← trigger (DoLog (LogPutFailed rpcName (Subject identity) err));
            mret (Some (StatusError Unavailable MsgTokenCacheUnavailable))
        | None => register_tokens rest scopedTaskQueue rpcName identity
        end
  end.

(** The loop over [actions.FromRequest(protoReq)]. *)
Fixpoint log_actions (acts : list Action) (scopedTaskQueue rpcName : string)
    (identity : Identity) : prog proxyE unit :=
  match acts with
  | [] => mret tt
  | a :: rest =>
      _ ← trigger (DoLog (LogAction (action_Type a) (action_Count a) rpcName
                            (Namespace identity) scopedTaskQueue (Subject identity)));
      log_actions rest scopedTaskQueue rpcName identity
  end.

(** [return nil, err] *)
Definition reject (err : rpc_error) : prog proxyE reply := mret (NotMessage, Some err).

(** The tail of the interceptor, from the call of the handler. *)
Definition forward (ctx : Context) (protoReq : Request) (rpcName : string) (policy : Policy)
    (identity : Identity) (scopedTaskQueue : string)
    (handler : Context → Request → prog proxyE reply) : prog proxyE reply :=
  answer ← handler ctx protoReq;
  let '(resp, err) := answer in
  match err with
  | Some err => mret (resp, Some err)
  | None =>
      _ ← end_token policy protoReq rpcName identity;
      r ← match resp with
          | Message protoResp =>
              register_tokens (CollectResponseTaskTokens protoResp) scopedTaskQueue rpcName identity
          | NotMessage => mret None
          end;
      match r with
      | Some err => reject err
      | None =>
          _ ← log_actions (FromRequest protoReq) scopedTaskQueue rpcName identity;
          mret (resp, None)
      end
  end.

(** The interceptor for a call of [fullMethod]. The handler is only reached with
    a [proto.Message]. *)
Definition NewInterceptor (ctx : Context) (req : any Request) (fullMethod : string)
    (handler : Context → Request → prog proxyE reply) : prog proxyE reply :=
  let rpcName := rpcNameFromFullMethod fullMethod in
  match Allowed !! rpcName with
  | None =>
      _ ← trigger (DoLog (LogRpcNotPermitted rpcName));
      reject (StatusError PermissionDenied (MsgRpcNotPermitted rpcName))
  | Some policy =>
      match extractAPIKey ctx with
      | None =>
          _ ← trigger (DoLog (LogMissingCredentials rpcName));
          reject (StatusError PermissionDenied MsgMissingCredentials)
      | Some apiKey =>
          auth ← trigger (DoAuthenticate apiKey);
          match (match auth with
                 | Err _ => None
                 | Ok identity => if Valid identity then Some identity else None
                 end) with
          | None =>
              _ ← trigger (DoLog (LogInvalidCredentials rpcName));
              reject (StatusError PermissionDenied MsgInvalidCredentials)
          | Some identity =>
              match req with
              | NotMessage => reject (StatusError Internal MsgNotProtoMessage)
              | Message protoReq =>
                  authz ← authorizeRequest protoReq rpcName policy identity;
                  match authz with
                  | Err err =>
                      _ ← trigger (DoLog (LogAccessDenied rpcName (Subject identity) err));
                      reject (grpcErrorForAuthorizationError err)
                  | Ok scopedTaskQueue =>
                      forward (WithIdentity ctx identity) protoReq rpcName policy identity
                        scopedTaskQueue handler
                  end
              end
          end
      end
  end.
