(* ===== verification/Server.v ===== *)
(** * The forwarding server ([internal/proxy/server.go])

    One method per allowed RPC, each forwarding to the upstream client;
    [DescribeNamespace] also hides the worker-commands capability. [serve] is a
    whole call: the generated gRPC glue hands the decoded request and the full
    method name to the interceptor, with the method as its handler. *)

From S2P Require Import Prelude TemporalApi RpcPolicy Scope Actions Store Auth Grpc Interceptor.
Local Open Scope string_scope.
Local Open Scope list_scope.

(** [workflowservice.WorkflowServiceClient]: the unary call of a method. *)
Abbreviation client := (Context → string → Request → prog proxyE (Response * option rpc_error)).

Record Server := { Upstream : client }.

(** [resp.NamespaceInfo.Capabilities.WorkerCommands = false], unless a pointer on
    the way is nil. *)
Definition disableWorkerCommandsCapability (resp : ptr DescribeNamespaceResponse_) :
    ptr DescribeNamespaceResponse_ :=
  match resp with
  | Some {| dn_NamespaceInfo := Some {| ni_Capabilities := Some cap |} |} =>
      Some {| dn_NamespaceInfo := Some {| ni_Capabilities := Some
        {| cap_WorkerCommands := false;
           cap_WorkerHeartbeats := cap_WorkerHeartbeats cap;
           cap_SyncUpdate := cap_SyncUpdate cap;
           cap_PollerAutoscaling := cap_PollerAutoscaling cap |} |} |}
  | _ => resp
  end.

(** ** The methods *)

Section methods.
Context (s : Server) (ctx : Context) (req : Request).

Definition PollWorkflowTaskQueue := Upstream s ctx "PollWorkflowTaskQueue" req.
Definition PollActivityTaskQueue := Upstream s ctx "PollActivityTaskQueue" req.
Definition PollNexusTaskQueue := Upstream s ctx "PollNexusTaskQueue" req.
Definition RespondWorkflowTaskCompleted := Upstream s ctx "RespondWorkflowTaskCompleted" req.
Definition RespondWorkflowTaskFailed := Upstream s ctx "RespondWorkflowTaskFailed" req.
Definition RecordActivityTaskHeartbeat := Upstream s ctx "RecordActivityTaskHeartbeat" req.
Definition RespondActivityTaskCompleted := Upstream s ctx "RespondActivityTaskCompleted" req.
Definition RespondActivityTaskFailed := Upstream s ctx "RespondActivityTaskFailed" req.
Definition RespondActivityTaskCanceled := Upstream s ctx "RespondActivityTaskCanceled" req.
Definition RespondNexusTaskCompleted := Upstream s ctx "RespondNexusTaskCompleted" req.
Definition RespondNexusTaskFailed := Upstream s ctx "RespondNexusTaskFailed" req.
Definition RespondQueryTaskCompleted := Upstream s ctx "RespondQueryTaskCompleted" req.
Definition GetSystemInfo := Upstream s ctx "GetSystemInfo" req.
Definition ShutdownWorker := Upstream s ctx "ShutdownWorker" req.
Definition RecordWorkerHeartbeat := Upstream s ctx "RecordWorkerHeartbeat" req.

(** The type of [resp] is that of the method, so only the first case is taken. *)
Definition DescribeNamespace : prog proxyE (Response * option rpc_error) :=
  answer ← Upstream s ctx "DescribeNamespace" req;
  let '(resp, err) := answer in
  match err with
  | Some err => mret (DescribeNamespaceResponse None, Some err)
  | None =>
      mret (match resp with
            | DescribeNamespaceResponse r =>
                DescribeNamespaceResponse (disableWorkerCommandsCapability r)
            | _ => resp
            end, None)
  end.

(** The generated registration: the method of the request's type, the embedded
    [UnimplementedWorkflowServiceServer] answering for the rest. *)
Definition Server_method : prog proxyE (Response * option rpc_error) :=
  match req with
  | PollWorkflowTaskQueueRequest _ _ => PollWorkflowTaskQueue
  | PollActivityTaskQueueRequest _ _ => PollActivityTaskQueue
  | PollNexusTaskQueueRequest _ _ _ => PollNexusTaskQueue
  | RespondWorkflowTaskCompletedRequest _ _ _ => RespondWorkflowTaskCompleted
  | RespondWorkflowTaskFailedRequest _ _ => RespondWorkflowTaskFailed
  | RecordActivityTaskHeartbeatRequest _ _ => RecordActivityTaskHeartbeat
  | RespondActivityTaskCompletedRequest _ _ => RespondActivityTaskCompleted
  | RespondActivityTaskFailedRequest _ _ => RespondActivityTaskFailed
  | RespondActivityTaskCanceledRequest _ _ => RespondActivityTaskCanceled
  | RespondNexusTaskCompletedRequest _ _ => RespondNexusTaskCompleted
  | RespondNexusTaskFailedRequest _ _ => RespondNexusTaskFailed
  | RespondQueryTaskCompletedRequest _ _ => RespondQueryTaskCompleted
  | GetSystemInfoRequest => GetSystemInfo
  | DescribeNamespaceRequest _ => DescribeNamespace
  | ShutdownWorkerRequest _ _ => ShutdownWorker
  | RecordWorkerHeartbeatRequest _ _ => RecordWorkerHeartbeat
  | OtherRequest m => mret (OtherResponse m, Some (UpstreamError (OtherCode 12) "not implemented"))
  end.
End methods.

(** The [grpc.UnaryHandler] of a call: the method's results as an [any]. *)
Definition Server_handler (s : Server) (ctx : Context) (req : Request) : prog proxyE reply :=
  answer ← Server_method s ctx req;
  let '(resp, err) := answer in mret (Message resp, err).

Definition full_method (m : string) : string :=
  "/temporal.api.workflowservice.v1.WorkflowService/" +:+ m.

(** A whole call: what the registered server does with a decoded request. *)
Definition serve (s : Server) (ctx : Context) (req : Request) : prog proxyE reply :=
  NewInterceptor ctx (Message req) (full_method (request_method req)) (Server_handler s).
