(* ===== verification/CallTrace.v ===== *)
(** * What a call does, phase by phase

    The executions of the interceptor's pieces, against any environment: which
    effects, in which order, with which outcome. The theorems on whole calls are
    in [CallSpec]. *)

From S2P Require Import Prelude TemporalApi RpcPolicy Scope Actions Store Auth Grpc.
From S2P Require Import Interceptor Server.
Local Open Scope string_scope.
Local Open Scope list_scope.

(** ** Specification of authorisation *)

(** When [identity] may make this request, under an RPC of category [c] and with
    [cached] what the token cache holds for the request's token; [scope] is the
    task queue the call then acts for. *)
Definition request_in_scope (identity : Identity) (req : Request) (rpcName : string)
    (c : Category) (cached : option (bytes * Entry)) (scope : string) : Prop :=
  let own_namespace := (RequestNamespace req).1 = Namespace identity in
  match c with
  | CategoryPoll =>
      cached = None ∧ own_namespace ∧
      ∃ tq, RequestTaskQueue req = (tq, true) ∧ GetName tq ≠ "" ∧
        scope = pollTaskQueueScope tq ∧ scope ≠ "" ∧ scope ∈ TaskQueues identity ∧
        Forall (heartbeat_in_scope (TaskQueues identity)) (default [] (poll_heartbeats req))
  | CategoryToken =>
      ∃ token entry, cached = Some (token, entry) ∧
        ((RequestNamespace req).2 = true → own_namespace) ∧
        RequestTaskToken req = (token, true) ∧ token ≠ [] ∧
        entry_Namespace entry = Namespace identity ∧
        scope = entry_TaskQueue entry ∧ scope ∈ TaskQueues identity ∧
        (rpcName = "RespondWorkflowTaskCompleted" →
         Forall (command_in_scope (Namespace identity) scope) (default [] (completed_commands req)))
  | CategoryUnscoped => cached = None ∧ scope = ""
  | CategoryNamespaceOnly => cached = None ∧ own_namespace ∧ scope = ""
  | CategoryWorker =>
      cached = None ∧ own_namespace ∧
      if (RequestTaskQueueName req).2
      then scope = (RequestTaskQueueName req).1 ∧ (scope = "" ∨ scope ∈ TaskQueues identity)
      else scope = ""
  | CategoryWorkerHeartbeat =>
      cached = None ∧ own_namespace ∧ scope = "" ∧
      ∃ hbs, worker_heartbeats req = Some hbs ∧
        Forall (heartbeat_in_scope (TaskQueues identity)) hbs
  end.

(** The cache lookup that shows [cached]. *)
Definition lookup_of (cached : option (bytes * Entry)) : list obs :=
  match cached with
  | None => []
  | Some (token, entry) => [OGet token (Ok (Some entry))]
  end.

(** ** Executions of the simple forms *)

Lemma exec_mret {R} (x : R) t r : exec (mret x) t r ↔ t = [] ∧ r = x.
Proof. done. Qed.

Lemma exec_trigger_bind {X R} (e : proxyE X) (k : X → prog proxyE R) t r :
  exec (trigger e ≫= k) t r ↔ ∃ x t', t = observe e x :: t' ∧ exec (k x) t' r.
Proof. done. Qed.

(** Take apart an execution hypothesis. *)
Ltac exec_step :=
  match goal with
  | H : exec (mret _) _ _ |- _ => apply exec_mret in H as [? ?]
  | H : exec (reject _) _ _ |- _ => apply exec_mret in H as [? ?]
  | H : exec (trigger _ ≫= _) _ _ |- _ => apply exec_trigger_bind in H as (? & ? & ? & ?)
  | H : exec (_ ≫= _) _ _ |- _ => apply exec_bind in H as (? & ? & ? & ? & ? & ?)
  end.
Ltac exec_inv := repeat exec_step; simplify_eq/=.

(** ** Authorisation *)

Lemma bool_decide_neq_true {A} `{EqDecision A} (x y : A) :
  bool_decide (x ≠ y) = false ↔ x = y.
Proof. rewrite bool_decide_eq_false. destruct (decide (x = y)); naive_solver. Qed.

Lemma AllowsTaskQueue_false i tq : AllowsTaskQueue i tq = false ↔ tq ∉ TaskQueues i.
Proof. apply range_contains_false. Qed.

Lemma poll_heartbeats_valid req tqs :
  (poll_heartbeats req ≫= λ hbs, ValidateWorkerHeartbeatTaskQueues hbs tqs) = None ↔
  Forall (heartbeat_in_scope tqs) (default [] (poll_heartbeats req)).
Proof.
  destruct (poll_heartbeats req) as [hbs|]; simpl.
  - apply ValidateWorkerHeartbeatTaskQueues_None.
  - split; [constructor|done].
Qed.

Lemma completed_commands_valid req ns tq :
  (completed_commands req ≫= λ cmds, ValidateCommands cmds ns tq) = None ↔
  Forall (command_in_scope ns tq) (default [] (completed_commands req)).
Proof.
  destruct (completed_commands req) as [cmds|]; simpl.
  - apply ValidateCommands_None.
  - split; [constructor|done].
Qed.

Lemma authorize_poll_Ok req i scope :
  authorize_poll req i = Ok scope ↔ request_in_scope i req "" CategoryPoll None scope.
Proof.
  unfold authorize_poll, request_in_scope.
  destruct (RequestNamespace req) as [ns ?], (RequestTaskQueue req) as [tq ok]; simpl.
  case_decide as Hns; [naive_solver|].
  destruct ok; simpl; [|naive_solver].
  case_bool_decide as Hname; [naive_solver|]. case_decide as Htq; [naive_solver|].
  destruct (AllowsTaskQueue i (pollTaskQueueScope tq)) eqn:Hallow; simpl.
  - apply AllowsTaskQueue_true in Hallow. pose proof (poll_heartbeats_valid req (TaskQueues i)).
    destruct (poll_heartbeats req ≫= _); naive_solver.
  - apply AllowsTaskQueue_false in Hallow. case_decide; naive_solver.
Qed.

Lemma authorize_entry_Ok req rpc i entry scope :
  authorize_entry req rpc i entry = Ok scope ↔
  entry_Namespace entry = Namespace i ∧ scope = entry_TaskQueue entry ∧
  scope ∈ TaskQueues i ∧
  (rpc = "RespondWorkflowTaskCompleted" →
   Forall (command_in_scope (Namespace i) scope) (default [] (completed_commands req))).
Proof.
  unfold authorize_entry. case_bool_decide as Hns; simpl; [naive_solver|].
 destruct (AllowsTaskQueue i (entry_TaskQueue entry)) eqn:Hallow; simpl.
  - apply AllowsTaskQueue_true in Hallow.
    pose proof (completed_commands_valid req (Namespace i) (entry_TaskQueue entry)).
    case_decide; [|naive_solver]. destruct (completed_commands req ≫= _); naive_solver.
  - apply AllowsTaskQueue_false in Hallow. naive_solver.
Qed.

Lemma authorize_worker_Ok req i scope :
  authorize_worker req i = Ok scope ↔ request_in_scope i req "" CategoryWorker None scope.
Proof.
  unfold authorize_worker, request_in_scope.
  destruct (RequestNamespace req) as [ns ?], (RequestTaskQueueName req) as [tq ok]; simpl.
  case_decide as Hns; [naive_solver|].
  destruct ok; [|naive_solver]. case_bool_decide as Hne; simpl.
  - destruct (AllowsTaskQueue i tq) eqn:Hallow; simpl.
    + apply AllowsTaskQueue_true in Hallow. naive_solver.
    + apply AllowsTaskQueue_false in Hallow. naive_solver.
  - naive_solver.
Qed.

Lemma authorize_worker_heartbeat_Ok req i scope :
  authorize_worker_heartbeat req i = Ok scope ↔
  request_in_scope i req "" CategoryWorkerHeartbeat None scope.
Proof.
  unfold authorize_worker_heartbeat, request_in_scope.
  destruct (RequestNamespace req) as [ns ?]; simpl.
  case_decide as Hns; [naive_solver|].
  destruct (worker_heartbeats req) as [hbs|]; [|naive_solver].
  pose proof (ValidateWorkerHeartbeatTaskQueues_None hbs (TaskQueues i)).
  destruct (ValidateWorkerHeartbeatTaskQueues hbs _); naive_solver.
Qed.

(** An authorisation that needs no lookup. *)
Lemma exec_pure_authorization (a : result AuthzError string) t scope
    (spec : option (bytes * Entry) → Prop) :
  (a = Ok scope ↔ spec None) → (∀ cached, spec cached → cached = None) →
  exec (mret a) t (Ok scope) ↔ ∃ cached, t = lookup_of cached ∧ spec cached.
Proof.
  intros Hok Hnone. rewrite exec_mret. split.
  - intros [-> Heq]. exists None. split; [done|]. by apply Hok.
  - intros (cached & -> & Hspec). pose proof (Hnone _ Hspec) as ->.
    split; [done|]. symmetry. by apply Hok.
Qed.

(** Authorisation performs at most one cache lookup, and grants [scope] exactly
    when the request is in scope for what that lookup found. *)
Lemma exec_authorizeRequest_Ok req rpc p i t scope :
  exec (authorizeRequest req rpc p i) t (Ok scope) ↔
  ∃ cached, t = lookup_of cached ∧
    request_in_scope i req rpc (policy_Category p) cached scope.
Proof.
  unfold authorizeRequest. destruct (policy_Category p).
  - apply exec_pure_authorization; [apply authorize_poll_Ok|by intros ? [-> _]].
  - unfold authorize_token, request_in_scope.
    destruct (RequestNamespace req) as [ns ok], (RequestTaskToken req) as [tok tokok]; simpl.
    destruct (ok && bool_decide (ns ≠ Namespace i)) eqn:Hns; simpl.
    { bool_to_prop. naive_solver. }
    assert (ok = true → ns = Namespace i).
    { intros ->. simpl in Hns. by apply bool_decide_neq_true. }
    destruct tokok; simpl; [|naive_solver].
    destruct (nonempty tok) eqn:Hne; simpl; [|destruct tok; naive_solver].
    apply nonempty_true in Hne. split.
    + intros (r & t' & -> & -> & Heq). destruct r as [[entry|]|]; [|done..].
      symmetry in Heq. apply authorize_entry_Ok in Heq. exists (Some (tok, entry)). naive_solver.
    + intros (cached & -> & tok' & entry & -> & _ & [= <-] & _ & Hentry).
      exists (Ok (Some entry)), []. split_and!; [done..|]. symmetry. by apply authorize_entry_Ok.
  - apply exec_pure_authorization; [simpl; naive_solver|by intros ? [-> _]].
  - unfold request_in_scope. destruct (RequestNamespace req) as [ns ok]; simpl.
    case_decide; (apply exec_pure_authorization; [naive_solver|by intros ? [-> _]]).
  - apply exec_pure_authorization; [apply authorize_worker_Ok|by intros ? [-> _]].
  - apply exec_pure_authorization; [apply authorize_worker_heartbeat_Ok|by intros ? [-> _]].
Qed.

(** When it refuses, it has still performed at most one lookup, and the refusal
    is [TokenCacheUnavailable] exactly if that lookup failed. *)
Lemma exec_authorizeRequest_Err req rpc p i t err :
  exec (authorizeRequest req rpc p i) t (Err err) →
  (t = [] ∧ ∀ e, err ≠ TokenCacheUnavailable e) ∨
  ∃ token r, t = [OGet token r] ∧ policy_Category p = CategoryToken ∧
    ∀ e, err = TokenCacheUnavailable e ↔ r = Err e.
Proof.
  unfold authorizeRequest. destruct (policy_Category p).
  - rewrite exec_mret. unfold authorize_poll. intros [-> Heq]. left. split; [done|].
    cases_hyp; naive_solver.
  - unfold authorize_token. destruct (RequestNamespace req) as [ns ok].
    case_match; [rewrite exec_mret; naive_solver|].
    destruct (RequestTaskToken req) as [tok tokok].
    case_match; [rewrite exec_mret; naive_solver|].
    intros (r & t' & -> & -> & Heq). right. exists tok, r. split_and!; [done..|].
    unfold authorize_entry in Heq. intros e. cases_hyp; naive_solver.
  - rewrite exec_mret. naive_solver.
  - case_match. case_decide; rewrite exec_mret; naive_solver.
  - rewrite exec_mret. unfold authorize_worker. intros [-> Heq]. left. split; [done|].
    cases_hyp; naive_solver.
  - rewrite exec_mret. unfold authorize_worker_heartbeat. intros [-> Heq]. left.
    split; [done|]. cases_hyp; naive_solver.
Qed.

(** ** The handler and the bookkeeping *)

(** The upstream client, as the proxy relies on it: the call of a method is one
    upstream call of that method with that request, in a context that differs
    from the caller's in the outgoing metadata only. *)
Class UpstreamClient (c : client) := {
  uc_outgoing : MD → MD;
  uc_context ctx :=
    {| ctx_incoming := ctx_incoming ctx; ctx_outgoing := uc_outgoing (ctx_outgoing ctx);
       ctx_identity := ctx_identity ctx |};
  uc_call ctx rpc req : c ctx rpc req = trigger (DoUpstream (uc_context ctx) rpc req);
}.

(** What the worker sees of an upstream response. *)
Definition worker_view (resp : Response) : Response :=
  match resp with
  | DescribeNamespaceResponse r => DescribeNamespaceResponse (disableWorkerCommandsCapability r)
  | _ => resp
  end.

Lemma worker_view_tokens resp :
  CollectResponseTaskTokens (worker_view resp) = CollectResponseTaskTokens resp.
Proof. by destruct resp. Qed.

(** A request of the generated types the server has a method for. *)
Definition known_request (req : Request) : Prop := ∀ m, req ≠ OtherRequest m.

(** The handler makes one upstream call and passes its outcome on. On success
    the response is the upstream's, with the capability hidden. *)
Lemma exec_Server_handler s `{!UpstreamClient (Upstream s)} ctx req t resp err :
  exec (Server_handler s ctx req) t (resp, err) →
  (known_request req ∧ ∃ uresp, t = [OUpstream (uc_context ctx) (request_method req) req uresp err] ∧
     (err = None → response_method uresp = request_method req → resp = Message (worker_view uresp))) ∨
  (¬ known_request req ∧ t = [] ∧ err ≠ None).
Proof.
  unfold Server_handler. intros (t1 & t2 & [resp1 err1] & -> & Ht1 & Ht2)%exec_bind.
  apply exec_mret in Ht2 as [-> [= -> ->]]. rewrite app_nil_r.
  destruct req; simpl in Ht1;
    unfold PollWorkflowTaskQueue, PollActivityTaskQueue, PollNexusTaskQueue,
      RespondWorkflowTaskCompleted, RespondWorkflowTaskFailed, RecordActivityTaskHeartbeat,
      RespondActivityTaskCompleted, RespondActivityTaskFailed, RespondActivityTaskCanceled,
      RespondNexusTaskCompleted, RespondNexusTaskFailed, RespondQueryTaskCompleted,
      GetSystemInfo, ShutdownWorker, RecordWorkerHeartbeat, DescribeNamespace in Ht1;
    rewrite ?uc_call in Ht1.
  all: try (apply exec_trigger in Ht1 as ->; left; split; [by intros ?|];
    exists resp1; split; [done|]; intros _ Hresp; by destruct resp1).
  - apply exec_trigger_bind in Ht1 as ([ur [e|]] & t' & -> & [-> [= -> ->]]%exec_mret);
      (left; split; [by intros ?|]; exists ur; split; [done|]); [done|].
    intros _ _. by destruct ur.
  - apply exec_mret in Ht1 as [-> [= -> ->]]. right. split; [|done].
    intros Hk. by destruct (Hk method).
Qed.

Definition entry_for (i : Identity) (scope : string) : Entry :=
  {| entry_Namespace := Namespace i; entry_TaskQueue := scope |}.

(** The successful puts of [tokens]. *)
Definition puts (i : Identity) (scope : string) (tokens : list bytes) : list obs :=
  (λ token, OPut token (entry_for i scope) None) <$> tokens.

(** The billing lines of a request. *)
Definition bill (rpc : string) (i : Identity) (scope : string) (req : Request) : list obs :=
  (λ a, OLog (LogAction (action_Type a) (action_Count a) rpc (Namespace i) scope (Subject i)))
    <$> FromRequest req.

(** The revocation of the request's token. *)
Definition revocation (rpc : string) (p : Policy) (i : Identity) (req : Request)
    (r : goerror) : list obs :=
  if policy_Terminal p && (RequestTaskToken req).2
  then ODelete (RequestTaskToken req).1 r ::
       from_option (λ err, [OLog (LogDeleteFailed rpc (Subject i) err)]) [] r
  else [].

Lemma exec_end_token p req rpc i t u :
  exec (end_token p req rpc i) t u ↔ ∃ r, t = revocation rpc p i req r.
Proof.
  destruct u. unfold end_token, revocation.
  destruct (policy_Terminal p); simpl; [|split; [intros [-> _]; by exists None|by intros [_ ->]]].
  destruct (RequestTaskToken req) as [tok []]; simpl; [|split; [intros [-> _]; by exists None|by intros [_ ->]]].
  split.
  - intros ([err|] & t' & -> & Ht); simpl in Ht.
    + destruct Ht as ([] & t2 & -> & -> & _). by exists (Some err).
    + destruct Ht as [-> _]. by exists None.
  - intros [r ->]. exists r, (from_option (λ err, [OLog (LogDeleteFailed rpc (Subject i) err)]) [] r).
    split; [done|]. destruct r; simpl; [|done]. by exists tt, [].
Qed.

(** Registration goes through the tokens in order, and stops at the first put
    that fails; without a scope it refuses the first token. *)
Lemma exec_register_tokens tokens scope rpc i t r :
  exec (register_tokens tokens scope rpc i) t r →
  (r = None ∧ t = puts i scope tokens ∧ (tokens = [] ∨ scope ≠ "")) ∨
  (r = Some (StatusError Internal MsgMissingTaskQueueScope) ∧ tokens ≠ [] ∧ scope = "" ∧
   t = [OLog (LogMissingScope rpc (Subject i))]) ∨
  (∃ done token rest err, r = Some (StatusError Unavailable MsgTokenCacheUnavailable) ∧
   tokens = done ++ token :: rest ∧ scope ≠ "" ∧
   t = puts i scope done ++
       [OPut token (entry_for i scope) (Some err); OLog (LogPutFailed rpc (Subject i) err)]).
Proof.
  revert t. induction tokens as [|token tokens IH]; intros t; cbn [register_tokens].
  { intros [-> ->]%exec_mret. naive_solver. }
  case_decide as Hscope.
  { intros (? & t' & -> & [-> ->]%exec_mret)%exec_trigger_bind. right. left. naive_solver. }
  intros ([err|] & t' & -> & Ht)%exec_trigger_bind.
  - apply exec_trigger_bind in Ht as (? & t2 & -> & [-> ->]%exec_mret).
    do 2 right. by exists [], token, tokens, err.
  - apply IH in Ht as [(-> & -> & _)|[(_ & _ & ? & _)|(l & tok & rest & err & -> & -> & _ & ->)]].
    + left. naive_solver.
    + done.
    + do 2 right. by exists (token :: l), tok, rest, err.
Qed.

Lemma exec_log_actions acts scope rpc i t u :
  exec (log_actions acts scope rpc i) t u ↔
  t = (λ a, OLog (LogAction (action_Type a) (action_Count a) rpc (Namespace i) scope (Subject i)))
        <$> acts.
Proof.
  destruct u. revert t. induction acts as [|a acts IH]; intros t; cbn [log_actions].
  - rewrite exec_mret. naive_solver.
  - rewrite exec_trigger_bind. setoid_rewrite IH. split.
    + by intros (? & t' & -> & ->).
    + intros ->. by eexists tt, _.
Qed.

(** ** The whole interceptor *)

(** The effects of an access check: they leave no mark on the cache, the
    upstream or the bill. *)
Definition harmless (o : obs) : Prop :=
  match o with
  | OAuthenticate _ _ | OGet _ _ => True
  | OLog (LogRpcNotPermitted _) | OLog (LogMissingCredentials _)
  | OLog (LogInvalidCredentials _) | OLog (LogAccessDenied _ _ _) => True
  | _ => False
  end.

(** What the effects of a call show about a legitimate one: the RPC is allowed,
    the key is that of identity [i], and the request is in scope for what the
    cache said. *)
Definition legitimate (ctx : Context) (req : Request) (rpc : string) (t : list obs)
    (p : Policy) (key : string) (i : Identity) (cached : option (bytes * Entry))
    (scope : string) : Prop :=
  Allowed !! rpc = Some p ∧ extractAPIKey ctx = Some key ∧
  OAuthenticate key (Ok i) ∈ t ∧ Valid i = true ∧ Forall (.∈ t) (lookup_of cached) ∧
  request_in_scope i req rpc (policy_Category p) cached scope.

(** A request that was refused authorisation is not in scope. *)
Lemma exec_authorizeRequest_refused req rpc p i t err cached scope :
  exec (authorizeRequest req rpc p i) t (Err err) → Forall (.∈ t) (lookup_of cached) →
  ¬ request_in_scope i req rpc (policy_Category p) cached scope.
Proof.
  intros Ht Hin Hscope.
  assert (t = lookup_of cached) as ->.
  { apply exec_authorizeRequest_Err in Ht as [[-> _]|(tok & r & -> & Hc & _)];
      destruct cached as [[tok' e]|]; simpl in *; try done.
    - apply Forall_cons in Hin as [Hin _]. by apply elem_of_nil in Hin.
    - apply Forall_cons in Hin as [Hin _]. by apply list_elem_of_singleton in Hin as ->.
    - rewrite Hc in Hscope. by destruct Hscope as (? & ? & ? & _). }
  assert (Hok : exec (authorizeRequest req rpc p i) (lookup_of cached) (Ok scope))
    by (apply exec_authorizeRequest_Ok; eauto).
  discriminate (exec_det _ _ _ _ Ht Hok).
Qed.

Lemma grpcError_status err :
  ∃ code msg, grpcErrorForAuthorizationError err = StatusError code msg.
Proof. destruct err; eexists _, _; reflexivity. Qed.

(** The lookup seen in a call is the one authorisation made. *)
Lemma lookup_of_beside cached key r t line :
  Forall (.∈ OAuthenticate key r :: t ++ [OLog line]) (lookup_of cached) →
  Forall (.∈ t) (lookup_of cached).
Proof.
  destruct cached as [[tok e]|]; simpl; [|constructor].
  intros [Hin _]%Forall_cons. apply Forall_singleton.
  apply elem_of_cons in Hin as [Hin|Hin]; [discriminate|].
  apply elem_of_app in Hin as [|Hin]; [done|]. inv_member Hin.
Qed.

(** A call is refused before the handler, without a mark, or goes through. *)
Lemma exec_NewInterceptor ctx req fm handler t r :
  exec (NewInterceptor ctx (Message req) fm handler) t r →
  (∃ code msg, r = (NotMessage, Some (StatusError code msg)) ∧ Forall harmless t ∧
     (∀ token e, OGet token (Err e) ∈ t →
        code = Unavailable ∧ msg = MsgTokenCacheUnavailable) ∧
     ∀ p key i cached scope, ¬ legitimate ctx req (rpcNameFromFullMethod fm) t p key i cached scope) ∨
  (∃ p key i cached scope t2,
     Allowed !! rpcNameFromFullMethod fm = Some p ∧ extractAPIKey ctx = Some key ∧
     Valid i = true ∧
     request_in_scope i req (rpcNameFromFullMethod fm) (policy_Category p) cached scope ∧
     t = OAuthenticate key (Ok i) :: lookup_of cached ++ t2 ∧
     exec (forward (WithIdentity ctx i) req (rpcNameFromFullMethod fm) p i scope handler) t2 r).
Proof.
  unfold NewInterceptor. destruct (Allowed !! _) as [p|] eqn:Hp.
  2: { rewrite exec_trigger_bind. intros (? & ? & -> & [-> ->]). left.
       eexists _, _. split_and!; [done|by repeat constructor| |].
       - intros ? ? Hin. inv_member Hin.
       - intros p key i cached scope (? & _). congruence. }
  destruct (extractAPIKey ctx) as [key|] eqn:Hkey.
  2: { rewrite exec_trigger_bind. intros (? & ? & -> & [-> ->]). left.
       eexists _, _. split_and!; [done|by repeat constructor| |].
       - intros ? ? Hin. inv_member Hin.
       - intros p' key i cached scope (_ & ? & _). congruence. }
  rewrite exec_trigger_bind. intros (auth & t' & -> & Ht). simpl observe.
  destruct auth as [i|e]; [destruct (Valid i) eqn:Hvalid|].
  2,3: rewrite exec_trigger_bind in Ht; destruct Ht as (? & ? & -> & [-> ->]); left;
       eexists _, _; (split_and!; [done|by repeat constructor| |]);
       [intros ? ? Hin; inv_member Hin|];
       intros p' key' i' cached scope (_ & _ & Hin & ? & _); inv_member Hin; congruence.
  apply exec_bind in Ht as (t1 & t2 & [scope|err] & -> & Hauthz & Ht).
  - right. apply exec_authorizeRequest_Ok in Hauthz as (cached & -> & Hscope).
    exists p, key, i, cached, scope, t2.
    split_and!; [done|done|exact Hvalid|exact Hscope|reflexivity|exact Ht].
  - left. rewrite exec_trigger_bind in Ht; destruct Ht as (? & ? & -> & [-> ->]).
    destruct (grpcError_status err) as (code & msg & Hmsg). exists code, msg. rewrite Hmsg.
    pose proof (λ c sc, exec_authorizeRequest_refused _ _ _ _ _ _ c sc Hauthz) as Hout.
    apply exec_authorizeRequest_Err in Hauthz as [[-> _]|(tok & r & -> & _ & Herr)];
      (split_and!; [done|by repeat constructor| |]).
    + intros ? ? Hin. inv_member Hin.
    + intros p' key' i' cached scope (Hp' & _ & Hauth & _ & Hin & Hscope).
      inv_member Hauth. injection Hauth as -> ->. rewrite Hp in Hp'. injection Hp' as <-. eapply Hout; [|exact Hscope].
      by eapply lookup_of_beside.
    + intros tok' e Hin. inv_member Hin. injection Hin as -> <-.
      rewrite (proj2 (Herr e) eq_refl) in Hmsg. by injection Hmsg as <- <-.
    + intros p' key' i' cached scope (Hp' & _ & Hauth & _ & Hin & Hscope).
      inv_member Hauth. injection Hauth as -> ->. rewrite Hp in Hp'. injection Hp' as <-. eapply Hout; [|exact Hscope].
      by eapply lookup_of_beside.
Qed.

(** Every upstream answer has the response type of its method, and its error, if
    any, is a status of the upstream's. *)
Definition typed_answer (o : obs) : Prop :=
  match o with
  | OUpstream _ rpc _ resp err =>
      response_method resp = rpc ∧
      match err with Some (StatusError _ _) => False | _ => True end
  | _ => True
  end.

Abbreviation typed_answers := (Forall typed_answer).

(** The rest of a call that was let through for [scope], upstream answers being
    typed: one upstream call, and on success the revocation, the registrations
    and the bill, in this order. [uctx] is the context of the upstream call. *)
Inductive forwarded (uctx : Context) (req : Request) (rpc : string) (p : Policy) (i : Identity)
    (scope : string) : list obs → reply → Prop :=
| fw_failed uresp e resp :
    forwarded uctx req rpc p i scope
      [OUpstream uctx (request_method req) req uresp (Some e)] (resp, Some e)
| fw_done uresp d :
    CollectResponseTaskTokens uresp = [] ∨ scope ≠ "" →
    forwarded uctx req rpc p i scope
      (OUpstream uctx (request_method req) req uresp None :: revocation rpc p i req d ++
       puts i scope (CollectResponseTaskTokens uresp) ++ bill rpc i scope req)
      (Message (worker_view uresp), None)
| fw_no_scope uresp d :
    CollectResponseTaskTokens uresp ≠ [] → scope = "" →
    forwarded uctx req rpc p i scope
      (OUpstream uctx (request_method req) req uresp None :: revocation rpc p i req d ++
       [OLog (LogMissingScope rpc (Subject i))])
      (NotMessage, Some (StatusError Internal MsgMissingTaskQueueScope))
| fw_put_failed uresp d tokens token rest err :
    CollectResponseTaskTokens uresp = tokens ++ token :: rest → scope ≠ "" →
    forwarded uctx req rpc p i scope
      (OUpstream uctx (request_method req) req uresp None :: revocation rpc p i req d ++
       puts i scope tokens ++
       [OPut token (entry_for i scope) (Some err); OLog (LogPutFailed rpc (Subject i) err)])
      (NotMessage, Some (StatusError Unavailable MsgTokenCacheUnavailable)).

Lemma exec_forward s `{!UpstreamClient (Upstream s)} ctx req rpc p i scope t r :
  typed_answers t →
  exec (forward ctx req rpc p i scope (Server_handler s)) t r →
  (known_request req ∧ forwarded (uc_context ctx) req rpc p i scope t r) ∨
  (¬ known_request req ∧ t = [] ∧ r.2 ≠ None).
Proof.
  intros Htyped Ht. unfold forward in Ht. apply exec_bind in Ht as (t1 & t2 & [resp err] & -> & Hh & Ht).
  apply (exec_Server_handler s) in Hh as [(Hk & uresp & -> & Hresp)|(Hk & -> & Herr)].
  2: { right. destruct err; [|done]. apply exec_mret in Ht as [-> ->]. done. }
  left. split; [done|].
  destruct err as [e|]; [apply exec_mret in Ht as [-> ->]; apply fw_failed|].
  rewrite Hresp in Ht; [|done|by apply Forall_cons in Htyped as [[] _]].
  apply exec_bind in Ht as (td & t3 & [] & -> & Hd & Ht).
  apply exec_end_token in Hd as [d ->].
  apply exec_bind in Ht as (tr & t4 & reg & -> & Hreg & Ht). rewrite worker_view_tokens in Hreg.
  apply exec_register_tokens in Hreg as
    [(-> & -> & Hne)|[(-> & Htok & -> & ->)|(tokens & token & rest & err & -> & Htok & Hne & ->)]].
  - apply exec_bind in Ht as (tb & t5 & [] & -> & Hb & [-> ->]%exec_mret).
    apply exec_log_actions in Hb as ->. rewrite app_nil_r. by apply fw_done.
  - apply exec_mret in Ht as [-> ->]. rewrite app_nil_r. by apply fw_no_scope.
  - apply exec_mret in Ht as [-> ->]. rewrite app_nil_r. by eapply fw_put_failed.
Qed.

(** ** Method names *)

Lemma string_app_assoc (a b c : string) : a +:+ (b +:+ c) = (a +:+ b) +:+ c.
Proof. induction a as [|x a IH]; [done|]. apply (f_equal (String x) IH). Qed.

Lemma string_length_app (a b : string) :
  String.length (a +:+ b) = (String.length a + String.length b)%nat.
Proof. induction a as [|x a IH]; [done|]. apply (f_equal S IH). Qed.

Lemma rpcNameFromFullMethod_slash pre m :
  LastIndex m "/" = None → rpcNameFromFullMethod (pre +:+ "/" +:+ m) = m.
Proof.
  intros Hm. unfold rpcNameFromFullMethod. rewrite LastIndex_slash by done.
  change 1%nat with (String.length "/"). rewrite <- string_length_app, string_app_assoc.
  apply str_drop_app.
Qed.

Lemma rpcName_full_method req :
  known_request req → rpcNameFromFullMethod (full_method (request_method req)) = request_method req.
Proof.
  intros Hk. destruct req; try reflexivity. by destruct (Hk method).
Qed.

Lemma string_app_inj (p a b : string) : p +:+ a = p +:+ b → a = b.
Proof. intros Heq. by rewrite <- (TrimPrefix_app p a), Heq, TrimPrefix_app. Qed.

(** C8. The credential of a call is unambiguous: a key is extracted exactly from a
    call whose metadata has one authorization value, "Bearer " and that non-empty
    key; a second value, another scheme or an empty key yields none. *)
Theorem extractAPIKey_exact ctx key :
  extractAPIKey ctx = Some key ↔
  key ≠ "" ∧ ∃ md, ctx_incoming ctx = Some md ∧
    md !! "authorization" = Some ["Bearer " +:+ key].
Proof.
  unfold extractAPIKey, md_Get. destruct (ctx_incoming ctx) as [md|]; [|naive_solver].
  destruct (md !! "authorization") as [[|value [|v2 vs]]|] eqn:Hmd; simpl; try naive_solver.
  assert (Hval : (∃ md', Some md = Some md' ∧ md' !! "authorization" = Some ["Bearer " +:+ key]) ↔
                 value = "Bearer " +:+ key).
  { split; [intros (? & [= <-] & Hv); congruence|intros ->; by exists md]. }
  rewrite Hval. destruct (HasPrefix value "Bearer ") eqn:Hpre.
  - apply HasPrefix_true in Hpre as [rest ->]. cbn [negb].
    rewrite (TrimPrefix_app "Bearer " rest). case_decide as Hne.
    + split; [done|]. by intros [? <-%string_app_inj].
    + split; [by intros [= ->]|]. by intros [? ->%string_app_inj].
  - split; [done|]. intros [_ ->]. by rewrite (prefix_app "Bearer " key : HasPrefix _ _ = true) in Hpre.
Qed.
