(* ===== verification/GoStd.v ===== *)
(** * Parsing functions of the Go standard library

    The parts of [strconv], [strings], [time] and [path/filepath] that
    [internal/config] uses to read its settings, over strings as byte sequences. *)

From S2P Require Import Prelude Grpc.
From Stdlib Require Import Ascii.
From Stdlib.Floats Require Import SpecFloat.
Local Open Scope string_scope.
Local Open Scope list_scope.
Local Open Scope Z_scope.

Definition chr (n : nat) : string := String (ascii_of_nat n) "".

(** ** [strconv.ParseBool] *)

Definition ParseBool (s : string) : option bool :=
  if decide (s ∈ ["1"; "t"; "T"; "TRUE"; "true"; "True"]) then Some true
  else if decide (s ∈ ["0"; "f"; "F"; "FALSE"; "false"; "False"]) then Some false
  else None.

(** ** [strconv.Atoi], for a 64-bit [int] *)

Definition digit (c : ascii) : option Z :=
  let n := Z.of_nat (nat_of_ascii c) in
  if (48 <=? n) && (n <=? 57) then Some (n - 48) else None.

(** The value of a string of digits only. *)
Fixpoint digits_value (acc : Z) (s : string) : option Z :=
  match s with
  | EmptyString => Some acc
  | String c s' =>
      match digit c with
      | Some d => digits_value (acc * 10 + d) s'
      | None => None
      end
  end.

(** The optional sign, and the rest. *)
Definition take_sign (s : string) : bool * string :=
  match s with
  | String c s' =>
      if decide (c = ascii_of_nat 45) then (true, s')
      else if decide (c = ascii_of_nat 43) then (false, s') else (false, s)
  | EmptyString => (false, s)
  end.

Definition minInt64 : Z := - 2 ^ 63.
Definition maxInt64 : Z := 2 ^ 63 - 1.

Definition Atoi (s : string) : option Z :=
  let '(neg, ds) := take_sign s in
  if decide (ds = "") then None
  else
    match digits_value 0 ds with
    | None => None
    | Some v =>
        let n := if neg then - v else v in
        if (minInt64 <=? n) && (n <=? maxInt64) then Some n else None
    end.

(** ** [time.ParseDuration]

    Unsigned 64-bit arithmetic, checked against [1<<63] as in the library: only
    the sum of the terms can wrap around. The fraction goes through [float64]. *)

Definition leadingInt_step (x d : Z) : option Z :=
  if x >? 2 ^ 63 / 10 then None
  else let x' := x * 10 + d in if x' >? 2 ^ 63 then None else Some x'.

(** [leadingInt]: the value and the rest, [None] on overflow. *)
Fixpoint leadingInt (x : Z) (s : string) : option (Z * string) :=
  match s with
  | String c s' =>
      match digit c with
      | Some d => match leadingInt_step x d with Some x' => leadingInt x' s' | None => None end
      | None => Some (x, s)
      end
  | EmptyString => Some (x, s)
  end.

(** [leadingFraction]: the value, the power of ten of the scale and the rest;
    digits past an overflow are dropped. *)
Fixpoint leadingFraction (x : Z) (scale : nat) (overflow : bool) (s : string) :
    Z * nat * string :=
  match s with
  | String c s' =>
      match digit c with
      | Some d =>
          if overflow || (x >? (2 ^ 63 - 1) / 10) then leadingFraction x scale true s'
          else
            let y := x * 10 + d in
            if y >? 2 ^ 63 then leadingFraction x scale true s'
            else leadingFraction y (S scale) false s'
      | None => (x, scale, s)
      end
  | EmptyString => (x, scale, s)
  end.

Definition nanosecond : Z := 1.
Definition microsecond : Z := 1000 * nanosecond.
Definition millisecond : Z := 1000 * microsecond.
Definition second : Z := 1000 * millisecond.
Definition minute : Z := 60 * second.
Definition hour : Z := 60 * minute.

(** Both spellings of "µs" are two bytes of UTF-8. *)
Definition unitMap (u : string) : option Z :=
  if decide (u = "ns") then Some nanosecond
  else if decide (u ∈ ["us"; chr 194 +:+ chr 181 +:+ "s"; chr 206 +:+ chr 188 +:+ "s"])
  then Some microsecond
  else if decide (u = "ms") then Some millisecond
  else if decide (u = "s") then Some second
  else if decide (u = "m") then Some minute
  else if decide (u = "h") then Some hour
  else None.

(** The bytes up to the next ['.'] or digit. *)
Fixpoint span_unit (s : string) : string * string :=
  match s with
  | String c s' =>
      if bool_decide (c = ascii_of_nat 46) || bool_decide (digit c ≠ None) then ("", s)
      else let '(u, rest) := span_unit s' in (String c u, rest)
  | EmptyString => ("", "")
  end.

(** [float64] of an integer, and [uint64] of a non-negative [float64]. *)
Definition float64 (z : Z) : spec_float := binary_normalize 53 1024 z 0 false.
Definition uint64_of_float (f : spec_float) : Z :=
  match f with
  | S754_finite false m e => if 0 <=? e then Zpos m * 2 ^ e else Zpos m / 2 ^ (- e)
  | _ => 0
  end.

(** [uint64(float64(f) * (float64(unit) / scale))]; [scale] is a product of
    tens, multiplied in order. *)
Fixpoint scale_float (n : nat) : spec_float :=
  match n with
  | O => float64 1
  | S n' => SFmul 53 1024 (scale_float n') (float64 10)
  end.
Definition fraction_value (f unit : Z) (scale : nat) : Z :=
  uint64_of_float (SFmul 53 1024 (float64 f) (SFdiv 53 1024 (float64 unit) (scale_float scale))).

(** The unit of work of the loop: one number with its unit, added to [d]. *)
Definition duration_term (d : Z) (s : string) : option (Z * string) :=
  match s with
  | EmptyString => None
  | String c _ =>
      if negb (bool_decide (c = ascii_of_nat 46) || bool_decide (digit c ≠ None)) then None
      else
        match leadingInt 0 s with
        | None => None
        | Some (v, s1) =>
            let pre := negb (bool_decide (s1 = s)) in
            let '(f, scale, s2, post) :=
              match s1 with
              | String c1 s1' =>
                  if decide (c1 = ascii_of_nat 46) then
                    let '(f, scale, s2) := leadingFraction 0 0 false s1' in
                    (f, scale, s2, negb (bool_decide (s2 = s1')))
                  else (0, 0%nat, s1, false)
              | EmptyString => (0, 0%nat, s1, false)
              end in
            if negb pre && negb post then None
            else
              let '(u, s3) := span_unit s2 in
              if decide (u = "") then None
              else
                match unitMap u with
                | None => None
                | Some unit =>
                    if v >? 2 ^ 63 / unit then None
                    else
                      let v1 := v * unit + (if 0 <? f then fraction_value f unit scale else 0) in
                      if (0 <? f) && (v1 >? 2 ^ 63) then None
                      else
                        let d1 := (d + v1) mod 2 ^ 64 in
                        if d1 >? 2 ^ 63 then None else Some (d1, s3)
                end
        end
  end.

(** Every term consumes at least its unit, so the length of the string is fuel
    enough. *)
Fixpoint duration_terms (fuel : nat) (d : Z) (s : string) : option Z :=
  match s, fuel with
  | EmptyString, _ => Some d
  | _, O => None
  | _, S fuel' =>
      match duration_term d s with
      | Some (d1, s1) => duration_terms fuel' d1 s1
      | None => None
      end
  end.

Definition ParseDuration (s : string) : option Z :=
  let '(neg, s1) := take_sign s in
  if decide (s1 = "0") then Some 0
  else if decide (s1 = "") then None
  else
    match duration_terms (String.length s1) 0 s1 with
    | None => None
    | Some d =>
        if neg then Some (- d)
        else if d >? maxInt64 then None else Some d
    end.

(** ** [strings.Split] on one byte, [strings.TrimSpace] *)

Fixpoint Split (s : string) (sep : ascii) : list string :=
  match s with
  | EmptyString => [""]
  | String c s' =>
      if decide (c = sep) then "" :: Split s' sep
      else
        match Split s' sep with
        | w :: ws => String c w :: ws
        | [] => [String c ""]
        end
  end.

(** The UTF-8 encodings of the runes of [unicode.IsSpace]. *)
Definition space_encodings : list (list nat) :=
  [[9]; [10]; [11]; [12]; [13]; [32]; [194; 133]; [194; 160]; [225; 154; 128];
   [226; 128; 128]; [226; 128; 129]; [226; 128; 130]; [226; 128; 131]; [226; 128; 132];
   [226; 128; 133]; [226; 128; 134]; [226; 128; 135]; [226; 128; 136]; [226; 128; 137];
   [226; 128; 138]; [226; 128; 168]; [226; 128; 169]; [226; 128; 175]; [226; 129; 159];
   [227; 128; 128]]%nat.

Definition ascii_of_codes (l : list nat) : list ascii := ascii_of_nat <$> l.

(** Strip the given encodings from the front, as long as one matches. *)
Fixpoint trim_front (fuel : nat) (encodings : list (list ascii)) (l : list ascii) : list ascii :=
  match fuel with
  | O => l
  | S fuel' =>
      match list_find (λ e, take (length e) l = e) encodings with
      | Some (_, e) => trim_front fuel' encodings (drop (length e) l)
      | None => l
      end
  end.

Definition TrimSpace (s : string) : string :=
  let l := String.list_ascii_of_string s in
  let encodings := ascii_of_codes <$> space_encodings in
  let l1 := trim_front (length l) encodings l in
  let l2 := reverse (trim_front (length l1) (reverse <$> encodings) (reverse l1)) in
  String.string_of_list_ascii l2.

(** ** [filepath.Join] of two non-empty elements, on Unix *)

(** The stack of path elements, last first. *)
Definition clean_step (rooted : bool) (stack : list string) (elem : string) : list string :=
  if decide (elem ∈ [""; "."]) then stack
  else if decide (elem = "..") then
    match stack with
    | top :: rest => if decide (top = "..") then ".." :: stack else rest
    | [] => if rooted then [] else [".."]
    end
  else elem :: stack.

Definition Clean (path : string) : string :=
  let rooted := HasPrefix path "/" in
  let stack := foldl (clean_step rooted) [] (Split path (ascii_of_nat 47)) in
  let joined := String.concat "/" (reverse stack) in
  if rooted then "/" +:+ joined else if decide (joined = "") then "." else joined.

Definition Join (a b : string) : string := Clean (a +:+ "/" +:+ b).

(** ** Ranges *)

Lemma Atoi_range s n : Atoi s = Some n → minInt64 ≤ n ≤ maxInt64.
Proof.
  unfold Atoi. destruct (take_sign s) as [neg ds]. case_decide; [done|].
  destruct (digits_value 0 ds) as [v|]; [|done]. case_match; [|done].
  intros [= <-]. bool_to_prop. lia.
Qed.

Lemma duration_term_range d s d1 s1 :
  duration_term d s = Some (d1, s1) → 0 ≤ d1 ≤ 2 ^ 63.
Proof.
  unfold duration_term. intros H.
  repeat match type of H with
  | context [match ?x with _ => _ end] =>
      lazymatch x with
      | context [match _ with _ => _ end] => fail
      | _ => destruct x eqn:?; try discriminate H
      end
  end; injection H as <- _;
  match goal with
  | |- 0 ≤ ?d mod ?m ≤ _ =>
      pose proof (Z.mod_pos_bound d m ltac:(done)); rewrite Z.gtb_ltb in *; bool_to_prop; lia
  end.
Qed.

Lemma duration_terms_range fuel d s r :
  0 ≤ d ≤ 2 ^ 63 → duration_terms fuel d s = Some r → 0 ≤ r ≤ 2 ^ 63.
Proof.
  revert d s. induction fuel as [|fuel IH]; intros d [|c s] Hd; cbn [duration_terms];
    try (by intros [= <-]); try done.
  destruct (duration_term d (String c s)) as [[d1 s1]|] eqn:E; [|done].
  apply IH. by eapply duration_term_range.
Qed.

Lemma ParseDuration_range s d : ParseDuration s = Some d → minInt64 ≤ d ≤ maxInt64.
Proof.
  unfold ParseDuration, minInt64, maxInt64. destruct (take_sign s) as [neg s1].
  case_decide; [intros [= <-]; lia|]. case_decide; [done|].
  destruct (duration_terms _ _ _) as [r|] eqn:E; [|done].
  apply duration_terms_range in E; [|lia]. destruct neg; [intros [= <-]; lia|].
  rewrite Z.gtb_ltb. case_match; [done|]. intros [= <-]. bool_to_prop. lia.
Qed.
