(* ===== verification/Config.v ===== *)
(** * Configuration ([internal/config/config.go])

    [Load] over an environment, a map from variable names to values:
    [os.LookupEnv] is the lookup, [os.Getenv] the value or "". Every problem is
    collected; an error says which variable it is about and how it is wrong. *)

From S2P Require Import Prelude Grpc GoStd.
Local Open Scope string_scope.
Local Open Scope list_scope.

Definition AuthModeNone := "none".
Definition AuthModeAPIKey := "api-key".
Definition WorkerAuthModeStatic := "static".
Definition WorkerAuthModeJWT := "jwt".
Definition TLSModePlaintext := "plaintext".
Definition TLSModeTLS := "tls".
Definition TokenCacheBackendLocal := "local".
Definition TokenCacheBackendValkey := "valkey".

Record UpstreamConfig := {
  up_Addr : string;
  up_AuthMode : string;
  up_APIKey : string;
  up_TLSMode : string;
  up_TLSCAFile : string;
  up_TLSSkipVerify : bool;
  up_TLSServerName : string;
}.

Record DownstreamConfig := {
  down_ListenAddr : string;
  down_TLSMode : string;
  down_CertFile : string;
  down_KeyFile : string;
}.

Record ValkeyConfig := {
  vk_Addrs : list string;
  vk_Password : string;
  vk_TLSMode : string;
  vk_TLSCAFile : string;
  vk_DialTimeout : Z;
  vk_ReadTimeout : Z;
  vk_WriteTimeout : Z;
}.

Record Config := {
  cfg_Upstream : UpstreamConfig;
  cfg_Downstream : DownstreamConfig;
  cfg_WorkerAuthMode : string;
  cfg_StaticAuthFile : string;
  cfg_JWTAudience : string;
  cfg_TokenCacheBackend : string;
  cfg_TokenCacheTTL : Z;
  cfg_TokenCacheMaxSize : Z;
  cfg_Valkey : ValkeyConfig;
  cfg_LogLevel : string;
}.

Inductive ConfigError :=
| InvalidBoolean (key value : string)
| InvalidInteger (key value : string)
| InvalidDuration (key value : string)
| InvalidValue (key value : string)
| Required (key : string)
| MustBePositive (key : string).

#[global] Instance ConfigError_eq_dec : EqDecision ConfigError.
Proof. solve_decision. Defined.

(** ** Reading variables *)

Section env.
Context (env : gmap string string).

Definition Getenv (key : string) : string := default "" (env !! key).

Definition getEnv (key def : string) : string :=
  match env !! key with Some v => v | None => def end.

(** The loop of [getEnvList] keeps the trimmed, non-empty parts. *)
Definition getEnvList (key : string) : list string :=
  match env !! key with
  | None => []
  | Some v =>
      fold_left (λ values part,
        let value := TrimSpace part in
        if decide (value ≠ "") then values ++ [value] else values)
        (Split v (Ascii.ascii_of_nat 44)) []
  end.

(** The value beside an error is the one the caller stores all the same. *)
Definition getEnvBool (key : string) (def : bool) : bool * option ConfigError :=
  match env !! key with
  | None => (def, None)
  | Some v =>
      match ParseBool v with
      | Some b => (b, None)
      | None => (false, Some (InvalidBoolean key v))
      end
  end.

Definition getEnvInt (key : string) (def : Z) : Z * option ConfigError :=
  match env !! key with
  | None => (def, None)
  | Some v =>
      match Atoi v with
      | Some n => (n, None)
      | None => (0%Z, Some (InvalidInteger key v))
      end
  end.

Definition getEnvDuration (key : string) (def : Z) : Z * option ConfigError :=
  match env !! key with
  | None => (def, None)
  | Some v =>
      match ParseDuration v with
      | Some d => (d, None)
      | None => (0%Z, Some (InvalidDuration key v))
      end
  end.

Definition defaultStaticAuthFile : string :=
  let dir := Getenv "KO_DATA_PATH" in
  if decide (dir ≠ "") then Join dir "static-auth.json" else "".
End env.

(** ** Validation *)

(** [if bad { errs = append(errs, err) }] *)
Definition check (bad : bool) (err : ConfigError) : list ConfigError :=
  if bad then [err] else [].

Definition validate (c : Config) : list ConfigError :=
  let up := cfg_Upstream c in
  let down := cfg_Downstream c in
  let vk := cfg_Valkey c in
  (if decide (up_AuthMode up = AuthModeNone) then []
   else if decide (up_AuthMode up = AuthModeAPIKey) then
     check (bool_decide (up_APIKey up = "")) (Required "TEMPORAL_PROXY_UPSTREAM_API_KEY")
   else [InvalidValue "TEMPORAL_PROXY_UPSTREAM_AUTH_MODE" (up_AuthMode up)]) ++
  (if decide (up_TLSMode up ∈ [TLSModePlaintext; TLSModeTLS]) then []
   else [InvalidValue "TEMPORAL_PROXY_UPSTREAM_TLS_MODE" (up_TLSMode up)]) ++
  (if decide (down_TLSMode down = TLSModePlaintext) then []
   else if decide (down_TLSMode down = TLSModeTLS) then
     check (bool_decide (down_CertFile down = "") || bool_decide (down_KeyFile down = ""))
       (Required "TEMPORAL_PROXY_DOWNSTREAM_TLS_CERT_FILE and TEMPORAL_PROXY_DOWNSTREAM_TLS_KEY_FILE")
   else [InvalidValue "TEMPORAL_PROXY_DOWNSTREAM_TLS_MODE" (down_TLSMode down)]) ++
  check (bool_decide (cfg_StaticAuthFile c = "")) (Required "TEMPORAL_PROXY_STATIC_AUTH_FILE") ++
  (if decide (cfg_WorkerAuthMode c = WorkerAuthModeStatic) then []
   else if decide (cfg_WorkerAuthMode c = WorkerAuthModeJWT) then
     check (bool_decide (cfg_JWTAudience c = "")) (Required "TEMPORAL_PROXY_JWT_AUDIENCE")
   else [InvalidValue "TEMPORAL_PROXY_AUTH_MODE" (cfg_WorkerAuthMode c)]) ++
  check (cfg_TokenCacheTTL c <=? 0)%Z (MustBePositive "TEMPORAL_PROXY_TOKEN_CACHE_TTL") ++
  check (cfg_TokenCacheMaxSize c <=? 0)%Z (MustBePositive "TEMPORAL_PROXY_TOKEN_CACHE_MAX_SIZE") ++
  (if decide (cfg_TokenCacheBackend c = TokenCacheBackendLocal) then []
   else if decide (cfg_TokenCacheBackend c = TokenCacheBackendValkey) then
     check (bool_decide (length (vk_Addrs vk) = 0%nat)) (Required "TEMPORAL_PROXY_VALKEY_ADDRS")
   else [InvalidValue "TEMPORAL_PROXY_TOKEN_CACHE_BACKEND" (cfg_TokenCacheBackend c)]) ++
  (if decide (vk_TLSMode vk ∈ [TLSModePlaintext; TLSModeTLS]) then []
   else [InvalidValue "TEMPORAL_PROXY_VALKEY_TLS_MODE" (vk_TLSMode vk)]) ++
  check (vk_DialTimeout vk <=? 0)%Z (MustBePositive "TEMPORAL_PROXY_VALKEY_DIAL_TIMEOUT") ++
  check (vk_ReadTimeout vk <=? 0)%Z (MustBePositive "TEMPORAL_PROXY_VALKEY_READ_TIMEOUT") ++
  check (vk_WriteTimeout vk <=? 0)%Z (MustBePositive "TEMPORAL_PROXY_VALKEY_WRITE_TIMEOUT").

(** ** [Load] *)

(** The parsed settings, each with the error of its parse; beside an error is the
    zero value, which is stored all the same. *)
Definition skipVerify env := getEnvBool env "TEMPORAL_PROXY_UPSTREAM_TLS_SKIP_VERIFY" false.
Definition ttl env := getEnvDuration env "TEMPORAL_PROXY_TOKEN_CACHE_TTL" hour.
Definition maxSize env := getEnvInt env "TEMPORAL_PROXY_TOKEN_CACHE_MAX_SIZE" 100000.
Definition dialTimeout env := getEnvDuration env "TEMPORAL_PROXY_VALKEY_DIAL_TIMEOUT" (5 * second).
Definition readTimeout env := getEnvDuration env "TEMPORAL_PROXY_VALKEY_READ_TIMEOUT" (2 * second).
Definition writeTimeout env :=
  getEnvDuration env "TEMPORAL_PROXY_VALKEY_WRITE_TIMEOUT" (2 * second).

Definition parse_errors (env : gmap string string) : list ConfigError :=
  omap id [(skipVerify env).2; (ttl env).2; (maxSize env).2; (dialTimeout env).2;
           (readTimeout env).2; (writeTimeout env).2].

Definition read_config (env : gmap string string) : Config :=
  {| cfg_Upstream :=
       {| up_Addr := getEnv env "TEMPORAL_PROXY_UPSTREAM_ADDR" "127.0.0.1:7233";
          up_AuthMode := getEnv env "TEMPORAL_PROXY_UPSTREAM_AUTH_MODE" AuthModeNone;
          up_APIKey := Getenv env "TEMPORAL_PROXY_UPSTREAM_API_KEY";
          up_TLSMode := getEnv env "TEMPORAL_PROXY_UPSTREAM_TLS_MODE" TLSModePlaintext;
          up_TLSCAFile := Getenv env "TEMPORAL_PROXY_UPSTREAM_TLS_CA_FILE";
          up_TLSSkipVerify := (skipVerify env).1;
          up_TLSServerName := Getenv env "TEMPORAL_PROXY_UPSTREAM_TLS_SERVER_NAME" |};
     cfg_Downstream :=
       {| down_ListenAddr := getEnv env "TEMPORAL_PROXY_LISTEN_ADDR" "127.0.0.1:7243";
          down_TLSMode := getEnv env "TEMPORAL_PROXY_DOWNSTREAM_TLS_MODE" TLSModePlaintext;
          down_CertFile := Getenv env "TEMPORAL_PROXY_DOWNSTREAM_TLS_CERT_FILE";
          down_KeyFile := Getenv env "TEMPORAL_PROXY_DOWNSTREAM_TLS_KEY_FILE" |};
     cfg_WorkerAuthMode := getEnv env "TEMPORAL_PROXY_AUTH_MODE" WorkerAuthModeStatic;
     cfg_StaticAuthFile :=
       getEnv env "TEMPORAL_PROXY_STATIC_AUTH_FILE" (defaultStaticAuthFile env);
     cfg_JWTAudience := Getenv env "TEMPORAL_PROXY_JWT_AUDIENCE";
     cfg_TokenCacheBackend :=
       getEnv env "TEMPORAL_PROXY_TOKEN_CACHE_BACKEND" TokenCacheBackendLocal;
     cfg_TokenCacheTTL := (ttl env).1;
     cfg_TokenCacheMaxSize := (maxSize env).1;
     cfg_Valkey :=
       {| vk_Addrs := getEnvList env "TEMPORAL_PROXY_VALKEY_ADDRS";
          vk_Password := Getenv env "TEMPORAL_PROXY_VALKEY_PASSWORD";
          vk_TLSMode := getEnv env "TEMPORAL_PROXY_VALKEY_TLS_MODE" TLSModeTLS;
          vk_TLSCAFile := Getenv env "TEMPORAL_PROXY_VALKEY_TLS_CA_FILE";
          vk_DialTimeout := (dialTimeout env).1;
          vk_ReadTimeout := (readTimeout env).1;
          vk_WriteTimeout := (writeTimeout env).1 |};
     cfg_LogLevel := getEnv env "TEMPORAL_PROXY_LOG_LEVEL" "info" |}.

Definition Load (env : gmap string string) : result (list ConfigError) Config :=
  let errs := parse_errors env ++ validate (read_config env) in
  if decide (0 < length errs)%nat then Err errs else Ok (read_config env).

(** ** Specification *)

(** The configurations the rest of the program may rely on. *)
Record config_valid (c : Config) : Prop := {
  cv_upstream_auth :
    up_AuthMode (cfg_Upstream c) = AuthModeNone ∨
    (up_AuthMode (cfg_Upstream c) = AuthModeAPIKey ∧ up_APIKey (cfg_Upstream c) ≠ "");
  cv_upstream_tls : up_TLSMode (cfg_Upstream c) ∈ [TLSModePlaintext; TLSModeTLS];
  cv_downstream_tls :
    down_TLSMode (cfg_Downstream c) = TLSModePlaintext ∨
    (down_TLSMode (cfg_Downstream c) = TLSModeTLS ∧
     down_CertFile (cfg_Downstream c) ≠ "" ∧ down_KeyFile (cfg_Downstream c) ≠ "");
  cv_auth_file : cfg_StaticAuthFile c ≠ "";
  cv_worker_auth :
    cfg_WorkerAuthMode c = WorkerAuthModeStatic ∨
    (cfg_WorkerAuthMode c = WorkerAuthModeJWT ∧ cfg_JWTAudience c ≠ "");
  cv_ttl : (0 < cfg_TokenCacheTTL c)%Z;
  cv_max_size : (0 < cfg_TokenCacheMaxSize c)%Z;
  cv_backend :
    cfg_TokenCacheBackend c = TokenCacheBackendLocal ∨
    (cfg_TokenCacheBackend c = TokenCacheBackendValkey ∧ vk_Addrs (cfg_Valkey c) ≠ []);
  cv_valkey_tls : vk_TLSMode (cfg_Valkey c) ∈ [TLSModePlaintext; TLSModeTLS];
  cv_timeouts :
    (0 < vk_DialTimeout (cfg_Valkey c) ∧ 0 < vk_ReadTimeout (cfg_Valkey c) ∧
     0 < vk_WriteTimeout (cfg_Valkey c))%Z;
}.

Lemma check_nil bad err : check bad err = [] ↔ bad = false.
Proof. by destruct bad. Qed.

(** A setting with a plain mode, a mode with a requirement, and no other. *)
Lemma mode_check_nil (m plain special : string) (bad : bool) err err' :
  (if decide (m = plain) then [] else if decide (m = special) then check bad err else [err']) = []
  ↔ m = plain ∨ (m = special ∧ bad = false).
Proof. repeat case_decide; rewrite ?check_nil; naive_solver. Qed.

Lemma choice_check_nil (m : string) (ms : list string) (err : ConfigError) :
  (if decide (m ∈ ms) then [] else [err]) = [] ↔ m ∈ ms.
Proof. case_decide; naive_solver. Qed.

Lemma validate_nil c : validate c = [] ↔ config_valid c.
Proof.
  unfold validate. rewrite !app_nil, !mode_check_nil, !choice_check_nil, !check_nil.
  rewrite !orb_false_iff, !bool_decide_eq_false, !Z.leb_gt.
  assert (length (vk_Addrs (cfg_Valkey c)) ≠ 0%nat ↔ vk_Addrs (cfg_Valkey c) ≠ []) as ->
    by (destruct (vk_Addrs _); naive_solver).
  split; [intros (?&?&?&?&?&?&?&?&?&?&?&?); by split|intros []; tauto].
Qed.

Lemma getEnvDuration_range env key def :
  (minInt64 ≤ def ≤ maxInt64)%Z → (minInt64 ≤ (getEnvDuration env key def).1 ≤ maxInt64)%Z.
Proof.
  intros Hdef. unfold getEnvDuration. destruct (env !! key); [|done].
  destruct (ParseDuration _) eqn:E; [by eapply ParseDuration_range|done].
Qed.

Lemma getEnvInt_range env key def :
  (minInt64 ≤ def ≤ maxInt64)%Z → (minInt64 ≤ (getEnvInt env key def).1 ≤ maxInt64)%Z.
Proof.
  intros Hdef. unfold getEnvInt. destruct (env !! key); [|done].
  destruct (Atoi _) eqn:E; [by eapply Atoi_range|done].
Qed.

(** The numeric settings are machine integers. *)
Definition config_in_range (c : Config) : Prop :=
  Forall (λ n, minInt64 ≤ n ≤ maxInt64)%Z
    [cfg_TokenCacheTTL c; cfg_TokenCacheMaxSize c; vk_DialTimeout (cfg_Valkey c);
     vk_ReadTimeout (cfg_Valkey c); vk_WriteTimeout (cfg_Valkey c)].

Lemma read_config_in_range env : config_in_range (read_config env).
Proof.
  unfold config_in_range, read_config. cbn -[minInt64 maxInt64].
  repeat apply Forall_cons_2; try apply Forall_nil_2;
    (apply getEnvDuration_range || apply getEnvInt_range); done.
Qed.

(** The variables that are parsed, with the error of a value that does not. *)
Definition parsed_keys : list (string * (string → option ConfigError)) :=
  let parser (P : string → bool) (err : string → string → ConfigError) key :=
    (key, λ v, if P v then None else Some (err key v)) in
  let is_some {A} (o : option A) := match o with Some _ => true | None => false end in
  let duration := parser (λ v, is_some (ParseDuration v)) InvalidDuration in
  [parser (λ v, is_some (ParseBool v)) InvalidBoolean "TEMPORAL_PROXY_UPSTREAM_TLS_SKIP_VERIFY";
   duration "TEMPORAL_PROXY_TOKEN_CACHE_TTL";
   parser (λ v, is_some (Atoi v)) InvalidInteger "TEMPORAL_PROXY_TOKEN_CACHE_MAX_SIZE";
   duration "TEMPORAL_PROXY_VALKEY_DIAL_TIMEOUT";
   duration "TEMPORAL_PROXY_VALKEY_READ_TIMEOUT";
   duration "TEMPORAL_PROXY_VALKEY_WRITE_TIMEOUT"].

Lemma omap_id_fmap {A B} (f : A → option B) (l : list A) : omap id (f <$> l) = omap f l.
Proof. induction l as [|x l IH]; [done|]. cbn. by rewrite <- IH. Qed.

(** The parse errors are those of the unparsable variables, and no other. *)
Lemma parse_errors_keys env :
  parse_errors env = omap (λ p, env !! p.1 ≫= p.2) parsed_keys.
Proof.
  unfold parse_errors. rewrite <- (omap_id_fmap _ parsed_keys). apply (f_equal (omap id)).
  unfold parsed_keys, skipVerify, ttl, maxSize, dialTimeout, readTimeout, writeTimeout,
    getEnvBool, getEnvInt, getEnvDuration. cbn -[ParseDuration Atoi ParseBool].
  repeat (apply (f_equal2 cons); [|]); [..|done].
  all: destruct (env !! _) as [v|]; [|done]; cbn -[ParseDuration Atoi ParseBool].
  all: first [by destruct (ParseBool v)|by destruct (ParseDuration v)|by destruct (Atoi v)].
Qed.

(** C35. [Load] is all or nothing. It succeeds exactly when every variable that is
    set parses and the configuration read is valid, and then its numbers are
    machine integers. Otherwise it returns every problem: one error per
    unparsable variable and one per failed check. *)
Theorem Load_spec env :
  (∀ cfg, Load env = Ok cfg ↔
     cfg = read_config env ∧ config_valid cfg ∧
     ∀ key parse v, (key, parse) ∈ parsed_keys → env !! key = Some v → parse v = None) ∧
  (∀ cfg, Load env = Ok cfg → config_in_range cfg) ∧
  (∀ errs, Load env = Err errs →
     errs ≠ [] ∧
     (∀ key parse v err, (key, parse) ∈ parsed_keys → env !! key = Some v → parse v = Some err →
        err ∈ errs) ∧
     ∀ err, err ∈ validate (read_config env) → err ∈ errs).
Proof.
  assert (Hparse : parse_errors env = [] ↔
    ∀ key parse v, (key, parse) ∈ parsed_keys → env !! key = Some v → parse v = None).
  { rewrite parse_errors_keys. split.
    - intros Hnil key parse v Hin Hv. destruct (parse v) as [err|] eqn:E; [|done].
      assert (err ∈ omap (λ p, env !! p.1 ≫= p.2) parsed_keys) as Herr
        by (apply list_elem_of_omap; exists (key, parse); simpl; by rewrite Hv).
      rewrite Hnil in Herr. by apply elem_of_nil in Herr.
    - intros Hall. apply elem_of_nil_inv. intros err ((key & parse) & Hin & Hp)%list_elem_of_omap.
      simpl in Hp. destruct (env !! key) as [v|] eqn:Hv; [|done]. simpl in Hp.
      by rewrite (Hall _ _ _ Hin Hv) in Hp. }
  unfold Load. split_and!.
  - intros cfg. rewrite <- Hparse. case_decide as Hlen.
    + split; [done|]. intros (-> & Hvalid%validate_nil & Hnil). rewrite Hnil, Hvalid in Hlen.
      simpl in Hlen. lia.
    + destruct (_ ++ _) eqn:E in Hlen; [|simpl in Hlen; lia]. apply app_nil in E as [Hnil Hvalid].
      rewrite validate_nil in Hvalid. naive_solver.
  - intros cfg. case_decide; [done|]. intros [= <-]. apply read_config_in_range.
  - intros errs. case_decide as Hlen; [|done]. intros [= <-]. split_and!.
    + by intros Heq; rewrite Heq in Hlen; simpl in Hlen; lia.
    + intros key parse v err Hin Hv Herr. apply elem_of_app. left. rewrite parse_errors_keys.
      apply list_elem_of_omap. exists (key, parse). simpl. by rewrite Hv.
    + intros err Hin. apply elem_of_app. by right.
Qed.

(** The defaults: with only the auth file given, the proxy listens on
    loopback, talks plaintext to a local server without credentials,
    authenticates workers by API key and keeps 100000 tokens for an hour in
    process. *)
Theorem Load_defaults file :
  Load {["TEMPORAL_PROXY_STATIC_AUTH_FILE" := file]} =
  if decide (file = "") then Err [Required "TEMPORAL_PROXY_STATIC_AUTH_FILE"]
  else Ok
    {| cfg_Upstream :=
         {| up_Addr := "127.0.0.1:7233"; up_AuthMode := "none"; up_APIKey := "";
            up_TLSMode := "plaintext"; up_TLSCAFile := ""; up_TLSSkipVerify := false;
            up_TLSServerName := "" |};
       cfg_Downstream :=
         {| down_ListenAddr := "127.0.0.1:7243"; down_TLSMode := "plaintext";
            down_CertFile := ""; down_KeyFile := "" |};
       cfg_WorkerAuthMode := "static"; cfg_StaticAuthFile := file; cfg_JWTAudience := "";
       cfg_TokenCacheBackend := "local"; cfg_TokenCacheTTL := 3600000000000;
       cfg_TokenCacheMaxSize := 100000;
       cfg_Valkey :=
         {| vk_Addrs := []; vk_Password := ""; vk_TLSMode := "tls"; vk_TLSCAFile := "";
            vk_DialTimeout := 5000000000; vk_ReadTimeout := 2000000000;
            vk_WriteTimeout := 2000000000 |};
       cfg_LogLevel := "info" |}.
Proof. destruct file as [|c f]; by vm_compute. Qed.
