(* ===== verification/Upstream.v ===== *)
(** * The upstream connection ([internal/upstream/upstream.go])

    [Dial] turns an [UpstreamConfig] into the client the server forwards to.
    gRPC's documented behaviour: the client of a connection runs a call through
    the chained interceptors, in order, and then on the wire. *)

From S2P Require Import Prelude TemporalApi Grpc Server Config.
From S2P Require Import CallTrace.
Local Open Scope string_scope.
Local Open Scope list_scope.

Inductive DialError :=
| ReadingTLSCAFile (err : error)
| NoCertificatesInTLSCAFile (file : string)
| Dialing (addr : string) (err : error).

(** [grpc.UnaryClientInterceptor]: what to do instead of [invoker]. *)
Abbreviation client_interceptor := (client → client).

Definition apiKeyInterceptor (apiKey : string) : client_interceptor :=
  λ invoker ctx method req,
    invoker (AppendToOutgoingContext ctx "authorization" ("Bearer " +:+ apiKey)) method req.

(** A call on the wire. *)
Definition wire : client := λ ctx method req, trigger (DoUpstream ctx method req).

Section dial.

(** [os.ReadFile]; a certificate pool with [AppendCertsFromPEM] of a new pool
    ([None] when it finds no certificate); the error of [grpc.NewClient]. *)
Context {CertPool : Type}.
Context (ReadFile : string → result error bytes).
Context (AppendCertsFromPEM : bytes → option CertPool).

(** [insecure.NewCredentials] or [credentials.NewTLS]; no [RootCAs] means the
    system's. *)
Inductive TransportCredentials :=
| Insecure
| TLS (InsecureSkipVerify : bool) (ServerName : string) (RootCAs : option CertPool).

Definition transportCredentials (cfg : UpstreamConfig) :
    result DialError TransportCredentials :=
  if decide (up_TLSMode cfg = TLSModePlaintext) then Ok Insecure
  else if decide (up_TLSCAFile cfg ≠ "") then
    match ReadFile (up_TLSCAFile cfg) with
    | Err err => Err (ReadingTLSCAFile err)
    | Ok pem =>
        match AppendCertsFromPEM pem with
        | None => Err (NoCertificatesInTLSCAFile (up_TLSCAFile cfg))
        | Some pool => Ok (TLS (up_TLSSkipVerify cfg) (up_TLSServerName cfg) (Some pool))
        end
    end
  else Ok (TLS (up_TLSSkipVerify cfg) (up_TLSServerName cfg) None).

Inductive DialOption :=
| WithTransportCredentials (creds : TransportCredentials)
| WithChainUnaryInterceptor (f : client_interceptor).

Record ClientConn := { cc_addr : string; cc_opts : list DialOption }.

Context (NewClient_error : string → list DialOption → option error).

Definition NewClient (addr : string) (opts : list DialOption) : result error ClientConn :=
  match NewClient_error addr opts with
  | Some err => Err err
  | None => Ok {| cc_addr := addr; cc_opts := opts |}
  end.

(** The first interceptor of the chain is the outermost. *)
Definition NewWorkflowServiceClient (conn : ClientConn) : client :=
  foldr (λ opt c, match opt with WithChainUnaryInterceptor f => f c | _ => c end)
    wire (cc_opts conn).

Definition Dial (cfg : UpstreamConfig) : result DialError (client * ClientConn) :=
  match transportCredentials cfg with
  | Err err => Err err
  | Ok transportCreds =>
      let opts := [WithTransportCredentials transportCreds] in
      let opts :=
        if decide (up_AuthMode cfg = AuthModeAPIKey)
        then opts ++ [WithChainUnaryInterceptor (apiKeyInterceptor (up_APIKey cfg))] else opts in
      match NewClient (up_Addr cfg) opts with
      | Err err => Err (Dialing (up_Addr cfg) err)
      | Ok conn => Ok (NewWorkflowServiceClient conn, conn)
      end
  end.

(** The outgoing metadata of a call through the dialled client. *)
Definition dial_outgoing (cfg : UpstreamConfig) (md : MD) : MD :=
  if decide (up_AuthMode cfg = AuthModeAPIKey)
  then <["authorization" := md_Get md "authorization" ++ ["Bearer " +:+ up_APIKey cfg]]> md
  else md.

Lemma Dial_call cfg c conn ctx rpc req :
  Dial cfg = Ok (c, conn) →
  c ctx rpc req =
  wire {| ctx_incoming := ctx_incoming ctx; ctx_outgoing := dial_outgoing cfg (ctx_outgoing ctx);
          ctx_identity := ctx_identity ctx |} rpc req.
Proof.
  unfold Dial, NewClient, dial_outgoing. destruct (transportCredentials cfg) as [creds|]; [|done].
  case_decide; (destruct (NewClient_error _ _); [done|]); intros [= <- _]; [done|by destruct ctx].
Qed.

(** A dialled client is an [UpstreamClient]. *)
Definition Dial_client cfg c conn (H : Dial cfg = Ok (c, conn)) : UpstreamClient c :=
  {| uc_outgoing := dial_outgoing cfg;
     uc_call ctx rpc req := Dial_call cfg c conn ctx rpc req H |}.
End dial.

#[global] Instance wire_client : UpstreamClient wire.
Proof. refine {| uc_outgoing := id |}. by intros []. Defined.

#[global] Instance apiKeyInterceptor_client key c :
  UpstreamClient c → UpstreamClient (apiKeyInterceptor key c).
Proof.
  intros Hc.
  refine {| uc_outgoing md :=
    @uc_outgoing c Hc (<["authorization" := md_Get md "authorization" ++ ["Bearer " +:+ key]]> md) |}.
  intros ctx rpc req. unfold apiKeyInterceptor. by rewrite uc_call.
Defined.

(** C38. TLS is never given up: outside plaintext mode a dialled connection uses
    TLS with the configured server name and verification setting, against the
    configured CA file if there is one; a CA file that cannot be read or holds no
    certificate fails the dial. *)
Theorem Dial_keeps_tls {CertPool} ReadFile (AppendCertsFromPEM : bytes → option CertPool)
    NewClient_error cfg c conn :
  Dial ReadFile AppendCertsFromPEM NewClient_error cfg = Ok (c, conn) →
  up_TLSMode cfg ≠ "plaintext" →
  ∃ roots,
    head (cc_opts conn) =
      Some (WithTransportCredentials (TLS (up_TLSSkipVerify cfg) (up_TLSServerName cfg) roots)) ∧
    (roots = None → up_TLSCAFile cfg = "") ∧
    (up_TLSCAFile cfg ≠ "" →
     ∃ pem, ReadFile (up_TLSCAFile cfg) = Ok pem ∧ roots = AppendCertsFromPEM pem).
Proof.
  unfold Dial, transportCredentials, TLSModePlaintext, NewClient. intros H Hmode. revert H.
  rewrite decide_False by done. case_decide as Hca.
  - destruct (ReadFile _) as [pem|]; [|done].
    destruct (AppendCertsFromPEM pem) as [pool|] eqn:Hpool; [|done].
    destruct (NewClient_error _ _); [done|]. intros [= <- <-]. exists (Some pool).
    split_and!; [by case_decide|done|]. intros _. by exists pem.
  - destruct (NewClient_error _ _); [done|]. intros [= <- <-]. exists None.
    split_and!; [by case_decide|done|done].
Qed.

Lemma Dial_keeps_tls_witness :
  let cfg := Build_UpstreamConfig "tls.example:443" "api-key" "k" "tls" "ca.pem" false "name" in
  ∃ c conn, Dial (λ _, Ok []) (λ _, Some tt) (λ _ _, None) cfg = Ok (c, conn) ∧
    ∃ roots, head (cc_opts conn) = Some (WithTransportCredentials (TLS false "name" roots)).
Proof.
  intros cfg. eexists _, _. split; [reflexivity|].
  destruct (Dial_keeps_tls (λ _, Ok []) (λ _, Some tt) (λ _ _, None) cfg _ _ eq_refl
    (ltac:(discriminate))) as (roots & Hroots & _).
  exists roots. exact Hroots.
Defined.
