(* ===== verification/CallSpec.v ===== *)
(** * What a call guarantees

    Theorems on [serve], a whole call through interceptor, server and upstream
    client: every execution, in every environment. [t] is the list of effects
    with their answers, [r] the reply to the worker. *)

From S2P Require Import Prelude TemporalApi RpcPolicy Scope Actions Store Auth Grpc.
From S2P Require Import Interceptor Server CallTrace Config Upstream.
Local Open Scope string_scope.
Local Open Scope list_scope.

Section serve.
Context (s : Server) `{Hclient : !UpstreamClient (Upstream s)}.

(** A call is refused, or goes through, or is for a method the server lacks. *)
Lemma serve_cases ctx req t r :
  typed_answers t → exec (serve s ctx req) t r →
  (∃ code msg, r = (NotMessage, Some (StatusError code msg)) ∧ Forall harmless t ∧
     (∀ token e, OGet token (Err e) ∈ t → code = Unavailable ∧ msg = MsgTokenCacheUnavailable) ∧
     (known_request req → ∀ p key i cached scope,
        ¬ legitimate ctx req (request_method req) t p key i cached scope)) ∨
  (∃ p key i cached scope t2,
     known_request req ∧ Allowed !! request_method req = Some p ∧ extractAPIKey ctx = Some key ∧
     Valid i = true ∧
     request_in_scope i req (request_method req) (policy_Category p) cached scope ∧
     t = OAuthenticate key (Ok i) :: lookup_of cached ++ t2 ∧
     forwarded (uc_context (WithIdentity ctx i)) req (request_method req) p i scope t2 r) ∨
  (¬ known_request req ∧ Forall harmless t ∧ r.2 ≠ None ∧
   ∀ token e, OGet token (Err e) ∉ t).
Proof.
  intros Htyped [(code & msg & Hr & Hharm & Hcache & Hleg)|
    (p & key & i & cached & scope & t2 & Hp & Hkey & Hvalid & Hscope & -> & Ht2)]%exec_NewInterceptor.
  - left. exists code, msg. split_and!; [done..|]. intros Hk. by rewrite <- (rpcName_full_method req Hk).
  - right. apply (exec_forward s) in Ht2 as [[Hk Hfw]|(Hk & -> & Herr)].
    + left. rewrite (rpcName_full_method req Hk) in *.
      exists p, key, i, cached, scope, t2.
      split_and!; [exact Hk|exact Hp|exact Hkey|exact Hvalid|exact Hscope|reflexivity|exact Hfw].
    + right. rewrite app_nil_r. destruct cached as [[tok e]|];
        (split_and!; [done|by repeat constructor|done|]; intros ? ? Hin; inv_member Hin).
    + by apply Forall_cons in Htyped as [_ [_ ?]%Forall_app].
Qed.

(** ** Members of the traces *)

Lemma harmless_no_call t ctx rpc req resp err :
  Forall harmless t → OUpstream ctx rpc req resp err ∉ t.
Proof. intros Hall Hin. by apply (proj1 (Forall_forall _ _) Hall) in Hin. Qed.

(** Effects of the bookkeeping: nothing of the access check, no upstream call. *)
Definition bookkeeping (o : obs) : Prop :=
  match o with OPut _ _ _ | ODelete _ _ | OLog _ => True | _ => False end.

Lemma revocation_bookkeeping rpc p i req d : Forall bookkeeping (revocation rpc p i req d).
Proof. unfold revocation. case_match; [|constructor]. destruct d; by repeat constructor. Qed.

Lemma puts_bookkeeping i scope tokens : Forall bookkeeping (puts i scope tokens).
Proof. apply Forall_fmap, Forall_true. done. Qed.

Lemma bill_bookkeeping rpc i scope req : Forall bookkeeping (bill rpc i scope req).
Proof. apply Forall_fmap, Forall_true. done. Qed.

#[local] Hint Resolve revocation_bookkeeping puts_bookkeeping bill_bookkeeping : proxy.

(** The first effect of a forwarded call is its only upstream call. *)
Lemma forwarded_head uctx req rpc p i scope t r :
  forwarded uctx req rpc p i scope t r →
  ∃ uresp err t', t = OUpstream uctx (request_method req) req uresp err :: t' ∧
    Forall bookkeeping t'.
Proof.
  intros []; eexists _, _, _; (split; [done|]); rewrite ?Forall_app; split_and?;
    auto with proxy; by repeat constructor.
Qed.

Lemma bookkeeping_no_call t ctx rpc req resp err :
  Forall bookkeeping t → OUpstream ctx rpc req resp err ∉ t.
Proof. intros Hall Hin. by apply (proj1 (Forall_forall _ _) Hall) in Hin. Qed.

(** A put that failed; a billing line. *)
Definition failed_put (o : obs) : Prop :=
  match o with OPut _ _ (Some _) => True | _ => False end.
Definition billing (o : obs) : Prop :=
  match o with OLog (LogAction _ _ _ _ _ _) => True | _ => False end.

Lemma revocation_plain rpc p i req d :
  Forall (λ o, ¬ failed_put o ∧ ¬ billing o) (revocation rpc p i req d).
Proof. unfold revocation. case_match; [|constructor]. destruct d; repeat constructor; tauto. Qed.

Lemma revocation_no_missing rpc p i req d :
  Forall (λ o, ∀ rpc sub, o ≠ OLog (LogMissingScope rpc sub)) (revocation rpc p i req d).
Proof. unfold revocation. case_match; [|constructor]. destruct d; by repeat constructor. Qed.

Lemma puts_plain i scope tokens : Forall (λ o, ¬ failed_put o ∧ ¬ billing o) (puts i scope tokens).
Proof. apply Forall_fmap, Forall_true. intros ?. simpl. tauto. Qed.

Lemma lookup_of_plain cached : Forall (λ o, ¬ failed_put o ∧ ¬ billing o) (lookup_of cached).
Proof. destruct cached as [[]|]; repeat constructor; simpl; tauto. Qed.

(** In a forwarded call, a put fails only where registration stops, and then
    nothing is billed. *)
Lemma forwarded_failed_put uctx req rpc p i scope t r :
  forwarded uctx req rpc p i scope t r → Exists failed_put t →
  r = (NotMessage, Some (StatusError Unavailable MsgTokenCacheUnavailable)) ∧
  Forall (λ o, ¬ billing o) t.
Proof.
  pose proof (revocation_plain rpc p i req) as Hrev. pose proof (puts_plain i scope) as Hputs.
  assert (Hno : ∀ l, Forall (λ o, ¬ failed_put o ∧ ¬ billing o) l → ¬ Exists failed_put l).
  { intros l Hl Hex. apply Exists_exists in Hex as (o & Ho & Hf).
    by apply (proj1 (Forall_forall _ _) Hl) in Ho as [? _]. }
  intros Hfw Hex. destruct Hfw as [uresp e resp|uresp d Hs|uresp d Htok Hs|uresp d tokens token rest err Htok Hs].
  - apply Exists_exists in Hex as (o & Ho & Hf). by inv_member Ho; subst.
  - exfalso. apply Exists_cons in Hex as [[]|Hex].
    apply Exists_app in Hex as [Hex|Hex]; [by eapply Hno, Hex; apply Hrev|].
    apply Exists_app in Hex as [Hex|Hex]; [by eapply Hno, Hex; apply Hputs|].
    apply Exists_exists in Hex as (o & (a & -> & _)%list_elem_of_fmap & []).
  - exfalso. apply Exists_cons in Hex as [[]|Hex].
    apply Exists_app in Hex as [Hex|Hex]; [by eapply Hno, Hex; apply Hrev|].
    by apply Exists_cons in Hex as [[]|Hex%Exists_nil].
  - split; [done|]. constructor; [by intros []|]. rewrite !Forall_app. split_and!.
    + eapply Forall_impl; [apply Hrev|]. by intros ? [].
    + eapply Forall_impl; [apply Hputs|]. by intros ? [].
    + repeat constructor; by intros [].
Qed.

Lemma lookup_of_no_call cached ctx rpc req resp err :
  OUpstream ctx rpc req resp err ∉ lookup_of cached.
Proof. intros Hin. destruct cached as [[]|]; simpl in Hin; inv_member Hin. Qed.
(** ** The guarantees *)

(** C6. No call reaches the Temporal server unless the worker may make it: the
    RPC is on the allowlist, the credentials resolve to a valid identity, and the
    request is in the scope of that identity for what the token cache said - all
    established earlier in the same call. What is forwarded is the worker's own
    request, once, under the method it was made to, with the identity attached. *)
Theorem upstream_call_is_authorized ctx req t r uctx rpc req' uresp err :
  typed_answers t → exec (serve s ctx req) t r → OUpstream uctx rpc req' uresp err ∈ t →
  ∃ p key i cached scope t2,
    Allowed !! rpc = Some p ∧ extractAPIKey ctx = Some key ∧ Valid i = true ∧
    request_in_scope i req rpc (policy_Category p) cached scope ∧
    rpc = request_method req ∧ req' = req ∧ uctx = uc_context (WithIdentity ctx i) ∧
    t = OAuthenticate key (Ok i) :: lookup_of cached ++ OUpstream uctx rpc req' uresp err :: t2 ∧
    ∀ uctx' rpc' req'' uresp' err', OUpstream uctx' rpc' req'' uresp' err' ∉ t2.
Proof.
  intros Htyped Hexec Hin.
  apply (serve_cases _ _ _ _ Htyped) in Hexec as
    [(_ & _ & _ & Hharm & _)|[(p & key & i & cached & scope & t2 & _ & ? & ? & ? & ? & -> & Hfw)|
      (_ & Hharm & _)]]; try (by apply harmless_no_call in Hin).
  apply forwarded_head in Hfw as (uresp' & err' & t' & -> & Hbook).
  apply elem_of_cons in Hin as [Hin|Hin]; [done|].
  apply elem_of_app in Hin as [Hin|Hin]; [by apply lookup_of_no_call in Hin|].
  apply elem_of_cons in Hin as [[= -> -> -> -> ->]|Hin]; [|by apply bookkeeping_no_call in Hin].
  exists p, key, i, cached, scope, t'. split_and!; try done.
  intros. by apply bookkeeping_no_call.
Qed.

(** C7. Access is decided exactly: a call with a known request reaches the
    Temporal server if and only if it is legitimate - RPC allowed, key of a valid
    identity, request in scope. No legitimate call is refused. *)
Theorem access_decision ctx req t r :
  known_request req → typed_answers t → exec (serve s ctx req) t r →
  (∃ uctx rpc req' uresp err, OUpstream uctx rpc req' uresp err ∈ t) ↔
  ∃ p key i cached scope, legitimate ctx req (request_method req) t p key i cached scope.
Proof.
  intros Hk Htyped Hexec.
  apply (serve_cases _ _ _ _ Htyped) in Hexec as
    [(? & ? & _ & Hharm & _ & Hleg)|
     [(p & key & i & cached & scope & t2 & _ & ? & ? & ? & ? & -> & Hfw)|(Hk' & _)]]; [| |done].
  - split; [|naive_solver]. intros (? & ? & ? & ? & ? & Hin). by apply harmless_no_call in Hin.
  - apply forwarded_head in Hfw as (uresp & err & t' & -> & _). split; intros _.
    + exists p, key, i, cached, scope. unfold legitimate. split_and!; try done; [constructor|].
      apply Forall_forall. intros o Ho. apply elem_of_cons. right. apply elem_of_app. by left.
    + eexists _, _, _, _, _. apply elem_of_cons. right. apply elem_of_app. right. constructor.
Qed.

(** C10. A call that is not forwarded leaves no mark: no token is registered or
    revoked and nothing is billed, and the worker gets an error. *)
Theorem refusal_leaves_no_mark ctx req t r :
  typed_answers t → exec (serve s ctx req) t r →
  (∀ uctx rpc req' uresp err, OUpstream uctx rpc req' uresp err ∉ t) →
  Forall harmless t ∧ r.2 ≠ None.
Proof.
  intros Htyped Hexec Hno.
  apply (serve_cases _ _ _ _ Htyped) in Hexec as
    [(? & ? & -> & Hharm & _)|[(p & key & i & cached & scope & t2 & _ & _ & _ & _ & _ & -> & Hfw)|
      (_ & Hharm & Hr & _)]]; [done| |done].
  apply forwarded_head in Hfw as (uresp & err & t' & -> & _).
  edestruct Hno. apply elem_of_cons. right. apply elem_of_app. right. constructor.
Qed.

(** C11. The proxy fails closed: when the token cache cannot be read, the call is
    refused with [Unavailable], and nothing is forwarded or recorded. *)
Theorem cache_outage_fails_closed ctx req t r token e :
  typed_answers t → exec (serve s ctx req) t r → OGet token (Err e) ∈ t →
  r = (NotMessage, Some (StatusError Unavailable MsgTokenCacheUnavailable)) ∧ Forall harmless t.
Proof.
  intros Htyped Hexec Hin.
  apply (serve_cases _ _ _ _ Htyped) in Hexec as
    [(? & ? & -> & Hharm & Hcache & _)|
     [(p & key & i & cached & scope & t2 & _ & _ & _ & _ & _ & -> & Hfw)|(_ & _ & _ & Hno)]].
  - by destruct (Hcache _ _ Hin) as [-> ->].
  - exfalso. apply forwarded_head in Hfw as (uresp & err & t' & -> & Hbook).
    apply elem_of_cons in Hin as [Hin|Hin]; [done|].
    apply elem_of_app in Hin as [Hin|Hin].
    { destruct cached as [[]|]; simpl in Hin; inv_member Hin. }
    apply elem_of_cons in Hin as [Hin|Hin]; [done|].
    by apply (proj1 (Forall_forall _ _) Hbook) in Hin.
  - by destruct (Hno token e).
Qed.

(** C12. An upstream failure is passed to the worker as it is and changes
    nothing: no token is registered or revoked, nothing is billed. *)
Theorem upstream_failure_mutates_nothing ctx req t r uctx rpc req' uresp e :
  typed_answers t → exec (serve s ctx req) t r → OUpstream uctx rpc req' uresp (Some e) ∈ t →
  r.2 = Some e ∧ Forall (λ o, harmless o ∨ o = OUpstream uctx rpc req' uresp (Some e)) t.
Proof.
  intros Htyped Hexec Hin.
  apply (serve_cases _ _ _ _ Htyped) in Hexec as
    [(_ & _ & _ & Hharm & _)|[(p & key & i & cached & scope & t2 & _ & _ & _ & _ & _ & -> & Hfw)|
      (_ & Hharm & _)]]; try (by apply harmless_no_call in Hin).
  assert (∃ resp, t2 = [OUpstream uctx rpc req' uresp (Some e)] ∧ r = (resp, Some e)) as (resp & -> & ->).
  { pose proof (forwarded_head _ _ _ _ _ _ _ _ Hfw) as (uresp' & err & t' & Ht2 & Hbook).
    rewrite Ht2 in Hin. apply elem_of_cons in Hin as [Hin|Hin]; [done|].
    apply elem_of_app in Hin as [Hin|Hin]; [by apply lookup_of_no_call in Hin|].
    apply elem_of_cons in Hin as [[= -> -> -> -> <-]|Hin]; [|by apply bookkeeping_no_call in Hin].
    destruct Hfw; simplify_eq. by eexists. }
  split; [done|]. constructor; [by left|]. apply Forall_app. split; [|by repeat constructor; right].
  destruct cached as [[]|]; repeat constructor.
Qed.

(** C9. A call succeeds only when everything about it was done: the upstream
    accepted it; if it ends its token, the revocation was attempted; then every
    task token of the response was registered for the caller's namespace and the
    task queue of the call, before the worker sees the response; then the bill
    was logged. In this order, and nothing else. *)
Theorem success_is_complete ctx req t resp :
  typed_answers t → exec (serve s ctx req) t (resp, None) →
  ∃ p key i cached scope uctx uresp d,
    Allowed !! request_method req = Some p ∧
    request_in_scope i req (request_method req) (policy_Category p) cached scope ∧
    resp = Message (worker_view uresp) ∧
    t = OAuthenticate key (Ok i) :: lookup_of cached ++
        OUpstream uctx (request_method req) req uresp None ::
        revocation (request_method req) p i req d ++
        puts i scope (CollectResponseTaskTokens uresp) ++ bill (request_method req) i scope req.
Proof.
  intros Htyped Hexec.
  apply (serve_cases _ _ _ _ Htyped) in Hexec as
    [(? & ? & ? & _)|[(p & key & i & cached & scope & t2 & _ & ? & _ & _ & ? & -> & Hfw)|
      (_ & _ & ? & _)]]; [done| |done].
  inversion Hfw; subst. by eexists p, key, i, cached, scope, _, _, _.
Qed.

(** C13. A token that cannot be registered is not handed out: the worker gets
    [Unavailable] instead of the response, and the call is not billed. *)
Theorem failed_registration_withholds_response ctx req t r token entry e :
  typed_answers t → exec (serve s ctx req) t r → OPut token entry (Some e) ∈ t →
  r = (NotMessage, Some (StatusError Unavailable MsgTokenCacheUnavailable)) ∧
  Forall (λ o, ¬ billing o) t.
Proof.
  intros Htyped Hexec Hin.
  apply (serve_cases _ _ _ _ Htyped) in Hexec as
    [(_ & _ & _ & Hharm & _)|[(p & key & i & cached & scope & t2 & _ & _ & _ & _ & _ & -> & Hfw)|
      (_ & Hharm & _)]];
    try (by apply (proj1 (Forall_forall _ _) Hharm) in Hin).
  destruct (forwarded_failed_put _ _ _ _ _ _ _ _ Hfw) as [-> Hbill].
  - apply elem_of_cons in Hin as [Hin|Hin]; [done|].
    apply elem_of_app in Hin as [Hin|Hin].
    + by apply (proj1 (Forall_forall _ _) (lookup_of_plain cached)) in Hin as [[] _].
    + apply Exists_exists. by eexists.
  - split; [done|]. constructor; [by intros []|]. apply Forall_app. split; [|done].
    eapply Forall_impl; [apply lookup_of_plain|]. by intros ? [].
Qed.

(** Only four methods hand out tokens, and their requests have a task queue. *)
Lemma token_methods uresp :
  CollectResponseTaskTokens uresp ≠ [] →
  response_method uresp ∈ ["PollWorkflowTaskQueue"; "PollActivityTaskQueue"; "PollNexusTaskQueue";
                           "RespondWorkflowTaskCompleted"].
Proof. destruct uresp; simpl; try done; intros _; repeat constructor. Qed.

Lemma token_method_category rpc p :
  Allowed !! rpc = Some p →
  rpc ∈ ["PollWorkflowTaskQueue"; "PollActivityTaskQueue"; "PollNexusTaskQueue";
         "RespondWorkflowTaskCompleted"] →
  policy_Category p = CategoryPoll ∨ policy_Category p = CategoryToken.
Proof.
  apply (Allowed_cases rpc p (λ rpc p, rpc ∈ _ →
    policy_Category p = CategoryPoll ∨ policy_Category p = CategoryToken)).
  apply (bool_decide_unpack _). vm_compute. exact I.
Qed.

(** The scope of a call whose response carries task tokens is a task queue of the
    identity. *)
Lemma scope_allowed i req p cached scope uresp :
  Allowed !! request_method req = Some p →
  request_in_scope i req (request_method req) (policy_Category p) cached scope →
  response_method uresp = request_method req →
  CollectResponseTaskTokens uresp ≠ [] → scope ∈ TaskQueues i.
Proof.
  intros Hp Hscope Htype Htok%token_methods. rewrite Htype in Htok.
  destruct (token_method_category _ _ Hp Htok) as [Hc|Hc]; rewrite Hc in Hscope.
  - by destruct Hscope as (_ & _ & tq & _ & _ & _ & _ & ? & _).
  - by destruct Hscope as (? & ? & _ & _ & _ & _ & _ & _ & Hin & _).
Qed.

(** C14. The internal error "missing task queue scope" cannot happen: if the
    identities the authenticator returns are well-formed, every response that
    carries task tokens belongs to a call with a task queue. *)
Theorem task_queue_scope_never_missing ctx req t r :
  typed_answers t → exec (serve s ctx req) t r →
  (∀ key i, OAuthenticate key (Ok i) ∈ t → Valid i = true → identity_wf i) →
  ∀ rpc sub, OLog (LogMissingScope rpc sub) ∉ t.
Proof.
  intros Htyped Hexec Hwf rpc sub Hin.
  assert (Hno : ∀ l, Forall (λ o, ∀ rpc sub, o ≠ OLog (LogMissingScope rpc sub)) l →
                OLog (LogMissingScope rpc sub) ∉ l).
  { intros l Hl Hl'. by eapply (proj1 (Forall_forall _ _) Hl _ Hl'). }
  apply (serve_cases _ _ _ _ Htyped) in Hexec as
    [(_ & _ & _ & Hharm & _)|[(p & key & i & cached & scope & t2 & _ & Hp & _ & Hvalid & Hscope & -> & Hfw)|
      (_ & Hharm & _)]];
    try (by apply (proj1 (Forall_forall _ _) Hharm) in Hin).
  apply elem_of_cons in Hin as [Hin|Hin]; [done|].
  apply elem_of_app in Hin as [Hin|Hin].
  { destruct cached as [[]|]; simpl in Hin; inv_member Hin. }
  revert Hin. destruct Hfw as [uresp e resp|uresp d Hs|uresp d Htok Hs|uresp d tokens token rest err Htok Hs].
  - intros Hin. inv_member Hin.
  - apply Hno. constructor; [done|]. rewrite !Forall_app. split_and!.
    + apply revocation_no_missing.
    + by apply Forall_fmap, Forall_true.
    + by apply Forall_fmap, Forall_true.
  - intros _. apply Forall_cons in Htyped as [_ [_ [[Htype _] _]%Forall_cons]%Forall_app].
    assert (Hin : scope ∈ TaskQueues i) by exact (scope_allowed _ _ _ _ _ _ Hp Hscope Htype Htok).
    refine (iw_task_queue _ (Hwf key i _ Hvalid) scope Hin Hs). apply elem_of_cons. by left.
  - apply Hno. constructor; [done|]. rewrite !Forall_app. split_and!.
    + apply revocation_no_missing.
    + by apply Forall_fmap, Forall_true.
    + by repeat constructor.
Qed.

End serve.

(** C15. The worker's credential stays at the proxy. Through a dialled client, the
    metadata of an upstream call is the configured upstream credential and
    nothing else, whatever metadata the worker sent. *)
Theorem upstream_credential {CertPool} ReadFile (AppendCertsFromPEM : bytes → option CertPool)
    NewClient_error cfg c conn ctx req t r uctx rpc req' uresp err :
  Dial ReadFile AppendCertsFromPEM NewClient_error cfg = Ok (c, conn) →
  ctx_outgoing ctx = ∅ →
  typed_answers t → exec (serve {| Upstream := c |} ctx req) t r →
  OUpstream uctx rpc req' uresp err ∈ t →
  ctx_outgoing uctx =
    if decide (up_AuthMode cfg = AuthModeAPIKey)
    then {["authorization" := ["Bearer " +:+ up_APIKey cfg]]} else ∅.
Proof.
  intros Hdial Hout Htyped Hexec Hin.
  set (Hc := Dial_client _ _ _ _ _ _ Hdial : UpstreamClient (Upstream {| Upstream := c |})).
  apply (serve_cases _ (Hclient := Hc) _ _ _ _ Htyped) in Hexec as
    [(_ & _ & _ & Hharm & _)|[(p & key & i & cached & scope & t2 & _ & _ & _ & _ & _ & -> & Hfw)|
      (_ & Hharm & _)]]; try (by apply harmless_no_call in Hin).
  apply forwarded_head in Hfw as (uresp' & err' & t' & -> & Hbook).
  apply elem_of_cons in Hin as [Hin|Hin]; [done|].
  apply elem_of_app in Hin as [Hin|Hin]; [by apply lookup_of_no_call in Hin|].
  apply elem_of_cons in Hin as [[= -> -> -> -> ->]|Hin]; [|by apply bookkeeping_no_call in Hin].
  simpl. rewrite Hout. unfold dial_outgoing. case_decide; [|done]. by rewrite insert_empty.
Qed.

(** ** Concrete calls

    A worker of identity [w_identity] polls for an activity, and completes a
    workflow task, against environments in which everything works, the cache is
    down, the upstream fails, or a registration fails. *)

Definition w_identity : Identity :=
  {| Valid := true; Namespace := "ns"; TaskQueues := ["q"]; Subject := "worker" |}.

Definition w_ctx : Context :=
  {| ctx_incoming := Some {["authorization" := ["Bearer key"]]}; ctx_outgoing := ∅;
     ctx_identity := None |}.

Definition w_token : bytes := [Byte.x01; Byte.x02].
Definition w_poll : Request :=
  PollActivityTaskQueueRequest "ns"
    (Some {| tq_Name := "q"; tq_Kind := TASK_QUEUE_KIND_NORMAL; tq_NormalName := "" |}).
Definition w_poll_response : Response :=
  PollActivityTaskQueueResponse (Some {| pa_TaskToken := w_token |}).
Definition w_heartbeat : Request := RecordActivityTaskHeartbeatRequest "ns" w_token.

Definition w_env (get : result error (option Entry)) (put : goerror)
    (up : option rpc_error) : ∀ X, list obs → proxyE X → X :=
  λ X _ e,
    match e in proxyE X return X with
    | DoAuthenticate _ => Ok w_identity
    | DoGet _ => get
    | DoPut _ _ => put
    | DoDelete _ => None
    | DoUpstream _ rpc _ =>
        (if decide (rpc = "PollActivityTaskQueue") then w_poll_response else OtherResponse rpc, up)
    | DoLog _ => tt
    end.

Definition w_entry : Entry := {| entry_Namespace := "ns"; entry_TaskQueue := "q" |}.
Definition w_server : Server := {| Upstream := wire |}.
Definition w_run env req : list obs * reply := play env [] (serve w_server w_ctx req).

Definition env_ok := w_env (Ok (Some w_entry)) None None.
Definition env_cache_down := w_env (Err "cache down") None None.
Definition env_unknown_token := w_env (Ok None) None None.
Definition env_put_fails := w_env (Ok None) (Some "put failed") None.
Definition env_upstream_fails := w_env (Ok None) None (Some (UpstreamError (OtherCode 5) "no")).

#[global] Instance w_server_client : UpstreamClient (Upstream w_server) := wire_client.

Lemma w_run_exec env req : exec (serve w_server w_ctx req) (w_run env req).1 (w_run env req).2.
Proof. apply exec_play. Qed.

(** The upstream call of a run. *)
Definition w_call (rpc : string) (req : Request) (resp : Response) (err : option rpc_error) : obs :=
  OUpstream (uc_context (WithIdentity w_ctx w_identity)) rpc req resp err.

Ltac run_typed := vm_compute; repeat constructor.
Ltac run_nth n := apply (list_elem_of_lookup_2 _ n); vm_compute; reflexivity.

Lemma upstream_call_is_authorized_witness :
  let t := (w_run env_ok w_poll).1 in
  w_call "PollActivityTaskQueue" w_poll w_poll_response None ∈ t ∧
  ∃ key i t2, extractAPIKey w_ctx = Some key ∧ Valid i = true ∧
    t = OAuthenticate key (Ok i) :: t2.
Proof.
  intros t. assert (Hin : w_call "PollActivityTaskQueue" w_poll w_poll_response None ∈ t)
    by run_nth 1.
  split; [exact Hin|].
  destruct (upstream_call_is_authorized w_server w_ctx w_poll t (w_run env_ok w_poll).2
    (uc_context (WithIdentity w_ctx w_identity)) "PollActivityTaskQueue" w_poll w_poll_response None)
    as (p & key & i & cached & scope & t2 & _ & Hkey & Hvalid & _ & _ & _ & _ & Ht & _);
    [run_typed|apply w_run_exec|exact Hin|].
  exists key, i. eexists. split; [exact Hkey|]. split; [exact Hvalid|exact Ht].
Defined.

(** A legitimate heartbeat is forwarded; with an unknown token it is not. *)
Lemma access_decision_witness :
  (∃ p key i cached scope,
     legitimate w_ctx w_heartbeat "RecordActivityTaskHeartbeat" (w_run env_ok w_heartbeat).1
       p key i cached scope) ∧
  ¬ ∃ p key i cached scope,
     legitimate w_ctx w_heartbeat "RecordActivityTaskHeartbeat"
       (w_run env_unknown_token w_heartbeat).1 p key i cached scope.
Proof.
  split.
  - apply (access_decision w_server w_ctx w_heartbeat (w_run env_ok w_heartbeat).1
      (w_run env_ok w_heartbeat).2); [by intros ?|run_typed|apply w_run_exec|].
    exists (uc_context (WithIdentity w_ctx w_identity)), "RecordActivityTaskHeartbeat", w_heartbeat,
      (OtherResponse "RecordActivityTaskHeartbeat"), None. run_nth 2.
  - intros Hleg. apply (access_decision w_server w_ctx w_heartbeat
      (w_run env_unknown_token w_heartbeat).1 (w_run env_unknown_token w_heartbeat).2) in Hleg;
      [|by intros ?|run_typed|apply w_run_exec].
    destruct Hleg as (? & ? & ? & ? & ? & Hin). vm_compute in Hin. inv_member Hin.
Defined.

Lemma refusal_leaves_no_mark_witness :
  Forall harmless (w_run env_unknown_token w_heartbeat).1 ∧
  (w_run env_unknown_token w_heartbeat).2.2 ≠ None.
Proof.
  apply (refusal_leaves_no_mark w_server w_ctx w_heartbeat); [run_typed|apply w_run_exec|].
  intros uctx rpc req resp err Hin. vm_compute in Hin. inv_member Hin.
Defined.

Lemma cache_outage_fails_closed_witness :
  (w_run env_cache_down w_heartbeat).2 =
  (NotMessage, Some (StatusError Unavailable MsgTokenCacheUnavailable)).
Proof.
  apply (cache_outage_fails_closed w_server w_ctx w_heartbeat (w_run env_cache_down w_heartbeat).1
    _ w_token "cache down"); [run_typed|apply w_run_exec|run_nth 1].
Defined.

Lemma upstream_failure_mutates_nothing_witness :
  (w_run env_upstream_fails w_poll).2.2 = Some (UpstreamError (OtherCode 5) "no").
Proof.
  apply (upstream_failure_mutates_nothing w_server w_ctx w_poll (w_run env_upstream_fails w_poll).1
    _ (uc_context (WithIdentity w_ctx w_identity)) "PollActivityTaskQueue" w_poll w_poll_response);
    [run_typed|apply w_run_exec|run_nth 1].
Defined.

Lemma success_is_complete_witness :
  (w_run env_ok w_poll).2.2 = None ∧
  ∃ i scope, OPut w_token (entry_for i scope) None ∈ (w_run env_ok w_poll).1.
Proof.
  split; [vm_compute; reflexivity|].
  destruct (success_is_complete w_server w_ctx w_poll (w_run env_ok w_poll).1 (w_run env_ok w_poll).2.1)
    as (p & key & i & cached & scope & uctx & uresp & d & _ & _ & Hresp & Ht);
    [run_typed|apply (w_run_exec env_ok w_poll)|].
  exists w_identity, "q". run_nth 2.
Defined.

Lemma failed_registration_withholds_response_witness :
  (w_run env_put_fails w_poll).2 =
  (NotMessage, Some (StatusError Unavailable MsgTokenCacheUnavailable)).
Proof.
  apply (failed_registration_withholds_response w_server w_ctx w_poll (w_run env_put_fails w_poll).1
    _ w_token w_entry "put failed"); [run_typed|apply w_run_exec|run_nth 2].
Defined.

Lemma task_queue_scope_never_missing_witness :
  OLog (LogMissingScope "PollActivityTaskQueue" "worker") ∉ (w_run env_ok w_poll).1.
Proof.
  apply (task_queue_scope_never_missing w_server w_ctx w_poll _ (w_run env_ok w_poll).2);
    [run_typed|apply w_run_exec|].
  intros key i Hin _. vm_compute in Hin. inv_member Hin. injection Hin as -> ->.
  split; [done|done| |vm_compute; reflexivity|]; intros tq Htq; inv_member Htq; subst tq;
    [done|vm_compute; reflexivity].
Defined.

Definition w_upstream_config : UpstreamConfig :=
  {| up_Addr := "server:7233"; up_AuthMode := "api-key"; up_APIKey := "secret";
     up_TLSMode := "plaintext"; up_TLSCAFile := ""; up_TLSSkipVerify := false;
     up_TLSServerName := "" |}.

Lemma upstream_credential_witness :
  let c := apiKeyInterceptor "secret" wire in
  let t := (play env_ok [] (serve {| Upstream := c |} w_ctx w_poll)).1 in
  ∃ uctx, OUpstream uctx "PollActivityTaskQueue" w_poll w_poll_response None ∈ t ∧
    ctx_outgoing uctx = {["authorization" := ["Bearer secret"]]}.
Proof.
  intros c t.
  set (uctx := AppendToOutgoingContext (WithIdentity w_ctx w_identity) "authorization" "Bearer secret").
  exists uctx.
  assert (Hin : OUpstream uctx "PollActivityTaskQueue" w_poll w_poll_response None ∈ t) by run_nth 1.
  split; [exact Hin|].
  refine (upstream_credential (CertPool := unit) (λ _, Err "") (λ _, None) (λ _ _, None)
    w_upstream_config c _ w_ctx w_poll t (play env_ok [] (serve {| Upstream := c |} w_ctx w_poll)).2
    uctx "PollActivityTaskQueue" w_poll w_poll_response None _ _ _ _ Hin);
    [reflexivity|reflexivity|run_typed|apply exec_play].
Defined.
