(* ===== verification/Valkey.v ===== *)
(** * The Valkey token store ([internal/tokencache/valkey.go])

    Tokens are kept in a Valkey server under the hash of their bytes, with a TTL
    in milliseconds that every lookup renews; entries are kept as JSON. The server
    and its client library are outside the repository: [ValkeyServer] is the
    library's interface as the code uses it, [ValkeyServerLaws] the documented
    behaviour of SET, GETEX and DEL. Under them the store is an instance of
    [StoreLaws], up to tokens with the same hash. *)

From S2P Require Import Prelude Utf8 Json Store Sha256 Grpc.
Local Open Scope string_scope.
Local Open Scope list_scope.
Local Open Scope Z_scope.
Local Open Scope go_scope.

(** ** The client library *)

(** The commands the code builds; [PX] is a time to live in milliseconds. *)
Inductive command :=
| SET (key value : string) (px : Z)
| GETEX (key : string) (px : Z)
| DEL (key : string)
| PING.

Inductive valkey_error :=
| ValkeyNil
| ValkeyError (err : error).

Definition IsValkeyNil (err : valkey_error) : bool :=
  match err with ValkeyNil => true | _ => false end.

(** [client.Do(ctx, cmd)], read with [.Error()] or with [.ToString()]; a context is
    its deadline. [vk_now] is the clock that deadlines are taken from. *)
Class ValkeyServer (V : Type) := {
  vk_now : V → Z;
  vk_Close : V → V;
  Do_Error : option Z → command → V → goerror * V;
  Do_ToString : option Z → command → V → result valkey_error string * V;
}.

(** ** Contexts and durations *)

Definition millisecond : Z := 1000000.

Definition ttlMilliseconds (ttl : Z) : Z :=
  let ms := Z.quot ttl millisecond in
  let ms := if decide (Z.rem ttl millisecond ≠ 0) then ms + 1 else ms in
  Z.max ms 1.

Definition maxDuration (a b : Z) : Z := if b <? a then a else b.

(** [context.WithTimeout]: the earlier of the two deadlines. *)
Definition WithTimeout (ctx : option Z) (timeout now : Z) : option Z :=
  Some (match ctx with Some d => Z.min d (now + timeout) | None => now + timeout end).

Definition contextWithOptionalTimeout (ctx : option Z) (timeout now : Z) : option Z :=
  if timeout <=? 0 then ctx else WithTimeout ctx timeout now.

(** ** Keys *)

Definition valkeyKeyPrefix : string := "temporal-proxy:task-token:".

Definition tokenKey (token : bytes) : string :=
  valkeyKeyPrefix +:+ hex_EncodeToString (Sum256 token).

(** ** Entries as JSON *)

Record valkeyEntry := { ve_Namespace : string; ve_TaskQueue : string }.

(** The struct's fields by their tags, for encoding and decoding. *)
Definition valkeyEntry_json (e : valkeyEntry) : json :=
  JObject [("namespace", JString (ve_Namespace e)); ("task_queue", JString (ve_TaskQueue e))].

Definition valkeyEntry_fields : fields valkeyEntry := [
  ("namespace", λ v e,
     let? x := decode_string v (ve_Namespace e) in
     Ok {| ve_Namespace := x; ve_TaskQueue := ve_TaskQueue e |});
  ("task_queue", λ v e,
     let? x := decode_string v (ve_TaskQueue e) in
     Ok {| ve_Namespace := ve_Namespace e; ve_TaskQueue := x |})].

Definition encodeValkeyEntry (entry : Entry) : result error string :=
  match Marshal (valkeyEntry_json {| ve_Namespace := entry_Namespace entry;
                                     ve_TaskQueue := entry_TaskQueue entry |}) with
  | Err err => Err ("encode valkey token entry: " +:+ json_error_text err)
  | Ok b => Ok (string_of_bytes b)
  end.

Definition decodeValkeyEntry (value : string) : result error Entry :=
  match Unmarshal (decode_struct valkeyEntry_fields) (bytes_of_string value)
          {| ve_Namespace := ""; ve_TaskQueue := "" |} with
  | Err err => Err ("decode valkey token entry: " +:+ json_error_text err)
  | Ok stored => Ok {| entry_Namespace := ve_Namespace stored; entry_TaskQueue := ve_TaskQueue stored |}
  end.

(** ** The client and the store *)

Record ValkeyOptions := {
  vo_Addrs : list string;
  vo_Password : string;
  vo_DialTimeout : Z;
  vo_ReadTimeout : Z;
  vo_WriteTimeout : Z;
  vo_TTL : Z;
}.

Record valkeyGoClient := { gc_readTimeout : Z; gc_writeTimeout : Z }.

Record ValkeyStore := { vs_client : valkeyGoClient; vs_ttl : Z }.

Inductive ValkeyStoreError :=
| AddrsRequired
| TTLMustBePositive
| CreateValkeyClient (err : error)
| PingValkey (err : error).

Section valkey.
Context {V : Type} `{ValkeyServer V}.

Definition client_Put (c : valkeyGoClient) (ctx : option Z) (key value : string) (ttl : Z) (v : V) :
    goerror * V :=
  let ctx := contextWithOptionalTimeout ctx (gc_writeTimeout c) (vk_now v) in
  Do_Error ctx (SET key value (ttlMilliseconds ttl)) v.

(** [(value, found, err)] *)
Definition client_Get (c : valkeyGoClient) (ctx : option Z) (key : string) (ttl : Z) (v : V) :
    result error (option string) * V :=
  let ctx := contextWithOptionalTimeout ctx (gc_readTimeout c) (vk_now v) in
  let '(r, v') := Do_ToString ctx (GETEX key (ttlMilliseconds ttl)) v in
  (match r with
   | Ok value => Ok (Some value)
   | Err ValkeyNil => Ok None
   | Err (ValkeyError err) => Err err
   end, v').

Definition client_Delete (c : valkeyGoClient) (ctx : option Z) (key : string) (v : V) : goerror * V :=
  let ctx := contextWithOptionalTimeout ctx (gc_writeTimeout c) (vk_now v) in
  Do_Error ctx (DEL key) v.

Definition client_Ping (c : valkeyGoClient) (ctx : option Z) (v : V) : goerror * V :=
  let ctx := contextWithOptionalTimeout ctx
               (maxDuration (gc_readTimeout c) (gc_writeTimeout c)) (vk_now v) in
  Do_Error ctx PING v.

Definition client_Close (c : valkeyGoClient) (v : V) : goerror * V := (None, vk_Close v).

Definition Valkey_Put (s : ValkeyStore) (ctx : option Z) (token : bytes) (entry : Entry) (v : V) :
    goerror * V :=
  match encodeValkeyEntry entry with
  | Err err => (Some err, v)
  | Ok value =>
      let '(r, v') := client_Put (vs_client s) ctx (tokenKey token) value (vs_ttl s) v in
      (match r with Some err => Some ("put valkey token: " +:+ err) | None => None end, v')
  end.

Definition Valkey_Get (s : ValkeyStore) (ctx : option Z) (token : bytes) (v : V) :
    result error (option Entry) * V :=
  let '(r, v') := client_Get (vs_client s) ctx (tokenKey token) (vs_ttl s) v in
  (match r with
   | Err err => Err ("get valkey token: " +:+ err)
   | Ok None => Ok None
   | Ok (Some value) =>
       match decodeValkeyEntry value with
       | Err err => Err err
       | Ok entry => Ok (Some entry)
       end
   end, v').

Definition Valkey_Delete (s : ValkeyStore) (ctx : option Z) (token : bytes) (v : V) : goerror * V :=
  let '(r, v') := client_Delete (vs_client s) ctx (tokenKey token) v in
  (match r with Some err => Some ("delete valkey token: " +:+ err) | None => None end, v').

Definition Valkey_Close (s : ValkeyStore) (v : V) : goerror * V := client_Close (vs_client s) v.

(** The library's constructor: its error, or the server it is connected to. *)
Context (NewClient : list string → string → Z → Z → result error V).

Definition newValkeyGoClient (opts : ValkeyOptions) : result ValkeyStoreError (valkeyGoClient * V) :=
  if decide (length (vo_Addrs opts) = 0%nat) then Err AddrsRequired
  else if vo_TTL opts <=? 0 then Err TTLMustBePositive
  else
    match NewClient (vo_Addrs opts) (vo_Password opts) (vo_DialTimeout opts)
            (maxDuration (vo_ReadTimeout opts) (vo_WriteTimeout opts)) with
    | Err err => Err (CreateValkeyClient err)
    | Ok v =>
        Ok ({| gc_readTimeout := vo_ReadTimeout opts; gc_writeTimeout := vo_WriteTimeout opts |}, v)
    end.

(** A client whose ping fails is closed again; the error comes with what is left of
    the connection, if there was one. *)
Definition NewValkeyStore (ctx : option Z) (opts : ValkeyOptions) :
    result (ValkeyStoreError * option V) (ValkeyStore * V) :=
  match newValkeyGoClient opts with
  | Err err => Err (err, None)
  | Ok (client, v) =>
      let store := {| vs_client := client; vs_ttl := vo_TTL opts |} in
      match client_Ping client ctx v with
      | (Some err, v') =>
          let '(_, v'') := client_Close client v' in
          Err (PingValkey err, Some v'')
      | (None, v') => Ok (store, v')
      end
  end.

(** ** Runs *)

(** The calls of any number of proxies on one server, in the order the server
    takes them. Each proxy has its own timeouts and TTL, each call its deadline. *)
Inductive valkey_op :=
| VPut (token : bytes) (entry : Entry)
| VGet (token : bytes)
| VDelete (token : bytes).

Record valkey_call := { call_store : ValkeyStore; call_ctx : option Z; call_op : valkey_op }.

Definition valkey_step (v : V) (c : valkey_call) : V :=
  match call_op c with
  | VPut token entry => (Valkey_Put (call_store c) (call_ctx c) token entry v).2
  | VGet token => (Valkey_Get (call_store c) (call_ctx c) token v).2
  | VDelete token => (Valkey_Delete (call_store c) (call_ctx c) token v).2
  end.

Definition valkey_run : V → list valkey_call → V := foldl valkey_step.
End valkey.

(** ** What the server promises *)

(** [vk_view]: the values that a GETEX may return. Keys expire at any time; a
    failed command may or may not have taken effect. *)
Class ValkeyServerLaws (V : Type) `{ValkeyServer V} := {
  vk_view : V → string → option string;
  vk_set ctx key value px v r v' key' value' :
    Do_Error ctx (SET key value px) v = (r, v') → vk_view v' key' = Some value' →
    (key' = key ∧ value' = value) ∨ vk_view v key' = Some value';
  vk_getex ctx key px v r v' :
    Do_ToString ctx (GETEX key px) v = (r, v') →
    (∀ value, r = Ok value → vk_view v key = Some value) ∧
    ∀ key' value', vk_view v' key' = Some value' → vk_view v key' = Some value';
  vk_del ctx key v r v' :
    Do_Error ctx (DEL key) v = (r, v') →
    (r = None → vk_view v' key = None) ∧
    ∀ key' value', vk_view v' key' = Some value' → vk_view v key' = Some value';
}.

(** ** The codec of entries *)

(** What an entry is after a round trip: each invalid byte replaced by U+FFFD. *)
Definition stored_entry (e : Entry) : Entry :=
  {| entry_Namespace := ToValidUTF8 (entry_Namespace e);
     entry_TaskQueue := ToValidUTF8 (entry_TaskQueue e) |}.

Lemma stored_entry_utf8 e : entry_utf8 e → stored_entry e = e.
Proof. destruct e as [ns tq]. unfold stored_entry. by intros [-> ->]. Qed.

Lemma encodeValkeyEntry_Ok e :
  encodeValkeyEntry e = Ok (string_of_bytes (encode (valkeyEntry_json
    {| ve_Namespace := entry_Namespace e; ve_TaskQueue := entry_TaskQueue e |}))).
Proof. reflexivity. Qed.

Lemma decode_encode e value :
  encodeValkeyEntry e = Ok value → decodeValkeyEntry value = Ok (stored_entry e).
Proof.
  rewrite encodeValkeyEntry_Ok. remember (valkeyEntry_json _) as v eqn:Hv.
  intros [= <-]. unfold decodeValkeyEntry.
  rewrite bytes_of_string_of_bytes, Unmarshal_encode; by rewrite Hv.
Qed.

(** C24. An entry written to the shared store is read back as it was, by any proxy
    of the fleet: encoding never fails, decoding what was encoded never fails, and
    it gives the namespace and task queue back byte for byte, whatever characters
    they hold, invalid UTF-8 excepted, which comes back as U+FFFD. *)
Theorem valkey_entry_roundtrip e :
  ∃ value, encodeValkeyEntry e = Ok value ∧ decodeValkeyEntry value = Ok (stored_entry e) ∧
    (entry_utf8 e → decodeValkeyEntry value = Ok e).
Proof.
  eexists. split; [apply encodeValkeyEntry_Ok|].
  rewrite (decode_encode e _ (encodeValkeyEntry_Ok e)).
  split; [done|]. by intros ->%stored_entry_utf8.
Qed.

(** Tokens the store cannot tell apart. *)
Definition same_key (t t' : bytes) : Prop := tokenKey t = tokenKey t'.

#[global] Instance same_key_equiv : Equivalence same_key.
Proof. unfold same_key. split; [by intros t|by intros t1 t2 ->|by intros t1 t2 t3 -> ->]. Qed.

#[global] Instance same_key_dec : RelDecision same_key.
Proof. intros t t'. unfold same_key. apply _. Defined.

Section properties.
Context {V : Type} `{HV : ValkeyServerLaws V}.

(** The only values under the key of a token are those put for a token of that
    key, or there before. *)
Lemma valkey_step_view v c token value :
  vk_view (valkey_step v c) (tokenKey token) = Some value →
  vk_view v (tokenKey token) = Some value ∨
  ∃ t entry, call_op c = VPut t entry ∧ same_key t token ∧ encodeValkeyEntry entry = Ok value.
Proof.
  unfold valkey_step. intros Hview. destruct (call_op c) as [t entry|t|t]; simpl in *.
  - unfold Valkey_Put, client_Put in Hview.
    destruct (encodeValkeyEntry entry) as [w|] eqn:Hm; simpl in Hview; [|by left].
    destruct (Do_Error _ _ _) as [r v'] eqn:Hdo. simpl in Hview.
    destruct (vk_set _ _ _ _ _ _ _ _ _ Hdo Hview) as [[Hk ->]|]; [|by left].
    right. by exists t, entry.
  - unfold Valkey_Get, client_Get in Hview. destruct (Do_ToString _ _ _) as [r v'] eqn:Hdo.
    left. by eapply (vk_getex _ _ _ _ _ _ Hdo).
  - unfold Valkey_Delete, client_Delete in Hview. destruct (Do_Error _ _ _) as [r v'] eqn:Hdo.
    left. by eapply (vk_del _ _ _ _ _ Hdo).
Qed.

Lemma valkey_run_view calls v token value :
  vk_view (valkey_run v calls) (tokenKey token) = Some value →
  vk_view v (tokenKey token) = Some value ∨
  ∃ c t entry, c ∈ calls ∧ call_op c = VPut t entry ∧ same_key t token ∧
    encodeValkeyEntry entry = Ok value.
Proof.
  revert v. induction calls as [|c calls IH]; intros v Hview; simpl in *; [by left|].
  destruct (IH _ Hview) as [Hv|(c' & t & entry & Hin & Hput)].
  - apply valkey_step_view in Hv as [?|(t & entry & Hput)]; [by left|].
    right. exists c, t, entry. split; [constructor|done].
  - right. exists c', t, entry. split; [by constructor|done].
Qed.

Lemma Valkey_Get_found s ctx token v e v' :
  Valkey_Get s ctx token v = (Ok (Some e), v') →
  ∃ value, vk_view v (tokenKey token) = Some value ∧ decodeValkeyEntry value = Ok e.
Proof.
  unfold Valkey_Get, client_Get. destruct (Do_ToString _ _ _) as [r w] eqn:Hdo.
  destruct r as [value|[|err]]; simpl; try done.
  destruct (decodeValkeyEntry value) as [e'|] eqn:Hu; simpl; [|done]. intros [= <- _].
  exists value. split; [|done]. exact (proj1 (vk_getex _ _ _ _ _ _ Hdo) _ eq_refl).
Qed.

Lemma Valkey_Delete_gone s ctx token v v' :
  Valkey_Delete s ctx token v = (None, v') → vk_view v' (tokenKey token) = None.
Proof.
  unfold Valkey_Delete, client_Delete. destruct (Do_Error _ _ _) as [r w] eqn:Hdo.
  destruct r; [done|]. intros [= <-]. exact (proj1 (vk_del _ _ _ _ _ Hdo) eq_refl).
Qed.

(** The shared store never makes an entry up either: what a lookup finds for
    a token was put, by this proxy or another, for that token or one with the same
    SHA-256 digest. *)
Theorem valkey_get_was_put s calls v ctx token e v' :
  (∀ key, vk_view v key = None) →
  Valkey_Get s ctx token (valkey_run v calls) = (Ok (Some e), v') →
  ∃ c t entry, c ∈ calls ∧ call_op c = VPut t entry ∧ tokenKey t = tokenKey token ∧
    e = stored_entry entry.
Proof.
  intros Hempty (value & Hview & Hu)%Valkey_Get_found.
  apply valkey_run_view in Hview as [Hview|(c & t & entry & Hin & Hput & Ht & Hm%decode_encode)].
  - by rewrite Hempty in Hview.
  - exists c, t, entry. split_and!; [done|done|exact Ht|congruence].
Qed.

(** A successful Delete revokes a token for every proxy on the store: until
    some proxy puts it again, or one with the same digest, no lookup finds it. *)
Theorem valkey_delete_revokes s s' calls v v1 ctx ctx' token e v' :
  Valkey_Delete s ctx token v = (None, v1) →
  (∀ c t entry, c ∈ calls → call_op c = VPut t entry → tokenKey t ≠ tokenKey token) →
  Valkey_Get s' ctx' token (valkey_run v1 calls) ≠ (Ok (Some e), v').
Proof.
  intros Hdel%Valkey_Delete_gone Hno (value & Hview & Hu)%Valkey_Get_found.
  apply valkey_run_view in Hview as [Hview|(c & t & entry & Hin & Hput & Ht & _)]; [congruence|].
  by eapply Hno.
Qed.
End properties.

(** ** The store interface

    A connection: the store object, the server behind it, and the deadline of the
    calling context, which changes from call to call. *)

Record ValkeyConn (V : Type) := { vc_store : ValkeyStore; vc_ctx : option Z; vc_server : V }.
Arguments vc_store {V}. Arguments vc_ctx {V}. Arguments vc_server {V}.

Definition with_server {V} (c : ValkeyConn V) (v : V) : ValkeyConn V :=
  {| vc_store := vc_store c; vc_ctx := vc_ctx c; vc_server := v |}.

#[global] Instance ValkeyConn_Store {V} `{ValkeyServer V} : Store (ValkeyConn V) := {
  store_Put token entry c :=
    let '(r, v) := Valkey_Put (vc_store c) (vc_ctx c) token entry (vc_server c) in
    (r, with_server c v);
  store_Get token c :=
    let '(r, v) := Valkey_Get (vc_store c) (vc_ctx c) token (vc_server c) in
    (r, with_server c v);
  store_Delete token c :=
    let '(r, v) := Valkey_Delete (vc_store c) (vc_ctx c) token (vc_server c) in
    (r, with_server c v);
}.

(** What the server holds under the key of a token, if it can be decoded. *)
Definition conn_view {V} `{HV : ValkeyServerLaws V} (c : ValkeyConn V) (token : bytes) : option Entry :=
  vk_view (vc_server c) (tokenKey token) ≫= λ value,
  match decodeValkeyEntry value with Ok e => Some e | Err _ => None end.

Lemma conn_view_Some {V} `{HV : ValkeyServerLaws V} (c : ValkeyConn V) token e :
  conn_view c token = Some e ↔
  ∃ value, vk_view (vc_server c) (tokenKey token) = Some value ∧ decodeValkeyEntry value = Ok e.
Proof.
  unfold conn_view. rewrite bind_Some. split; intros (value & Hv & Hd); exists value.
  - split; [done|]. destruct (decodeValkeyEntry value); congruence.
  - by rewrite Hd.
Qed.

(** The same operation as a call of a run. *)
Definition as_call {V} (c : ValkeyConn V) (op : valkey_op) : valkey_call :=
  {| call_store := vc_store c; call_ctx := vc_ctx c; call_op := op |}.

(** One operation adds nothing to the view but what a Put puts. *)
Lemma conn_view_step {V} `{HV : ValkeyServerLaws V} (c : ValkeyConn V) op token e :
  conn_view (with_server c (valkey_step (vc_server c) (as_call c op))) token = Some e →
  conn_view c token = Some e ∨
  ∃ t entry, op = VPut t entry ∧ same_key t token ∧ e = stored_entry entry.
Proof.
  intros (value & Hv & Hd)%conn_view_Some. rewrite conn_view_Some.
  apply valkey_step_view in Hv as [Hv|(t & entry & Hput & Ht & Hm%decode_encode)]; [eauto|].
  right. exists t, entry. split_and!; [done..|congruence].
Qed.

#[global] Instance ValkeyConn_StoreLaws {V} `{HV : ValkeyServerLaws V} : StoreLaws (ValkeyConn V).
Proof.
  refine {| store_inv _ := True; store_view := conn_view; store_alias := same_key |}; try done.
  - intros tok e c r c' tok' e' _. simpl.
    pose proof (conn_view_step c (VPut tok e) tok' e') as Hstep. unfold valkey_step in Hstep.
    simpl in Hstep. destruct (Valkey_Put _ _ _ _ _) as [r' v]. intros [= <- <-] Hview.
    destruct (Hstep Hview) as [?|(t & entry & [= <- <-] & Ht & ->)]; [by right|left].
    split; [done|apply stored_entry_utf8].
  - intros tok c r c' tok' e' _. simpl.
    pose proof (conn_view_step c (VGet tok) tok' e') as Hstep. unfold valkey_step in Hstep.
    simpl in Hstep. destruct (Valkey_Get _ _ _ _) as [r' v]. intros [= <- <-] Hview.
    by destruct (Hstep Hview) as [?|(t & entry & [=] & _)].
  - intros tok c e c' _. simpl. destruct (Valkey_Get _ _ _ _) as [r v] eqn:Hget.
    intros [= -> _]. apply conn_view_Some. by eapply Valkey_Get_found.
  - intros tok c r c' tok' e' _. simpl.
    pose proof (conn_view_step c (VDelete tok) tok' e') as Hstep. unfold valkey_step in Hstep.
    simpl in Hstep. destruct (Valkey_Delete _ _ _ _) as [r' v]. intros [= <- <-] Hview.
    by destruct (Hstep Hview) as [?|(t & entry & [=] & _)].
  - intros tok c c' _. simpl. destruct (Valkey_Delete _ _ _ _) as [r v] eqn:Hdel.
    intros [= -> <-]. apply Valkey_Delete_gone in Hdel. unfold conn_view. simpl. by rewrite Hdel.
Defined.

Lemma ttlMilliseconds_rounds ttl :
  0 < ttl → ttl ≤ ttlMilliseconds ttl * millisecond < ttl + millisecond.
Proof.
  intros Hpos. unfold ttlMilliseconds, millisecond. pose proof (Z.quot_rem' ttl 1000000) as Hqr.
  pose proof (Z.rem_bound_pos ttl 1000000 ltac:(lia) ltac:(lia)) as Hr. case_decide; lia.
Qed.

(** C25. The TTL a Valkey key gets is the configured one rounded up to whole
    milliseconds: never shorter, less than a millisecond longer, at least one
    (Valkey refuses zero), and a 64-bit integer. *)
Theorem ttlMilliseconds_bounds ttl :
  1 ≤ ttlMilliseconds ttl ∧
  (0 < ttl → ttl ≤ ttlMilliseconds ttl * millisecond < ttl + millisecond) ∧
  (ttl < 2 ^ 63 → ttlMilliseconds ttl < 2 ^ 63).
Proof.
  destruct (Z_lt_le_dec 0 ttl) as [Hpos|Hneg].
  - pose proof (ttlMilliseconds_rounds ttl Hpos) as Hr. split_and!; [|done|];
      unfold millisecond in Hr; lia.
  - unfold ttlMilliseconds, millisecond. pose proof (Z.quot_rem' ttl 1000000) as Hqr.
    pose proof (Z.quot_opp_l ttl 1000000 ltac:(lia)).
    pose proof (Z.quot_pos (- ttl) 1000000 ltac:(lia) ltac:(lia)).
    case_decide; split_and!; intros; lia.
Qed.

(** ** A concrete server

    One that never fails and never expires. *)

Definition w_server : Type := gmap string string.

#[local] Instance w_valkey : ValkeyServer w_server := {
  vk_now _ := 0;
  vk_Close v := v;
  Do_Error _ cmd v :=
    match cmd with
    | SET key value _ => (None, <[key := value]> v)
    | DEL key => (None, delete key v)
    | _ => (None, v)
    end;
  Do_ToString _ cmd v :=
    match cmd with
    | GETEX key _ => (match v !! key with Some value => Ok value | None => Err ValkeyNil end, v)
    | _ => (Ok "OK", v)
    end;
}.

#[local] Instance w_valkey_laws : ValkeyServerLaws w_server.
Proof.
  refine {| vk_view (v : w_server) key := v !! key |}.
  - intros ctx key value px v r v' key' value' [= <- <-] Hl.
    apply lookup_insert_Some in Hl as [[<- <-]|[_ ?]]; [by left|by right].
  - intros ctx key px v r v' [= <- <-]. split; [|done]. intros value. by destruct (v !! key); intros [= <-].
  - intros ctx key v r v' [= <- <-]. split; [intros _; apply lookup_delete_eq|].
    intros key' value' [_ ?]%lookup_delete_Some. done.
Defined.

Definition w_valkey_store : ValkeyStore :=
  {| vs_client := {| gc_readTimeout := 2000000000; gc_writeTimeout := 2000000000 |};
     vs_ttl := 3600000000000 |}.
Definition w_token : bytes := [Byte.x01].
Definition w_entry : Entry := {| entry_Namespace := "ns"; entry_TaskQueue := "q" |}.

Definition w_call (op : valkey_op) : valkey_call :=
  {| call_store := w_valkey_store; call_ctx := None; call_op := op |}.

Definition w_calls : list valkey_call := [w_call (VPut w_token w_entry); w_call (VGet w_token)].

Lemma w_found :
  Valkey_Get w_valkey_store None w_token (valkey_run (∅ : w_server) w_calls) =
  (Ok (Some w_entry), (Valkey_Get w_valkey_store None w_token (valkey_run (∅ : w_server) w_calls)).2).
Proof.
  assert (Hfst : (Valkey_Get w_valkey_store None w_token (valkey_run (∅ : w_server) w_calls)).1 =
    Ok (Some w_entry)) by (vm_compute; reflexivity).
  rewrite <- Hfst. apply surjective_pairing.
Qed.

Lemma valkey_get_was_put_witness :
  ∃ c t entry, c ∈ w_calls ∧ call_op c = VPut t entry ∧ tokenKey t = tokenKey w_token ∧
    w_entry = stored_entry entry.
Proof.
  exact (valkey_get_was_put w_valkey_store w_calls (∅ : w_server) None w_token w_entry _
    (λ key, lookup_empty (M := gmap string) key) w_found).
Defined.

Definition w_holding : w_server := {[tokenKey w_token := "q"]}.

Lemma w_deleted :
  Valkey_Delete w_valkey_store None w_token w_holding =
  (None, (Valkey_Delete w_valkey_store None w_token w_holding).2).
Proof. reflexivity. Qed.

Lemma valkey_delete_revokes_witness :
  Valkey_Get w_valkey_store None w_token
    (Valkey_Delete w_valkey_store None w_token w_holding).2 ≠ (Ok (Some w_entry), ∅).
Proof.
  apply (valkey_delete_revokes w_valkey_store w_valkey_store [] w_holding
    (Valkey_Delete w_valkey_store None w_token w_holding).2 None None w_token w_entry).
  - exact w_deleted.
  - intros c t entry Hin. destruct (not_elem_of_nil _ Hin).
Defined.
