(* ===== verification/Backends.v ===== *)
(** * Either token store, one behaviour

    [buildTokenCache] serves from the local cache or from Valkey. The reference
    both are compared with is a map from tokens to entries without shards, lists,
    digests, JSON or clocks: [expected]. As long as nothing expires, is evicted or
    fails, each store gives the answers of the map, so a deployment may change its
    backend without a worker noticing. *)

From S2P Require Import Prelude Utf8 Json Store LruSpec Shard TokenCache Sha256 Grpc Valkey.
Local Open Scope string_scope.
Local Open Scope list_scope.
Local Open Scope Z_scope.

(** ** Uses of a store, and the reference *)

Inductive store_op :=
| SPut (token : bytes) (entry : Entry)
| SGet (token : bytes)
| SDelete (token : bytes).

Inductive reply :=
| Replied (err : goerror)
| Found (r : result error (option Entry)).

Definition op_token (op : store_op) : bytes :=
  match op with SPut token _ | SGet token | SDelete token => token end.

Definition op_utf8 (op : store_op) : Prop :=
  match op with SPut _ entry => entry_utf8 entry | _ => True end.

(** The keys that are put, as the shards hold them. *)
Definition put_keys (ops : list store_op) : gset string :=
  list_to_set (omap (λ op, match op with SPut token _ => Some (string_of_bytes token) | _ => None end) ops).

Definition answer {S} `{Store S} (op : store_op) (s : S) : reply * S :=
  match op with
  | SPut token entry => let '(r, s') := store_Put token entry s in (Replied r, s')
  | SGet token => let '(r, s') := store_Get token s in (Found r, s')
  | SDelete token => let '(r, s') := store_Delete token s in (Replied r, s')
  end.

Fixpoint answers {S} `{Store S} (ops : list store_op) (s : S) : list reply :=
  match ops with
  | [] => []
  | op :: ops' => let '(r, s') := answer op s in r :: answers ops' s'
  end.

Definition records : Type := bytes → option Entry.

Definition expected_step (op : store_op) (m : records) : reply * records :=
  match op with
  | SPut token entry => (Replied None, λ t, if decide (t = token) then Some entry else m t)
  | SGet token => (Found (Ok (m token)), m)
  | SDelete token => (Replied None, λ t, if decide (t = token) then None else m t)
  end.

Fixpoint expected (ops : list store_op) (m : records) : list reply :=
  match ops with
  | [] => []
  | op :: ops' => let '(r, m') := expected_step op m in r :: expected ops' m'
  end.

(** A store that keeps up with the map for one operation does so for all: [R n]
    relates them while [n] operations are left. *)
Lemma answers_simulated {S} `{Store S} (R : nat → S → records → Prop) (ok : store_op → Prop) :
  (∀ n op s m, ok op → R (Datatypes.S n) s m →
     (answer op s).1 = (expected_step op m).1 ∧ R n (answer op s).2 (expected_step op m).2) →
  ∀ ops s m, Forall ok ops → R (length ops) s m → answers ops s = expected ops m.
Proof.
  intros Hstep ops. induction ops as [|op ops IH]; intros s m Hok HR; [done|]. simpl.
  apply Forall_cons in Hok as [Hop Hok]. destruct (Hstep _ _ _ _ Hop HR) as [Hr HR'].
  destruct (answer op s) as [r s'], (expected_step op m) as [r' m']. simpl in *.
  rewrite Hr. f_equal. by apply IH.
Qed.

(** ** LRU lists that nothing falls out of *)

Lemma spec_lookup_cons k x l :
  spec_lookup k (x :: l) = if decide (item_key x = k) then Some x else spec_lookup k l.
Proof. unfold spec_lookup. rewrite filter_cons. by case_decide. Qed.

Lemma spec_lookup_remove k0 k l :
  spec_lookup k0 (spec_remove k l) = if decide (k0 = k) then None else spec_lookup k0 l.
Proof.
  induction l as [|x l IH]; [by case_decide|]. unfold spec_remove in *. rewrite filter_cons.
  repeat case_decide; rewrite ?spec_lookup_cons, ?IH; repeat case_decide; congruence.
Qed.

Section lists.
Context (P : gset string) (N : Z) (alive : item → Prop).

(** Keys within [P], which fits into the list, and no item expired. *)
Record fits (l : list item) : Prop := {
  fits_nodup : NoDup (keys l);
  fits_keys k : k ∈ keys l → k ∈ P;
  fits_alive it : it ∈ l → alive it;
}.

Lemma fits_incl l l' :
  NoDup (keys l') → (∀ it, it ∈ l' → (item_key it ∈ P ∧ alive it) ∨ it ∈ l) → fits l → fits l'.
Proof.
  intros Hnd Hin [_ HP Ha]. split; [done| |].
  - intros k (it & Hit & <-)%elem_of_keys. destruct (Hin it Hit) as [[? _]|?]; [done|].
    apply HP, elem_of_keys. eauto.
  - intros it Hit. destruct (Hin it Hit) as [[_ ?]|?]; [done|]. by apply Ha.
Qed.

Lemma fits_length l : fits l → (length l ≤ size P)%nat.
Proof.
  intros [Hnd HP _]. rewrite <- (length_fmap item_key l), <- (size_list_to_set (C := gset string)) by done.
  apply subseteq_size. intros k Hk%elem_of_list_to_set. auto.
Qed.

Lemma NoDup_keys_put k e x l : NoDup (keys l) → NoDup (keys (spec_put N k e x l)).
Proof. intros Hnd. unfold spec_put. 
  destruct (spec_lookup k l) as [it|] eqn:E.
  - rewrite fmap_cons, keys_spec_remove. constructor; [|by apply NoDup_filter].
    rewrite list_elem_of_filter. simpl. tauto.
  - eapply NoDup_keys_sublist; [apply spec_truncate_sublist|]. rewrite fmap_cons.
    constructor; [|done]. by apply spec_lookup_None.
Qed.

Lemma spec_put_fits k e x l :
  fits l → Z.of_nat (size P) ≤ N → k ∈ P → alive (Build_item k e x) →
  fits (spec_put N k e x l) ∧
  ∀ k0, item_entry <$> spec_lookup k0 (spec_put N k e x l) =
        if decide (k0 = k) then Some e else item_entry <$> spec_lookup k0 l.
Proof.
  intros Hl HN Hk Ha. split.
  - eapply fits_incl; [apply NoDup_keys_put, Hl| |exact Hl].
    intros it [->|[? _]]%elem_of_spec_put; [by left|by right].
  - intros k0. unfold spec_put. destruct (spec_lookup k l) as [it|] eqn:E.
    + rewrite spec_lookup_cons, spec_lookup_remove. simpl. repeat case_decide; by subst.
    + assert (Hfit : fits (Build_item k e x :: l)).
      { split; [rewrite fmap_cons; constructor; [by apply spec_lookup_None|apply Hl]| |].
        - intros k' [->|Hk']%elem_of_cons; [done|by apply Hl].
        - intros it [->|Hit]%elem_of_cons; [done|by apply Hl]. }
      apply fits_length in Hfit. unfold spec_truncate. simpl in Hfit.
      destruct (Z.ltb_spec 0 N) as [_|?].
      * rewrite take_ge by (simpl; lia). rewrite spec_lookup_cons. simpl. by repeat case_decide; subst.
      * lia.
Qed.

Lemma spec_get_fits k ttl now1 now2 l :
  fits l → (∀ it, alive it → now1 ≤ item_expiresAt it) →
  (∀ e, alive (Build_item k e (now2 + ttl))) →
  (spec_get k ttl now1 now2 l).1 = item_entry <$> spec_lookup k l ∧
  fits (spec_get k ttl now1 now2 l).2 ∧
  ∀ k0, item_entry <$> spec_lookup k0 (spec_get k ttl now1 now2 l).2 =
        item_entry <$> spec_lookup k0 l.
Proof.
  intros Hl Hnow Ha. unfold spec_get. destruct (spec_lookup k l) as [it|] eqn:E; [|done].
  pose proof E as [Hin Hkey]%spec_lookup_Some; [|apply Hl].
  rewrite (proj2 (Z.ltb_ge _ _)) by (apply Hnow; by apply Hl). simpl. split_and!; [done| |].
  - eapply fits_incl; [| |exact Hl].
    + rewrite fmap_cons, keys_spec_remove. constructor; [|apply NoDup_filter, Hl].
      rewrite list_elem_of_filter. simpl. tauto.
    + intros it' [->|[? _]%elem_of_spec_remove]%elem_of_cons; [left|by right].
      split; [|apply Ha]. apply Hl, elem_of_keys. eauto.
  - intros k0. rewrite spec_lookup_cons, spec_lookup_remove. simpl.
    repeat case_decide; subst; rewrite ?E; done.
Qed.

Lemma spec_remove_fits k l :
  fits l → fits (spec_remove k l) ∧
  ∀ k0, item_entry <$> spec_lookup k0 (spec_remove k l) =
        if decide (k0 = k) then None else item_entry <$> spec_lookup k0 l.
Proof.
  intros Hl. split.
  - eapply fits_incl; [|by intros it [? _]%elem_of_spec_remove; right|exact Hl].
    eapply NoDup_keys_sublist; [apply spec_remove_sublist|apply Hl].
  - intros k0. rewrite spec_lookup_remove. by case_decide.
Qed.
End lists.

(** ** The local cache *)

Section local.
Context (maphash : N → bytes → N) (ttl maxSize : Z) (seed : N) (clock : nat → Z).
Context (total : nat) (P : gset string).

(** The run is shorter than the TTL, and what it puts fits into one shard. *)
Hypothesis Hclock : ∀ i j, (i < total)%nat → (j < total)%nat → clock i ≤ clock j + ttl.
Hypothesis HP : Z.of_nat (size P) ≤ perShard maxSize.

#[local] Instance local_store : Store LocalStore := LocalStore_Store maphash.

Definition alive (it : item) : Prop := ∀ i, (i < total)%nat → clock i ≤ item_expiresAt it.

Record local_keeps_up (n : nat) (s : LocalStore) (m : records) : Prop := {
  lk_wf : cache_wf (perShard maxSize) (ls_cache s);
  lk_ttl : c_ttl (ls_cache s) = ttl;
  lk_clock : ls_clock s = clock;
  lk_reads : (ls_reads s + 2 * n ≤ total)%nat;
  lk_fits token : fits P alive (token_list maphash (ls_cache s) token);
  lk_agrees token :
    item_entry <$> spec_lookup (string_of_bytes token) (token_list maphash (ls_cache s) token) =
    m token;
}.

(** One cache operation, given what it does to the list and the map. *)
Lemma local_step n s m c op reads m' :
  local_keeps_up (Datatypes.S n) s m → c = cache_step maphash (ls_cache s) op → (reads ≤ 2)%nat →
  (∀ t o, op_on_shard maphash (ls_cache s) (shardFor maphash (ls_cache s) t) op = Some o →
     let l := token_list maphash (ls_cache s) t in
     let l' := spec_step (perShard maxSize) l o in
     fits P alive l' ∧ item_entry <$> spec_lookup (string_of_bytes t) l' = m' t) →
  (∀ t, op_on_shard maphash (ls_cache s) (shardFor maphash (ls_cache s) t) op = None → m' t = m t) →
  local_keeps_up n (with_cache c reads s) m'.
Proof.
  intros [Hwf Httl Hcl Hreads Hfits Hm] -> Hle Hsome Hnone. split; simpl.
  - by apply cache_step_wf.
  - by rewrite (proj1 (cache_step_params maphash _ _)).
  - done.
  - lia.
  - intros t. rewrite (token_list_step maphash (perShard maxSize)) by done.
    destruct (op_on_shard _ _ _ op) as [o|] eqn:E; [|done]. by apply Hsome.
  - intros t. rewrite (token_list_step maphash (perShard maxSize)) by done.
    destruct (op_on_shard _ _ _ op) as [o|] eqn:E; [by apply Hsome|]. by rewrite Hnone.
Qed.

Lemma local_answer n op s m :
  (∀ token entry, op = SPut token entry → string_of_bytes token ∈ P) →
  local_keeps_up (Datatypes.S n) s m →
  (answer op s).1 = (expected_step op m).1 ∧
  local_keeps_up n (answer op s).2 (expected_step op m).2.
Proof.
  intros HPin Hk. pose proof Hk as [Hwf Httl Hcl Hreads Hfits Hm].
  destruct op as [token entry|token|token]; simpl.
  - split; [done|].
    eapply (local_step _ _ _ _ (CPut token entry (ls_clock s (ls_reads s)))); [done..|lia| |];
      intros t; simpl; case_decide as Ht; try done.
    + intros o [= <-]. simpl. rewrite Httl, Hcl.
      destruct (spec_put_fits P (perShard maxSize) alive (string_of_bytes token) entry
        (clock (ls_reads s) + ttl) (token_list maphash (ls_cache s) t)) as [Hf Hl]; [done|done| | |].
      { by eapply HPin. }
      { intros i Hi. simpl. apply Hclock; [done|lia]. }
      split; [done|]. rewrite Hl, Hm. repeat case_decide; naive_solver.
    + intros _. rewrite decide_False; [done|]. by intros ->.
  - rewrite (surjective_pairing (Cache_Get _ _ _ _ _)). simpl.
    assert (Hget : ∀ t, let '(r, l') := spec_get (string_of_bytes token) ttl (clock (ls_reads s))
        (clock (ls_reads s + 1)%nat) (token_list maphash (ls_cache s) t) in
      r = item_entry <$> spec_lookup (string_of_bytes token) (token_list maphash (ls_cache s) t) ∧
      fits P alive l' ∧ item_entry <$> spec_lookup (string_of_bytes t) l' = m t).
    { intros t. destruct (spec_get_fits P alive (string_of_bytes token) ttl (clock (ls_reads s))
        (clock (ls_reads s + 1)%nat) (token_list maphash (ls_cache s) t)) as (Hr & Hf & Hl); [done| | |].
      - intros it Hit. apply Hit. lia.
      - intros e i Hi. simpl. apply Hclock; [done|lia].
      - destruct (spec_get _ _ _ _ _) as [r l']. simpl in *. by rewrite Hl, Hm. }
    split.
    + rewrite (Cache_Get_result maphash (perShard maxSize)), Httl, Hcl by done.
      specialize (Hget token). destruct (spec_get _ _ _ _ _) as [r l']. simpl.
      destruct Hget as [-> _]. by rewrite Hm.
    + eapply (local_step _ _ _ _ (CGet token (ls_clock s (ls_reads s))
        (ls_clock s (ls_reads s + 1)%nat))); [done..|lia| |]; intros t; simpl; case_decide; try done.
      intros o [= <-]. simpl. rewrite Httl, Hcl. specialize (Hget t).
      destruct (spec_get _ _ _ _ _) as [r l']. by destruct Hget.
  - split; [done|]. eapply (local_step _ _ _ _ (CDelete token)); [done..|lia| |];
      intros t; simpl; case_decide as Ht; try done.
    + intros o [= <-]. simpl.
      destruct (spec_remove_fits P alive (string_of_bytes token) (token_list maphash (ls_cache s) t))
        as [Hf Hl]; [done|].
      split; [done|]. rewrite Hl, Hm. repeat case_decide; naive_solver.
    + intros _. rewrite decide_False; [done|]. by intros ->.
Qed.

Lemma token_list_New t : token_list maphash (New ttl maxSize seed) t = [].
Proof.
  unfold token_list. cbn [New c_shards]. destruct (replicate _ _ !! _) eqn:E; [|done].
  by apply lookup_replicate in E as [-> _].
Qed.

Definition new_local : LocalStore :=
  {| ls_cache := New ttl maxSize seed; ls_clock := clock; ls_reads := 0 |}.

Lemma local_keeps_up_new n : (2 * n ≤ total)%nat → local_keeps_up n new_local (λ _, None).
Proof.
  intros Hn. split; simpl; try done.
  - apply New_wf.
  - intros t. rewrite token_list_New. split; [constructor|by intros ? ?%elem_of_nil..].
  - intros t. by rewrite token_list_New.
Qed.
End local.

(** ** The shared store *)

(** SET, GETEX and DEL as they are documented, while the server is up, no deadline
    passes, and no key expires or is evicted. *)
Class ValkeyServerUp (V : Type) `{ValkeyServer V} := {
  vk_holds : V → string → option string;
  up_set ctx key value px v :
    (Do_Error ctx (SET key value px) v).1 = None ∧
    ∀ k, vk_holds (Do_Error ctx (SET key value px) v).2 k =
         if decide (k = key) then Some value else vk_holds v k;
  up_getex ctx key px v :
    (Do_ToString ctx (GETEX key px) v).1 =
      match vk_holds v key with Some value => Ok value | None => Err ValkeyNil end ∧
    ∀ k, vk_holds (Do_ToString ctx (GETEX key px) v).2 k = vk_holds v k;
  up_del ctx key v :
    (Do_Error ctx (DEL key) v).1 = None ∧
    ∀ k, vk_holds (Do_Error ctx (DEL key) v).2 k =
         if decide (k = key) then None else vk_holds v k;
}.

Section shared.
Context {V : Type} `{HV : ValkeyServerUp V} (tokens : list bytes).

(** No two of the tokens in use have the same SHA-256 digest. *)
Definition distinct_keys : Prop :=
  ∀ t t', t ∈ tokens → t' ∈ tokens → same_key t t' → t = t'.

Definition valkey_keeps_up (_ : nat) (c : ValkeyConn V) (m : records) : Prop :=
  ∀ t, t ∈ tokens →
    match m t with
    | Some e => ∃ value, vk_holds (vc_server c) (tokenKey t) = Some value ∧
                         decodeValkeyEntry value = Ok e
    | None => vk_holds (vc_server c) (tokenKey t) = None
    end.

(** Writing under the key of a token is writing to the map at that token. *)
Lemma keeps_up_update n (c : ValkeyConn V) v m token (x : option Entry) w :
  distinct_keys → token ∈ tokens → valkey_keeps_up n c m →
  (∀ k, vk_holds v k = if decide (k = tokenKey token) then w else vk_holds (vc_server c) k) →
  match x with
  | Some e => ∃ value, w = Some value ∧ decodeValkeyEntry value = Ok e
  | None => w = None
  end →
  valkey_keeps_up n (with_server c v) (λ t, if decide (t = token) then x else m t).
Proof.
  intros Hkeys Htok Hc Hv Hx t Ht. simpl. rewrite Hv. case_decide as Heq; subst.
  - by rewrite decide_True.
  - rewrite decide_False; [by apply Hc|]. intros Hk. by destruct Heq; apply Hkeys.
Qed.

Lemma valkey_answer n op (c : ValkeyConn V) m :
  distinct_keys → op_token op ∈ tokens → op_utf8 op →
  valkey_keeps_up (Datatypes.S n) c m →
  (answer op c).1 = (expected_step op m).1 ∧
  valkey_keeps_up n (answer op c).2 (expected_step op m).2.
Proof.
  intros Hkeys Htok Hutf Hc. destruct op as [token entry|token|token]; simpl in *.
  - unfold Valkey_Put, client_Put. rewrite encodeValkeyEntry_Ok. remember (encode _) as b eqn:Hb.
    match goal with |- context [Do_Error ?ctx (SET ?k ?w ?px) ?v] =>
      destruct (up_set ctx k w px v) as [Herr Hv] end. destruct (Do_Error _ _ _) as [r v]. simpl in *. subst r.
    split; [done|]. eapply keeps_up_update; [done..|exact Hv|]. eexists. split; [done|].
    rewrite <- (stored_entry_utf8 entry Hutf), Hb. apply decode_encode, encodeValkeyEntry_Ok.
  - unfold Valkey_Get, client_Get. 
    match goal with |- context [Do_ToString ?ctx (GETEX ?k ?px) ?v] =>
      destruct (up_getex ctx k px v) as [Hr Hv] end.
    destruct (Do_ToString _ _ _) as [r v]. simpl in *. specialize (Hc token Htok) as Ht. split.
    + subst r. destruct (m token) as [e|]; [destruct Ht as (value & -> & ->)|rewrite Ht]; done.
    + intros t Hin. simpl. rewrite Hv. by apply Hc.
  - unfold Valkey_Delete, client_Delete.
    match goal with |- context [Do_Error ?ctx (DEL ?k) ?v] =>
      destruct (up_del ctx k v) as [Herr Hv] end.
    destruct (Do_Error _ _ _) as [r v]. simpl in *. subst r.
    split; [done|]. eapply keeps_up_update; [done..|exact Hv|done].
Qed.
End shared.

(** ** Equivalence *)

(** C22. Which backend is configured makes no difference to the workers: for any
    sequence of calls, the local cache and the Valkey store give the same answers,
    those of a plain map from tokens to entries - as long as the run is shorter
    than the TTL, the tokens put fit into one shard, and the Valkey server is up,
    with tokens of distinct digests and entries that are valid UTF-8. *)
Theorem backends_agree {V} `{ValkeyServerUp V} maphash ttl maxSize seed clock (c : ValkeyConn V) ops :
  (∀ i j, (i < 2 * length ops)%nat → (j < 2 * length ops)%nat → clock i ≤ clock j + ttl) →
  Z.of_nat (size (put_keys ops)) ≤ perShard maxSize →
  (∀ key, vk_holds (vc_server c) key = None) →
  distinct_keys (op_token <$> ops) → Forall op_utf8 ops →
  let _ := LocalStore_Store maphash in
  answers ops (new_local ttl maxSize seed clock) = expected ops (λ _, None) ∧
  answers ops c = answers ops (new_local ttl maxSize seed clock).
Proof.
  intros Hclock HP Hempty Hkeys Hutf inst.
  assert (Hlocal : answers ops (new_local ttl maxSize seed clock) = expected ops (λ _, None)).
  { eapply (answers_simulated (local_keeps_up maphash ttl maxSize clock (2 * length ops) (put_keys ops))
      (λ op, ∀ token entry, op = SPut token entry → string_of_bytes token ∈ put_keys ops)).
    - intros n op s m. by apply local_answer.
    - apply Forall_forall. intros op Hin token entry ->. unfold put_keys.
      apply elem_of_list_to_set, list_elem_of_omap. eexists. by split.
    - by apply local_keeps_up_new. }
  split; [done|]. rewrite Hlocal.
  apply (answers_simulated (valkey_keeps_up (op_token <$> ops))
    (λ op, op_token op ∈ op_token <$> ops ∧ op_utf8 op)).
  - intros n op s m [Hin Hop]. by apply valkey_answer.
  - apply Forall_forall. intros op Hin. split; [by apply list_elem_of_fmap_2|].
    by eapply Forall_forall in Hutf.
  - intros t _. apply Hempty.
Qed.

(** ** A run of both *)

#[local] Existing Instance w_valkey.

#[local] Instance w_up : ValkeyServerUp w_server.
Proof.
  refine {| vk_holds (v : w_server) key := v !! key |}.
  - intros ctx key value px v. split; [done|]. intros k. simpl.
    case_decide; subst; [apply lookup_insert_eq|by apply lookup_insert_ne].
  - by intros ctx key px v.
  - intros ctx key v. split; [done|]. intros k. simpl.
    case_decide; subst; [apply lookup_delete_eq|by apply lookup_delete_ne].
Defined.

(** A worker's token is put, used and consumed. *)
Definition w_ops : list store_op :=
  [SPut Valkey.w_token Valkey.w_entry; SGet Valkey.w_token; SDelete Valkey.w_token; SGet Valkey.w_token].

Definition w_conn : ValkeyConn w_server :=
  {| vc_store := w_valkey_store; vc_ctx := None; vc_server := ∅ |}.

Lemma backends_agree_witness :
  let _ := LocalStore_Store w_hash in
  answers w_ops (new_local w_hour 64 7 Z.of_nat) =
    [Replied None; Found (Ok (Some Valkey.w_entry)); Replied None; Found (Ok None)] ∧
  answers w_ops w_conn = answers w_ops (new_local w_hour 64 7 Z.of_nat).
Proof.
  apply (backends_agree w_hash w_hour 64 7 Z.of_nat w_conn w_ops).
  - intros i j Hi Hj. simpl in Hi. unfold w_hour, second. lia.
  - apply (bool_decide_unpack _). vm_compute. exact I.
  - intros key. apply (lookup_empty (M := gmap string)).
  - intros t t' Ht Ht' _. simpl in Ht, Ht'.
    repeat (apply elem_of_cons in Ht as [->|Ht]; [|]); try by apply elem_of_nil in Ht.
    all: repeat (apply elem_of_cons in Ht' as [->|Ht']; [reflexivity|]); by apply elem_of_nil in Ht'.
  - repeat constructor; apply (bool_decide_unpack _); vm_compute; exact I.
Defined.
