(* ===== verification/ValkeyTtl.v ===== *)
(** * The sliding TTL of the shared store

    [client_Put] sets a key with a time to live and [client_Get] renews it with
    every lookup (GETEX). Against the server's own clock, a token put or found by
    one proxy is found by all of them until the TTL has run out, and no longer. *)

From S2P Require Import Prelude Utf8 Json Store Sha256 Grpc Valkey.
Local Open Scope string_scope.
Local Open Scope list_scope.
Local Open Scope Z_scope.

(** ** A server with a clock *)

Definition command_key (cmd : command) : option string :=
  match cmd with SET key _ _ | GETEX key _ | DEL key => Some key | PING => None end.

(** The state after a command, however its reply is read. *)
Definition after_error {V} `{ValkeyServer V} ctx cmd (v : V) : V := (Do_Error ctx cmd v).2.
Definition after_string {V} `{ValkeyServer V} ctx cmd (v : V) : V := (Do_ToString ctx cmd v).2.

(** [vk_entry]: the value of a key and the time it expires at, while it has not.
    Time passes from command to command. Keys expire, but the server evicts none
    ("noeviction"); a command leaves other keys alone, failed or not. *)
Class ValkeyServerTimed (V : Type) `{ValkeyServer V} := {
  vk_time : V → Z;
  vk_entry : V → string → option (string * Z);
  timed_error_mono ctx cmd v : vk_time v ≤ vk_time (after_error ctx cmd v);
  timed_string_mono ctx cmd v : vk_time v ≤ vk_time (after_string ctx cmd v);
  timed_error_other ctx cmd v key p :
    command_key cmd ≠ Some key →
    vk_entry (after_error ctx cmd v) key = Some p ↔
    vk_entry v key = Some p ∧ vk_time (after_error ctx cmd v) ≤ p.2;
  timed_string_other ctx cmd v key p :
    command_key cmd ≠ Some key →
    vk_entry (after_string ctx cmd v) key = Some p ↔
    vk_entry v key = Some p ∧ vk_time (after_string ctx cmd v) ≤ p.2;
  timed_set ctx key value px v v' :
    0 < px → Do_Error ctx (SET key value px) v = (None, v') →
    vk_entry v' key = Some (value, vk_time v' + px * millisecond);
  timed_getex_hit ctx key px v value v' :
    0 < px → Do_ToString ctx (GETEX key px) v = (Ok value, v') →
    (∃ expiry, vk_entry v key = Some (value, expiry) ∧ vk_time v' ≤ expiry) ∧
    vk_entry v' key = Some (value, vk_time v' + px * millisecond);
  timed_getex_miss ctx key px v v' p :
    Do_ToString ctx (GETEX key px) v = (Err ValkeyNil, v') →
    vk_entry v key = Some p → p.2 < vk_time v';
}.

Definition op_on (op : valkey_op) : bytes :=
  match op with VPut token _ | VGet token | VDelete token => token end.

(** Calls of any proxy for other tokens. *)
Definition beside (token : bytes) (calls : list valkey_call) : Prop :=
  Forall (λ c, ¬ same_key (op_on (call_op c)) token) calls.

Section timed.
Context {V : Type} `{HV : ValkeyServerTimed V}.

(** [token] was put, or found, by the proxy with store [s]: [v'] is the server
    afterwards. *)
Inductive recorded (s : ValkeyStore) (token : bytes) (e : Entry) : V → Prop :=
| recorded_put ctx entry v v' :
    Valkey_Put s ctx token entry v = (None, v') → e = stored_entry entry → recorded s token e v'
| recorded_get ctx v v' :
    Valkey_Get s ctx token v = (Ok (Some e), v') → recorded s token e v'.

Lemma ttlMilliseconds_pos ttl : 0 < ttlMilliseconds ttl.
Proof. unfold ttlMilliseconds. case_decide; lia. Qed.

(** What an answered lookup shows about the server before and after. *)
Lemma Valkey_Get_timed s ctx token v r v' :
  Valkey_Get s ctx token v = (Ok r, v') →
  match r with
  | Some e => ∃ value expiry,
      vk_entry v (tokenKey token) = Some (value, expiry) ∧ vk_time v' ≤ expiry ∧
      decodeValkeyEntry value = Ok e ∧
      vk_entry v' (tokenKey token) =
        Some (value, vk_time v' + ttlMilliseconds (vs_ttl s) * millisecond)
  | None => ∀ p, vk_entry v (tokenKey token) = Some p → p.2 < vk_time v'
  end ∧ vk_time v ≤ vk_time v'.
Proof.
  unfold Valkey_Get, client_Get.
  match goal with |- context [Do_ToString ?c ?cmd v] =>
    pose proof (timed_string_mono c cmd v) as Hmono; unfold after_string in Hmono end.
  destruct (Do_ToString _ _ _) as [r' w] eqn:Hdo. simpl in Hmono.
  destruct r' as [value|[|err]]; simpl; [|intros [= <- <-]|done].
  - destruct (decodeValkeyEntry value) as [e|] eqn:Hd; [|done]. intros [= <- <-].
    split; [|done]. apply timed_getex_hit in Hdo as [(expiry & Hv & Hle) Hv']; [|apply ttlMilliseconds_pos].
    by exists value, expiry.
  - split; [|done]. intros p. by eapply timed_getex_miss.
Qed.

(** The key of a recorded token, and when it expires. *)
Lemma recorded_entry s token e v :
  recorded s token e v →
  ∃ value, decodeValkeyEntry value = Ok e ∧
    vk_entry v (tokenKey token) =
      Some (value, vk_time v + ttlMilliseconds (vs_ttl s) * millisecond).
Proof.
  intros [ctx entry v0 v' Hput ->|ctx v0 v' Hget].
  - unfold Valkey_Put, client_Put in Hput. rewrite encodeValkeyEntry_Ok in Hput.
    remember (string_of_bytes _) as value eqn:Hvalue.
    destruct (Do_Error _ _ _) as [[err|] w] eqn:Hdo; [done|]. injection Hput as <-.
    exists value. split; [|eapply timed_set, Hdo; apply ttlMilliseconds_pos].
    subst value. apply decode_encode, encodeValkeyEntry_Ok.
  - apply Valkey_Get_timed in Hget as [(value & expiry & _ & _ & Hd & Hv) _]. by exists value.
Qed.

Lemma other_key_ne t token : ¬ same_key t token → Some (tokenKey t) ≠ Some (tokenKey token).
Proof. unfold same_key. congruence. Qed.

(** The goal is about a token, and the state after a command on another's key. *)
#[local] Ltac other_key :=
  match goal with Hne : ¬ same_key _ ?token |- context [vk_entry _ (tokenKey ?token) = Some ?p] =>
    match goal with
    | |- context [Do_Error ?ctx ?cmd ?v] =>
        pose proof (timed_error_mono ctx cmd v) as Hmono;
        pose proof (timed_error_other ctx cmd v (tokenKey token) p) as Hother;
        unfold after_error in *; destruct (Do_Error ctx cmd v) as [r w];
        split; [exact (Hother (other_key_ne _ _ Hne))|exact Hmono]
    | |- context [Do_ToString ?ctx ?cmd ?v] =>
        pose proof (timed_string_mono ctx cmd v) as Hmono;
        pose proof (timed_string_other ctx cmd v (tokenKey token) p) as Hother;
        unfold after_string in *; destruct (Do_ToString ctx cmd v) as [r w];
        split; [exact (Hother (other_key_ne _ _ Hne))|exact Hmono]
    end
  end.

(** One call for another token. *)
Lemma valkey_step_other v c token p :
  ¬ same_key (op_on (call_op c)) token →
  (vk_entry (valkey_step v c) (tokenKey token) = Some p ↔
   vk_entry v (tokenKey token) = Some p ∧ vk_time (valkey_step v c) ≤ p.2) ∧
  vk_time v ≤ vk_time (valkey_step v c).
Proof.
  intros Hne. unfold valkey_step. destruct (call_op c) as [t entry|t|t]; simpl in Hne.
  - unfold Valkey_Put, client_Put. rewrite encodeValkeyEntry_Ok. other_key.
  - unfold Valkey_Get, client_Get. other_key.
  - unfold Valkey_Delete, client_Delete. other_key.
Qed.

(** Any number of them: the key stays, with its deadline, until that has passed. *)
Lemma valkey_run_other calls v token p :
  beside token calls → vk_entry v (tokenKey token) = Some p → vk_time v ≤ p.2 →
  (∀ p', vk_entry (valkey_run v calls) (tokenKey token) = Some p' → p' = p) ∧
  (vk_time (valkey_run v calls) ≤ p.2 →
   vk_entry (valkey_run v calls) (tokenKey token) = Some p) ∧
  vk_time v ≤ vk_time (valkey_run v calls).
Proof.
  intros Hcalls Hp Hle.
  cut ((∀ p', vk_entry (valkey_run v calls) (tokenKey token) = Some p' ↔
         p' = p ∧ vk_time (valkey_run v calls) ≤ p.2) ∧ vk_time v ≤ vk_time (valkey_run v calls)).
  { intros [Hrun Hmono]. split_and!; [intros p' Hp'; by apply Hrun in Hp' as []| |done].
    intros ?. by apply Hrun. }
  induction calls as [|c calls IH] using rev_ind.
  - simpl. split; [|lia]. intros p'. rewrite Hp. naive_solver.
  - apply Forall_app in Hcalls as [Hcalls Hc]. apply Forall_cons in Hc as [Hc _].
    destruct (IH Hcalls) as [IHp IHm]. unfold valkey_run in *. rewrite foldl_app. simpl.
    pose proof (λ p', valkey_step_other (foldl valkey_step v calls) c token p' Hc) as Hstep.
    split; [|destruct (Hstep p); lia]. intros p'. destruct (Hstep p') as [-> Hmono].
    rewrite IHp. split; [intros [[-> ?] ?]; done|]. intros [-> ?]. split; [split; [done|lia]|done].
Qed.

(** C23. The TTL slides, for the whole fleet: from the moment a proxy has put or
    found a token, whatever the proxies do with other tokens meanwhile, a lookup of
    any proxy that gets an answer finds the token with its entry until the TTL has
    run out on the server's clock, and from a millisecond after that on it does
    not. *)
Theorem valkey_ttl_slides s s' token e v calls ctx r v' :
  recorded s token e v → 0 < vs_ttl s → beside token calls →
  Valkey_Get s' ctx token (valkey_run v calls) = (Ok r, v') →
  (vk_time v' ≤ vk_time v + vs_ttl s → r = Some e) ∧
  (vk_time v + vs_ttl s + millisecond ≤ vk_time v' → r = None).
Proof.
  intros (value & Hd & Hv)%recorded_entry Httl Hcalls [Hr Hmono']%Valkey_Get_timed.
  pose proof (ttlMilliseconds_rounds _ Httl) as Hms.
  destruct (valkey_run_other calls v token _ Hcalls Hv) as (Hsame & Hstays & Hmono); [simpl; lia|].
  destruct r as [e'|].
  - destruct Hr as (value' & expiry & Hrun & Hle & Hd' & _).
    apply Hsame in Hrun as [= -> ->]. split; [intros _; congruence|lia].
  - split; [|done]. intros Hin. simpl in Hstays.
    assert (Hlive : vk_time (valkey_run v calls) ≤
      vk_time v + ttlMilliseconds (vs_ttl s) * millisecond) by lia.
    apply Hstays, Hr in Hlive. simpl in Hlive. lia.
Qed.
End timed.

(** ** A concrete server: every command takes a second *)

Record w_timed := { wt_clock : Z; wt_data : gmap string (string * Z) }.

Definition w_second : Z := 1000000000.

Definition w_tick (f : Z → gmap string (string * Z) → gmap string (string * Z)) (v : w_timed) : w_timed :=
  let now := wt_clock v + w_second in {| wt_clock := now; wt_data := f now (wt_data v) |}.

Definition w_live (v : w_timed) (key : string) : option (string * Z) :=
  wt_data v !! key ≫= λ p, if decide (wt_clock v ≤ p.2) then Some p else None.

Definition w_effect (cmd : command) (now : Z) (m : gmap string (string * Z)) : gmap string (string * Z) :=
  match cmd with
  | SET key value px => <[key := (value, now + px * millisecond)]> m
  | GETEX key px =>
      match m !! key with
      | Some p => if decide (now ≤ p.2) then <[key := (p.1, now + px * millisecond)]> m else m
      | None => m
      end
  | DEL key => delete key m
  | PING => m
  end.

#[local] Instance w_timed_server : ValkeyServer w_timed := {
  vk_now := wt_clock;
  vk_Close v := v;
  Do_Error _ cmd v := (None, w_tick (w_effect cmd) v);
  Do_ToString _ cmd v :=
    (match cmd with
     | GETEX key _ =>
         match w_live (w_tick (λ _, id) v) key with
         | Some p => Ok p.1
         | None => Err ValkeyNil
         end
     | _ => Ok "OK"
     end, w_tick (w_effect cmd) v);
}.

Lemma w_effect_other cmd now m key :
  command_key cmd ≠ Some key → w_effect cmd now m !! key = m !! key.
Proof.
  intros Hne. destruct cmd as [k value px|k px|k|]; simpl in *; [| | |done].
  - apply lookup_insert_ne. congruence.
  - destruct (m !! k); [|done]. case_decide; [|done]. apply lookup_insert_ne. congruence.
  - apply lookup_delete_ne. congruence.
Qed.

Lemma w_live_Some v key p : w_live v key = Some p ↔ wt_data v !! key = Some p ∧ wt_clock v ≤ p.2.
Proof.
  unfold w_live. rewrite bind_Some. split.
  - intros (q & Hq & Hdec). case_decide; naive_solver.
  - intros [Hp Hle]. exists p. by rewrite decide_True.
Qed.

Lemma w_other cmd v key p :
  command_key cmd ≠ Some key →
  w_live (w_tick (w_effect cmd) v) key = Some p ↔
  w_live v key = Some p ∧ wt_clock (w_tick (w_effect cmd) v) ≤ p.2.
Proof.
  intros Hne. rewrite !w_live_Some. unfold w_tick, w_second. simpl.
  rewrite w_effect_other by done. intuition lia.
Qed.

#[local] Instance w_timed_laws : ValkeyServerTimed w_timed.
Proof.
  refine {| vk_time := wt_clock; vk_entry := w_live |}; unfold after_error, after_string.
  - intros ctx cmd v. simpl. unfold w_second. lia.
  - intros ctx cmd v. simpl. unfold w_second. lia.
  - intros ctx cmd v key p. apply w_other.
  - intros ctx cmd v key p. apply w_other.
  - intros ctx key value px v v' Hpx [= <-]. apply w_live_Some. simpl.
    rewrite lookup_insert_eq. split; [done|]. unfold w_tick, millisecond. simpl. lia.
  - intros ctx key px v value v' Hpx. simpl. intros [= Hhit <-].
    destruct (w_live _ _) as [p|] eqn:Hp; [|done]. injection Hhit as <-.
    apply w_live_Some in Hp as [Hp Hle]. simpl in Hp, Hle. unfold w_second in Hle.
    split; [exists p.2; split; [rewrite <- surjective_pairing; apply w_live_Some; split; [done|lia]|done]|].
    apply w_live_Some. simpl. rewrite Hp, decide_True by done. rewrite lookup_insert_eq.
    split; [done|]. simpl. unfold millisecond. lia.
  - intros ctx key px v v' p. simpl. intros [= Hmiss <-] [Hp _]%w_live_Some.
    destruct (w_live _ _) as [q|] eqn:Hq; [done|]. simpl.
    destruct (Z.lt_ge_cases p.2 (wt_clock v + w_second)) as [?|Hle]; [done|].
    assert (Hlive : w_live (w_tick (λ _, id) v) key = Some p) by (apply w_live_Some; by split).
    congruence.
Defined.

(** One proxy puts a token, another worker's token is put, and a second proxy, with
    a TTL of its own, looks the first token up. *)
Definition w_store : ValkeyStore :=
  {| vs_client := {| gc_readTimeout := w_second; gc_writeTimeout := w_second |}; vs_ttl := 60 * w_second |}.
Definition w_put : w_timed :=
  (Valkey_Put w_store None w_token w_entry {| wt_clock := 0; wt_data := ∅ |}).2.
Definition w_beside : list valkey_call :=
  [{| call_store := w_valkey_store; call_ctx := None; call_op := VPut [Byte.x02] w_entry |}].
Definition w_lookup : result error (option Entry) * w_timed :=
  Valkey_Get w_valkey_store None w_token (valkey_run w_put w_beside).

Lemma w_recorded : recorded w_store w_token w_entry w_put.
Proof.
  apply (recorded_put _ _ _ None w_entry {| wt_clock := 0; wt_data := ∅ |}); vm_compute; reflexivity.
Qed.

Lemma valkey_ttl_slides_witness : w_lookup.1 = Ok (Some w_entry).
Proof.
  destruct w_lookup as [[r|err] v'] eqn:E.
  - pose proof (valkey_ttl_slides w_store w_valkey_store w_token w_entry w_put w_beside None r v'
      w_recorded eq_refl) as Hslides.
    simpl. f_equal. apply Hslides.
    + constructor; [|constructor]. apply (bool_decide_unpack _). vm_compute. exact I.
    + exact E.
    + assert (Hv : v' = w_lookup.2) by (rewrite E; reflexivity). rewrite Hv. apply Z.leb_le. vm_compute. reflexivity.
  - assert (Hok : is_ok w_lookup.1 = true) by (vm_compute; reflexivity). rewrite E in Hok. discriminate Hok.
Defined.
