(* ===== verification/System.v ===== *)
(** * The proxy under concurrency

    Calls run concurrently against one token store and one authenticator: any
    number of them, their effects interleaved in any way, while entries expire or
    are evicted at any time and the upstream answers as it likes. [sys_hist]
    records every effect, oldest first, with the call that performed it. The
    store and the authenticator are any that keep the promises of [StoreLaws] and
    [AuthenticatorLaws]. *)

From S2P Require Import Prelude Utf8 TemporalApi RpcPolicy Scope Actions Store Auth Grpc.
From S2P Require Import Interceptor Server CallTrace Upstream Shard TokenCache CallSpec.
Local Open Scope string_scope.
Local Open Scope list_scope.

(** ** Partial executions *)

(** [after p t p']: [p] performs the effects of [t] and is left with [p']. *)
Fixpoint after {R} (p : prog proxyE R) (t : list obs) (p' : prog proxyE R) {struct t} : Prop :=
  match t with
  | [] => p = p'
  | o :: t' =>
      match p with
      | Ret _ => False
      | Vis e k => ∃ x, o = observe e x ∧ after (k x) t' p'
      end
  end.

Lemma after_snoc {R} (p : prog proxyE R) t X (e : proxyE X) k x :
  after p t (Vis e k) → after p (t ++ [observe e x]) (k x).
Proof.
  revert p. induction t as [|o t IH]; intros p; simpl.
  - intros Heq. subst p. by exists x.
  - destruct p as [r|Y e' k']; [done|]. intros (y & -> & Hy). exists y. auto.
Qed.

Lemma after_exec {R} (p p' : prog proxyE R) t t' r :
  after p t p' → exec p' t' r → exec p (t ++ t') r.
Proof.
  revert p. induction t as [|o t IH]; intros p; simpl; [intros Heq; by subst p|].
  destruct p as [r'|Y e' k']; [done|]. intros (y & -> & Hy) Hexec. exists y, (t ++ t'). auto.
Qed.

(** An environment that gives typed answers, to complete an execution with. *)
Definition some_env : ∀ X, list obs → proxyE X → X :=
  λ X _ e,
    match e in proxyE X return X with
    | DoAuthenticate _ => Ok zero_identity
    | DoGet _ => Ok None
    | DoPut _ _ => None
    | DoDelete _ => None
    | DoUpstream _ rpc _ => (OtherResponse rpc, None)
    | DoLog _ => tt
    end.

Lemma some_env_typed {R} (p : prog proxyE R) h : typed_answers (play some_env h p).1.
Proof.
  revert h. induction p as [r|X e k IH]; intros h; simpl; [constructor|].
  specialize (IH (some_env X h e) (h ++ [observe e (some_env X h e)])).
  destruct (play _ _ _) as [t r]. constructor; [|done]. by destruct e.
Qed.

(** Every partial execution of a call is the beginning of one of its executions. *)
Lemma after_complete {R} (p p' : prog proxyE R) t :
  after p t p' → typed_answers t → ∃ t' r, exec p (t ++ t') r ∧ typed_answers (t ++ t').
Proof.
  intros Hafter Htyped. exists (play some_env [] p').1, (play some_env [] p').2.
  split; [eapply after_exec; [done|apply exec_play]|].
  apply Forall_app. split; [done|apply some_env_typed].
Qed.

(** ** What a call has done when it calls the upstream, or registers a token *)

Lemma app_cons_split {A} (l1 l2 a b : list A) u o :
  l1 ++ u :: l2 = a ++ o :: b → o ∉ l1 → o ≠ u → ∃ a', a = l1 ++ u :: a' ∧ l2 = a' ++ o :: b.
Proof.
  revert a. induction l1 as [|x l1 IH]; intros [|y a] Heq Hin Hne; simplify_eq/=.
  - by exists a.
  - set_solver.
  - destruct (IH a) as (a' & -> & ->); [done|set_solver|done|]. by exists a'.
Qed.

Lemma app_cons_unique {A} (l1 l2 a b : list A) o :
  l1 ++ o :: l2 = a ++ o :: b → o ∉ l1 → o ∉ l2 → a = l1.
Proof.
  revert a. induction l1 as [|x l1 IH]; intros [|y a] Heq Hin1 Hin2; simplify_eq/=; try done.
  - set_solver.
  - set_solver.
  - f_equal. eapply IH; [done|set_solver|done].
Qed.

Section call.
Context (s : Server) `{Hclient : !UpstreamClient (Upstream s)}.

Lemma serve_at_upstream ctx req a b r uctx rpc req' uresp err :
  let t := a ++ OUpstream uctx rpc req' uresp err :: b in
  typed_answers t → exec (serve s ctx req) t r →
  ∃ p key i cached scope,
    Allowed !! rpc = Some p ∧ extractAPIKey ctx = Some key ∧ Valid i = true ∧
    request_in_scope i req rpc (policy_Category p) cached scope ∧
    rpc = request_method req ∧ req' = req ∧ uctx = uc_context (WithIdentity ctx i) ∧
    a = OAuthenticate key (Ok i) :: lookup_of cached.
Proof.
  intros t Htyped Hexec.
  assert (Hin : OUpstream uctx rpc req' uresp err ∈ t) by (apply elem_of_app; right; constructor).
  apply (serve_cases s _ _ _ _ Htyped) in Hexec as
    [(_ & _ & _ & Hharm & _)|[(p & key & i & cached & scope & t2 & _ & Hp & Hkey & Hv & Hs & Ht & Hfw)|
      (_ & Hharm & _)]]; try (by apply harmless_no_call in Hin).
  apply forwarded_head in Hfw as (uresp' & err' & t' & -> & Hbook).
  exists p, key, i, cached, scope. rewrite Ht in Hin.
  assert (Hl : OUpstream uctx rpc req' uresp err ∉ OAuthenticate key (Ok i) :: lookup_of cached).
  { intros [Hin'|Hin']%elem_of_cons; [done|]. by apply lookup_of_no_call in Hin'. }
  apply elem_of_cons in Hin as [Hin|Hin]; [done|].
  apply elem_of_app in Hin as [Hin|Hin]; [by apply lookup_of_no_call in Hin|].
  apply elem_of_cons in Hin as [[= -> -> -> -> ->]|Hin]; [|by apply bookkeeping_no_call in Hin].
  split_and!; try done. unfold t in Ht. rewrite app_comm_cons in Ht. symmetry in Ht.
  eapply app_cons_unique; [exact Ht|exact Hl|]. by apply bookkeeping_no_call.
Qed.

Lemma elem_of_puts tok e r i scope tokens :
  OPut tok e r ∈ puts i scope tokens → tok ∈ tokens ∧ e = entry_for i scope.
Proof. by intros (tok' & [= -> -> ->] & ?)%list_elem_of_fmap. Qed.

Lemma forwarded_put uctx req rpc p i scope t r tok e pr :
  forwarded uctx req rpc p i scope t r → OPut tok e pr ∈ t →
  ∃ uresp t', t = OUpstream uctx (request_method req) req uresp None :: t' ∧
    tok ∈ CollectResponseTaskTokens uresp ∧ e = entry_for i scope.
Proof.
  assert (Hrev : ∀ d, OPut tok e pr ∉ revocation rpc p i req d).
  { intros d. unfold revocation. case_match; [|apply not_elem_of_nil].
    intros [?|Hin]%elem_of_cons; [done|]. destruct d; simpl in Hin; inv_member Hin. }
  intros Hfw Hin. destruct Hfw as [uresp err resp|uresp d Hs|uresp d Htok Hs|uresp d tokens token rest err Htok Hs].
  - inv_member Hin.
  - exists uresp. eexists. split; [done|].
    apply elem_of_cons in Hin as [Hin|Hin]; [done|].
    apply elem_of_app in Hin as [Hin|Hin]; [by apply Hrev in Hin|].
    apply elem_of_app in Hin as [Hin|Hin]; [by apply elem_of_puts in Hin|].
    by apply list_elem_of_fmap in Hin as (? & ? & _).
  - apply elem_of_cons in Hin as [Hin|Hin]; [done|].
    apply elem_of_app in Hin as [Hin|Hin]; [by apply Hrev in Hin|]. inv_member Hin.
  - exists uresp. eexists. split; [done|]. rewrite Htok.
    apply elem_of_cons in Hin as [Hin|Hin]; [done|].
    apply elem_of_app in Hin as [Hin|Hin]; [by apply Hrev in Hin|].
    apply elem_of_app in Hin as [Hin|Hin].
    { apply elem_of_puts in Hin as [? ->]. split; [|done]. apply elem_of_app. by left. }
    apply elem_of_cons in Hin as [[= -> -> _]|Hin]; [|inv_member Hin].
    split; [|done]. apply elem_of_app. right. constructor.
Qed.

Lemma serve_at_put ctx req a b r tok e pr :
  let t := a ++ OPut tok e pr :: b in
  typed_answers t → exec (serve s ctx req) t r →
  ∃ p key i cached scope uctx uresp,
    Allowed !! request_method req = Some p ∧
    OAuthenticate key (Ok i) ∈ a ∧ Valid i = true ∧
    request_in_scope i req (request_method req) (policy_Category p) cached scope ∧
    (∀ o, o ∈ lookup_of cached → o ∈ a) ∧
    OUpstream uctx (request_method req) req uresp None ∈ a ∧
    response_method uresp = request_method req ∧
    tok ∈ CollectResponseTaskTokens uresp ∧ e = entry_for i scope.
Proof.
  intros t Htyped Hexec.
  assert (Hin : OPut tok e pr ∈ t) by (apply elem_of_app; right; constructor).
  apply (serve_cases s _ _ _ _ Htyped) in Hexec as
    [(_ & _ & _ & Hharm & _)|[(p & key & i & cached & scope & t2 & _ & Hp & Hkey & Hv & Hs & Ht & Hfw)|
      (_ & Hharm & _)]]; try (by apply (proj1 (Forall_forall _ _) Hharm) in Hin).
  assert (Hl : OPut tok e pr ∉ OAuthenticate key (Ok i) :: lookup_of cached).
  { intros [Hin'|Hin']%elem_of_cons; [done|].
    destruct cached as [[]|]; simpl in Hin'; inv_member Hin'. }
  rewrite Ht in Hin. rewrite app_comm_cons in Hin. apply elem_of_app in Hin as [Hin|Hin]; [done|].
  destruct (forwarded_put _ _ _ _ _ _ _ _ _ _ _ Hfw Hin) as (uresp & t' & -> & Htok & ->).
  unfold t in Ht. rewrite app_comm_cons in Ht. symmetry in Ht.
  destruct (app_cons_split _ _ _ _ _ _ Ht Hl ltac:(discriminate)) as (a' & -> & _).
  exists p, key, i, cached, scope, (uc_context (WithIdentity ctx i)), uresp.
  split_and!; [exact Hp| |exact Hv|exact Hs| | | |exact Htok|reflexivity].
  - apply elem_of_cons. by left.
  - intros o Ho. apply elem_of_app. left. by apply elem_of_cons; right.
  - apply elem_of_app. right. constructor.
  - unfold t in Htyped. rewrite <- app_assoc in Htyped. apply Forall_app in Htyped as [_ Htyped].
    simpl in Htyped. by apply Forall_cons in Htyped as [[] _].
Qed.
End call.

(** ** The system *)

(** A call in progress: its context and request as received, the effects it has
    performed, and what is left of it. *)
Record thread := {
  th_ctx : Context;
  th_req : Request;
  th_done : list obs;
  th_prog : prog proxyE reply;
}.

(** What the upstream answers to a call, in whatever way it comes to it. *)
Definition upstream := Context → string → Request → Response * option rpc_error.

Definition typed_upstream (up : upstream) : Prop :=
  ∀ ctx rpc req, typed_answer (OUpstream ctx rpc req (up ctx rpc req).1 (up ctx rpc req).2).

Section system.
Context {S A : Type} `{HS : StoreLaws S} `{HA : AuthenticatorLaws A}.
Context (srv : Server) `{Hclient : !UpstreamClient (Upstream srv)}.

Record system := {
  sys_store : S;
  sys_auth : A;
  sys_threads : list thread;
  sys_hist : list (nat * obs);
}.

(** One effect, against the shared store and authenticator. *)
Definition answer {X} (e : proxyE X) (s : S) (a : A) (up : upstream) : X * S :=
  match e in proxyE X return X * S with
  | DoAuthenticate key => (Authenticate a key, s)
  | DoGet token => store_Get token s
  | DoPut token entry => store_Put token entry s
  | DoDelete token => store_Delete token s
  | DoUpstream ctx rpc req => (up ctx rpc req, s)
  | DoLog _ => (tt, s)
  end.

(** A call arrives. *)
Definition arrive (ctx : Context) (req : Request) (σ : system) : system :=
  {| sys_store := sys_store σ; sys_auth := sys_auth σ;
     sys_threads := sys_threads σ ++
       [{| th_ctx := ctx; th_req := req; th_done := []; th_prog := serve srv ctx req |}];
     sys_hist := sys_hist σ |}.

(** Call [i] performs its next effect, if it has one. *)
Definition run_effect (i : nat) (up : upstream) (σ : system) : system :=
  match sys_threads σ !! i with
  | None => σ
  | Some th =>
      match th_prog th with
      | Ret _ => σ
      | Vis e k =>
          let '(x, s') := answer e (sys_store σ) (sys_auth σ) up in
          {| sys_store := s'; sys_auth := sys_auth σ;
             sys_threads := <[i := {| th_ctx := th_ctx th; th_req := th_req th;
                                     th_done := th_done th ++ [observe e x];
                                     th_prog := k x |}]> (sys_threads σ);
             sys_hist := sys_hist σ ++ [(i, observe e x)] |}
      end
  end.

(** Time passes: entries may go away, the authenticator may change its mind about
    tokens, both keeping their promises. *)
Definition environment (s' : S) (a' : A) (σ : system) : system :=
  {| sys_store := s'; sys_auth := a'; sys_threads := sys_threads σ; sys_hist := sys_hist σ |}.

Inductive step : system → system → Prop :=
| step_arrive ctx req σ : step σ (arrive ctx req σ)
| step_effect i up σ : typed_upstream up → step σ (run_effect i up σ)
| step_environment s' a' σ :
    store_inv s' → view_le s' (sys_store σ) → auth_inv a' → step σ (environment s' a' σ).

(** A fresh process: an empty store, no call yet. *)
Record initial (σ : system) : Prop := {
  in_store : store_inv (sys_store σ);
  in_view tok : store_view (sys_store σ) tok = None;
  in_auth : auth_inv (sys_auth σ);
  in_threads : sys_threads σ = [];
  in_hist : sys_hist σ = [];
}.

Definition reachable (σ : system) : Prop := ∃ σ0, initial σ0 ∧ rtc step σ0 σ.

(** ** Where a token comes from *)

(** [issued h token ns tq]: in the history [h], the Temporal server handed out
    [token] to a poll of namespace [ns] and task queue [tq], or in the response to
    a call made with a token issued so. Tokens are taken up to what the store can
    tell apart. *)
Inductive issued (h : list (nat * obs)) : bytes → string → string → Prop :=
| issued_poll i uctx rpc req resp tq token :
    (i, OUpstream uctx rpc req resp None) ∈ h →
    RequestTaskQueue req = (tq, true) →
    token ∈ CollectResponseTaskTokens resp →
    issued h token (RequestNamespace req).1 (pollTaskQueueScope tq)
| issued_chain i uctx rpc req resp token0 token ns tq :
    (i, OUpstream uctx rpc req resp None) ∈ h →
    RequestTaskToken req = (token0, true) →
    issued h token0 ns tq →
    token ∈ CollectResponseTaskTokens resp →
    issued h token ns tq
| issued_alias token token' ns tq :
    store_alias token' token → issued h token ns tq → issued h token' ns tq.

#[global] Instance issued_proper h : Proper (store_alias ==> (=) ==> (=) ==> iff) (issued h).
Proof.
  intros t t' Ht ns ? <- tq ? <-.
  split; intros Hi; (eapply issued_alias; [|exact Hi]); [by symmetry|done].
Qed.

Lemma issued_mono h h' token ns tq : issued h token ns tq → issued (h ++ h') token ns tq.
Proof.
  induction 1 as [i uctx rpc req resp tq token Hin|i uctx rpc req resp token0 token ns tq Hin Htok _ IH|
                  token token' ns tq Halias _ IH].
  - eapply issued_poll; [|done..]. apply elem_of_app. by left.
  - eapply issued_chain; [|done..]. apply elem_of_app. by left.
  - by eapply issued_alias.
Qed.

(** What must have happened before call [tid] calls the upstream. *)
Definition authorized (h : list (nat * obs)) (tid : nat) (uctx : Context) (rpc : string)
    (req : Request) : Prop :=
  ∃ p key i,
    Allowed !! rpc = Some p ∧ rpc = request_method req ∧
    extractAPIKey uctx = Some key ∧ (tid, OAuthenticate key (Ok i)) ∈ h ∧
    Valid i = true ∧ auth_identity key i ∧ ctx_identity uctx = Some i ∧
    match policy_Category p with
    | CategoryToken =>
        ∃ token tq, RequestTaskToken req = (token, true) ∧
          (RequestNamespace req).1 = Namespace i ∧
          (tid, OGet token (Ok (Some {| entry_Namespace := Namespace i; entry_TaskQueue := tq |}))) ∈ h ∧
          issued h token (Namespace i) tq ∧ tq ∈ TaskQueues i ∧
          Forall (command_in_scope (Namespace i) tq) (default [] (completed_commands req))
    | c => ∃ scope, request_in_scope i req rpc c None scope
    end.

(** [handed_out h tid token]: the Temporal server answered call [tid] with [token]. *)
Definition handed_out (h : list (nat * obs)) (tid : nat) (token : bytes) : Prop :=
  ∃ uctx rpc req resp,
    (tid, OUpstream uctx rpc req resp None) ∈ h ∧ token ∈ CollectResponseTaskTokens resp.

(** What the history so far must justify about its next event. *)
Definition justified (h : list (nat * obs)) (tid : nat) (o : obs) : Prop :=
  match o with
  | OAuthenticate key (Ok i) => Valid i = true → auth_identity key i
  | OGet token (Ok (Some e)) => issued h token (entry_Namespace e) (entry_TaskQueue e)
  | OPut token e _ =>
      issued h token (entry_Namespace e) (entry_TaskQueue e) ∧ handed_out h tid token
  | OUpstream uctx rpc req _ _ => authorized h tid uctx rpc req
  | _ => True
  end.

(** The effects of one call in the history. *)
Definition effects_of (tid : nat) (h : list (nat * obs)) : list obs :=
  omap (λ x, if decide (x.1 = tid) then Some x.2 else None) h.

Lemma elem_of_effects_of tid o h : o ∈ effects_of tid h ↔ (tid, o) ∈ h.
Proof.
  unfold effects_of. rewrite list_elem_of_omap. split.
  - intros ([j o'] & Hin & Heq). simpl in Heq. case_decide; [|done]. naive_solver.
  - intros Hin. exists (tid, o). split; [done|]. simpl. by rewrite decide_True.
Qed.

Lemma effects_of_snoc tid j o h :
  effects_of tid (h ++ [(j, o)]) = effects_of tid h ++ (if decide (j = tid) then [o] else []).
Proof. unfold effects_of. rewrite omap_app. simpl. by case_decide. Qed.

(** ** The invariant *)

Record sys_inv (σ : system) : Prop := {
  si_store : store_inv (sys_store σ);
  si_auth : auth_inv (sys_auth σ);
  si_threads i th : sys_threads σ !! i = Some th →
    after (serve srv (th_ctx th) (th_req th)) (th_done th) (th_prog th) ∧
    typed_answers (th_done th) ∧ th_done th = effects_of i (sys_hist σ);
  si_fresh i o : (i, o) ∈ sys_hist σ → (i < length (sys_threads σ))%nat;
  si_view token e : store_view (sys_store σ) token = Some e →
    issued (sys_hist σ) token (entry_Namespace e) (entry_TaskQueue e);
  si_hist pre tid o post : sys_hist σ = pre ++ (tid, o) :: post → justified pre tid o;
}.

Lemma initial_inv σ : initial σ → sys_inv σ.
Proof.
  intros [Hs Hv Ha Ht Hh]. split; rewrite ?Ht, ?Hh; try done.
  - intros i o Hin. by apply elem_of_nil in Hin.
  - intros token e. by rewrite Hv.
  - by intros [|? ?] ? ? ?.
Qed.

Lemma arrive_inv ctx req σ : sys_inv σ → sys_inv (arrive ctx req σ).
Proof.
  intros [Hs Ha Ht Hf Hv Hh]. split; try done; simpl.
  - intros i th [Hi|[Hlen Hi]]%lookup_app_Some; [by apply Ht|].
    apply list_lookup_singleton_Some in Hi as [Hi0 <-]. simpl. split_and!; [done|constructor|].
    symmetry. apply elem_of_nil_inv. intros o Ho%elem_of_effects_of%Hf. lia.
  - intros i o Hin%Hf. rewrite length_app. simpl. lia.
Qed.

Lemma environment_inv s' a' σ :
  store_inv s' → view_le s' (sys_store σ) → auth_inv a' → sys_inv σ →
  sys_inv (environment s' a' σ).
Proof.
  intros Hs' Hle Ha' [Hs Ha Ht Hf Hv Hh]. split; try done; simpl.
  intros token e He. apply Hv, Hle, He.
Qed.

(** ** Effects keep the invariant *)

Lemma recorded_get σ tid token e :
  sys_inv σ → (tid, OGet token (Ok (Some e))) ∈ sys_hist σ →
  issued (sys_hist σ) token (entry_Namespace e) (entry_TaskQueue e).
Proof.
  intros Hinv (pre & post & Heq)%list_elem_of_split.
  pose proof (si_hist _ Hinv _ _ _ _ Heq) as Hj. simpl in Hj. rewrite Heq. by apply issued_mono.
Qed.

Lemma recorded_authenticate σ tid key i :
  sys_inv σ → (tid, OAuthenticate key (Ok i)) ∈ sys_hist σ → Valid i = true → auth_identity key i.
Proof.
  intros Hinv (pre & post & Heq)%list_elem_of_split. apply (si_hist _ Hinv _ _ _ _ Heq).
Qed.

(** The call about to perform [o] has an execution in which it does. *)
Lemma next_effect σ tid th X (e : proxyE X) k x :
  sys_inv σ → sys_threads σ !! tid = Some th → th_prog th = Vis e k →
  typed_answer (observe e x) →
  ∃ b r, let t := th_done th ++ observe e x :: b in
    typed_answers t ∧ exec (serve srv (th_ctx th) (th_req th)) t r.
Proof.
  intros Hinv Hth Hprog Htyped. destruct (si_threads _ Hinv _ _ Hth) as (Hafter & Hdone & _).
  rewrite Hprog in Hafter. apply (after_snoc _ _ _ _ _ x) in Hafter.
  destruct (after_complete _ _ _ Hafter) as (b & r & Hexec & Ht).
  { apply Forall_app. split; [done|by apply Forall_singleton]. }
  exists b, r. rewrite <- app_assoc in Hexec, Ht. split; [exact Ht|exact Hexec].
Qed.

Lemma done_in_hist σ tid th o :
  sys_inv σ → sys_threads σ !! tid = Some th → o ∈ th_done th → (tid, o) ∈ sys_hist σ.
Proof.
  intros Hinv Hth Ho. destruct (si_threads _ Hinv _ _ Hth) as (_ & _ & Hdone).
  rewrite Hdone in Ho. by apply elem_of_effects_of.
Qed.

(** A request for another method than [RespondWorkflowTaskCompleted] has no
    commands, and every token request has a namespace. *)
Lemma token_request_fields req token :
  RequestTaskToken req = (token, true) →
  (RequestNamespace req).2 = true ∧
  (completed_commands req = None ∨ request_method req = "RespondWorkflowTaskCompleted").
Proof. destruct req; simpl; naive_solver. Qed.

Lemma upstream_justified σ tid th uctx rpc req k x :
  sys_inv σ → sys_threads σ !! tid = Some th → th_prog th = Vis (DoUpstream uctx rpc req) k →
  typed_answer (OUpstream uctx rpc req x.1 x.2) → authorized (sys_hist σ) tid uctx rpc req.
Proof.
  intros Hinv Hth Hprog Htyped.
  destruct (next_effect σ tid th _ _ _ x Hinv Hth Hprog Htyped) as (b & r & Ht & Hexec).
  destruct (serve_at_upstream srv _ _ _ _ _ _ _ _ _ _ Ht Hexec) as
    (p & key & i & cached & scope & Hp & Hkey & Hv & Hscope & Hrpc & -> & -> & Hdone).
  assert (Hin : ∀ o, o ∈ th_done th → (tid, o) ∈ sys_hist σ) by (intros o; by eapply done_in_hist).
  rewrite Hdone in Hin.
  assert (Hauth : (tid, OAuthenticate key (Ok i)) ∈ sys_hist σ) by (apply Hin; constructor).
  exists p, key, i.
  split_and!; [exact Hp|exact Hrpc|exact Hkey|exact Hauth|exact Hv| |reflexivity|].
  { eapply recorded_authenticate; [exact Hinv|exact Hauth|exact Hv]. }
  destruct (policy_Category p) eqn:Hc; try (pose proof Hscope as [-> _]; by exists scope).
  destruct Hscope as (token & entry & -> & Hns & Htok & _ & Hens & -> & Htq & Hcmd).
  destruct (token_request_fields _ _ Htok) as [Hns2 Hcomm].
  assert (Hget : (tid, OGet token (Ok (Some entry))) ∈ sys_hist σ)
    by (apply Hin; apply elem_of_cons; right; constructor).
  exists token, (entry_TaskQueue entry). split_and!; [done|by apply Hns| | |done|].
  - rewrite <- Hens. by destruct entry.
  - rewrite <- Hens. by eapply recorded_get.
  - destruct Hcomm as [->|Hm]; [constructor|]. apply Hcmd. by rewrite Hrpc.
Qed.

Lemma put_justified σ tid th token e k :
  sys_inv σ → sys_threads σ !! tid = Some th → th_prog th = Vis (DoPut token e) k →
  issued (sys_hist σ) token (entry_Namespace e) (entry_TaskQueue e) ∧
  handed_out (sys_hist σ) tid token ∧ entry_utf8 e.
Proof.
  intros Hinv Hth Hprog.
  destruct (next_effect σ tid th _ _ _ None Hinv Hth Hprog I) as (b & r & Ht & Hexec).
  destruct (serve_at_put srv _ _ _ _ _ _ _ _ Ht Hexec) as
    (p & key & i & cached & scope & uctx & uresp & Hp & Hauth & Hv & Hscope & Hlook & Hup & Hresp & Htok & ->).
  assert (Hin : ∀ o, o ∈ th_done th → (tid, o) ∈ sys_hist σ) by (intros o; by eapply done_in_hist).
  assert (Hm : CollectResponseTaskTokens uresp ≠ []) by (by intros Heq; rewrite Heq in Htok; inv_member Htok).
  assert (Hwf : identity_wf i)
    by (eapply auth_identity_wf, recorded_authenticate; [exact Hinv|by apply Hin|exact Hv]).
  split; [|split; [by eexists _, _, _, _; split; [apply Hin, Hup|]
    |split; [apply Hwf|apply Hwf; by eapply scope_allowed]]].
  apply token_methods in Hm. rewrite Hresp in Hm.
  destruct (token_method_category _ _ Hp Hm) as [Hc|Hc]; rewrite Hc in Hscope.
  - destruct Hscope as (_ & Hns & tq & Htq & _ & -> & _). simpl. rewrite <- Hns.
    eapply issued_poll; [by apply Hin|done|done].
  - destruct Hscope as (token0 & entry & -> & _ & Htok0 & _ & Hens & -> & _). simpl. rewrite <- Hens.
    eapply issued_chain; [by apply Hin|exact Htok0| |done].
    eapply recorded_get; [done|]. apply Hin, Hlook. constructor.
Qed.

Lemma effect_justified σ tid th X (e : proxyE X) k up x s' :
  sys_inv σ → typed_upstream up → sys_threads σ !! tid = Some th → th_prog th = Vis e k →
  answer e (sys_store σ) (sys_auth σ) up = (x, s') → justified (sys_hist σ) tid (observe e x).
Proof.
  intros Hinv Hup Hth Hprog Hans.
  destruct e as [key|token|token e|token|uctx rpc req|line]; simpl in *.
  - injection Hans as <- _. destruct (Authenticate _ key) as [i|] eqn:E; [|done].
    eapply auth_valid; [apply (si_auth _ Hinv)|exact E].
  - destruct x as [[e|]|]; [|done..]. apply (si_view _ Hinv).
    eapply store_Get_found; [apply (si_store _ Hinv)|exact Hans].
  - by destruct (put_justified σ tid th token e k Hinv Hth Hprog) as (? & ? & _).
  - done.
  - injection Hans as <- _. eapply upstream_justified; [done..|apply Hup].
  - done.
Qed.

Lemma effect_store σ tid th X (e : proxyE X) k up x s' :
  sys_inv σ → sys_threads σ !! tid = Some th → th_prog th = Vis e k →
  answer e (sys_store σ) (sys_auth σ) up = (x, s') →
  store_inv s' ∧ ∀ token en, store_view s' token = Some en →
    issued (sys_hist σ) token (entry_Namespace en) (entry_TaskQueue en).
Proof.
  intros Hinv Hth Hprog Hans. pose proof (si_store _ Hinv) as Hs. pose proof (si_view _ Hinv) as Hv.
  destruct e as [key|token|token e|token|uctx rpc req|line]; simpl in *; simplify_eq; try done.
  - split; [by eapply store_Get_inv|]. intros t en Hen. by eapply Hv, store_Get_view.
  - split; [by eapply store_Put_inv|]. intros t en Hen.
    destruct (put_justified σ tid th token e k Hinv Hth Hprog) as (Hiss & _ & Hutf8).
    destruct (store_Put_view _ _ _ _ _ _ _ Hs Hans Hen) as [[Halias Heq]|Hv']; [|by apply Hv].
    rewrite (Heq Hutf8). by eapply issued_alias.
  - split; [by eapply store_Delete_inv|]. intros t en Hen. by eapply Hv, store_Delete_view.
Qed.

Lemma snoc_split {B} (h : list B) y pre x post :
  h ++ [y] = pre ++ x :: post → (h = pre ∧ y = x ∧ post = []) ∨ ∃ post', h = pre ++ x :: post'.
Proof.
  destruct post as [|z post _] using rev_ind.
  - intros [-> [= ->]]%app_inj_2; [by left|done].
  - rewrite app_comm_cons, app_assoc. intros [-> _]%app_inj_2; [|done]. right. by exists post.
Qed.

Lemma run_effect_inv i up σ : typed_upstream up → sys_inv σ → sys_inv (run_effect i up σ).
Proof.
  intros Hup Hinv. unfold run_effect. destruct (sys_threads σ !! i) as [th|] eqn:Hth; [|done].
  destruct (th_prog th) as [r|X e k] eqn:Hprog; [done|].
  destruct (answer e _ _ up) as [x s'] eqn:Hans.
  pose proof (effect_justified _ _ _ _ _ _ _ _ _ Hinv Hup Hth Hprog Hans) as Hj.
  destruct (effect_store _ _ _ _ _ _ _ _ _ Hinv Hth Hprog Hans) as [Hs' Hv'].
  split; simpl; [done|apply Hinv| | | |].
  - intros j thj. destruct (decide (i = j)) as [<-|Hij].
    + rewrite list_lookup_insert_eq by (by eapply lookup_lt_Some). intros [= <-]. simpl.
      destruct (si_threads _ Hinv _ _ Hth) as (Hafter & Htyped & Hdone).
      rewrite Hprog in Hafter. split_and!.
      * by apply after_snoc.
      * apply Forall_app. split; [done|]. apply Forall_singleton.
        destruct e; simpl in *; try done. injection Hans as <- _. apply Hup.
      * by rewrite effects_of_snoc, decide_True, Hdone.
    + rewrite list_lookup_insert_ne by done. intros Hj'.
      destruct (si_threads _ Hinv _ _ Hj') as (? & ? & Hdone). split_and!; [done..|].
      by rewrite effects_of_snoc, decide_False, app_nil_r.
  - intros j o. rewrite length_insert. intros [Hin|Hin]%elem_of_app; [by eapply (si_fresh _ Hinv)|].
    apply list_elem_of_singleton in Hin as [= -> ->]. by eapply lookup_lt_Some.
  - intros token en Hen. by apply issued_mono, Hv'.
  - intros pre tid o post [(<- & Heq & _)|[post' Heq]]%snoc_split; [injection Heq as <- <-; exact Hj|].
    by eapply (si_hist _ Hinv).
Qed.

Lemma step_inv σ σ' : sys_inv σ → step σ σ' → sys_inv σ'.
Proof.
  intros Hinv Hstep. destruct Hstep; auto using arrive_inv, run_effect_inv, environment_inv.
Qed.

Lemma reachable_inv σ : reachable σ → sys_inv σ.
Proof.
  intros (σ0 & Hinit%initial_inv & Hsteps). induction Hsteps; [done|].
  apply IHHsteps. by eapply step_inv.
Qed.

(** ** The guarantees *)

(** C2. Concurrently or not, whatever the interleaving, expiry, eviction and the
    upstream's answers: every call that reaches the Temporal server was made by
    an authenticated, valid identity of its own, on an allowed RPC, within that
    identity's namespace and task queues; and a task token is only ever used in
    the namespace and task queue it was issued for, for commands that stay in
    them. *)
Theorem every_upstream_call_authorized σ pre tid uctx rpc req resp err post :
  reachable σ →
  sys_hist σ = pre ++ (tid, OUpstream uctx rpc req resp err) :: post →
  authorized pre tid uctx rpc req.
Proof. intros Hreach Heq. apply (si_hist _ (reachable_inv _ Hreach) _ _ _ _ Heq). Qed.

(** C3. The token cache never lies: in every reachable state, what it holds for a
    token, and what it ever answered for one, is a namespace and task queue the
    token was issued for. *)
Theorem token_cache_is_sound σ :
  reachable σ →
  (∀ token e, store_view (sys_store σ) token = Some e →
     issued (sys_hist σ) token (entry_Namespace e) (entry_TaskQueue e)) ∧
  (∀ pre tid token e post, sys_hist σ = pre ++ (tid, OGet token (Ok (Some e))) :: post →
     issued pre token (entry_Namespace e) (entry_TaskQueue e)).
Proof.
  intros Hreach%reachable_inv. split; [apply Hreach|].
  intros pre tid token e post Heq. apply (si_hist _ Hreach _ _ _ _ Heq).
Qed.

(** [revoked h token]: a revocation of [token] succeeded in [h], and no
    registration of it, or of one the store takes for it, was attempted since. *)
Definition revoke_step (token : bytes) (dead : bool) (x : nat * obs) : bool :=
  match x.2 with
  | ODelete t None => if decide (t = token) then true else dead
  | OPut t _ _ => if decide (store_alias token t) then false else dead
  | _ => dead
  end.

Definition revoked (h : list (nat * obs)) (token : bytes) : bool :=
  foldl (revoke_step token) false h.

Lemma revoked_snoc h x token : revoked (h ++ [x]) token = revoke_step token (revoked h token) x.
Proof. unfold revoked. by rewrite foldl_app. Qed.

Record dead_inv (σ : system) : Prop := {
  di_view token : revoked (sys_hist σ) token = true → store_view (sys_store σ) token = None;
  di_hist pre tid token e post :
    sys_hist σ = pre ++ (tid, OGet token (Ok (Some e))) :: post → revoked pre token = false;
}.

(** What an effect leaves of a revoked token. *)
Lemma effect_dead X (e : proxyE X) s a up x s' dead tid token :
  store_inv s → answer e s a up = (x, s') → (dead = true → store_view s token = None) →
  revoke_step token dead (tid, observe e x) = true → store_view s' token = None.
Proof.
  intros Hs Hans Hdead. unfold revoke_step.
  destruct e as [key|t|t en|t|uctx rpc req|line]; simpl in *; simplify_eq; auto.
  - intros Ht%Hdead. apply eq_None_not_Some. intros [en Hen].
    eapply store_Get_view in Hen; [|done..]. congruence.
  - case_decide as Heq; [done|]. intros Ht%Hdead. apply eq_None_not_Some. intros [en' Hen].
    destruct (store_Put_view _ _ _ _ _ _ _ Hs Hans Hen) as [[? _]|?]; congruence.
  - destruct x as [err|].
    + intros Ht%Hdead. apply eq_None_not_Some. intros [en Hen].
      eapply store_Delete_view in Hen; [|done..]. congruence.
    + case_decide as Heq; [subst; intros _; by eapply store_Delete_gone|].
      intros Ht%Hdead. apply eq_None_not_Some. intros [en Hen].
      eapply store_Delete_view in Hen; [|done..]. congruence.
Qed.

Lemma step_dead σ σ' : sys_inv σ → dead_inv σ → step σ σ' → dead_inv σ'.
Proof.
  intros Hinv Hdead Hstep. destruct Hstep as [ctx req σ|i up σ Hup|s' a' σ Hs' Hle Ha'].
  - destruct Hdead as [Hv Hh]. by split.
  - unfold run_effect. destruct (sys_threads σ !! i) as [th|] eqn:Hth; [|done].
    destruct (th_prog th) as [r|X e k] eqn:Hprog; [done|].
    destruct (answer e _ _ up) as [x s'] eqn:Hans. split; simpl.
    + intros token. rewrite revoked_snoc. eapply effect_dead; [|exact Hans|].
      * apply (si_store _ Hinv).
      * apply (di_view _ Hdead).
    + intros pre tid token en post [(<- & Heq & _)|[post' Heq]]%snoc_split.
      2: { by eapply (di_hist _ Hdead). }
      injection Heq as <- Hobs. destruct (revoked _ _) eqn:E; [|done].
      apply (di_view _ Hdead) in E.
      destruct e as [key|t|t en'|t|uctx rpc req|line]; simpl in *; simplify_eq.
      apply store_Get_found in Hans; [congruence|apply (si_store _ Hinv)].
  - destruct Hdead as [Hv Hh]. split; simpl; [|done]. intros token Ht%Hv.
    apply eq_None_not_Some. intros [e He]. apply Hle in He. congruence.
Qed.

Lemma reachable_dead σ : reachable σ → dead_inv σ.
Proof.
  intros (σ0 & Hinit & Hsteps).
  assert (Hboth : sys_inv σ0 ∧ dead_inv σ0).
  { split; [by apply initial_inv|]. destruct Hinit as [_ _ _ _ Hh].
    split; rewrite Hh; [done|]. by intros [|? ?] ? ? ? ?. }
  clear Hinit. induction Hsteps as [|σ1 σ2 σ3 Hstep Hsteps IH]; [by destruct Hboth|].
  apply IH. destruct Hboth. split; [by eapply step_inv|by eapply step_dead].
Qed.

(** A revocation is undone by nothing but a registration. *)
Lemma revoked_until pre tid token mid :
  revoked (pre ++ (tid, ODelete token None) :: mid) token = false →
  ∃ tid' token' e w, (tid', OPut token' e w) ∈ mid ∧ store_alias token token'.
Proof.
  induction mid as [|x mid IH] using rev_ind; intros Hrev.
  - rewrite revoked_snoc in Hrev. unfold revoke_step in Hrev. simpl in Hrev.
    by rewrite decide_True in Hrev.
  - rewrite app_comm_cons, app_assoc, revoked_snoc in Hrev.
    assert (Hcases : revoked (pre ++ (tid, ODelete token None) :: mid) token = false ∨
      ∃ token' e w, x.2 = OPut token' e w ∧ store_alias token token').
    { unfold revoke_step in Hrev. destruct x as [j []]; simpl in *; try (by left); 
        repeat case_match; try done; try (by left).
      right. by eexists _, _, _. }
    destruct Hcases as [(tid' & token' & e & w & Hin & Halias)%IH|(token' & e & w & Hx & Halias)].
    + exists tid', token', e, w. split; [|done]. apply elem_of_app. by left.
    + exists x.1, token', e, w. split; [|done]. apply elem_of_app. right.
      rewrite <- Hx, <- surjective_pairing. constructor.
Qed.

(** Every token call is of the category that is checked against the store. *)
Lemma token_request_category req p token :
  Allowed !! request_method req = Some p → RequestTaskToken req = (token, true) →
  policy_Category p = CategoryToken.
Proof.
  intros Hp Htok.
  assert (Hc : policy_Category <$> Allowed !! request_method req = Some CategoryToken)
    by (destruct req; try discriminate Htok; vm_compute; reflexivity).
  rewrite Hp in Hc. by injection Hc.
Qed.

(** What the server accepted of a finished call that ends its token has led to a
    revocation of that token. *)
Lemma accepted_is_revoked ctx req t r p token uctx resp :
  typed_answers t → exec (serve srv ctx req) t r →
  OUpstream uctx (request_method req) req resp None ∈ t →
  Allowed !! request_method req = Some p → policy_Terminal p = true →
  RequestTaskToken req = (token, true) → ∃ err, ODelete token err ∈ t.
Proof.
  intros Htyped Hexec Hin Hp Hterm Htok.
  apply (serve_cases srv _ _ _ _ Htyped) in Hexec as
    [(_ & _ & _ & Hharm & _)|[(p' & key & i & cached & scope & t2 & _ & Hp' & _ & _ & _ & -> & Hfw)|
      (_ & Hharm & _)]];
    [exfalso; exact (harmless_no_call _ _ _ _ _ _ Hharm Hin)| |exfalso; exact (harmless_no_call _ _ _ _ _ _ Hharm Hin)].
  rewrite Hp in Hp'. injection Hp' as <-.
  assert (Hrev : ∀ d, ODelete token d ∈ revocation (request_method req) p i req d).
  { intros d. unfold revocation. rewrite Hterm, Htok. simpl. by left. }
  assert (Hsub : ∀ o, o ∈ t2 → o ∈ OAuthenticate key (Ok i) :: lookup_of cached ++ t2)
    by (intros o Ho; right; apply elem_of_app; by right).
  destruct Hfw as [uresp e resp'|uresp d ?|uresp d ? ?|uresp d tokens tok rest err ? ?];
    [|exists d; apply Hsub; right; apply elem_of_app; left; apply Hrev..].
  exfalso. apply elem_of_cons in Hin as [Hin|Hin]; [done|].
  apply elem_of_app in Hin as [Hin|Hin]; [by apply lookup_of_no_call in Hin|]. inv_member Hin.
Qed.

(** C4. A consumed token is dead. When the Temporal server has accepted a call that
    ends its task, by the time the worker gets its reply the proxy has revoked the
    token of the task; and if the revocation succeeded, no call with that token is
    forwarded afterwards, under any interleaving, except one that had already looked
    the token up before, or after the server has handed the token out again and the
    call it answered has registered it. *)
Theorem consumed_token_is_dead σ tid th r p token uctx resp :
  reachable σ → sys_threads σ !! tid = Some th → th_prog th = Ret r →
  Allowed !! request_method (th_req th) = Some p → policy_Terminal p = true →
  RequestTaskToken (th_req th) = (token, true) →
  (tid, OUpstream uctx (request_method (th_req th)) (th_req th) resp None) ∈ sys_hist σ →
  ∃ pre err post, sys_hist σ = pre ++ (tid, ODelete token err) :: post ∧
    (err = None → ∀ mid post' tid' uctx' rpc' req' resp' err',
       post = mid ++ (tid', OUpstream uctx' rpc' req' resp' err') :: post' →
       RequestTaskToken req' = (token, true) →
       (∃ e, (tid', OGet token (Ok (Some e))) ∈ pre) ∨
       ∃ tid'' token' e w, (tid'', OPut token' e w) ∈ mid ∧ store_alias token token' ∧
         handed_out (pre ++ mid) tid'' token').
Proof.
  intros Hreach Hth Hr Hp Hterm Htok Hup. pose proof (reachable_inv _ Hreach) as Hinv.
  destruct (si_threads _ Hinv _ _ Hth) as (Hafter & Htyped & Hdone).
  assert (Hexec : exec (serve srv (th_ctx th) (th_req th)) (th_done th) r).
  { rewrite <- (app_nil_r (th_done th)). rewrite Hr in Hafter. by apply (after_exec _ _ _ _ _ Hafter). }
  assert (Hin : OUpstream uctx (request_method (th_req th)) (th_req th) resp None ∈ th_done th)
    by (rewrite Hdone; by apply elem_of_effects_of).
  destruct (accepted_is_revoked _ _ _ _ _ _ _ _ Htyped Hexec Hin Hp Hterm Htok) as [err Hdel].
  rewrite Hdone in Hdel. apply elem_of_effects_of, list_elem_of_split in Hdel as (pre & post & Heq).
  exists pre, err, post. split; [exact Heq|]. intros -> mid post' tid' uctx' rpc' req' resp' err' -> Htok'.
  assert (Heq' : sys_hist σ = (pre ++ (tid, ODelete token None) :: mid) ++
    (tid', OUpstream uctx' rpc' req' resp' err') :: post') by (by rewrite Heq, <- app_assoc).
  destruct (si_hist _ Hinv _ _ _ _ Heq') as (p' & key & i & Hp' & -> & _ & _ & _ & _ & _ & Hscope).
  rewrite (token_request_category _ _ _ Hp' Htok') in Hscope.
  destruct Hscope as (token0 & tq & Htok0 & _ & Hget & _). rewrite Htok' in Htok0. injection Htok0 as <-.
  apply elem_of_app in Hget as [Hget|Hget]; [left; eauto|right].
  apply elem_of_cons in Hget as [Hget|Hget]; [discriminate|].
  apply list_elem_of_split in Hget as (m1 & m2 & ->).
  assert (Hget : sys_hist σ = (pre ++ (tid, ODelete token None) :: m1) ++
    (tid', OGet token (Ok (Some {| entry_Namespace := Namespace i; entry_TaskQueue := tq |}))) ::
    m2 ++ (tid', OUpstream uctx' (request_method req') req' resp' err') :: post')
    by (rewrite Heq'; by repeat (rewrite <- ?app_assoc; simpl)).
  pose proof (di_hist _ (reachable_dead _ Hreach) _ _ _ _ _ Hget) as Halive.
  apply revoked_until in Halive as (tid'' & token' & e & w & Hput & Halias).
  exists tid'', token', e, w. split_and!; [apply elem_of_app; by left|exact Halias|].
  apply list_elem_of_split in Hput as (n1 & n2 & ->).
  assert (Hput : sys_hist σ = (pre ++ (tid, ODelete token None) :: n1) ++ (tid'', OPut token' e w) ::
    n2 ++ (tid', OGet token (Ok (Some {| entry_Namespace := Namespace i; entry_TaskQueue := tq |}))) ::
    m2 ++ (tid', OUpstream uctx' (request_method req') req' resp' err') :: post')
    by (rewrite Hget; by repeat (rewrite <- ?app_assoc; simpl)).
  destruct (si_hist _ Hinv _ _ _ _ Hput) as [_ (u & rpc & q & a & Hq & Ha)].
  exists u, rpc, q, a. split; [|exact Ha]. rewrite <- !app_assoc.
  apply elem_of_app in Hq as [Hq|Hq]; [apply elem_of_app; by left|].
  apply elem_of_cons in Hq as [Hq|Hq]; [discriminate|]. apply elem_of_app. right. apply elem_of_app. by left.
Qed.

(** ** Completion *)

(** [th'] is the call [th] after it got [x] for its effect. *)
Definition moved {X} (th th' : thread) (k : X → prog proxyE reply) (x : X) : Prop :=
  th_ctx th' = th_ctx th ∧ th_req th' = th_req th ∧ th_prog th' = k x.

Lemma lookup_run_effect tid up σ th :
  sys_threads σ !! tid = Some th →
  match th_prog th with
  | Ret _ => run_effect tid up σ = σ
  | Vis e k => ∃ th' x, sys_threads (run_effect tid up σ) !! tid = Some th' ∧ moved th th' k x
  end.
Proof.
  intros Hth. unfold run_effect. rewrite Hth. destruct (th_prog th) as [r|X e k]; [done|].
  destruct (answer _ _ _ _) as [x s']. simpl. eexists _, x.
  rewrite list_lookup_insert_eq by (by eapply lookup_lt_Some). done.
Qed.

(** A call whose effects are answered comes to its reply without any other call
    being scheduled. *)
Theorem call_completes tid up σ th :
  typed_upstream up → sys_threads σ !! tid = Some th →
  ∃ n th' r, rtc step σ (Nat.iter n (run_effect tid up) σ) ∧
    sys_threads (Nat.iter n (run_effect tid up) σ) !! tid = Some th' ∧ th_prog th' = Ret r.
Proof.
  intros Hup. destruct th as [ctx req d p]. revert σ ctx req d.
  induction p as [r|X ef k IH]; intros σ ctx req d Hth.
  - exists 0%nat. eexists _, r. split_and!; [apply rtc_refl|exact Hth|done].
  - pose proof (lookup_run_effect tid up _ _ Hth) as ([ctx' req' d' p'] & x & Hth' & _ & _ & Hp').
    simpl in Hp'. subst p'. destruct (IH x _ _ _ _ Hth') as (n & th' & r & Hrtc & Hn & Hr).
    exists (n + 1)%nat, th', r. rewrite Nat.add_1_r, Nat.iter_succ_r.
    split_and!; [|done|done]. eapply rtc_l; [by apply step_effect|exact Hrtc].
Qed.

End system.

(** ** A concrete system

    The local cache and the static authenticator, with the calls of [CallSpec]:
    a poll that is handed a task token, then a heartbeat with that token. *)

#[local] Instance w_store : Store LocalStore := LocalStore_Store w_hash.
#[local] Instance w_store_laws : StoreLaws LocalStore := LocalStore_StoreLaws w_hash.

Definition w_system : Type := system (S := LocalStore) (A := StaticAuthenticator).

Definition w_initial : w_system :=
  {| sys_store := {| ls_cache := New w_hour 64 7; ls_clock := λ n, Z.of_nat n; ls_reads := 0 |};
     sys_auth := {| sa_identities := {[hashKey "key" := w_identity]} |};
     sys_threads := []; sys_hist := [] |}.

Definition w_upstream : upstream := λ _ rpc _,
  (if decide (rpc = "PollActivityTaskQueue") then w_poll_response else OtherResponse rpc, None).

(** The poll runs to its end; the heartbeat authenticates, looks its token up and
    is forwarded. *)
Definition w_reached : w_system :=
  let run i σ := run_effect i w_upstream σ in
  run 1%nat (run 1%nat (run 1%nat (arrive w_server w_ctx w_heartbeat
    (run 0%nat (run 0%nat (run 0%nat (arrive w_server w_ctx w_poll w_initial))))))).

Lemma w_initial_ok : initial w_initial.
Proof.
  split; [| | |reflexivity|reflexivity].
  - eexists. apply New_wf.
  - intros tok. apply eq_None_not_Some. intros [e He].
    apply (Cache_view_Some w_hash (perShard 64)) in He as (it & Hit & _); [|apply New_wf].
    unfold token_list in Hit. destruct (_ !! _) as [sh|] eqn:E; [|by apply elem_of_nil in Hit].
    apply lookup_replicate in E as [-> _]. by apply elem_of_nil in Hit.
  - apply map_Forall_singleton. exists {| ske_Namespace := "ns"; ske_TaskQueues := ["q"]; ske_Subject := "worker" |}.
    split_and!; [apply (bool_decide_unpack _); vm_compute; exact I| |reflexivity].
    apply (bool_decide_unpack _). vm_compute. exact I.
Qed.

Lemma w_upstream_typed : typed_upstream w_upstream.
Proof. intros ctx rpc req. unfold w_upstream. simpl. by case_decide; subst. Qed.

Lemma w_reachable : reachable w_server w_reached.
Proof.
  exists w_initial. split; [apply w_initial_ok|]. unfold w_reached.
  assert (Hrun : ∀ i (σ0 σ : w_system), rtc (step w_server) σ0 σ →
    rtc (step w_server) σ0 (run_effect i w_upstream σ)).
  { intros i σ0 σ Hrtc. eapply rtc_r; [exact Hrtc|]. apply step_effect, w_upstream_typed. }
  assert (Harr : ∀ ctx req (σ0 σ : w_system), rtc (step w_server) σ0 σ →
    rtc (step w_server) σ0 (arrive w_server ctx req σ)).
  { intros ctx req σ0 σ Hrtc. eapply rtc_r; [exact Hrtc|]. apply step_arrive. }
  do 3 apply Hrun. apply Harr. do 3 apply Hrun. apply Harr. apply rtc_refl.
Qed.

Definition w_uctx : Context := uc_context (WithIdentity w_ctx w_identity).

Lemma every_upstream_call_authorized_witness :
  ∃ pre, sys_hist w_reached =
    pre ++ [(1%nat, OUpstream w_uctx "RecordActivityTaskHeartbeat" w_heartbeat
                      (OtherResponse "RecordActivityTaskHeartbeat") None)] ∧
    authorized pre 1 w_uctx "RecordActivityTaskHeartbeat" w_heartbeat.
Proof.
  exists (take 5 (sys_hist w_reached)).
  assert (Heq : sys_hist w_reached = take 5 (sys_hist w_reached) ++
    [(1%nat, OUpstream w_uctx "RecordActivityTaskHeartbeat" w_heartbeat
               (OtherResponse "RecordActivityTaskHeartbeat") None)]) by (vm_compute; reflexivity).
  split; [exact Heq|].
  exact (every_upstream_call_authorized w_server w_reached _ 1%nat w_uctx _ _ _ _ [] w_reachable Heq).
Defined.

Lemma token_cache_is_sound_witness :
  store_view (sys_store w_reached) w_token = Some w_entry ∧
  issued (sys_hist w_reached) w_token "ns" "q".
Proof.
  assert (Hv : store_view (sys_store w_reached) w_token = Some w_entry) by (vm_compute; reflexivity).
  split; [exact Hv|].
  exact (proj1 (token_cache_is_sound w_server w_reached w_reachable) w_token w_entry Hv).
Defined.

(** The token of the poll is consumed, handed out once more, and used again. *)
Definition w_complete : Request := RespondActivityTaskCompletedRequest "ns" w_token.

Definition w_runs (i n : nat) (σ : w_system) : w_system := Nat.iter n (run_effect i w_upstream) σ.

Definition w_consumed : w_system :=
  w_runs 3 3 (arrive w_server w_ctx w_heartbeat
    (w_runs 2 3 (arrive w_server w_ctx w_poll
      (w_runs 1 4 (arrive w_server w_ctx w_complete
        (w_runs 0 3 (arrive w_server w_ctx w_poll w_initial))))))).

Lemma w_consumed_reachable : reachable w_server w_consumed.
Proof.
  exists w_initial. split; [apply w_initial_ok|]. unfold w_consumed.
  assert (Hrun : ∀ i n (σ0 σ : w_system), rtc (step w_server) σ0 σ →
    rtc (step w_server) σ0 (w_runs i n σ)).
  { intros i n σ0 σ Hrtc. induction n as [|n IH]; [exact Hrtc|].
    eapply rtc_r; [exact IH|]. apply step_effect, w_upstream_typed. }
  assert (Harr : ∀ ctx req (σ0 σ : w_system), rtc (step w_server) σ0 σ →
    rtc (step w_server) σ0 (arrive w_server ctx req σ)).
  { intros ctx req σ0 σ Hrtc. eapply rtc_r; [exact Hrtc|]. apply step_arrive. }
  do 4 apply Hrun, Harr. apply rtc_refl.
Qed.

(** Call 1 consumes the token, call 3 uses it after call 2 has been handed it. *)
Lemma consumed_token_is_dead_witness :
  sys_hist w_consumed !! 6%nat = Some (1%nat, ODelete w_token None) ∧
  sys_hist w_consumed !! 12%nat =
    Some (3%nat, OUpstream w_uctx "RecordActivityTaskHeartbeat" w_heartbeat
                   (OtherResponse "RecordActivityTaskHeartbeat") None) ∧
  ∃ pre err post, sys_hist w_consumed = pre ++ (1%nat, ODelete w_token err) :: post ∧
    (err = None → ∀ mid post' tid' uctx' rpc' req' resp' err',
       post = mid ++ (tid', OUpstream uctx' rpc' req' resp' err') :: post' →
       RequestTaskToken req' = (w_token, true) →
       (∃ e, (tid', OGet w_token (Ok (Some e))) ∈ pre) ∨
       ∃ tid'' token' e w, (tid'', OPut token' e w) ∈ mid ∧ store_alias w_token token' ∧
         handed_out (pre ++ mid) tid'' token').
Proof.
  split; [vm_compute; reflexivity|]. split; [vm_compute; reflexivity|].
  assert (Hth : ∃ th r, sys_threads w_consumed !! 1%nat = Some th ∧ th_prog th = Ret r ∧ th_req th = w_complete)
    by (eexists _, _; split; [vm_compute; reflexivity|split; reflexivity]).
  destruct Hth as (th & r & Hth & Hret & Hreq).
  destruct (consumed_token_is_dead w_server w_consumed 1 th r
    {| policy_Category := CategoryToken; policy_Terminal := true |} w_token w_uctx
    (OtherResponse "RespondActivityTaskCompleted") w_consumed_reachable Hth Hret)
    as (pre & err & post & Heq & Hdead);
    [rewrite Hreq; vm_compute; reflexivity|reflexivity|rewrite Hreq; reflexivity| |].
  - rewrite Hreq. apply (list_elem_of_lookup_2 _ 5). vm_compute. reflexivity.
  - exists pre, err, post. split; [exact Heq|exact Hdead].
Defined.
