(* ===== verification/Main.v ===== *)
(** * Process start-up and shutdown ([cmd/temporal-proxy/main.go])

    [run] as the list of what it does to the outside, in order, and its result.
    Everything outside the repository - files, sockets, signals, the certificate
    and validator libraries - is a parameter; what this repository builds from it
    is the definitions of the other files. *)

From S2P Require Import Prelude TemporalApi Auth Grpc Server GoStd Config Upstream.
From S2P Require Import TokenCache Valkey.
From Stdlib Require Import Ascii.
Local Open Scope string_scope.
Local Open Scope list_scope.
Local Open Scope Z_scope.
Local Open Scope go_scope.

(** ** [configureLogging]

    [slog.Level.UnmarshalText]: a name in any case and an optional offset. The
    only letter of a name with a non-ASCII lower case is "I", of the dotless i. *)

Definition upper (c : ascii) : ascii :=
  let n := nat_of_ascii c in
  if ((97 <=? n) && (n <=? 122))%nat then ascii_of_nat (n - 32) else c.

Fixpoint ToUpper (s : string) : string :=
  match s with
  | String c (String d s' as rest) =>
      if decide (c = ascii_of_nat 196 ∧ d = ascii_of_nat 177) then String (ascii_of_nat 73) (ToUpper s')
      else String (upper c) (ToUpper rest)
  | String c EmptyString => String (upper c) EmptyString
  | EmptyString => EmptyString
  end.

(** [s[:i]] and [s[i:]] at the first ["+"] or ["-"]. *)
Fixpoint split_offset (s : string) : string * option string :=
  match s with
  | EmptyString => (EmptyString, None)
  | String c s' =>
      if decide (c = ascii_of_nat 43 ∨ c = ascii_of_nat 45) then (EmptyString, Some s)
      else let '(name, off) := split_offset s' in (String c name, off)
  end.

Definition level_name (s : string) : option Z :=
  let u := ToUpper s in
  if decide (u = "DEBUG") then Some (-4)
  else if decide (u = "INFO") then Some 0
  else if decide (u = "WARN") then Some 4
  else if decide (u = "ERROR") then Some 8
  else None.

(** Wrap-around of a 64-bit [int]. *)
Definition wrap64 (z : Z) : Z := (z + 2 ^ 63) mod 2 ^ 64 - 2 ^ 63.

Definition UnmarshalText (s : string) : option Z :=
  let '(name, off) := split_offset s in
  match (match off with Some o => Atoi o | None => Some 0 end) with
  | None => None
  | Some offset => match level_name name with Some l => Some (wrap64 (l + offset)) | None => None end
  end.

Definition LevelInfo : Z := 0.

Definition configureLogging (level : string) : Z := default LevelInfo (UnmarshalText level).

(** ** The pieces [run] puts together *)

(** The [auth.Authenticator] of the configured mode. *)
Inductive authenticator :=
| StaticMode (a : StaticAuthenticator)
| JWTMode (a : JWTAuthenticator).

#[global] Instance authenticator_Authenticator : Authenticator authenticator := {
  Authenticate a key :=
    match a with StaticMode s => Authenticate s key | JWTMode j => Authenticate j key end;
}.

#[global] Instance authenticator_laws : AuthenticatorLaws authenticator.
Proof.
  refine {| auth_inv a := match a with StaticMode s => auth_inv s | JWTMode j => auth_inv j end;
            auth_identity _ := identity_wf |}; [|done].
  intros [a|a] key i; [apply (auth_wf (A := StaticAuthenticator))|apply (auth_wf (A := JWTAuthenticator))].
Defined.

(** [tls.Config] of the Valkey connection: TLS 1.2 or later; no [RootCAs] means
    the system's. *)
Record ValkeyTLS {CertPool : Type} := { vt_RootCAs : option CertPool }.
Arguments ValkeyTLS : clear implicits.

Inductive token_store {V : Type} :=
| LocalCache (c : Cache)
| ValkeyCache (s : ValkeyStore) (v : V).
Arguments token_store : clear implicits.

Inductive MainError :=
| LoadingConfig (errs : list ConfigError)
| BuildingAuthenticator (err : AuthError)
| DialingUpstream (err : DialError)
| ReadingValkeyCA (err : error)
| NoCertificatesInValkeyCA (file : string)
| BuildingTokenCache (err : ValkeyStoreError)
| LoadingDownstreamTLS (err : error)
| ListeningOn (addr : string) (err : error)
| Serving (err : error).

(** What ends the wait of [run]: a signal, or the server returning. *)
Inductive ending :=
| Signalled
| ServeReturned (err : goerror).

Section run.
Context {CertPool ServerCreds V : Type} `{ValkeyServer V}.
Context (env : gmap string string).
Context (ReadFile : string → result error bytes).
Context (range_map : gmap string staticKeyEntry → list (string * staticKeyEntry)).
Context (NewValidator : result error (string → string → result error (gmap string claim))).
(** A new pool, and the system's or else a new one, with a file's certificates. *)
Context (NewPool : bytes → option CertPool) (SystemPool : bytes → option CertPool).
Context (NewClient_error : string → list (DialOption (CertPool := CertPool)) → option error).
Context (NewValkeyClient :
  option (ValkeyTLS CertPool) → list string → string → Z → Z → result error V).
Context (NewServerTLSFromFile : string → string → result error ServerCreds).
Context (Listen : string → result error unit).
Context (MakeSeed : N) (now : Z) (outcome : ending).

Definition valkeyTLSConfig (cfg : ValkeyConfig) : result MainError (option (ValkeyTLS CertPool)) :=
  if decide (vk_TLSMode cfg = TLSModePlaintext) then Ok None
  else if decide (vk_TLSCAFile cfg = "") then Ok (Some {| vt_RootCAs := None |})
  else
    match ReadFile (vk_TLSCAFile cfg) with
    | Err err => Err (ReadingValkeyCA err)
    | Ok pem =>
        match SystemPool pem with
        | None => Err (NoCertificatesInValkeyCA (vk_TLSCAFile cfg))
        | Some pool => Ok (Some {| vt_RootCAs := Some pool |})
        end
    end.

Definition maxDuration (a b : Z) : Z := if b <? a then a else b.

Definition buildTokenCache (cfg : Config) : result MainError (token_store V) :=
  if decide (cfg_TokenCacheBackend cfg = TokenCacheBackendValkey) then
    let vk := cfg_Valkey cfg in
    let? tlsConfig := valkeyTLSConfig vk in
    let pingTimeout := maxDuration (vk_DialTimeout vk) (vk_ReadTimeout vk) in
    let pingCtx := WithTimeout None pingTimeout now in
    match NewValkeyStore (NewValkeyClient tlsConfig) pingCtx
            {| vo_Addrs := vk_Addrs vk; vo_Password := vk_Password vk;
               vo_DialTimeout := vk_DialTimeout vk; vo_ReadTimeout := vk_ReadTimeout vk;
               vo_WriteTimeout := vk_WriteTimeout vk; vo_TTL := cfg_TokenCacheTTL cfg |} with
    | Err (err, _) => Err (BuildingTokenCache err)
    | Ok (s, v) => Ok (ValkeyCache s v)
    end
  else Ok (LocalCache (New (cfg_TokenCacheTTL cfg) (cfg_TokenCacheMaxSize cfg) MakeSeed)).

(** [Close] of the [tokencache.Store] interface. *)
Definition Store_Close (cache : token_store V) : goerror * token_store V :=
  match cache with
  | LocalCache c => (None, LocalCache (Cache_Close c))
  | ValkeyCache s v => let '(err, v') := Valkey_Close s v in (err, ValkeyCache s v')
  end.

(** The switch on [cfg.WorkerAuthMode]. *)
Definition buildAuthenticator (cfg : Config) : result AuthError authenticator :=
  if decide (cfg_WorkerAuthMode cfg = WorkerAuthModeJWT) then
    let? a := NewJWTAuthenticatorFromFile ReadFile range_map NewValidator
                (cfg_StaticAuthFile cfg) (cfg_JWTAudience cfg) in
    Ok (JWTMode a)
  else
    let? a := NewStaticAuthenticatorFromFile ReadFile range_map (cfg_StaticAuthFile cfg) in
    Ok (StaticMode a).

(** The server [run] starts: what the interceptor and the forwarding server are
    made of, the transport credentials and the address. *)
Record serving := {
  sv_authenticator : authenticator;
  sv_cache : token_store V;
  sv_server : Server;
  sv_creds : option ServerCreds;
  sv_addr : string;
}.

Inductive event :=
| LogLevelSet (level : Z)
| UpstreamDialed
| UpstreamClosed
| TokenCacheBuilt
| TokenCacheClosed (err : goerror)
| SignalsNotified
| SignalsStopped
| Serve (s : serving)
| GracefulStop
| LoggedExiting (err : MainError).

Abbreviation outcome_of_run := (list event * result MainError unit)%type.

Definition emit (e : event) (r : outcome_of_run) : outcome_of_run := (e :: r.1, r.2).

(** [defer]: after the rest, on every way out of it. *)
Definition defer (e : event) (r : outcome_of_run) : outcome_of_run := (r.1 ++ [e], r.2).

Definition fail (err : MainError) : outcome_of_run := ([], Err err).

(** [grpc.NewServer], from the listener on. *)
Definition listen_and_serve (cfg : Config) (s : serving) : outcome_of_run :=
  match Listen (down_ListenAddr (cfg_Downstream cfg)) with
  | Err err => fail (ListeningOn (down_ListenAddr (cfg_Downstream cfg)) err)
  | Ok _ =>
      emit SignalsNotified (defer SignalsStopped (emit (Serve s)
        match outcome with
        | Signalled => ([GracefulStop], Ok tt)
        | ServeReturned (Some err) => fail (Serving err)
        | ServeReturned None => ([], Ok tt)
        end))
  end.

Definition run : outcome_of_run :=
  match Load env with
  | Err errs => fail (LoadingConfig errs)
  | Ok cfg =>
      emit (LogLevelSet (configureLogging (cfg_LogLevel cfg)))
      match buildAuthenticator cfg with
      | Err err => fail (BuildingAuthenticator err)
      | Ok authenticator =>
          match Dial ReadFile NewPool NewClient_error (cfg_Upstream cfg) with
          | Err err => fail (DialingUpstream err)
          | Ok (upstreamClient, _) =>
              emit UpstreamDialed (defer UpstreamClosed
              match buildTokenCache cfg with
              | Err err => fail err
              | Ok cache =>
                  emit TokenCacheBuilt (defer (TokenCacheClosed (Store_Close cache).1)
                  (let s creds :=
                     {| sv_authenticator := authenticator; sv_cache := cache;
                        sv_server := {| Upstream := upstreamClient |}; sv_creds := creds;
                        sv_addr := down_ListenAddr (cfg_Downstream cfg) |} in
                   if decide (down_TLSMode (cfg_Downstream cfg) = TLSModeTLS) then
                     match NewServerTLSFromFile (down_CertFile (cfg_Downstream cfg))
                             (down_KeyFile (cfg_Downstream cfg)) with
                     | Err err => fail (LoadingDownstreamTLS err)
                     | Ok creds => listen_and_serve cfg (s (Some creds))
                     end
                   else listen_and_serve cfg (s None)))
              end)
          end
      end
  end.

(** [main]: the events of [run], the error logged on the way out, and the exit
    status. *)
Definition main : list event * Z :=
  match run.2 with
  | Err err => (run.1 ++ [LoggedExiting err], 1)
  | Ok _ => (run.1, 0)
  end.

(** ** Specification *)

(** The resources of the process, and what an event does to the stack of those
    held: a release must be of the one acquired last. *)
Inductive resource := UpstreamConn | TokenCacheStore | SignalHandler.

#[local] Instance resource_eq_dec : EqDecision resource.
Proof. solve_decision. Defined.

Definition acquires (e : event) : option resource :=
  match e with
  | UpstreamDialed => Some UpstreamConn
  | TokenCacheBuilt => Some TokenCacheStore
  | SignalsNotified => Some SignalHandler
  | _ => None
  end.

Definition releases (e : event) : option resource :=
  match e with
  | UpstreamClosed => Some UpstreamConn
  | TokenCacheClosed _ => Some TokenCacheStore
  | SignalsStopped => Some SignalHandler
  | _ => None
  end.

Definition hold_step (held : option (list resource)) (e : event) : option (list resource) :=
  held ≫= λ l,
  match acquires e, releases e with
  | Some r, _ => Some (r :: l)
  | None, Some r => match l with r' :: l' => if decide (r = r') then Some l' else None | [] => None end
  | None, None => Some l
  end.

Definition hold (held : list resource) (events : list event) : option (list resource) :=
  foldl hold_step (Some held) events.

Lemma foldl_hold_None events : foldl hold_step None events = None.
Proof. induction events as [|e events IH]; [done|]. apply IH. Qed.

Lemma hold_app held l1 l2 : hold held (l1 ++ l2) = hold held l1 ≫= λ held', hold held' l2.
Proof.
  unfold hold. rewrite foldl_app. destruct (foldl hold_step (Some held) l1); [done|].
  apply foldl_hold_None.
Qed.

(** A part of [run] that gives back what it took. *)
Definition balanced (r : outcome_of_run) : Prop := ∀ held, hold held r.1 = Some held.

Lemma balanced_plain l r :
  Forall (λ e, acquires e = None ∧ releases e = None) l → balanced (l, r).
Proof.
  intros Hl held. simpl. induction Hl as [|e l [Ha Hr] Hl IH]; [done|].
  unfold hold in *. simpl. by rewrite Ha, Hr.
Qed.

Lemma balanced_emit e r :
  acquires e = None → releases e = None → balanced r → balanced (emit e r).
Proof. intros Ha Hr Hb held. unfold hold. simpl. rewrite Ha, Hr. apply Hb. Qed.

Lemma balanced_bracket a e res r :
  acquires a = Some res → acquires e = None → releases e = Some res → balanced r →
  balanced (emit a (defer e r)).
Proof.
  intros Ha Hea He Hb held. simpl. unfold hold. simpl. rewrite Ha.
  change (hold (res :: held) (r.1 ++ [e]) = Some held). rewrite hold_app, Hb. simpl.
  unfold hold. simpl. by rewrite Hea, He, decide_True.
Qed.

Lemma balanced_fail err : balanced (fail err).
Proof. by apply balanced_plain. Qed.

#[local] Hint Resolve balanced_fail balanced_emit balanced_bracket : proxy.

Lemma listen_and_serve_balanced cfg s : balanced (listen_and_serve cfg s).
Proof.
  unfold listen_and_serve. destruct (Listen _); eauto with proxy.
  eapply balanced_bracket; eauto. apply balanced_emit; auto.
  destruct outcome as [|[err|]]; apply balanced_plain; repeat constructor.
Qed.

#[local] Hint Resolve listen_and_serve_balanced : proxy.

Lemma run_balanced : balanced run.
Proof.
  unfold run. repeat (case_match; eauto with proxy; try (apply balanced_emit; [done..|]);
    try (eapply balanced_bracket; [done..|])); eauto with proxy.
Qed.

(** A part of [run] that succeeds exactly if it served and the server stopped
    without an error. *)
Definition serves_to_end (r : outcome_of_run) : Prop :=
  r.2 = Ok tt ↔ (∃ s, Serve s ∈ r.1) ∧ (outcome = Signalled ∨ outcome = ServeReturned None).

Lemma serves_to_end_fail err : serves_to_end (fail err).
Proof. split; [done|]. by intros [[s ?%elem_of_nil] _]. Qed.

Lemma serves_to_end_emit e r : (∀ s, e ≠ Serve s) → serves_to_end r → serves_to_end (emit e r).
Proof.
  intros He Hr. unfold serves_to_end in *. simpl. rewrite Hr.
  split; (intros [[s Hs] Hend]; split; [exists s|done]).
  - by right.
  - apply elem_of_cons in Hs as [Hs|Hs]; [by destruct (He s)|done].
Qed.

Lemma serves_to_end_defer e r : (∀ s, e ≠ Serve s) → serves_to_end r → serves_to_end (defer e r).
Proof.
  intros He Hr. unfold serves_to_end in *. simpl. rewrite Hr.
  split; (intros [[s Hs] Hend]; split; [exists s|done]).
  - apply elem_of_app. by left.
  - apply elem_of_app in Hs as [Hs|Hs]; [done|]. apply list_elem_of_singleton in Hs. by destruct (He s).
Qed.

#[local] Hint Resolve serves_to_end_fail serves_to_end_emit serves_to_end_defer : proxy.

Lemma listen_and_serve_to_end cfg s : serves_to_end (listen_and_serve cfg s).
Proof.
  unfold listen_and_serve. destruct (Listen _); [|apply serves_to_end_fail].
  apply serves_to_end_emit; [done|]. apply serves_to_end_defer; [done|].
  unfold serves_to_end. simpl. destruct outcome as [|[err|]]; simpl.
  - split; [intros _; split; [exists s; left|by left]|done].
  - split; [done|]. by intros [_ [|]].
  - split; [intros _; split; [exists s; left|by right]|done].
Qed.

#[local] Hint Resolve listen_and_serve_to_end : proxy.

Lemma run_serves_to_end : serves_to_end run.
Proof.
  unfold run. repeat (case_match; eauto with proxy; try (apply serves_to_end_emit; [done|]);
    try (apply serves_to_end_defer; [done|])); eauto with proxy.
Qed.

(** C37. Whatever fails and however the process is stopped, it gives back what it
    took, last taken first: the token cache before the upstream connection it is
    used with, each exactly once, and neither if it was never made. It exits with
    status 0 exactly if it served and a signal, or the server without an error,
    ended that, and with status 1 otherwise. *)
Theorem run_releases_everything :
  hold [] main.1 = Some [] ∧ main.2 ∈ [0; 1] ∧
  (main.2 = 0 ↔ (∃ s, Serve s ∈ main.1) ∧ (outcome = Signalled ∨ outcome = ServeReturned None)).
Proof.
  pose proof (run_balanced []) as Hb. pose proof run_serves_to_end as He. unfold serves_to_end in He.
  unfold main. destruct run as [es [[]|err]]; simpl in *.
  - split_and!; [done|left|]. rewrite <- He. by split.
  - split_and!; [by rewrite hold_app, Hb|right; left|]. split; [done|]. intros [[s Hs] Hend].
    apply elem_of_app in Hs as [Hs|Hs]; [|by apply list_elem_of_singleton in Hs].
    assert (Err (A := unit) err = Ok tt) as [=] by (apply He; eauto).
Qed.

Lemma elem_of_bracket s a e r :
  Serve s ∈ (emit a (defer e r)).1 → a ≠ Serve s → e ≠ Serve s → Serve s ∈ r.1.
Proof.
  simpl. intros [Heq|[Hin|Hin]%elem_of_app]%elem_of_cons Ha He; [by destruct Ha|done|].
  by apply list_elem_of_singleton in Hin; destruct He.
Qed.

Lemma elem_of_listen_and_serve cfg s s' :
  Serve s ∈ (listen_and_serve cfg s').1 → s = s'.
Proof.
  unfold listen_and_serve. destruct (Listen _); [|by intros ?%elem_of_nil].
  intros Hin. apply elem_of_bracket in Hin; [|done..]. simpl in Hin.
  apply elem_of_cons in Hin as [[= ->]|Hin]; [done|].
  destruct outcome as [|[err|]]; simpl in Hin; [|by apply elem_of_nil in Hin..].
  by apply list_elem_of_singleton in Hin.
Qed.

(** [range] over a map visits each entry once, in any order. *)
Context (Hrange : ∀ m, range_map m ≡ₚ map_to_list m).

Lemma buildAuthenticator_inv cfg a : buildAuthenticator cfg = Ok a → auth_inv a.
Proof.
  unfold buildAuthenticator. case_decide; rewrite result_bind_Ok; intros (x & Hx & [= <-]).
  - by eapply new_jwt_inv.
  - by eapply new_static_inv.
Qed.

Lemma Load_Ok_valid cfg : Load env = Ok cfg → config_valid cfg.
Proof.
  unfold Load. case_decide as Hlen; [done|]. intros [= <-]. apply validate_nil.
  destruct (_ ++ _) eqn:E in Hlen; [|simpl in Hlen; lia]. by apply app_nil in E as [_ ?].
Qed.

(** Where [run] starts to serve, everything before it has succeeded. *)
Lemma run_serves s :
  Serve s ∈ run.1 →
  ∃ cfg conn, Load env = Ok cfg ∧ config_valid cfg ∧
    buildAuthenticator cfg = Ok (sv_authenticator s) ∧
    Dial ReadFile NewPool NewClient_error (cfg_Upstream cfg) = Ok (Upstream (sv_server s), conn) ∧
    buildTokenCache cfg = Ok (sv_cache s) ∧
    sv_addr s = down_ListenAddr (cfg_Downstream cfg) ∧
    (sv_creds s = None ↔ down_TLSMode (cfg_Downstream cfg) = TLSModePlaintext).
Proof.
  unfold run. destruct (Load env) as [cfg|] eqn:Hload; [|by intros ?%elem_of_nil].
  pose proof (Load_Ok_valid _ Hload) as Hvalid. simpl.
  intros [Hin|Hin]%elem_of_cons; [done|].
  destruct (buildAuthenticator cfg) as [a|] eqn:Hauth; [|by apply elem_of_nil in Hin].
  destruct (Dial _ _ _ _) as [[c conn]|] eqn:Hdial; [|by apply elem_of_nil in Hin].
  apply elem_of_bracket in Hin; [|done..].
  destruct (buildTokenCache cfg) as [cache|] eqn:Hcache; [|by apply elem_of_nil in Hin].
  apply elem_of_bracket in Hin; [|done..].
  exists cfg, conn. destruct (cv_downstream_tls _ Hvalid) as [Hmode|(Hmode & _)].
  - rewrite decide_False in Hin by (rewrite Hmode; discriminate).
    apply elem_of_listen_and_serve in Hin as ->. simpl. split_and!; done.
  - rewrite decide_True in Hin by done.
    destruct (NewServerTLSFromFile _ _) as [creds|]; [|by apply elem_of_nil in Hin].
    apply elem_of_listen_and_serve in Hin as ->. simpl. split_and!; try done. by rewrite Hmode.
Qed.

(** C36. The process serves only once everything it needs is there, and what it
    serves is what was configured: a valid configuration, the authenticator of
    the configured mode (whose valid identities are all well-formed), the
    upstream connection and token cache of the configuration, and TLS towards
    workers exactly if configured. *)
Theorem run_serves_as_configured s :
  Serve s ∈ run.1 →
  ∃ cfg conn, Load env = Ok cfg ∧ config_valid cfg ∧
    buildAuthenticator cfg = Ok (sv_authenticator s) ∧
    (∀ key i, Authenticate (sv_authenticator s) key = Ok i → Valid i = true → identity_wf i) ∧
    Dial ReadFile NewPool NewClient_error (cfg_Upstream cfg) = Ok (Upstream (sv_server s), conn) ∧
    buildTokenCache cfg = Ok (sv_cache s) ∧
    sv_addr s = down_ListenAddr (cfg_Downstream cfg) ∧
    (sv_creds s = None ↔ down_TLSMode (cfg_Downstream cfg) = TLSModePlaintext).
Proof.
  intros (cfg & conn & Hload & Hvalid & Hauth & Hdial & Hcache & Haddr & Hcreds)%run_serves.
  exists cfg, conn. split_and!; try done.
  intros key i. exact (auth_wf _ key i (buildAuthenticator_inv _ _ Hauth)).
Qed.
End run.

(** ** A concrete process *)

Definition w_env : gmap string string :=
  {["TEMPORAL_PROXY_STATIC_AUTH_FILE" := "auth.json"; "TEMPORAL_PROXY_LOG_LEVEL" := "debug"]}.

Definition w_run : list (event (ServerCreds := unit) (V := Valkey.w_server)) * result MainError unit :=
  run (CertPool := unit) (H := Valkey.w_valkey) w_env Auth.w_read map_to_list (Err "no validator")
    (λ _, None) (λ _, None) (λ _ _, None) (λ _ _ _ _ _, Err "no valkey") (λ _ _, Err "no certificate")
    (λ _, Ok tt) 7 0 Signalled.

(** The defaults, but for the two settings of [w_env]. *)
Definition w_config : Config := read_config w_env.

Lemma w_Load : Load w_env = Ok w_config.
Proof. vm_compute. reflexivity. Qed.

(** What it serves. *)
Definition w_serving : serving (ServerCreds := unit) (V := Valkey.w_server) :=
  {| sv_authenticator := StaticMode Auth.w_static; sv_cache := LocalCache (New 3600000000000 100000 7);
     sv_server := {| Upstream := wire |}; sv_creds := None; sv_addr := "127.0.0.1:7243" |}.

Lemma w_serves : Serve w_serving ∈ w_run.1.
Proof. apply (list_elem_of_lookup_2 _ 4). vm_compute. reflexivity. Qed.

Lemma run_serves_as_configured_witness :
  Serve w_serving ∈ w_run.1 ∧ ∃ cfg, Load w_env = Ok cfg ∧ config_valid cfg.
Proof.
  split; [exact w_serves|].
  destruct (run_serves_as_configured (CertPool := unit) (ServerCreds := unit)
    (H := Valkey.w_valkey) w_env Auth.w_read map_to_list (Err "no validator")
    (λ _, None) (λ _, None) (λ _ _, None) (λ _ _ _ _ _, Err "no valkey") (λ _ _, Err "no certificate")
    (λ _, Ok tt) 7 0 Signalled Auth.w_range w_serving w_serves)
    as (cfg & conn & Hload & Hvalid & _).
  exists cfg. split; [exact Hload|exact Hvalid].
Defined.
