(* ===== verification/Service.v ===== *)
(** * The process in service

    What [Main.run] puts together, running as [System] describes: its store,
    local or Valkey, its authenticator, static or JWT, any number of concurrent
    calls. What a call may do is what the auth file the process was started with says
    of the credential the call presents. *)

From S2P Require Import Prelude Utf8 TemporalApi RpcPolicy Json Store TokenCache Sha256 Auth Grpc.
From S2P Require Import Interceptor Server CallTrace GoStd Config Upstream CallSpec Valkey System Main.
Local Open Scope string_scope.
Local Open Scope list_scope.
Local Open Scope Z_scope.

(** ** The store of either backend *)

Inductive running_store {V : Type} :=
| RunLocal (s : LocalStore)
| RunValkey (c : ValkeyConn V).
Arguments running_store : clear implicits.

Section store.
Context {V : Type} `{HV : ValkeyServerLaws V} (maphash : N → bytes → N).

#[local] Instance local_store : Store LocalStore := LocalStore_Store maphash.
#[local] Instance local_store_laws : StoreLaws LocalStore := LocalStore_StoreLaws maphash.

(** The interface value dispatches on its dynamic type. *)
Definition dispatch {R} (f : LocalStore → R * LocalStore) (g : ValkeyConn V → R * ValkeyConn V)
    (s : running_store V) : R * running_store V :=
  match s with
  | RunLocal l => let '(r, l') := f l in (r, RunLocal l')
  | RunValkey c => let '(r, c') := g c in (r, RunValkey c')
  end.

#[export] Instance running_Store : Store (running_store V) := {
  store_Put token entry := dispatch (store_Put token entry) (store_Put token entry);
  store_Get token := dispatch (store_Get token) (store_Get token);
  store_Delete token := dispatch (store_Delete token) (store_Delete token);
}.

Definition running_inv (s : running_store V) : Prop :=
  match s with RunLocal l => store_inv l | RunValkey c => store_inv c end.

Definition running_view (s : running_store V) (token : bytes) : option Entry :=
  match s with RunLocal l => store_view l token | RunValkey c => store_view c token end.

Lemma dispatch_cases {R} (f : LocalStore → R * LocalStore) (g : ValkeyConn V → R * ValkeyConn V) s r s' :
  dispatch f g s = (r, s') →
  (∃ l l', s = RunLocal l ∧ s' = RunLocal l' ∧ f l = (r, l')) ∨
  (∃ c c', s = RunValkey c ∧ s' = RunValkey c' ∧ g c = (r, c')).
Proof.
  destruct s as [l|c]; simpl.
  - destruct (f l) as [r' l'] eqn:E. intros [= <- <-]. left. by eauto.
  - destruct (g c) as [r' c'] eqn:E. intros [= <- <-]. right. by eauto.
Qed.

(** The law of either backend gives the law of both. *)
Ltac by_backend :=
  intros; match goal with
  | H : _ = (_, _) |- _ =>
      apply dispatch_cases in H as [(l & l' & -> & -> & H)|(c & c' & -> & -> & H)]
  end; unfold running_inv, running_view in *.

#[export] Instance running_StoreLaws : StoreLaws (running_store V).
Proof.
  refine {| store_inv := running_inv; store_view := running_view; store_alias := same_key |}.
  - by_backend; eapply store_Put_inv; eassumption.
  - by_backend; eapply store_Get_inv; eassumption.
  - by_backend; eapply store_Delete_inv; eassumption.
  - intros tok e s r s' tok' e' Hinv Hput Hview.
    apply dispatch_cases in Hput as [(l & l' & -> & -> & Hput)|(c & c' & -> & -> & Hput)];
      destruct (store_Put_view _ _ _ _ _ _ _ Hinv Hput Hview) as [[Heq He]|?];
      [left|by right|left|by right]; (split; [|exact He]); [rewrite Heq; reflexivity|exact Heq].
  - by_backend; eapply store_Get_view; eassumption.
  - by_backend; eapply store_Get_found; eassumption.
  - by_backend; eapply store_Delete_view; eassumption.
  - by_backend; eapply store_Delete_gone; eassumption.
Defined.
End store.

(** ** The identity of a credential

    What the auth file says of the credential a worker presents. A key is looked up
    by its SHA-256 digest, a token by the email Google vouches for: [genuine token
    audience claims] is Google's signature, at some time, on [claims] for
    [audience]. *)

Section file.
Context (genuine : string → string → gmap string claim → Prop).
Context (audience : string).

Inductive key_identity (keys : gmap string staticKeyEntry) (key : string) : Identity → Prop :=
| key_listed k e :
    keys !! k = Some e → hashKey k = hashKey key → identity_wf (identity_of e) →
    key_identity keys key (identity_of e).

Inductive email_vouched (token email : string) : Prop :=
| email_claimed claims :
    genuine token audience claims → claims !! "email_verified" = Some (ClaimBool true) →
    claims !! "email" = Some (ClaimString email) → email ≠ "" → email_vouched token email.

Inductive token_identity (emails : gmap string staticKeyEntry) (token : string) : Identity → Prop :=
| email_listed email e :
    email_vouched token email → emails !! email = Some e → identity_wf (identity_of e) →
    token_identity emails token
      (with_subject (identity_of e) (if decide (ske_Subject e = "") then email else ske_Subject e)).

(** A started authenticator: its table never changes, and holds the entries of the
    file under their digests or emails; what its validator accepts may change with
    time, but is always vouched for. *)
Inductive started_from (file : authFileConfig) : authenticator → Prop :=
| started_static table :
    map_Forall (λ d i, ∃ k e, Keys file !! k = Some e ∧ d = hashKey k ∧
                 i = identity_of e ∧ identity_wf i) table →
    started_from file (StaticMode {| sa_identities := table |})
| started_jwt table validate :
    map_Forall (λ email i, ∃ e, Emails file !! email = Some e ∧
                 i = identity_of e ∧ identity_wf i) table →
    (∀ token email, validate token = Ok email → email_vouched token email) →
    started_from file (JWTMode {| ja_identities := table; ja_validate := validate |}).

(** What stays as it is: the mode and the table. *)
Definition identities (a : authenticator) : gmap string Identity :=
  match a with StaticMode s => sa_identities s | JWTMode j => ja_identities j end.

Definition fixed_part (a : authenticator) : bool * gmap string Identity :=
  (match a with StaticMode _ => false | JWTMode _ => true end, identities a).

(** The identity of a credential, in JWT mode or else in static mode. *)
Definition file_identity (file : authFileConfig) (jwt : bool) (credential : string) (i : Identity) :
    Prop :=
  if jwt then token_identity (Emails file) credential i else key_identity (Keys file) credential i.

Lemma file_identity_wf file jwt credential i : file_identity file jwt credential i → identity_wf i.
Proof. destruct jwt; destruct 1; auto using with_subject_wf. Qed.

Lemma started_identity file a credential i :
  started_from file a → Authenticate a credential = Ok i → Valid i = true →
  file_identity file (fixed_part a).1 credential i.
Proof.
  intros [table Ht|table validate Ht Hv]; simpl.
  - destruct (table !! hashKey credential) as [j|] eqn:E; [|by intros [= <-]].
    intros [= <-] _. apply Ht in E as (k & e & Hk & Hd & -> & Hwf). by econstructor.
  - destruct (validate credential) as [email|] eqn:Ev; [|by intros [= <-]].
    destruct (table !! email) as [j|] eqn:E; [|by intros [= <-]].
    apply Ht in E as (e & He & -> & Hwf). apply Hv in Ev.
    pose proof (email_listed _ _ _ _ Ev He Hwf) as Hi. revert Hi. simpl.
    case_decide as Hs; intros Hi [= <-] _; [exact Hi|].
    by destruct e; unfold with_subject in Hi; simpl in *.
Qed.

(** The laws of an authenticator started from [file], in whose place the
    environment may put another with the same table only. *)
Definition file_laws (file : authFileConfig) (part : bool * gmap string Identity) :
  AuthenticatorLaws authenticator.
Proof.
  refine {| auth_inv a := started_from file a ∧ fixed_part a = part;
            auth_identity := file_identity file part.1 |}.
  - intros a key i [Ha <-]. by apply started_identity.
  - intros key i. apply file_identity_wf.
Defined.
End file.

Lemma buildIdentities_from (m : gmap string staticKeyEntry) order hash r :
  order ≡ₚ map_to_list m → map_Forall (λ _ e, names_utf8 e) m →
  buildIdentities order hash = Ok r →
  map_Forall (λ d i, ∃ k e, m !! k = Some e ∧ d = map_key hash k ∧
                i = identity_of e ∧ identity_wf i) r.
Proof.
  intros Hperm Hutf8 Hb d i Hi.
  destruct (build_loop_sound _ _ _ _ _ _ Hb Hi) as [Hn|(key & e & Hin & Hd & He & ->)].
  - by rewrite lookup_empty in Hn.
  - rewrite Hperm in Hin. apply elem_of_map_to_list in Hin. exists key, e.
    split_and!; [done..|]. apply identity_of_wf; [done|by apply Hutf8 in Hin].
Qed.

Section service.
Context {V CertPool ServerCreds : Type} `{HV : ValkeyServerLaws V} (maphash : N → bytes → N).
Context (env : gmap string string).
Context (ReadFile : string → result error bytes).
Context (range_map : gmap string staticKeyEntry → list (string * staticKeyEntry)).
Context (Hrange : ∀ m, range_map m ≡ₚ map_to_list m).
Context (NewValidator : result error (string → string → result error (gmap string claim))).
(** Google's validator accepts nothing that Google has not signed. *)
Context (genuine : string → string → gmap string claim → Prop).
Context (Hvalidator : ∀ validate token audience claims,
  NewValidator = Ok validate → validate token audience = Ok claims → genuine token audience claims).

Lemma googleTokenValidator_vouched validate audience token email :
  NewValidator = Ok validate → googleTokenValidator validate audience token = Ok email →
  email_vouched genuine audience token email.
Proof.
  intros Hnew. unfold googleTokenValidator.
  destruct (validate token audience) as [claims|] eqn:Ev; [|done].
  destruct (claims !! "email_verified") as [[[]| |]|] eqn:Hver; simpl; try done.
  destruct (claims !! "email") as [[|e|]|] eqn:He; simpl; try done.
  case_decide as Hne; [done|]. intros [= <-]. by eapply email_claimed; [eapply Hvalidator|..].
Qed.

(** The configured mode. *)
Definition jwt_mode (cfg : Config) : bool :=
  bool_decide (cfg_WorkerAuthMode cfg = WorkerAuthModeJWT).

Lemma buildAuthenticator_from_file cfg a :
  buildAuthenticator ReadFile range_map NewValidator cfg = Ok a →
  ∃ file, loadAuthFile ReadFile (cfg_StaticAuthFile cfg) = Ok file ∧
    started_from genuine (cfg_JWTAudience cfg) file a ∧ (fixed_part a).1 = jwt_mode cfg.
Proof.
  unfold buildAuthenticator, jwt_mode. case_decide as Hmode; rewrite result_bind_Ok.
  - intros ([table validate] & Hx & [= <-]).
    apply new_jwt_Ok in Hx as (_ & file & v & Hfile & Hnew & Hb & Hval).
    exists file. split; [exact Hfile|]. split; [|by rewrite bool_decide_eq_true_2].
    simpl in Hval. rewrite Hval. apply started_jwt.
    + eapply map_Forall_impl; [eapply buildIdentities_from; [apply Hrange| |exact Hb]|].
      * by eapply load_auth_utf8.
      * intros email i (k & e & Hk & -> & Hi). by exists e.
    + intros token email. by apply googleTokenValidator_vouched.
  - intros ([table] & Hx & [= <-]). apply new_static_Ok in Hx as (file & Hfile & Hb).
    exists file. split; [exact Hfile|]. split; [|by rewrite bool_decide_eq_false_2].
    apply started_static, (buildIdentities_from (Keys file) _ true _ (Hrange _)); [|exact Hb].
    by eapply load_auth_utf8.
Qed.

(** ** The process, as a system *)

Definition start (clock : nat → Z) (cache : token_store V) : running_store V :=
  match cache with
  | LocalCache c => RunLocal {| ls_cache := c; ls_clock := clock; ls_reads := 0 |}
  | ValkeyCache s v => RunValkey {| vc_store := s; vc_ctx := None; vc_server := v |}
  end.

(** As it begins to serve: no call yet. *)
Definition boot (clock : nat → Z) (s : serving (ServerCreds := ServerCreds) (V := V)) :
    system (S := running_store V) (A := authenticator) :=
  {| sys_store := start clock (sv_cache s); sys_auth := sv_authenticator s;
     sys_threads := []; sys_hist := [] |}.

(** A Valkey server that holds no task token yet. The history of a process that
    joins a fleet is the history of the fleet. *)
Definition fresh_store (cache : token_store V) : Prop :=
  match cache with LocalCache _ => True | ValkeyCache _ v => ∀ key, vk_view v key = None end.

#[local] Existing Instance running_StoreLaws.

Lemma New_view_empty ttl maxSize seed token :
  Cache_view maphash (New ttl maxSize seed) token = None.
Proof.
  apply eq_None_not_Some. intros [e He].
  apply (Cache_view_Some maphash (perShard maxSize)) in He as (it & Hit & _); [|apply New_wf].
  unfold token_list in Hit. destruct (_ !! _) as [sh|] eqn:E; [|by apply elem_of_nil in Hit].
  apply lookup_replicate in E as [-> _]. by apply elem_of_nil in Hit.
Qed.

Lemma boot_initial laws clock s :
  (∀ c, sv_cache s = LocalCache c → ∃ ttl maxSize seed, c = New ttl maxSize seed) →
  fresh_store (sv_cache s) → auth_inv (AuthenticatorLaws := laws) (sv_authenticator s) →
  initial (HS := running_StoreLaws maphash) (HA := laws) (boot clock s).
Proof.
  intros Hlocal Hfresh Htable. split; [| |exact Htable|reflexivity|reflexivity].
  - simpl. destruct (sv_cache s) as [c|vs v] eqn:E; simpl; [|exact I].
    destruct (Hlocal c eq_refl) as (ttl & maxSize & seed & ->). eexists. apply New_wf.
  - intros token. simpl. destruct (sv_cache s) as [c|vs v] eqn:E; simpl.
    + destruct (Hlocal c eq_refl) as (ttl & maxSize & seed & ->). apply New_view_empty.
    + unfold conn_view. simpl in *. by rewrite Hfresh.
Qed.

(** The rest of the outside world of [run]. *)
Context (NewPool SystemPool : bytes → option CertPool).
Context (NewClient_error : string → list (DialOption (CertPool := CertPool)) → option error).
Context (NewValkeyClient :
  option (ValkeyTLS CertPool) → list string → string → Z → Z → result error V).
Context (NewServerTLSFromFile : string → string → result error ServerCreds).
Context (Listen : string → result error unit).
Context (MakeSeed : N) (now : Z) (outcome : ending).

#[local] Abbreviation this_run := (run env ReadFile range_map NewValidator NewPool SystemPool
  NewClient_error NewValkeyClient NewServerTLSFromFile Listen MakeSeed now outcome).

Lemma buildTokenCache_local cfg c :
  buildTokenCache ReadFile SystemPool NewValkeyClient MakeSeed now cfg = Ok (LocalCache c) →
  ∃ ttl maxSize seed, c = New ttl maxSize seed.
Proof.
  unfold buildTokenCache. case_decide; [|intros [= <-]; by eexists _, _, _].
  intros (tls & _ & Hb)%result_bind_Ok. destruct (NewValkeyStore _ _ _) as [[vs v]|[err ?]]; done.
Qed.

(** C1. From the auth file to the wire. Whatever a started process serves, on an
    empty token store of either kind and in either authentication mode, however its
    calls interleave and whatever expires or is answered: each call that reaches the
    Temporal server is authorised, as the identity of the very credential it
    presents. In static mode this is the identity of the auth file's entry for that
    key (or for one with the same SHA-256 digest); in JWT mode that of the entry for
    the verified email in claims that Google has signed for the configured audience. *)
Theorem served_calls_within_auth_file cfg file s clock σ pre tid uctx rpc req resp err post :
  Load env = Ok cfg → loadAuthFile ReadFile (cfg_StaticAuthFile cfg) = Ok file →
  Serve s ∈ this_run.1 → fresh_store (sv_cache s) →
  let laws := file_laws genuine (cfg_JWTAudience cfg) file
                (jwt_mode cfg, identities (sv_authenticator s)) in
  rtc (step (HS := running_StoreLaws maphash) (HA := laws) (sv_server s)) (boot clock s) σ →
  sys_hist σ = pre ++ (tid, OUpstream uctx rpc req resp err) :: post →
  authorized (HS := running_StoreLaws maphash) (HA := laws) pre tid uctx rpc req ∧
  ∃ key i, extractAPIKey uctx = Some key ∧ ctx_identity uctx = Some i ∧
    (if jwt_mode cfg then token_identity genuine (cfg_JWTAudience cfg) (Emails file) key i
     else key_identity (Keys file) key i).
Proof.
  intros Hload Hfile (cfg' & conn & Hload' & _ & Hauth & Hdial & Hcache & _)%run_serves Hfresh laws
    Hsteps Heq.
  rewrite Hload in Hload'. injection Hload' as <-.
  apply buildAuthenticator_from_file in Hauth as (file' & Hfile' & Hstarted & Hmode).
  rewrite Hfile in Hfile'. injection Hfile' as <-.
  set (Hclient := Dial_client _ _ _ _ _ _ Hdial : UpstreamClient (Upstream (sv_server s))).
  assert (Hreach : reachable (HS := running_StoreLaws maphash) (HA := laws) (sv_server s) σ).
  { exists (boot clock s). split; [|exact Hsteps]. apply boot_initial; [|exact Hfresh|].
    - intros c Hc. rewrite Hc in Hcache. by eapply buildTokenCache_local.
    - split; [exact Hstarted|]. rewrite <- Hmode. by destruct (sv_authenticator s). }
  assert (Hauthorized : authorized (HS := running_StoreLaws maphash) (HA := laws) pre tid uctx rpc req)
    by exact (si_hist _ _ (reachable_inv _ _ Hreach) _ _ _ _ Heq).
  split; [exact Hauthorized|].
  destruct Hauthorized as (p & key & i & _ & _ & Hkey & _ & _ & Hi & Hctx & _). by exists key, i.
Qed.
End service.

(** ** A concrete process

    The one of [Main], serving a poll. *)

#[local] Existing Instance Valkey.w_valkey.
#[local] Existing Instance Valkey.w_valkey_laws.

Definition w_maphash (_ : N) (b : bytes) : N := N.of_nat (length b).

(** In static mode nothing needs to be signed. *)
Definition w_genuine (_ _ : string) (_ : gmap string claim) : Prop := False.

#[local] Abbreviation w_laws :=
  (file_laws w_genuine (cfg_JWTAudience Main.w_config) Auth.w_auth_file
     (jwt_mode Main.w_config, identities (sv_authenticator Main.w_serving))).

Definition w_running : system (S := running_store Valkey.w_server) (A := authenticator) :=
  let step := run_effect (H := running_Store w_maphash) 0 w_upstream in
  step (step (arrive CallSpec.w_server w_ctx w_poll (boot (λ n, Z.of_nat n) Main.w_serving))).

Definition w_served_identity : Identity := identity_of Auth.w_key_entry.

Definition w_uctx : Context := uc_context (WithIdentity w_ctx w_served_identity).

Lemma w_running_hist :
  sys_hist w_running =
  [(0%nat, OAuthenticate "key" (Ok w_served_identity))] ++
  (0%nat, OUpstream w_uctx "PollActivityTaskQueue" w_poll w_poll_response None) :: [].
Proof. vm_compute. reflexivity. Qed.

Lemma w_running_reached :
  rtc (step (HS := running_StoreLaws w_maphash) (HA := w_laws) CallSpec.w_server)
    (boot (λ n, Z.of_nat n) Main.w_serving) w_running.
Proof.
  unfold w_running. do 2 (eapply rtc_r; [|apply step_effect, w_upstream_typed]).
  eapply rtc_r; [apply rtc_refl|apply step_arrive].
Qed.

Lemma w_no_validator validate token audience claims :
  Err (A := string → string → result error (gmap string claim)) "no validator" = Ok validate →
  validate token audience = Ok claims → w_genuine token audience claims.
Proof. discriminate. Qed.

Lemma served_calls_within_auth_file_witness :
  authorized (HS := running_StoreLaws w_maphash) (HA := w_laws)
    [(0%nat, OAuthenticate "key" (Ok w_served_identity))] 0 w_uctx "PollActivityTaskQueue" w_poll ∧
  ∃ key i, extractAPIKey w_uctx = Some key ∧ ctx_identity w_uctx = Some i ∧
    key_identity (Keys Auth.w_auth_file) key i.
Proof.
  exact (served_calls_within_auth_file (CertPool := unit) (ServerCreds := unit) w_maphash w_env
    Auth.w_read map_to_list Auth.w_range (Err "no validator") w_genuine w_no_validator
    (λ _, None) (λ _, None) (λ _ _, None)
    (λ _ _ _ _ _, Err "no valkey") (λ _ _, Err "no certificate") (λ _, Ok tt) 7 0 Signalled
    Main.w_config Auth.w_auth_file Main.w_serving (λ n, Z.of_nat n) w_running _ _ _ _ _ _ _ _
    Main.w_Load (Auth.w_load (cfg_StaticAuthFile Main.w_config)) Main.w_serves I w_running_reached w_running_hist).
Defined.
