(* ===== verification/Examples.v ===== *)
(** * The verification programs ([examples/])

    [examples/internal/verifytls/verifytls.go], [examples/verify-worker/main.go]
    and [examples/verify-client/main.go]: a worker and a client that exercise the
    proxy end to end. What they do with the Temporal SDK, the metadata server and
    the log is the list of events of a run; [log.Fatal] ends a run without running
    its deferred calls. The theorems tie them to the proxy: the worker's credential
    is one the proxy reads, and the workflow that is meant to be blocked is. *)

From S2P Require Import Prelude Utf8 Json TemporalApi RpcPolicy Scope Store Auth Grpc Interceptor.
From S2P Require Import Server CallTrace GoStd CallSpec.
From stdpp Require Import pretty.
From Stdlib Require Import Ascii.
Local Open Scope string_scope.
Local Open Scope list_scope.
Local Open Scope Z_scope.
Local Open Scope go_scope.

(** ** Environment variables *)

Definition Getenv (env : gmap string string) (key : string) : string := default "" (env !! key).

(** [getEnv] of both programs. *)
Definition getEnv (env : gmap string string) (key def : string) : string :=
  let v := Getenv env key in if decide (v ≠ "") then v else def.

(** ** TLS options ([verifytls.go]) *)

Inductive TLSOptionsError :=
| InvalidTLSMode (mode : string)
| InvalidSkipVerify (v : string)
| ReadingCAFile (err : error)
| NoCertificatesInCAFile (file : string).

(** [tls.Config]; no [RootCAs] means the system's. *)
Record TLSConfig {CertPool : Type} := {
  tc_InsecureSkipVerify : bool;
  tc_ServerName : string;
  tc_RootCAs : option CertPool;
}.
Arguments TLSConfig : clear implicits.

(** [client.ConnectionOptions]: plaintext without a TLS configuration. *)
Record SDKConnectionOptions {CertPool : Type} := { co_TLS : option (TLSConfig CertPool) }.
Arguments SDKConnectionOptions : clear implicits.

Section tls.
Context {CertPool : Type} (env : gmap string string).
Context (ReadFile : string → result error bytes) (AppendCertsFromPEM : bytes → option CertPool).

Definition ConnectionOptions : result TLSOptionsError (SDKConnectionOptions CertPool) :=
  let mode := Getenv env "VERIFY_TLS_MODE" in
  if decide (mode = "" ∨ mode = "plaintext") then Ok {| co_TLS := None |}
  else if decide (mode ≠ "tls") then Err (InvalidTLSMode mode)
  else
    let? skipVerify :=
      let v := Getenv env "VERIFY_TLS_SKIP_VERIFY" in
      if decide (v ≠ "") then
        match ParseBool v with Some b => Ok b | None => Err (InvalidSkipVerify v) end
      else Ok false in
    let tlsConfig roots :=
      {| tc_InsecureSkipVerify := skipVerify;
         tc_ServerName := Getenv env "VERIFY_TLS_SERVER_NAME"; tc_RootCAs := roots |} in
    let caFile := Getenv env "VERIFY_TLS_CA_FILE" in
    if decide (caFile ≠ "") then
      match ReadFile caFile with
      | Err err => Err (ReadingCAFile err)
      | Ok pem =>
          match AppendCertsFromPEM pem with
          | None => Err (NoCertificatesInCAFile caFile)
          | Some pool => Ok {| co_TLS := Some (tlsConfig (Some pool)) |}
          end
      end
    else Ok {| co_TLS := Some (tlsConfig None) |}.

(** The settings the options stand for, or the first that does not parse. *)
Theorem ConnectionOptions_exact :
  let get := Getenv env in
  match ConnectionOptions with
  | Ok {| co_TLS := None |} => get "VERIFY_TLS_MODE" ∈ [""; "plaintext"]
  | Ok {| co_TLS := Some c |} =>
      get "VERIFY_TLS_MODE" = "tls" ∧ tc_ServerName c = get "VERIFY_TLS_SERVER_NAME" ∧
      (tc_InsecureSkipVerify c = true ↔ ParseBool (get "VERIFY_TLS_SKIP_VERIFY") = Some true) ∧
      match tc_RootCAs c with
      | None => get "VERIFY_TLS_CA_FILE" = ""
      | Some pool => ∃ pem, ReadFile (get "VERIFY_TLS_CA_FILE") = Ok pem ∧
                            AppendCertsFromPEM pem = Some pool
      end
  | Err (InvalidTLSMode mode) => mode = get "VERIFY_TLS_MODE" ∧ mode ∉ [""; "plaintext"; "tls"]
  | Err (InvalidSkipVerify v) => v = get "VERIFY_TLS_SKIP_VERIFY" ∧ v ≠ "" ∧ ParseBool v = None
  | Err (ReadingCAFile err) => ReadFile (get "VERIFY_TLS_CA_FILE") = Err err
  | Err (NoCertificatesInCAFile file) =>
      file = get "VERIFY_TLS_CA_FILE" ∧ ∃ pem, ReadFile file = Ok pem ∧ AppendCertsFromPEM pem = None
  end.
Proof.
  unfold ConnectionOptions. cbn zeta.
  case_decide as Hplain; [set_solver|]. case_decide as Hmode; [set_solver|].
  rewrite Hmode.
  destruct (decide (Getenv env "VERIFY_TLS_SKIP_VERIFY" ≠ "")) as [Hskip|Hskip].
  - destruct (ParseBool (Getenv env "VERIFY_TLS_SKIP_VERIFY")) as [b|] eqn:Eb; [|done]. simpl.
    case_decide as Hca; [|simpl; naive_solver].
    destruct (ReadFile _) as [pem|err] eqn:Er; [|done].
    destruct (AppendCertsFromPEM pem) as [pool|] eqn:Ep; simpl; naive_solver.
  - apply dec_stable in Hskip. rewrite Hskip. simpl.
    case_decide as Hca; [|simpl; naive_solver].
    destruct (ReadFile _) as [pem|err] eqn:Er; [|done].
    destruct (AppendCertsFromPEM pem) as [pool|] eqn:Ep; simpl; naive_solver.
Qed.
End tls.

(** ** What the programs do *)

(** Why [log.Fatal] ends a program. *)
Inductive fatal :=
| FatalInvalidAuthMode (mode : string)
| FatalMissingAPIKey
| FatalNoCloudRunToken (audience : string)
| FatalConfiguringTLS (err : TLSOptionsError)
| FatalCreatingClient (err : error)
| FatalWorkerRun (err : error)
| FatalStartingWorkflow (workflow : string) (err : error)
| FatalWorkflowFailed (err : error)
| FatalReadingHistory (err : error)
| FatalActivityWasScheduled.

(** [client.Options] *)
Record ClientOptions {CertPool : Type} := {
  opt_HostPort : string;
  opt_Namespace : string;
  opt_APIKey : option string;
  opt_ConnectionOptions : SDKConnectionOptions CertPool;
}.
Arguments ClientOptions : clear implicits.

(** [client.StartWorkflowOptions] *)
Record StartWorkflowOptions := { swo_ID : string; swo_TaskQueue : string }.

(** [Logged]: the beginning of the message and its arguments. *)
Inductive event {CertPool : Type} :=
| MetadataRequested (url : string) (header : string * string)
| BodyClosed
| Logged (lines : list string)
| ClientDialed (opts : ClientOptions CertPool)
| WorkerCreated (taskQueue : string)
| Registered (name : string)
| WorkerRan
| WorkflowStarted (opts : StartWorkflowOptions) (workflow arg : string)
| Slept (d : Z)
| WorkflowTerminated (id reason : string)
| ClientClosed.
Arguments event : clear implicits.

(** What a part of a program did, and how it ended. *)
Abbreviation script P A := (list (event P) * result fatal A)%type.

Definition ret {P A} (a : A) : script P A := ([], Ok a).
Definition die {P A} (f : fatal) : script P A := ([], Err f).
Definition emit {P} (e : event P) : script P unit := ([e], Ok tt).

Definition seq {P A B} (s : script P A) (k : A → script P B) : script P B :=
  match s.2 with
  | Ok a => (s.1 ++ (k a).1, (k a).2)
  | Err f => (s.1, Err f)
  end.

Notation "'do' x ← s ; k" := (seq s (λ x, k))
  (at level 20, x name, s at level 100, k at level 200, right associativity) : go_scope.
Notation "'do_' s ; k" := (seq s (λ _, k))
  (at level 20, s at level 100, k at level 200, right associativity) : go_scope.

(** A deferred call runs when the function returns, not when the process exits. *)
Definition defer {P A} (e : event P) (s : script P A) : script P A :=
  match s.2 with Ok _ => (s.1 ++ [e], s.2) | Err _ => s end.

(** ** The worker's credential ([verify-worker]) *)

Definition authModeStatic : string := "static".
Definition authModeJWT : string := "jwt".

(** [url.QueryEscape]: unreserved bytes, ["+"] for a space, ["%XX"] for the rest. *)
Definition shouldEscape (b : Byte.byte) : bool :=
  let c := code b in
  negb (in_range 0x30 0x39 c || in_range 0x41 0x5A c || in_range 0x61 0x7A c ||
        bool_decide (b ∈ lit "-_.~")).

Definition upperhex (n : Z) : Byte.byte := byte_of (if n <? 10 then 0x30 + n else 0x37 + n).

Definition escape_byte (b : Byte.byte) : bytes :=
  if decide (b = Byte.x20) then [Byte.x2b]
  else if shouldEscape b then [Byte.x25; upperhex (code b / 16); upperhex (code b mod 16)]
  else [b].

Definition QueryEscape (s : string) : string :=
  string_of_bytes (bytes_of_string s ≫= escape_byte).

(** The response of the metadata server. *)
Record http_response := { resp_StatusCode : Z; resp_Status : string; resp_Body : result error bytes }.

Definition metadataURL : string :=
  "http://metadata.google.internal/computeMetadata/v1/instance/service-accounts/default/identity".

Section credential.
Context {CertPool : Type} (env : gmap string string).
(** [http.NewRequestWithContext] of a URL, and the client's [Do] within two
    seconds. *)
Context (NewRequest_error : string → goerror).
Context (Do : string → result error http_response).

Definition getCloudRunToken (audience : string) : script CertPool (option string) :=
  let url := metadataURL +:+ "?audience=" +:+ QueryEscape audience in
  match NewRequest_error url with
  | Some _ => ret None
  | None =>
      do_ emit (MetadataRequested url ("Metadata-Flavor", "Google"));
      match Do url with
      | Err _ => ret None
      | Ok resp =>
          defer BodyClosed
            match resp_Body resp with
            | Err err =>
                do_ emit (Logged ["Cloud Run identity token: reading metadata response"; err]);
                ret None
            | Ok body =>
                if decide (resp_StatusCode resp ≠ 200) then
                  do_ emit (Logged ["Cloud Run identity token unavailable"; resp_Status resp;
                                    TrimSpace (string_of_bytes body)]);
                  ret None
                else ret (Some (TrimSpace (string_of_bytes body)))
            end
      end
  end.

Definition resolveCredential (authMode proxyAddr : string) : script CertPool string :=
  if decide (authMode = authModeStatic) then
    let apiKey := Getenv env "VERIFY_API_KEY" in
    if decide (apiKey = "") then die FatalMissingAPIKey else ret apiKey
  else if decide (authMode = authModeJWT) then
    let audience := getEnv env "VERIFY_CLOUDRUN_TOKEN_AUDIENCE" proxyAddr in
    do cloudRunToken ← getCloudRunToken audience;
    match cloudRunToken with
    | None => die (FatalNoCloudRunToken audience)
    | Some token => ret token
    end
  else die (FatalInvalidAuthMode authMode).
End credential.

(** ** The worker's program *)

Section worker.
Context {CertPool : Type} (env : gmap string string).
Context (ReadFile : string → result error bytes) (AppendCertsFromPEM : bytes → option CertPool).
Context (NewRequest_error : string → goerror) (Do : string → result error http_response).
(** [client.Dial], and [Run] of the worker. *)
Context (Dial_error : ClientOptions CertPool → goerror) (Run_error : goerror).

Definition worker_main : script CertPool unit :=
  let proxyAddr := getEnv env "VERIFY_PROXY_ADDR" "127.0.0.1:7243" in
  let namespace := getEnv env "VERIFY_NAMESPACE" "default" in
  let taskQueue := getEnv env "VERIFY_TASK_QUEUE" "proxy-test-queue" in
  let authMode := getEnv env "VERIFY_AUTH_MODE" authModeStatic in
  do credential ← resolveCredential env NewRequest_error Do authMode proxyAddr;
  match ConnectionOptions env ReadFile AppendCertsFromPEM with
  | Err err => die (FatalConfiguringTLS err)
  | Ok connOpts =>
      let opts := {| opt_HostPort := proxyAddr; opt_Namespace := namespace;
                     opt_APIKey := Some credential; opt_ConnectionOptions := connOpts |} in
      do_ emit (ClientDialed opts);
      match Dial_error opts with
      | Some err => die (FatalCreatingClient err)
      | None =>
          defer ClientClosed
            (do_ emit (WorkerCreated taskQueue);
             do_ emit (Registered "EchoWorkflow");
             do_ emit (Registered "CrossQueueWorkflow");
             do_ emit (Registered "EchoActivity");
             do_ emit (Logged ["verify-worker starting"; proxyAddr; namespace; taskQueue]);
             do_ emit WorkerRan;
             match Run_error with Some err => die (FatalWorkerRun err) | None => ret tt end)
      end
  end.
End worker.

(** ** The workflows

    Workflow code runs against the SDK, which turns what it asks for into
    commands. *)

(** [workflow.ActivityOptions] *)
Record ActivityOptions := { ao_TaskQueue : string; ao_StartToCloseTimeout : Z }.

(** [ExecuteActivity] and [Get]: the result variable and the error. *)
Inductive workflowE : Type → Type :=
| ExecuteActivity (opts : ActivityOptions) (activity arg : string) : workflowE (string * goerror).

Definition EchoWorkflow (msg : string) : prog workflowE (string * goerror) :=
  trigger (ExecuteActivity {| ao_TaskQueue := ""; ao_StartToCloseTimeout := minute |}
             "EchoActivity" msg).

Definition EchoActivity (msg : string) : string * goerror := (msg, None).

Definition CrossQueueWorkflow (msg : string) : prog workflowE (string * goerror) :=
  trigger (ExecuteActivity {| ao_TaskQueue := "forbidden-queue"; ao_StartToCloseTimeout := minute |}
             "EchoActivity" msg).

(** ** The client's program ([verify-client]) *)

Record WorkflowRun := { wr_ID : string; wr_RunID : string }.

Inductive EventType :=
| EVENT_TYPE_ACTIVITY_TASK_SCHEDULED
| OtherEventType (n : Z).

#[global] Instance EventType_eq_dec : EqDecision EventType.
Proof. solve_decision. Defined.

Section client.
Context {CertPool : Type} (env : gmap string string).
Context (ReadFile : string → result error bytes) (AppendCertsFromPEM : bytes → option CertPool).
Context (Dial_error : ClientOptions CertPool → goerror).
(** [time.Now().UnixNano()] at the two workflow starts, and the SDK client: starting
    a workflow, the result of a run, what the iterator over its history yields,
    terminating it. *)
Context (now1 now2 : Z).
Context (ExecuteWorkflow : StartWorkflowOptions → string → string → result error WorkflowRun).
Context (GetResult : WorkflowRun → result error string).
Context (GetWorkflowHistory : WorkflowRun → list (result error EventType)).
Context (TerminateWorkflow : WorkflowRun → string → goerror).

(** [for iter.HasNext()], with [scheduledActivity] so far. *)
Fixpoint scan_history (events : list (result error EventType)) (scheduledActivity : bool) :
    result error bool :=
  match events with
  | [] => Ok scheduledActivity
  | Err err :: _ => Err err
  | Ok e :: events' =>
      scan_history events'
        (if decide (e = EVENT_TYPE_ACTIVITY_TASK_SCHEDULED) then true else scheduledActivity)
  end.

Definition cleanup_reason : string :=
  "verify-client: cross-queue command correctly blocked, cleaning up".

Definition verifyCrossQueueBlocked (taskQueue : string) : script CertPool unit :=
  let opts := {| swo_ID := "verify-cross-queue-" +:+ pretty now2; swo_TaskQueue := taskQueue |} in
  do_ emit (WorkflowStarted opts "CrossQueueWorkflow" "hello from verify-client");
  match ExecuteWorkflow opts "CrossQueueWorkflow" "hello from verify-client" with
  | Err err => die (FatalStartingWorkflow "CrossQueueWorkflow" err)
  | Ok run =>
      do_ emit (Logged ["started CrossQueueWorkflow"]);
      do_ emit (Slept (5 * second));
      match scan_history (GetWorkflowHistory run) false with
      | Err err => die (FatalReadingHistory err)
      | Ok scheduledActivity =>
          do_ emit (WorkflowTerminated (wr_ID run) cleanup_reason);
          do_ match TerminateWorkflow run cleanup_reason with
              | Some err => emit (Logged ["warning: failed to terminate CrossQueueWorkflow"; err])
              | None => ret tt
              end;
          if (scheduledActivity : bool) then die FatalActivityWasScheduled
          else emit (Logged ["confirmed"])
      end
  end.

Definition client_main : script CertPool unit :=
  let upstreamAddr := getEnv env "VERIFY_UPSTREAM_ADDR" "127.0.0.1:7233" in
  let namespace := getEnv env "VERIFY_NAMESPACE" "default" in
  let taskQueue := getEnv env "VERIFY_TASK_QUEUE" "proxy-test-queue" in
  match ConnectionOptions env ReadFile AppendCertsFromPEM with
  | Err err => die (FatalConfiguringTLS err)
  | Ok connOpts =>
      let opts := {| opt_HostPort := upstreamAddr; opt_Namespace := namespace;
                     opt_APIKey := None; opt_ConnectionOptions := connOpts |} in
      do_ emit (ClientDialed opts);
      match Dial_error opts with
      | Some err => die (FatalCreatingClient err)
      | None =>
          defer ClientClosed
            (let start := {| swo_ID := "verify-" +:+ pretty now1; swo_TaskQueue := taskQueue |} in
             do_ emit (WorkflowStarted start "EchoWorkflow" "hello from verify-client");
             match ExecuteWorkflow start "EchoWorkflow" "hello from verify-client" with
             | Err err => die (FatalStartingWorkflow "EchoWorkflow" err)
             | Ok run =>
                 match GetResult run with
                 | Err err => die (FatalWorkflowFailed err)
                 | Ok result =>
                     do_ emit (Logged ["workflow result"; result]);
                     verifyCrossQueueBlocked taskQueue
                 end
             end)
      end
  end.
End client.

(** ** Properties *)

Lemma elem_of_seq {P A B} (e : event P) (s : script P A) (k : A → script P B) :
  e ∈ (seq s k).1 ↔ e ∈ s.1 ∨ ∃ a, s.2 = Ok a ∧ e ∈ (k a).1.
Proof. unfold seq. destruct s as [l [a|f]]; simpl; [rewrite elem_of_app|]; naive_solver. Qed.

Lemma elem_of_defer {P A} (e d : event P) (s : script P A) :
  e ∈ (defer d s).1 → e ∈ s.1 ∨ e = d.
Proof.
  unfold defer. destruct s as [l [a|f]]; simpl; [|by left].
  rewrite elem_of_app, list_elem_of_singleton. naive_solver.
Qed.

(** The loop over the history, against its reference. *)
Lemma scan_history_Ok events b0 b :
  scan_history events b0 = Ok b ↔
  (∀ r, r ∈ events → is_ok r = true) ∧
  b = b0 || bool_decide (Ok EVENT_TYPE_ACTIVITY_TASK_SCHEDULED ∈ events).
Proof.
  revert b0. induction events as [|[e|err] events IH]; intros b0; simpl.
  - rewrite orb_false_r. split; [intros [= ->]; split; [by intros r ?%elem_of_nil|done]|].
    by intros [_ ->].
  - rewrite IH.
    assert (Hall : (∀ r, r ∈ @Ok error _ e :: events → is_ok r = true) ↔
                   ∀ r, r ∈ events → is_ok r = true).
    { split; [intros H r Hr; apply H; by constructor|]. intros H r [->|Hr]%elem_of_cons; auto. }
    rewrite Hall.
    assert (Hb : (if decide (e = EVENT_TYPE_ACTIVITY_TASK_SCHEDULED) then true else b0) ||
        bool_decide (Ok EVENT_TYPE_ACTIVITY_TASK_SCHEDULED ∈ events) =
      b0 || bool_decide (Ok EVENT_TYPE_ACTIVITY_TASK_SCHEDULED ∈ @Ok error _ e :: events)).
    { rewrite (bool_decide_ext (Ok EVENT_TYPE_ACTIVITY_TASK_SCHEDULED ∈ _ :: events) (e = EVENT_TYPE_ACTIVITY_TASK_SCHEDULED ∨
        Ok EVENT_TYPE_ACTIVITY_TASK_SCHEDULED ∈ events)) by (rewrite elem_of_cons; naive_solver).
      rewrite bool_decide_or. destruct (decide (e = EVENT_TYPE_ACTIVITY_TASK_SCHEDULED)) as [He|He].
      - rewrite (bool_decide_eq_true_2 (e = _) He). by destruct b0.
      - rewrite (bool_decide_eq_false_2 (e = _) He). by destruct b0. }
    by rewrite Hb.
  - split; [done|]. intros [Hall _]. by specialize (Hall (Err err) (list_elem_of_here _ _)).
Qed.

Section client_properties.
Context {CertPool : Type} (now2 : Z).
Context (ExecuteWorkflow : StartWorkflowOptions → string → string → result error WorkflowRun).
Context (GetWorkflowHistory : WorkflowRun → list (result error EventType)).
Context (TerminateWorkflow : WorkflowRun → string → goerror).

#[local] Abbreviation check := (verifyCrossQueueBlocked (CertPool := CertPool) now2 ExecuteWorkflow
  GetWorkflowHistory TerminateWorkflow).
#[local] Abbreviation started taskQueue run :=
  (ExecuteWorkflow {| swo_ID := "verify-cross-queue-" +:+ pretty now2; swo_TaskQueue := taskQueue |}
     "CrossQueueWorkflow" "hello from verify-client" = Ok run).

Lemma check_result taskQueue :
  (check taskQueue).2 =
  match ExecuteWorkflow {| swo_ID := "verify-cross-queue-" +:+ pretty now2; swo_TaskQueue := taskQueue |}
          "CrossQueueWorkflow" "hello from verify-client" with
  | Err err => Err (FatalStartingWorkflow "CrossQueueWorkflow" err)
  | Ok run =>
      match scan_history (GetWorkflowHistory run) false with
      | Err err => Err (FatalReadingHistory err)
      | Ok true => Err FatalActivityWasScheduled
      | Ok false => Ok tt
      end
  end.
Proof.
  unfold verifyCrossQueueBlocked. simpl. destruct (ExecuteWorkflow _ _ _) as [run|err]; [|done]. simpl.
  destruct (scan_history _ _) as [[]|err]; simpl; [..|done]; by destruct (TerminateWorkflow _ _).
Qed.

(** The verdict of the client is that of the history: it confirms exactly if the
    whole history could be read and no activity was scheduled in it, and raises
    the alarm exactly if one was; either way the workflow has been terminated. *)
Theorem client_verdict_exact taskQueue :
  ((check taskQueue).2 = Ok tt ↔
   ∃ run, started taskQueue run ∧ (∀ r, r ∈ GetWorkflowHistory run → is_ok r = true) ∧
     Ok EVENT_TYPE_ACTIVITY_TASK_SCHEDULED ∉ GetWorkflowHistory run) ∧
  ((check taskQueue).2 = Err FatalActivityWasScheduled ↔
   ∃ run, started taskQueue run ∧ (∀ r, r ∈ GetWorkflowHistory run → is_ok r = true) ∧
     Ok EVENT_TYPE_ACTIVITY_TASK_SCHEDULED ∈ GetWorkflowHistory run) ∧
  (∀ run, started taskQueue run → (∀ r, r ∈ GetWorkflowHistory run → is_ok r = true) →
   WorkflowTerminated (wr_ID run) cleanup_reason ∈ (check taskQueue).1).
Proof.
  rewrite !check_result. split_and!.
  - destruct (ExecuteWorkflow _ _ _) as [run|err]; [|naive_solver].
    pose proof (scan_history_Ok (GetWorkflowHistory run) false) as Hs. simpl in Hs.
    destruct (scan_history _ _) as [b|err].
    + destruct (proj1 (Hs b) eq_refl) as [Hall ->]. case_bool_decide; naive_solver.
    + split; [done|]. intros (? & [= <-] & Hall & _). discriminate (proj2 (Hs _) (conj Hall eq_refl)).
  - destruct (ExecuteWorkflow _ _ _) as [run|err]; [|naive_solver].
    pose proof (scan_history_Ok (GetWorkflowHistory run) false) as Hs. simpl in Hs.
    destruct (scan_history _ _) as [b|err].
    + destruct (proj1 (Hs b) eq_refl) as [Hall ->]. case_bool_decide; naive_solver.
    + split; [done|]. intros (? & [= <-] & Hall & _). discriminate (proj2 (Hs _) (conj Hall eq_refl)).
  - intros run Hstart Hall. unfold verifyCrossQueueBlocked. rewrite Hstart. simpl.
    rewrite (proj2 (scan_history_Ok (GetWorkflowHistory run) false _) (conj Hall eq_refl)). simpl.
    rewrite !elem_of_cons. by right; right; right; left.
Qed.
End client_properties.

(** ** The worker and the proxy *)

Section worker_properties.
Context {CertPool : Type} (env : gmap string string).
Context (ReadFile : string → result error bytes) (AppendCertsFromPEM : bytes → option CertPool).
Context (NewRequest_error : string → goerror) (Do : string → result error http_response).
Context (Dial_error : ClientOptions CertPool → goerror) (Run_error : goerror).

#[local] Abbreviation main := (worker_main env ReadFile AppendCertsFromPEM NewRequest_error Do
  Dial_error Run_error).

(** The credential of the configured mode. *)
Inductive credential_of : string → Prop :=
| credential_static :
    getEnv env "VERIFY_AUTH_MODE" "static" = "static" → Getenv env "VERIFY_API_KEY" ≠ "" →
    credential_of (Getenv env "VERIFY_API_KEY")
| credential_jwt url status body :
    getEnv env "VERIFY_AUTH_MODE" "static" = "jwt" →
    Do url = Ok {| resp_StatusCode := 200; resp_Status := status; resp_Body := Ok body |} →
    credential_of (TrimSpace (string_of_bytes body)).

Lemma resolveCredential_Ok proxyAddr cred :
  (resolveCredential (CertPool := CertPool) env NewRequest_error Do
     (getEnv env "VERIFY_AUTH_MODE" authModeStatic) proxyAddr).2 = Ok cred → credential_of cred.
Proof.
  unfold resolveCredential, authModeStatic, authModeJWT.
  case_decide as Hs; [|case_decide as Hj; [|done]].
  - case_decide as Hk; [done|]. intros [= <-]. by apply credential_static.
  - unfold getCloudRunToken. destruct (NewRequest_error _); [done|]. unfold seq at 2.
    simpl. destruct (Do _) as [[code status [body|err]]|err] eqn:Ed; simpl; [|done..].
    case_decide as Hcode; simpl; [done|]. intros [= <-]. subst code.
    by eapply credential_jwt.
Qed.

Lemma getCloudRunToken_no_dial audience opts :
  ClientDialed opts ∉ (getCloudRunToken (CertPool := CertPool) NewRequest_error Do audience).1.
Proof.
  unfold getCloudRunToken. destruct (NewRequest_error _); simpl; [apply not_elem_of_nil|].
  destruct (Do _) as [[code status [body|err]]|err]; simpl; [case_decide|..]; simpl;
    intros Hin; inv_member Hin.
Qed.

Lemma resolveCredential_no_dial mode proxyAddr opts :
  ClientDialed opts ∉
    (resolveCredential (CertPool := CertPool) env NewRequest_error Do mode proxyAddr).1.
Proof.
  unfold resolveCredential. case_decide; [case_decide; apply not_elem_of_nil|].
  case_decide; [|apply not_elem_of_nil].
  intros [Hin|(t & _ & Hin)]%elem_of_seq; [by apply getCloudRunToken_no_dial in Hin|].
  destruct t; by apply elem_of_nil in Hin.
Qed.

(** C39. The worker connects only with the credential of its configured mode, and the
    proxy reads that very credential off its calls, as long as it is not empty:
    the SDK sends it as the one "authorization" value, after "Bearer ". *)
Theorem worker_credential_reaches_proxy (sdk_metadata : string → MD) opts ctx :
  (∀ cred, sdk_metadata cred !! "authorization" = Some ["Bearer " +:+ cred]) →
  ClientDialed opts ∈ main.1 →
  ∃ cred, opt_APIKey opts = Some cred ∧ credential_of cred ∧
    (ctx_incoming ctx = Some (sdk_metadata cred) →
     extractAPIKey ctx = if decide (cred = "") then None else Some cred).
Proof.
  intros Hsdk. unfold worker_main.
  intros [Hin|(cred & Hcred & Hin)]%elem_of_seq; [by apply resolveCredential_no_dial in Hin|].
  apply resolveCredential_Ok in Hcred.
  destruct (ConnectionOptions _ _ _) as [connOpts|]; [|by apply elem_of_nil in Hin].
  assert (Hopts : opt_APIKey opts = Some cred).
  { apply elem_of_seq in Hin as [Hin|(_ & _ & Hin)]; [inv_member Hin; by injection Hin as ->|].
    destruct (Dial_error _); [by apply elem_of_nil in Hin|].
    apply elem_of_defer in Hin as [Hin|Hin]; [|done]. simpl in Hin.
    destruct Run_error; simpl in Hin; inv_member Hin. }
  exists cred. split_and!; [exact Hopts|exact Hcred|]. intros Hctx.
  assert (Hp : HasPrefix ("Bearer " +:+ cred) "Bearer " = true) by apply Grpc.prefix_app.
  assert (Hmd : md_Get (sdk_metadata cred) "authorization" = ["Bearer " +:+ cred])
    by (unfold md_Get; by rewrite Hsdk).
  unfold extractAPIKey. rewrite Hctx, Hmd, Hp. cbn [negb].
  by rewrite (TrimPrefix_app "Bearer " cred).
Qed.

(** In the static mode the worker asks nobody for a token. *)
Lemma static_worker_asks_no_token url header :
  getEnv env "VERIFY_AUTH_MODE" "static" = "static" → MetadataRequested url header ∉ main.1.
Proof.
  intros Hmode. unfold worker_main. intros [Hin|(cred & _ & Hin)]%elem_of_seq.
  { unfold resolveCredential in Hin. rewrite decide_True in Hin by done.
    revert Hin. case_decide; apply not_elem_of_nil. }
  destruct (ConnectionOptions _ _ _) as [connOpts|]; [|by apply elem_of_nil in Hin].
  apply elem_of_seq in Hin as [Hin|(_ & _ & Hin)]; [inv_member Hin|].
  destruct (Dial_error _); [by apply elem_of_nil in Hin|].
  apply elem_of_defer in Hin as [Hin|Hin]; [|done]. simpl in Hin.
  destruct Run_error; simpl in Hin; inv_member Hin.
Qed.
End worker_properties.

(** ** The workflow that must not get through *)

Section cross_queue.
Context (s : Server) `{Hclient : !UpstreamClient (Upstream s)}.
(** The commands the SDK sends for a workflow on its first workflow task, which
    comes from [taskQueue]. *)
Context (first_commands : ∀ R, prog workflowE R → string → list (ptr Command)).

(** What the SDK documents: [ExecuteActivity] schedules an activity on the queue of
    its options, or else on that of the workflow. *)
Definition schedules (opts : ActivityOptions) (taskQueue : string) (cmd : ptr Command) : Prop :=
  ∃ tq, GetAttributes cmd = Some (Command_ScheduleActivityTask (Some {| sat_TaskQueue := tq |})) ∧
    GetName tq = if decide (ao_TaskQueue opts = "") then taskQueue else ao_TaskQueue opts.

Definition sdk_schedules_activities : Prop :=
  ∀ R opts activity arg (k : string * goerror → prog workflowE R) taskQueue,
    ∃ cmd, first_commands R (Vis (ExecuteActivity opts activity arg) k) taskQueue = [cmd] ∧
      schedules opts taskQueue cmd.

(** C40. The proxy blocks [CrossQueueWorkflow], as the programs are there to show: its
    workflow task cannot be completed through the proxy by a worker whose identity
    does not hold "forbidden-queue", whatever the cache, the authenticator and the
    server answer. The command of [EchoWorkflow] is in scope of any task. *)
Theorem cross_queue_workflow_blocked ctx ns token msg taskQueue t r :
  sdk_schedules_activities → typed_answers t →
  exec (serve s ctx (RespondWorkflowTaskCompletedRequest ns token
          (first_commands _ (CrossQueueWorkflow msg) taskQueue))) t r →
  (∀ key i, OAuthenticate key (Ok i) ∈ t → Valid i = true → "forbidden-queue" ∉ TaskQueues i) →
  (∀ uctx rpc req resp err, OUpstream uctx rpc req resp err ∉ t) ∧ r.2 ≠ None ∧
  Forall (command_in_scope ns taskQueue) (first_commands _ (EchoWorkflow msg) taskQueue).
Proof.
  intros Hsdk Htyped Hexec Hforbidden.
  destruct (Hsdk _ {| ao_TaskQueue := ""; ao_StartToCloseTimeout := minute |} "EchoActivity" msg
    Ret taskQueue) as (echo & Hecho & tqe & Hattr_e & Hname_e).
  destruct (Hsdk _ {| ao_TaskQueue := "forbidden-queue"; ao_StartToCloseTimeout := minute |}
    "EchoActivity" msg Ret taskQueue) as (cross & Hcross & tq & Hattr & Hname).
  change (first_commands _ (EchoWorkflow msg) taskQueue = [echo]) in Hecho.
  change (first_commands _ (CrossQueueWorkflow msg) taskQueue = [cross]) in Hcross.
  rewrite Hcross in Hexec. rewrite Hecho. rewrite decide_True in Hname_e by done.
  rewrite decide_False in Hname by done.
  assert (Hecho_ok : Forall (command_in_scope ns taskQueue) [echo]).
  { constructor; [|constructor]. unfold command_in_scope, command_target. rewrite Hattr_e. exact (conj I Hname_e). }
  cut ((∀ uctx rpc req resp err, OUpstream uctx rpc req resp err ∉ t) ∧ r.2 ≠ None);
    [intros [Hno Herr]; exact (conj Hno (conj Herr Hecho_ok))|].
  apply (serve_cases s _ _ _ _ Htyped) in Hexec as
    [(code & msg' & -> & Hharm & _)|[(p & key & i & cached & scope & t2 & _ & Hp & _ & Hv & Hscope & Ht & _)|
      (_ & Hharm & Hr & _)]];
    [split; [intros; by apply harmless_no_call|done]| |split; [intros; by apply harmless_no_call|done]].
  exfalso. assert (Hc : policy_Category p = CategoryToken).
  { assert (Hl : policy_Category <$> Allowed !! "RespondWorkflowTaskCompleted" = Some CategoryToken)
      by (vm_compute; reflexivity). cbn in Hp. rewrite Hp in Hl. by injection Hl. }
  rewrite Hc in Hscope. destruct Hscope as (token' & entry & _ & _ & _ & _ & _ & _ & Hin & Hcmd).
  specialize (Hcmd eq_refl). simpl in Hcmd. apply Forall_cons in Hcmd as [Hcmd _].
  unfold command_in_scope, command_target in Hcmd. rewrite Hattr in Hcmd. simpl in Hcmd.
  destruct Hcmd as [_ Hq]. rewrite Hname in Hq. subst scope.
  apply (Hforbidden key i); [rewrite Ht; constructor|exact Hv|exact Hin].
Qed.
End cross_queue.

(** ** The shipped auth file

    [testdata/static-auth.json], with single for double quotes. *)

Definition single_quoted (s : string) : bytes :=
  (λ b, if decide (b = Byte.x27) then Byte.x22 else b) <$> bytes_of_string s.

Definition testdata_static_auth : bytes := single_quoted
"{
  'keys': {
    'testkey123': {
      'namespace': 'default',
      'task_queues': ['proxy-test-queue'],
      'subject': 'worker-fleet-a'
    },
    'testkey-wrong-queue': {
      'namespace': 'default',
      'task_queues': ['other-queue'],
      'subject': 'worker-fleet-b'
    }
  },
  'emails': {
    'worker-fleet-a@example-project.iam.gserviceaccount.com': {
      'namespace': 'default',
      'task_queues': ['proxy-test-queue'],
      'subject': 'worker-fleet-a'
    }
  }
}
".

Definition fleet_a : staticKeyEntry :=
  {| ske_Namespace := "default"; ske_TaskQueues := ["proxy-test-queue"]; ske_Subject := "worker-fleet-a" |}.
Definition fleet_b : staticKeyEntry :=
  {| ske_Namespace := "default"; ske_TaskQueues := ["other-queue"]; ske_Subject := "worker-fleet-b" |}.

Definition testdata_config : authFileConfig :=
  {| Keys := {["testkey123" := fleet_a; "testkey-wrong-queue" := fleet_b]};
     Emails := {["worker-fleet-a@example-project.iam.gserviceaccount.com" := fleet_a]} |}.

Definition read_testdata (_ : string) : result error bytes := Ok testdata_static_auth.

Lemma testdata_loads path : loadAuthFile read_testdata path = Ok testdata_config.
Proof. vm_compute. reflexivity. Qed.

Definition testdata_static : StaticAuthenticator :=
  {| sa_identities := {[hashKey "testkey123" := identity_of fleet_a;
                        hashKey "testkey-wrong-queue" := identity_of fleet_b]} |}.

Lemma testdata_authenticator path :
  NewStaticAuthenticatorFromFile read_testdata map_to_list path = Ok testdata_static.
Proof. vm_compute. reflexivity. Qed.

#[local] Opaque hashKey.

(** No identity of the file holds "forbidden-queue", as the comment on
    [CrossQueueWorkflow] says. *)
Lemma testdata_forbidden key i :
  Authenticate testdata_static key = Ok i → "forbidden-queue" ∉ TaskQueues i.
Proof.
  assert (Htable : map_Forall (λ _ i, "forbidden-queue" ∉ TaskQueues i)
    (sa_identities testdata_static)).
  { apply map_Forall_insert_2; [apply (bool_decide_unpack _); exact I|].
    apply map_Forall_insert_2; [apply (bool_decide_unpack _); exact I|apply map_Forall_empty]. }
  cbn [Authenticate StaticAuthenticator_Authenticator].
  destruct (sa_identities testdata_static !! hashKey key) as [j|] eqn:E.
  - intros [= <-]. exact (Htable _ _ E).
  - intros [= <-]. apply not_elem_of_nil.
Qed.

(** ** A concrete run *)

Definition w_env : gmap string string := {["VERIFY_API_KEY" := "testkey123"]}.

(** The gRPC credentials of [client.NewAPIKeyStaticCredentials]. *)
Definition w_metadata (cred : string) : MD := {["authorization" := ["Bearer " +:+ cred]]}.

Definition w_ctx : Context :=
  {| ctx_incoming := Some (w_metadata "testkey123"); ctx_outgoing := ∅; ctx_identity := None |}.

Definition w_opts : ClientOptions unit :=
  {| opt_HostPort := "127.0.0.1:7243"; opt_Namespace := "default";
     opt_APIKey := Some "testkey123"; opt_ConnectionOptions := {| co_TLS := None |} |}.

Lemma worker_credential_reaches_proxy_witness :
  extractAPIKey w_ctx = Some "testkey123".
Proof.
  destruct (worker_credential_reaches_proxy (CertPool := unit) w_env (λ _, Err "") (λ _, None)
    (λ _, None) (λ _, Err "") (λ _, None) None w_metadata w_opts w_ctx) as (cred & Hcred & _ & Hkey).
  - intros cred. apply lookup_singleton_eq.
  - apply (list_elem_of_lookup_2 _ 0). reflexivity.
  - injection Hcred as <-. exact (Hkey eq_refl).
Defined.

(** An SDK that sends one command per activity. *)
Definition w_first_commands (R : Type) (p : prog workflowE R) (taskQueue : string) : list (ptr Command) :=
  match p with
  | Ret _ => []
  | Vis (ExecuteActivity opts _ _) _ =>
      [Some {| cmd_Attributes := Some (Command_ScheduleActivityTask (Some
         {| sat_TaskQueue := Some
              {| tq_Name := if decide (ao_TaskQueue opts = "") then taskQueue else ao_TaskQueue opts;
                 tq_Kind := TASK_QUEUE_KIND_NORMAL; tq_NormalName := "" |} |})) |}]
  end.

(** The worker completes a task of queue "proxy-test-queue" that it was given. *)
Definition w_answers : ∀ X, list obs → proxyE X → X :=
  λ X _ e,
    match e in proxyE X return X with
    | DoAuthenticate _ => Ok (identity_of fleet_a)
    | DoGet _ => Ok (Some {| entry_Namespace := "default"; entry_TaskQueue := "proxy-test-queue" |})
    | DoPut _ _ => None
    | DoDelete _ => None
    | DoUpstream _ rpc _ => (OtherResponse rpc, None)
    | DoLog _ => tt
    end.

Definition w_completion (workflow : string → prog workflowE (string * goerror)) : Request :=
  RespondWorkflowTaskCompletedRequest "default" [Byte.x01]
    (w_first_commands _ (workflow "hello") "proxy-test-queue").

Definition w_run (workflow : string → prog workflowE (string * goerror)) : list obs * reply :=
  play w_answers [] (serve w_server w_ctx (w_completion workflow)).

Lemma cross_queue_workflow_blocked_witness :
  (w_run CrossQueueWorkflow).2 ≠ (NotMessage, None) ∧
  ∃ uctx resp, OUpstream uctx "RespondWorkflowTaskCompleted" (w_completion EchoWorkflow) resp None ∈
    (w_run EchoWorkflow).1.
Proof.
  split.
  - destruct (cross_queue_workflow_blocked w_server w_first_commands w_ctx "default" [Byte.x01] "hello"
      "proxy-test-queue" (w_run CrossQueueWorkflow).1 (w_run CrossQueueWorkflow).2) as (_ & Herr & _).
    + intros R opts activity arg k taskQueue. eexists. split; [reflexivity|].
      eexists. split; [reflexivity|]. reflexivity.
    + run_typed.
    + apply exec_play.
    + intros key i Hin _. vm_compute in Hin. inv_member Hin. injection Hin as -> ->.
      apply (bool_decide_unpack _). exact I.
    + intros Heq. apply Herr. by rewrite Heq.
  - eexists _, _. apply (list_elem_of_lookup_2 _ 2%nat). vm_compute. reflexivity.
Defined.
